(** * Enumeration of all maximum matchings of a bipartite graph

    A shallow embedding of [bipartitematching.py] (Uno's algorithm on top of
    networkx) and the properties of its recursive enumerator.

    Conventions of the embedding.
    - A vertex is a natural number; an edge or an arc is a pair of vertices.
    - A networkx [Graph] is a record of its node table ([g.node], node to
      ['bipartite'] attribute) and of the list [g.edges()] yields.  A
      [DiGraph] is the list of its arcs, in the order [add_edge] created them.
    - Python exceptions are values of [exn]; a computation is a [result].
    - The recursion of [enumMaximumMatchingIter] is run on fuel; the entry
      points provide one more unit of fuel than the graph has edges.
    - What the program leaves to its libraries (the maximum matching solver,
      the cycle enumerator, the breadth first search, the iteration order of
      a Python [set]) is a field of [Collaborators]. *)

From Stdlib Require Import List Arith Bool Lia PeanoNat ZArith Permutation.
Import ListNotations.

Set Implicit Arguments.

(** ** Exceptions and results *)

Inductive exn : Type :=
| KeyError
| IndexError
| ValueError
| TypeError
| UnboundLocalError
| NetworkXError.

Inductive result (A : Type) : Type :=
| Ok (a : A)
| Raise (e : exn)
| OutOfFuel.

Arguments Ok {A} a.
Arguments Raise {A} e.
Arguments OutOfFuel {A}.

Definition bind {A B : Type} (c : result A) (k : A -> result B) : result B :=
  match c with
  | Ok a => k a
  | Raise e => Raise e
  | OutOfFuel => OutOfFuel
  end.

Notation "x <- c ;; k" := (bind c (fun x => k))
  (at level 61, c at next level, right associativity).

(** ** Vertices, edges, graphs *)

Definition V : Type := nat.
Definition Edge : Type := (V * V)%type.
Definition Matching : Type := list Edge.
Definition DiGraph : Type := list Edge.

Definition edge_eqb (a b : Edge) : bool :=
  (fst a =? fst b) && (snd a =? snd b).

Definition swap (e : Edge) : Edge := (snd e, fst e).

Definition Edge_eq_dec (a b : Edge) : {a = b} + {a <> b}.
Proof. repeat decide equality. Defined.

(** [x in l] for a list of vertices, and for a list of pairs. *)
Definition memV (x : V) (l : list V) : bool := existsb (Nat.eqb x) l.
Definition memE (e : Edge) (l : list Edge) : bool := existsb (edge_eqb e) l.

(** The two ends of an undirected edge, whatever way round it is stored. *)
Definition same_edge (a b : Edge) : bool := edge_eqb a b || edge_eqb a (swap b).

Definition incident (x : V) (e : Edge) : bool := (fst e =? x) || (snd e =? x).

Record Graph : Type := mkGraph {
  node : list (V * nat);   (* g.node : vertex |-> 'bipartite' attribute *)
  edges : list Edge        (* g.edges() *)
}.

Definition nodes (g : Graph) : list V := map fst (node g).

Definition has_node (g : Graph) (x : V) : bool := memV x (nodes g).

(** [g.node[x]['bipartite']] *)
Fixpoint lookup_attr (tbl : list (V * nat)) (x : V) : result nat :=
  match tbl with
  | [] => Raise KeyError
  | (y, a) :: tbl' => if x =? y then Ok a else lookup_attr tbl' x
  end.

Definition bipartite (g : Graph) (x : V) : result nat := lookup_attr (node g) x.

(** [g.remove_node(x)]: the node and its incident edges go. *)
Definition remove_node (g : Graph) (x : V) : result Graph :=
  if has_node g x
  then Ok {| node := filter (fun p => negb (fst p =? x)) (node g);
             edges := filter (fun e => negb (incident x e)) (edges g) |}
  else Raise NetworkXError.

(** [g.remove_edge(u,v)] *)
Definition remove_edge (g : Graph) (u v : V) : result Graph :=
  if existsb (same_edge (u, v)) (edges g)
  then Ok {| node := node g;
             edges := filter (fun e => negb (same_edge (u, v) e)) (edges g) |}
  else Raise NetworkXError.

(** [nx.isolates(g)]: the nodes of degree zero. *)
Definition isolates (g : Graph) : list V :=
  filter (fun x => negb (existsb (incident x) (edges g))) (nodes g).

(** ** Directed graphs *)

(** [d.add_edge(u,v)] *)
Definition add_edge (d : DiGraph) (u v : V) : DiGraph :=
  if memE (u, v) d then d else d ++ [(u, v)].

(** [d.reverse()] *)
Definition reverse (d : DiGraph) : DiGraph := map swap d.

Definition successors (d : DiGraph) (x : V) : list V :=
  map snd (filter (fun a => fst a =? x) d).

Definition dnodes (d : DiGraph) : list V := map fst d ++ map snd d.

(** ** formDirected *)

Fixpoint formDirected_loop (g : Graph) (match_ : Matching) (es : list Edge)
    (d : DiGraph) : result DiGraph :=
  match es with
  | [] => Ok d
  | ee :: es' =>
      b <- bipartite g (fst ee) ;;
      let d' :=
        if memE ee match_ || memE (swap ee) match_
        then (if b =? 0 then add_edge d (fst ee) (snd ee)
              else add_edge d (snd ee) (fst ee))
        else (if b =? 0 then add_edge d (snd ee) (fst ee)
              else add_edge d (fst ee) (snd ee)) in
      formDirected_loop g match_ es' d'
  end.

Definition formDirected (g : Graph) (match_ : Matching) : result DiGraph :=
  formDirected_loop g match_ (edges g) [].

(** ** What the libraries decide *)

Record Collaborators : Type := mkCollaborators {
  (* bipartite.hopcroft_karp_matching(g).items(); networkx 2-colours the
     graph itself and raises NetworkXError when it cannot *)
  hopcroft_karp_matching : Graph -> result (list (V * V));
  (* list(nx.simple_cycles(d)) *)
  simple_cycles : DiGraph -> list (list V);
  (* nx.single_source_shortest_path(d,source,cutoff).items(), source in d *)
  single_source_shortest_path : DiGraph -> V -> nat -> list (V * list V);
  (* list(s) for a set s of vertices, of pairs *)
  set_listV : list V -> list V;
  set_listE : list Edge -> list Edge
}.

(** [zip(l[:-1],l[1:])] *)
Fixpoint zip_consecutive (l : list V) : list Edge :=
  match l with
  | x :: ((y :: _) as l') => (x, y) :: zip_consecutive l'
  | _ => []
  end.

(** Set difference and intersection, on the lists that stand for the sets. *)
Definition differenceV (s t : list V) : list V :=
  filter (fun x => negb (memV x t)) s.
Definition differenceE (s t : list Edge) : list Edge :=
  filter (fun x => negb (memE x t)) s.
Definition intersectionE (s t : list Edge) : list Edge :=
  filter (fun x => memE x t) s.

Section Enumerator.

Variable X : Collaborators.

(** [nx.single_source_shortest_path] looks its source up in the digraph. *)
Definition shortest_paths (d : DiGraph) (source : V) (cutoff : nat)
    : result (list (V * list V)) :=
  if memV source (dnodes d)
  then Ok (single_source_shortest_path X d source cutoff)
  else Raise KeyError.

Definition len2 (paths : list (V * list V)) : list (list V) :=
  map snd (filter (fun kv => length (snd kv) =? 3) paths).

(** The [while True] scan over [all_uncovered], from index [idx] on: the
    length-2 paths of the first vertex that has some, and whether they were
    found in the reversed digraph; [None] when the scan runs off the list. *)
Fixpoint find_len2paths (g : Graph) (d : DiGraph) (all_uncovered : list V)
    : result (option (list (list V) * bool)) :=
  match all_uncovered with
  | [] => Ok None
  | uncovered :: rest =>
      if negb (memV uncovered (isolates g)) then
        paths <- shortest_paths d uncovered 2 ;;
        if 0 <? length (len2 paths) then Ok (Some (len2 paths, false))
        else
          paths_rev <- shortest_paths (reverse d) uncovered 2 ;;
          if 0 <? length (len2 paths_rev) then Ok (Some (len2 paths_rev, true))
          else find_len2paths g d rest
      else find_len2paths g d rest
  end.

(** The loop that builds [new_match] from the arcs of [d] and the arcs
    [flip] of the chosen cycle or path. *)
Fixpoint new_match_loop (g : Graph) (flip : list Edge) (arcs : list Edge)
    (new_match : Matching) : result Matching :=
  match arcs with
  | [] => Ok new_match
  | ee :: arcs' =>
      if memE ee flip then
        b <- bipartite g (snd ee) ;;
        new_match_loop g flip arcs'
          (if b =? 0 then new_match ++ [(snd ee, fst ee)] else new_match)
      else
        b <- bipartite g (fst ee) ;;
        new_match_loop g flip arcs'
          (if b =? 0 then new_match ++ [ee] else new_match)
  end.

Definition append_add_e (new_match : Matching) (add_e : option (list Edge))
    : Matching :=
  match add_e with
  | Some l => new_match ++ l
  | None => new_match
  end.

(** [list(s)[0]] *)
Definition first {A : Type} (l : list A) : result A :=
  match l with
  | x :: _ => Ok x
  | [] => Raise IndexError
  end.

Definition extend_add_e (e : Edge) (add_e : option (list Edge)) : list Edge :=
  match add_e with
  | Some l => e :: l
  | None => [e]
  end.

(** One call of [enumMaximumMatchingIter] up to its two recursive calls:
    which case applied, the matching it appends to [all_matches], the edge
    [e], and the arguments of the first and of the second recursive call. *)
Inductive Case : Type := CycleCase | PathCase.

Record Call : Type := mkCall {
  call_g : Graph;
  call_match : Matching;
  call_add_e : option (list Edge)
}.

Record Branching : Type := mkBranching {
  br_case : Case;
  br_new_match : Matching;
  br_e : Edge;
  br_first : Call;     (* the call on g_minus *)
  br_second : Call     (* the call on g_plus *)
}.

Definition form_subproblems (g : Graph) (e : Edge) : result (Graph * Graph) :=
  g_plus1 <- remove_node g (fst e) ;;
  g_plus <- remove_node g_plus1 (snd e) ;;
  g_minus <- remove_edge g (fst e) (snd e) ;;
  Ok (g_plus, g_minus).

Definition iter_body (g : Graph) (match_ : Matching)
    (add_e : option (list Edge)) : result (option Branching) :=
  d <- formDirected g match_ ;;
  let cycles := simple_cycles X d in
  if length cycles =? 0 then
    let all_uncovered :=
      set_listV X (differenceV (differenceV (nodes g) (map fst match_))
                               (map snd match_)) in
    if length all_uncovered =? 0 then Ok None
    else
      found <- find_len2paths g d all_uncovered ;;
      match found with
      | None => Ok None
      | Some (len2paths, reversed) =>
          len2path0 <- first len2paths ;;
          let len2path :=
            zip_consecutive (if reversed : bool then rev len2path0 else len2path0) in
          new_match0 <- new_match_loop g len2path d [] ;;
          let new_match := append_add_e new_match0 add_e in
          e <- first (set_listE X (differenceE len2path match_)) ;;
          gs <- form_subproblems g e ;;
          let add_e_new := extend_add_e e add_e in
          Ok (Some {| br_case := PathCase;
                      br_new_match := new_match;
                      br_e := e;
                      br_first := mkCall (snd gs) match_ add_e;
                      br_second := mkCall (fst gs) new_match (Some add_e_new) |})
      end
  else
    cycle0 <- first cycles ;;
    let cycle := zip_consecutive (cycle0 ++ firstn 1 cycle0) in
    new_match0 <- new_match_loop g cycle d [] ;;
    let new_match := append_add_e new_match0 add_e in
    e <- first (set_listE X (intersectionE match_ cycle)) ;;
    gs <- form_subproblems g e ;;
    let add_e_new := extend_add_e e add_e in
    Ok (Some {| br_case := CycleCase;
                br_new_match := new_match;
                br_e := e;
                br_first := mkCall (snd gs) new_match add_e;
                br_second := mkCall (fst gs) match_ (Some add_e_new) |}).

Fixpoint enumMaximumMatchingIter_rec (fuel : nat) (g : Graph) (match_ : Matching)
    (all_matches : list Matching) (add_e : option (list Edge))
    : result (list Matching) :=
  match fuel with
  | 0 => OutOfFuel
  | S fuel' =>
      b <- iter_body g match_ add_e ;;
      match b with
      | None => Ok all_matches
      | Some br =>
          let all_matches1 := all_matches ++ [br_new_match br] in
          all_matches2 <-
            enumMaximumMatchingIter_rec fuel' (call_g (br_first br))
              (call_match (br_first br)) all_matches1 (call_add_e (br_first br)) ;;
          enumMaximumMatchingIter_rec fuel' (call_g (br_second br))
            (call_match (br_second br)) all_matches2 (call_add_e (br_second br))
      end
  end.

Definition enumMaximumMatchingIter (g : Graph) (match_ : Matching)
    (all_matches : list Matching) (add_e : option (list Edge))
    : result (list Matching) :=
  enumMaximumMatchingIter_rec (S (length (edges g))) g match_ all_matches add_e.

(** The loop that keeps the items of the solver's dictionary whose key is on
    side 0. *)
Fixpoint reorient (g : Graph) (items : list (V * V)) (match2 : Matching)
    : result Matching :=
  match items with
  | [] => Ok match2
  | (kk, vv) :: items' =>
      b <- bipartite g kk ;;
      reorient g items' (if b =? 0 then match2 ++ [(kk, vv)] else match2)
  end.

Definition enumMaximumMatching (g : Graph) : result (list Matching) :=
  items <- hopcroft_karp_matching X g ;;
  match_ <- reorient g items [] ;;
  enumMaximumMatchingIter g match_ [match_] None.

End Enumerator.

(** ** Matchings of a graph, by exhaustive search

    The independent yardstick of the properties below: all sublists of the
    edge list that cover no vertex twice, the largest size among them, and
    those of that size. *)

Fixpoint sublists {A : Type} (l : list A) : list (list A) :=
  match l with
  | [] => [[]]
  | x :: l' => map (cons x) (sublists l') ++ sublists l'
  end.

Definition endpoints (m : Matching) : list V := map fst m ++ map snd m.

Fixpoint nodupb (l : list V) : bool :=
  match l with
  | [] => true
  | x :: l' => negb (memV x l') && nodupb l'
  end.

(** No vertex is incident to two pairs of [m]. *)
Definition valid_matchingb (m : Matching) : bool := nodupb (endpoints m).

Definition all_matchings (g : Graph) : list Matching :=
  filter valid_matchingb (sublists (edges g)).

Definition maximum_matching_number (g : Graph) : nat :=
  list_max (map (@length Edge) (all_matchings g)).

Definition maximum_matchings (g : Graph) : list Matching :=
  filter (fun m => length m =? maximum_matching_number g) (all_matchings g).

(** Two lists of pairs that are the same set of undirected edges. *)
Definition subsetE (m1 m2 : Matching) : bool :=
  forallb (fun e => existsb (same_edge e) m2) m1.
Definition same_edge_set (m1 m2 : Matching) : bool :=
  subsetE m1 m2 && subsetE m2 m1.


(** ** Bipartite graphs and the solver's contract *)

Definition leftb (g : Graph) (x : V) : bool :=
  match bipartite g x with Ok 0 => true | _ => false end.
Definition rightb (g : Graph) (x : V) : bool :=
  match bipartite g x with Ok (S _) => true | _ => false end.

(** The pair [(l, r)] has its first end on side 0 and its second on side 1. *)
Definition left_right (g : Graph) (e : Edge) : bool :=
  leftb g (fst e) && rightb g (snd e).

Definition crossb (g : Graph) (e : Edge) : bool :=
  left_right g e || left_right g (swap e).

(** No undirected edge is listed twice. *)
Fixpoint simpleb (l : list Edge) : bool :=
  match l with
  | [] => true
  | e :: l' => negb (existsb (same_edge e) l') && simpleb l'
  end.

(** What a networkx graph of the intended input is: node keys are distinct,
    every edge joins a node of side 0 to a node of another side, once. *)
Definition bipartite_graphb (g : Graph) : bool :=
  nodupb (nodes g) && forallb (crossb g) (edges g) && simpleb (edges g).

(** [e] is an edge of [g], whichever way round. *)
Definition edge_inb (g : Graph) (e : Edge) : bool := existsb (same_edge e) (edges g).

(** The contract of [hopcroft_karp_matching] on [g]: it returns the items of
    a dictionary (distinct keys) that sends each matched node to its partner
    along an edge of [g], both ways, for a matching of maximum size. *)
Definition hopcroft_karp_itemsb (g : Graph) (items : list (V * V)) : bool :=
  nodupb (map fst items)
  && forallb (fun kv => memE (swap kv) items && edge_inb g kv) items
  && (length items =? 2 * maximum_matching_number g).

Definition hopcroft_karp_okb (g : Graph) (r : result (list (V * V))) : bool :=
  match r with
  | Ok items => hopcroft_karp_itemsb g items
  | _ => false
  end.

(** The items of the solver's dictionary, when it returns one. *)
Definition solver_items (X : Collaborators) (g : Graph) : list (V * V) :=
  match hopcroft_karp_matching X g with
  | Ok items => items
  | _ => []
  end.

(** ** The contract of the other collaborators *)

(** The arcs of the closed walk through the vertices [c]. *)
Definition cycle_arcs (c : list V) : list Edge :=
  zip_consecutive (c ++ firstn 1 c).

(** What the algorithm needs from the libraries: a set is listed with its
    elements, a set of vertices once each; every cycle listed is an elementary circuit of the digraph and
    some cycle is listed when there is one; the shortest paths of three
    vertices are paths of the digraph from the source and one is listed when
    some vertex is at distance two. *)
Record contract (X : Collaborators) : Prop := {
  set_listV_In : forall l x, In x (set_listV X l) <-> In x l;
  set_listV_NoDup : forall l, NoDup (set_listV X l);
  set_listE_In : forall l e, In e (set_listE X l) <-> In e l;
  simple_cycles_sound : forall d c,
    In c (simple_cycles X d) -> c <> [] /\ NoDup c /\ incl (cycle_arcs c) d;
  simple_cycles_complete : forall d c,
    c <> [] -> NoDup c -> incl (cycle_arcs c) d -> simple_cycles X d <> [];
  shortest_path_sound : forall d s k p,
    In (k, p) (single_source_shortest_path X d s 2) -> length p = 3 ->
    exists w x, p = [s; w; x] /\ In (s, w) d /\ In (w, x) d;
  shortest_path_complete : forall d s w x,
    In (s, w) d -> In (w, x) d -> x <> s -> ~ In (s, x) d ->
    exists k p, In (k, p) (single_source_shortest_path X d s 2) /\ length p = 3
}.

(** ** Reference collaborators

    Executable stand-ins for the library calls, used to run the enumerator
    on concrete graphs. *)

Module Reference.

Definition maximum_matching_items (g : Graph) : list (V * V) :=
  match maximum_matchings g with
  | m :: _ => m ++ map swap m
  | [] => []
  end.

(** Depth first enumeration of the elementary circuits through [start]. *)
Fixpoint circuits_from (d : DiGraph) (fuel : nat) (start : V)
    (path : list V) (cur : V) : list (list V) :=
  match fuel with
  | 0 => []
  | S fuel' =>
      flat_map (fun w =>
                  if w =? start then [rev path]
                  else if memV w path then []
                  else circuits_from d fuel' start (w :: path) w)
               (successors d cur)
  end.

Definition elementary_circuits (d : DiGraph) : list (list V) :=
  flat_map (fun v => circuits_from d (length (dnodes d)) v [v] v)
           (nodup Nat.eq_dec (dnodes d)).

Fixpoint lookup_path (paths : list (V * list V)) (x : V) : list V :=
  match paths with
  | [] => []
  | (y, p) :: paths' => if x =? y then p else lookup_path paths' x
  end.

(** The inner loop of the breadth first search, [for w in G[v]]: [pv] is
    the path to [v]; the paths found so far and the next level grow. *)
Fixpoint bfs_successors (pv : list V) (ws : list V)
    (paths : list (V * list V)) (nextlevel : list V)
    : list (V * list V) * list V :=
  match ws with
  | [] => (paths, nextlevel)
  | w :: ws' =>
      if memV w (map fst paths) then bfs_successors pv ws' paths nextlevel
      else bfs_successors pv ws' (paths ++ [(w, pv ++ [w])]) (nextlevel ++ [w])
  end.

(** The outer loop, [for v in thislevel]. *)
Fixpoint bfs_level (d : DiGraph) (thislevel : list V)
    (paths : list (V * list V)) (nextlevel : list V)
    : list (V * list V) * list V :=
  match thislevel with
  | [] => (paths, nextlevel)
  | v :: vs =>
      let acc := bfs_successors (lookup_path paths v) (successors d v)
                   paths nextlevel in
      bfs_level d vs (fst acc) (snd acc)
  end.

Fixpoint bfs (d : DiGraph) (cutoff : nat) (thislevel : list V)
    (paths : list (V * list V)) : list (V * list V) :=
  match cutoff with
  | 0 => paths
  | S cutoff' =>
      let acc := bfs_level d thislevel paths [] in
      match snd acc with
      | [] => fst acc
      | _ => bfs d cutoff' (snd acc) (fst acc)
      end
  end.

Definition shortest_path_items (d : DiGraph) (source : V) (cutoff : nat)
    : list (V * list V) :=
  bfs d cutoff [source] [(source, [source])].

(** networkx colours the graph with two colours before it matches, whatever
    the attributes of the nodes say: some set of nodes holds exactly one end
    of every edge. *)
Definition two_colourable (g : Graph) : bool :=
  existsb (fun side =>
             forallb (fun e => xorb (memV (fst e) side) (memV (snd e) side))
                     (edges g))
          (sublists (nodup Nat.eq_dec (map fst (edges g) ++ map snd (edges g)))).

Definition hopcroft_karp (g : Graph) : result (list (V * V)) :=
  if two_colourable g then Ok (maximum_matching_items g)
  else Raise NetworkXError.

Definition collaborators : Collaborators :=
  {| hopcroft_karp_matching := hopcroft_karp;
     simple_cycles := elementary_circuits;
     single_source_shortest_path := shortest_path_items;
     set_listV := nodup Nat.eq_dec;
     set_listE := nodup Edge_eq_dec |}.

End Reference.

(** ** Example graphs *)

(** K(2,2): L0 = 0, L1 = 1 on side 0 and R0 = 2, R1 = 3 on side 1. *)
Definition K22 : Graph :=
  {| node := [(0, 0); (1, 0); (2, 1); (3, 1)];
     edges := [(0, 2); (0, 3); (1, 2); (1, 3)] |}.

(** Two disjoint paths: L0 = 0 joined to R0 = 2 and R1 = 3, and L1 = 1
    joined to R2 = 4 and R3 = 5. *)
Definition two_paths : Graph :=
  {| node := [(0, 0); (1, 0); (2, 1); (3, 1); (4, 1); (5, 1)];
     edges := [(0, 2); (0, 3); (1, 4); (1, 5)] |}.

(** One edge whose two ends both carry the attribute 0. *)
Definition same_side_edge : Graph :=
  {| node := [(0, 0); (1, 0)]; edges := [(0, 1)] |}.

Definition empty_graph : Graph := {| node := []; edges := [] |}.

(** A triangle, which no two colours colour; the edge (0,1) lies inside
    side 0. *)
Definition triangle : Graph :=
  {| node := [(0, 0); (1, 0); (2, 1)]; edges := [(0, 1); (1, 2); (0, 2)] |}.

(** * Properties *)

(** ** Results *)

Ltac inv H := inversion H; subst; clear H.

Lemma bind_Ok {A B : Type} (c : result A) (k : A -> result B) (b : B) :
  bind c k = Ok b -> exists a, c = Ok a /\ k a = Ok b.
Proof. destruct c; simpl; intros H; try discriminate. eauto. Qed.

(** Peels the binds of a computation known to return. *)
Ltac bind_inv H :=
  let a := fresh "a" in
  let Ha := fresh "Ha" in
  apply bind_Ok in H; destruct H as (a & Ha & H).

(** ** The subproblems shrink *)

Lemma filter_length_lt {A : Type} (f : A -> bool) (l : list A) :
  existsb (fun x => negb (f x)) l = true -> length (filter f l) < length l.
Proof.
  induction l as [|x l IH]; simpl; intros H; [discriminate|].
  destruct (f x) eqn:E; simpl in *.
  - apply IH in H. lia.
  - pose proof (filter_length_le f l). lia.
Qed.

Lemma remove_edge_shrinks g u v g' :
  remove_edge g u v = Ok g' ->
  node g' = node g /\ length (edges g') < length (edges g).
Proof.
  unfold remove_edge. destruct (existsb _ _) eqn:E; intros H; inv H; simpl.
  split; [reflexivity|]. apply filter_length_lt.
  rewrite existsb_exists in *. destruct E as (x & Hx & E). exists x.
  rewrite E. auto.
Qed.

Lemma remove_node_shrinks g x g' :
  remove_node g x = Ok g' ->
  length (nodes g') < length (nodes g) /\
  edges g' = filter (fun e => negb (incident x e)) (edges g).
Proof.
  unfold remove_node, has_node, memV, nodes.
  destruct (existsb _ _) eqn:E; intros H; inv H; simpl.
  split; [|reflexivity]. rewrite !length_map. apply filter_length_lt.
  rewrite existsb_exists in *. destruct E as (y & Hy & E).
  apply in_map_iff in Hy. destruct Hy as (p & <- & Hp). exists p.
  split; [assumption|]. apply Nat.eqb_eq in E. subst x.
  rewrite Nat.eqb_refl. reflexivity.
Qed.

Lemma same_edge_incident u v e : same_edge (u, v) e = true -> incident u e = true.
Proof.
  unfold same_edge, edge_eqb, incident, swap. destruct e as [a b]. simpl.
  rewrite orb_true_iff, !andb_true_iff, !Nat.eqb_eq.
  intros [[-> ->]|[-> ->]]; rewrite Nat.eqb_refl; auto using orb_true_r.
Qed.

Lemma form_subproblems_shrinks g e g_plus g_minus :
  form_subproblems g e = Ok (g_plus, g_minus) ->
  (node g_minus = node g /\ length (edges g_minus) < length (edges g)) /\
  (length (nodes g_plus) < length (nodes g) /\
   length (edges g_plus) < length (edges g)).
Proof.
  unfold form_subproblems. intros H.
  bind_inv H. rename a into g1. bind_inv H. rename a into g2. bind_inv H.
  inv H. split; [eapply remove_edge_shrinks; eassumption|].
  apply remove_node_shrinks in Ha. apply remove_node_shrinks in Ha0.
  destruct Ha as [Hn1 He1], Ha0 as [Hn2 He2]. split; [lia|].
  rewrite He2, He1.
  eapply Nat.le_lt_trans; [apply filter_length_le|].
  apply filter_length_lt.
  unfold remove_edge in Ha1. destruct (existsb _ _) eqn:E; [|discriminate].
  rewrite existsb_exists in *. destruct E as (x & Hx & E). exists x.
  split; [assumption|]. rewrite negb_involutive.
  eapply same_edge_incident. destruct e; eassumption.
Qed.

(** ** What one call hands to its two recursive calls *)

Section Calls.

Variable X : Collaborators.

Lemma iter_body_inv g match_ add_e br :
  iter_body X g match_ add_e = Ok (Some br) ->
  exists g_plus g_minus,
    form_subproblems g (br_e br) = Ok (g_plus, g_minus) /\
    br_first br =
      mkCall g_minus
        (match br_case br with CycleCase => br_new_match br | PathCase => match_ end)
        add_e /\
    br_second br =
      mkCall g_plus
        (match br_case br with CycleCase => match_ | PathCase => br_new_match br end)
        (Some (extend_add_e (br_e br) add_e)).
Proof.
  unfold iter_body. intros H. bind_inv H. rename a into d.
  destruct (length (simple_cycles X d) =? 0).
  - destruct (length (set_listV X _) =? 0); [discriminate|].
    bind_inv H. destruct a as [[len2paths reversed]|]; [|discriminate].
    do 4 bind_inv H. inv H. simpl. destruct a2 as [g_plus g_minus].
    exists g_plus, g_minus. auto.
  - do 4 bind_inv H. inv H. simpl. destruct a2 as [g_plus g_minus].
    exists g_plus, g_minus. auto.
Qed.

End Calls.

(** ** Termination and the accumulated list *)

Section Recursion.

Variable X : Collaborators.

Lemma iter_body_shrinks g match_ add_e br :
  iter_body X g match_ add_e = Ok (Some br) ->
  length (edges (call_g (br_first br))) < length (edges g) /\
  length (edges (call_g (br_second br))) < length (edges g).
Proof.
  intros H. apply iter_body_inv in H.
  destruct H as (g_plus & g_minus & Hs & -> & ->). simpl.
  apply form_subproblems_shrinks in Hs. tauto.
Qed.

Lemma rec_fuel_irrelevant fuel1 :
  forall fuel2 g match_ all_matches add_e,
    length (edges g) < fuel1 -> length (edges g) < fuel2 ->
    enumMaximumMatchingIter_rec X fuel1 g match_ all_matches add_e =
    enumMaximumMatchingIter_rec X fuel2 g match_ all_matches add_e.
Proof.
  induction fuel1 as [|fuel1 IH]; intros fuel2 g match_ all_matches add_e H1 H2;
    [lia|].
  destruct fuel2 as [|fuel2]; [lia|]. cbn [enumMaximumMatchingIter_rec].
  destruct (iter_body X g match_ add_e) as [[br|]| |] eqn:B; simpl; try reflexivity.
  apply iter_body_shrinks in B. destruct B as [B1 B2].
  rewrite (IH fuel2) by lia.
  destruct (enumMaximumMatchingIter_rec X fuel2 _ _ _ _); simpl; try reflexivity.
  apply IH; lia.
Qed.

(** No part of one call runs on fuel. *)
Definition returns_or_raises {A : Type} (c : result A) : Prop := c <> OutOfFuel.

Lemma ror_bind {A B : Type} (c : result A) (k : A -> result B) :
  returns_or_raises c -> (forall a, returns_or_raises (k a)) ->
  returns_or_raises (bind c k).
Proof.
  unfold returns_or_raises. destruct c; simpl; intros Hc Hk;
    [apply Hk|discriminate|now elim Hc].
Qed.

Lemma ror_Ok {A : Type} (a : A) : returns_or_raises (Ok a).
Proof. discriminate. Qed.

Lemma ror_Raise {A : Type} (e : exn) : returns_or_raises (@Raise A e).
Proof. discriminate. Qed.

Lemma ror_bipartite g x : returns_or_raises (bipartite g x).
Proof.
  unfold bipartite. induction (node g) as [|[y a] tbl IH]; simpl.
  - apply ror_Raise.
  - destruct (x =? y); [apply ror_Ok|assumption].
Qed.

Lemma ror_first {A : Type} (l : list A) : returns_or_raises (first l).
Proof. destruct l; [apply ror_Raise|apply ror_Ok]. Qed.

Lemma ror_formDirected g match_ : returns_or_raises (formDirected g match_).
Proof.
  unfold formDirected. generalize (@nil Edge).
  induction (edges g) as [|ee es IH]; intros d; simpl.
  - apply ror_Ok.
  - apply ror_bind; [apply ror_bipartite|]. intros b. apply IH.
Qed.

Lemma ror_shortest_paths d source cutoff :
  returns_or_raises (shortest_paths X d source cutoff).
Proof. unfold shortest_paths. destruct (memV _ _); [apply ror_Ok|apply ror_Raise]. Qed.

Lemma ror_find_len2paths g d all_uncovered :
  returns_or_raises (find_len2paths X g d all_uncovered).
Proof.
  induction all_uncovered as [|u rest IH]; simpl; [apply ror_Ok|].
  destruct (negb _); [|assumption].
  apply ror_bind; [apply ror_shortest_paths|]. intros paths.
  destruct (0 <? _); [apply ror_Ok|].
  apply ror_bind; [apply ror_shortest_paths|]. intros paths_rev.
  destruct (0 <? _); [apply ror_Ok|assumption].
Qed.

Lemma ror_new_match_loop g flip arcs :
  forall new_match, returns_or_raises (new_match_loop g flip arcs new_match).
Proof.
  induction arcs as [|ee arcs IH]; intros new_match; simpl; [apply ror_Ok|].
  destruct (memE ee flip); (apply ror_bind; [apply ror_bipartite|]);
    intros b; apply IH.
Qed.

Lemma ror_remove_node g x : returns_or_raises (remove_node g x).
Proof. unfold remove_node. destruct (has_node g x); [apply ror_Ok|apply ror_Raise]. Qed.

Lemma ror_remove_edge g u v : returns_or_raises (remove_edge g u v).
Proof. unfold remove_edge. destruct (existsb _ _); [apply ror_Ok|apply ror_Raise]. Qed.

Lemma ror_form_subproblems g e : returns_or_raises (form_subproblems g e).
Proof.
  unfold form_subproblems.
  apply ror_bind; [apply ror_remove_node|]. intros g1.
  apply ror_bind; [apply ror_remove_node|]. intros g2.
  apply ror_bind; [apply ror_remove_edge|]. intros g3. apply ror_Ok.
Qed.

Lemma ror_iter_body g match_ add_e :
  returns_or_raises (iter_body X g match_ add_e).
Proof.
  unfold iter_body.
  apply ror_bind; [apply ror_formDirected|]. intros d.
  destruct (length (simple_cycles X d) =? 0).
  - destruct (length (set_listV X _) =? 0); [apply ror_Ok|].
    apply ror_bind; [apply ror_find_len2paths|].
    intros [[len2paths reversed]|]; [|apply ror_Ok].
    apply ror_bind; [apply ror_first|]. intros len2path0.
    apply ror_bind; [apply ror_new_match_loop|]. intros new_match0.
    apply ror_bind; [apply ror_first|]. intros e.
    apply ror_bind; [apply ror_form_subproblems|]. intros gs. apply ror_Ok.
  - apply ror_bind; [apply ror_first|]. intros cycle0.
    apply ror_bind; [apply ror_new_match_loop|]. intros new_match0.
    apply ror_bind; [apply ror_first|]. intros e.
    apply ror_bind; [apply ror_form_subproblems|]. intros gs. apply ror_Ok.
Qed.

Lemma rec_S fuel g match_ all_matches add_e :
  enumMaximumMatchingIter_rec X (S fuel) g match_ all_matches add_e =
  (b <- iter_body X g match_ add_e ;;
   match b with
   | None => Ok all_matches
   | Some br =>
       all_matches2 <-
         enumMaximumMatchingIter_rec X fuel (call_g (br_first br))
           (call_match (br_first br)) (all_matches ++ [br_new_match br])
           (call_add_e (br_first br)) ;;
       enumMaximumMatchingIter_rec X fuel (call_g (br_second br))
         (call_match (br_second br)) all_matches2 (call_add_e (br_second br))
   end).
Proof. reflexivity. Qed.

Lemma rec_terminates fuel :
  forall g match_ all_matches add_e,
    length (edges g) < fuel ->
    returns_or_raises
      (enumMaximumMatchingIter_rec X fuel g match_ all_matches add_e).
Proof.
  induction fuel as [|fuel IH]; intros g match_ all_matches add_e H; [lia|].
  rewrite rec_S.
  pose proof (ror_iter_body g match_ add_e) as Hb.
  destruct (iter_body X g match_ add_e) as [[br|]| |] eqn:B; simpl;
    try discriminate; [|contradiction].
  apply iter_body_shrinks in B. destruct B as [B1 B2].
  apply ror_bind; [apply IH; lia|]. intros a. apply IH. lia.
Qed.

Lemma rec_prefix fuel :
  forall g match_ all_matches add_e res,
    enumMaximumMatchingIter_rec X fuel g match_ all_matches add_e = Ok res ->
    exists new, res = all_matches ++ new.
Proof.
  induction fuel as [|fuel IH]; intros g match_ all_matches add_e res H;
    [discriminate|].
  rewrite rec_S in H. bind_inv H. destruct a as [br|].
  - bind_inv H. apply IH in Ha0. apply IH in H.
    destruct Ha0 as (new1 & ->), H as (new2 & ->).
    exists ([br_new_match br] ++ new1 ++ new2). now rewrite <- !app_assoc.
  - inv H. exists []. now rewrite app_nil_r.
Qed.

End Recursion.

(** ** Booleans and lists *)

Lemma edge_eqb_eq a b : edge_eqb a b = true <-> a = b.
Proof.
  unfold edge_eqb. destruct a as [a1 a2], b as [b1 b2]. simpl.
  rewrite andb_true_iff, !Nat.eqb_eq. split; [intros [-> ->]|intros H; inv H]; auto.
Qed.

Lemma edge_eqb_refl a : edge_eqb a a = true.
Proof. now apply edge_eqb_eq. Qed.

Lemma memV_In x l : memV x l = true <-> In x l.
Proof.
  unfold memV. rewrite existsb_exists. split.
  - intros (y & Hy & E). apply Nat.eqb_eq in E. now subst.
  - intros H. exists x. split; [assumption|apply Nat.eqb_refl].
Qed.

Lemma memV_false x l : memV x l = false <-> ~ In x l.
Proof. rewrite <- memV_In. destruct (memV x l); split; congruence. Qed.

Lemma memE_In e l : memE e l = true <-> In e l.
Proof.
  unfold memE. rewrite existsb_exists. split.
  - intros (y & Hy & E). apply edge_eqb_eq in E. now subst.
  - intros H. exists e. split; [assumption|apply edge_eqb_refl].
Qed.

Lemma memE_false e l : memE e l = false <-> ~ In e l.
Proof. rewrite <- memE_In. destruct (memE e l); split; congruence. Qed.

Lemma nodupb_NoDup l : nodupb l = true <-> NoDup l.
Proof.
  induction l as [|x l IH]; simpl.
  - split; [constructor|reflexivity].
  - rewrite andb_true_iff, negb_true_iff, memV_false, IH. split.
    + intros [H1 H2]. now constructor.
    + intros H. inv H. auto.
Qed.

Lemma swap_swap e : swap (swap e) = e.
Proof. now destruct e. Qed.

Lemma same_edge_iff a b : same_edge a b = true <-> a = b \/ a = swap b.
Proof. unfold same_edge. now rewrite orb_true_iff, !edge_eqb_eq. Qed.

Lemma same_edge_refl a : same_edge a a = true.
Proof. apply same_edge_iff. now left. Qed.

Lemma same_edge_sym a b : same_edge a b = true -> same_edge b a = true.
Proof.
  rewrite !same_edge_iff. intros [->| ->]; [now left|right].
  now rewrite swap_swap.
Qed.

Lemma same_edge_trans a b c :
  same_edge a b = true -> same_edge b c = true -> same_edge a c = true.
Proof.
  rewrite !same_edge_iff. intros [->| ->] [->| ->]; rewrite ?swap_swap; auto.
Qed.

Lemma edge_inb_iff g e :
  edge_inb g e = true <-> In e (edges g) \/ In (swap e) (edges g).
Proof.
  unfold edge_inb. rewrite existsb_exists. split.
  - intros (x & Hx & E). apply same_edge_iff in E.
    destruct E as [->| ->]; rewrite ?swap_swap; auto.
  - intros [H|H]; eexists; (split; [exact H|]); apply same_edge_iff;
      rewrite ?swap_swap; auto.
Qed.

(** ** Node attributes *)

Lemma lookup_attr_In tbl x a : lookup_attr tbl x = Ok a -> In x (map fst tbl).
Proof.
  induction tbl as [|[y b] tbl IH]; simpl; [discriminate|].
  destruct (x =? y) eqn:E; [apply Nat.eqb_eq in E; auto|auto].
Qed.

Lemma leftb_bipartite g x : leftb g x = true <-> bipartite g x = Ok 0.
Proof.
  unfold leftb. destruct (bipartite g x) as [[|a]| |]; split; congruence.
Qed.

Lemma rightb_bipartite g x :
  rightb g x = true <-> exists a, bipartite g x = Ok (S a).
Proof.
  unfold rightb. destruct (bipartite g x) as [[|a]| |]; split;
    try congruence; try (intros [b Hb]; congruence). eauto.
Qed.

Lemma leftb_node g x : leftb g x = true -> In x (nodes g).
Proof. rewrite leftb_bipartite. apply lookup_attr_In. Qed.

Lemma rightb_node g x : rightb g x = true -> In x (nodes g).
Proof. rewrite rightb_bipartite. intros [a H]. eapply lookup_attr_In, H. Qed.

Lemma left_not_right g x : leftb g x = true -> rightb g x = false.
Proof. unfold leftb, rightb. now destruct (bipartite g x) as [[|a]| |]. Qed.

(** ** The claims on single calls, termination and the accumulated list *)

Lemma remove_edge_gone g u v g' :
  remove_edge g u v = Ok g' -> edge_inb g' (u, v) = false.
Proof.
  unfold remove_edge. destruct (existsb _ _); intros H; inv H.
  unfold edge_inb. simpl. apply not_true_is_false. intros H.
  apply existsb_exists in H. destruct H as (x & Hx & E).
  apply filter_In in Hx. destruct Hx as [_ Hx]. rewrite E in Hx. discriminate.
Qed.

Lemma remove_node_gone g x g' :
  remove_node g x = Ok g' ->
  has_node g' x = false /\ forall y, has_node g y = false -> has_node g' y = false.
Proof.
  unfold remove_node. destruct (has_node g x) eqn:N; intros H; inv H.
  unfold has_node, nodes. simpl. split.
  - apply memV_false. intros H. apply in_map_iff in H.
    destruct H as (p & <- & Hp). apply filter_In in Hp. destruct Hp as [_ Hp].
    rewrite Nat.eqb_refl in Hp. discriminate.
  - intros y Hy. apply memV_false. apply memV_false in Hy. intros H. apply Hy.
    apply in_map_iff in H. destruct H as (p & <- & Hp).
    apply filter_In in Hp. apply in_map. tauto.
Qed.

Lemma form_subproblems_gone g e g_plus g_minus :
  form_subproblems g e = Ok (g_plus, g_minus) ->
  edge_inb g_minus e = false /\
  has_node g_plus (fst e) = false /\ has_node g_plus (snd e) = false.
Proof.
  unfold form_subproblems. intros H.
  bind_inv H. rename a into g1. bind_inv H. rename a into g2. bind_inv H.
  inv H. apply remove_edge_gone in Ha1. apply remove_node_gone in Ha.
  apply remove_node_gone in Ha0. destruct e as [u v]. simpl in *.
  destruct Ha as [H1 _], Ha0 as [H2 H3]. auto.
Qed.

(** C8. Every recursive call of [enumMaximumMatchingIter] runs on a graph
    that lost an edge or a vertex: the first one ([g_minus]) keeps the node
    table and loses the edge [e], the second one ([g_plus]) loses both ends
    of [e] and with them at least the edge [e].  Hence the recursion
    terminates on every graph: the fuel the entry point provides, one more
    than the number of edges, is never used up, and more fuel changes
    nothing. *)
Theorem recursion_shrinks_and_terminates (X : Collaborators) (g : Graph)
    (match_ : Matching) (add_e : option (list Edge)) :
  (forall br, iter_body X g match_ add_e = Ok (Some br) ->
     (node (call_g (br_first br)) = node g /\
      edge_inb (call_g (br_first br)) (br_e br) = false /\
      length (edges (call_g (br_first br))) < length (edges g)) /\
     (has_node (call_g (br_second br)) (fst (br_e br)) = false /\
      has_node (call_g (br_second br)) (snd (br_e br)) = false /\
      length (nodes (call_g (br_second br))) < length (nodes g) /\
      length (edges (call_g (br_second br))) < length (edges g))) /\
  (forall all_matches,
     enumMaximumMatchingIter X g match_ all_matches add_e <> OutOfFuel) /\
  (forall fuel all_matches, length (edges g) < fuel ->
     enumMaximumMatchingIter_rec X fuel g match_ all_matches add_e =
     enumMaximumMatchingIter X g match_ all_matches add_e).
Proof.
  split; [|split].
  - intros br H. apply iter_body_inv in H.
    destruct H as (g_plus & g_minus & Hs & -> & ->). simpl.
    pose proof (form_subproblems_shrinks _ _ Hs).
    pose proof (form_subproblems_gone _ _ Hs). tauto.
  - intros all_matches. apply rec_terminates. lia.
  - intros fuel all_matches H. apply rec_fuel_irrelevant; lia.
Qed.

(** C10. Whatever a call of [enumMaximumMatchingIter] returns starts with
    the list [all_matches] it was given, unchanged and in order: the call
    and its descendants only append. *)
Theorem enumMaximumMatchingIter_extends (X : Collaborators) (g : Graph)
    (match_ : Matching) (all_matches : list Matching)
    (add_e : option (list Edge)) (res : list Matching) :
  enumMaximumMatchingIter X g match_ all_matches add_e = Ok res ->
  exists new, res = all_matches ++ new.
Proof. apply rec_prefix. Qed.

Lemma enumMaximumMatchingIter_extends_K22 :
  exists new,
    [[(0, 2); (1, 3)]; [(0, 3); (1, 2)]] = [[(0, 2); (1, 3)]] ++ new.
Proof.
  apply (@enumMaximumMatchingIter_extends Reference.collaborators K22
           [(0, 2); (1, 3)] [[(0, 2); (1, 3)]] None).
  vm_compute. reflexivity.
Defined.

(** C4, as stated, fails on the cycle case: on K(2,2) with the matching
    [(L0,R0); (L1,R1)] the call on the graph without the edge [e] receives
    the new matching, and the call on the graph without the ends of [e]
    receives the current one. *)
Lemma cycle_case_swaps_the_matchings :
  exists br,
    iter_body Reference.collaborators K22 [(0, 2); (1, 3)] None = Ok (Some br) /\
    formDirected K22 [(0, 2); (1, 3)] = Ok [(0, 2); (3, 0); (2, 1); (1, 3)] /\
    hd [] (simple_cycles Reference.collaborators
             [(0, 2); (3, 0); (2, 1); (1, 3)]) = [2; 1; 3; 0] /\
    br_e br = (0, 2) /\
    br_new_match br = [(0, 3); (1, 2)] /\
    call_match (br_first br) <> [(0, 2); (1, 3)] /\
    call_match (br_second br) <> br_new_match br.
Proof.
  eexists. split; [vm_compute; reflexivity|].
  split; [vm_compute; reflexivity|]. split; [vm_compute; reflexivity|].
  simpl. repeat split; discriminate.
Qed.

(** C4, amended.  In every call that records a new matching the first
    recursive call runs on the graph minus the edge [e] (nodes retained) with
    the forced edges unchanged, and the second on the graph minus both ends
    of [e] with [e] put in front of the forced edges.  When the digraph of
    the call has no cycle (the path case) the first call keeps the current
    matching and the second takes the new one; when it has a cycle (the
    cycle case) the first call takes the new matching and the second keeps
    the current one. *)
Theorem subproblems_of_a_call (X : Collaborators) (g : Graph)
    (match_ : Matching) (add_e : option (list Edge)) (br : Branching) :
  iter_body X g match_ add_e = Ok (Some br) ->
  exists d g1 g_plus g_minus,
    formDirected g match_ = Ok d /\
    remove_edge g (fst (br_e br)) (snd (br_e br)) = Ok g_minus /\
    remove_node g (fst (br_e br)) = Ok g1 /\
    remove_node g1 (snd (br_e br)) = Ok g_plus /\
    br_first br =
      mkCall g_minus
        (match simple_cycles X d with
         | [] => match_
         | _ :: _ => br_new_match br
         end) add_e /\
    br_second br =
      mkCall g_plus
        (match simple_cycles X d with
         | [] => br_new_match br
         | _ :: _ => match_
         end) (Some (extend_add_e (br_e br) add_e)).
Proof.
  unfold iter_body. intros H.
  destruct (formDirected g match_) as [d| |] eqn:D; cbn [bind] in H;
    try discriminate.
  exists d.
  assert (Hsub : forall e g_plus g_minus,
            form_subproblems g e = Ok (g_plus, g_minus) ->
            exists g1,
              remove_edge g (fst e) (snd e) = Ok g_minus /\
              remove_node g (fst e) = Ok g1 /\
              remove_node g1 (snd e) = Ok g_plus).
  { intros e g_plus g_minus Hs. unfold form_subproblems in Hs.
    bind_inv Hs. rename a into g1. bind_inv Hs. bind_inv Hs. inv Hs.
    exists g1. auto. }
  destruct (simple_cycles X d) as [|c cs]; cbn [length Nat.eqb] in H.
  - destruct (length (set_listV X _) =? 0); [discriminate|].
    bind_inv H. destruct a as [[len2paths reversed]|]; [|discriminate].
    do 4 bind_inv H. inv H. destruct a2 as [g_plus g_minus].
    cbn [br_e br_first br_second br_new_match fst snd].
    match goal with
    | Hf : form_subproblems _ _ = Ok _ |- _ =>
        destruct (Hsub _ _ _ Hf) as (g1 & H1 & H2 & H3)
    end.
    exists g1, g_plus, g_minus. repeat split; assumption || reflexivity.
  - do 4 bind_inv H. inv H. destruct a2 as [g_plus g_minus].
    cbn [br_e br_first br_second br_new_match fst snd].
    match goal with
    | Hf : form_subproblems _ _ = Ok _ |- _ =>
        destruct (Hsub _ _ _ Hf) as (g1 & H1 & H2 & H3)
    end.
    exists g1, g_plus, g_minus. repeat split; assumption || reflexivity.
Qed.

Definition K22_branching : Branching :=
  {| br_case := CycleCase;
     br_new_match := [(0, 3); (1, 2)];
     br_e := (0, 2);
     br_first :=
       mkCall {| node := [(0, 0); (1, 0); (2, 1); (3, 1)];
                 edges := [(0, 3); (1, 2); (1, 3)] |}
              [(0, 3); (1, 2)] None;
     br_second :=
       mkCall {| node := [(1, 0); (3, 1)]; edges := [(1, 3)] |}
              [(0, 2); (1, 3)] (Some [(0, 2)]) |}.

Lemma subproblems_of_a_call_K22 :
  hd [] (simple_cycles Reference.collaborators
           [(0, 2); (3, 0); (2, 1); (1, 3)]) = [2; 1; 3; 0] /\
  exists d g1 g_plus g_minus,
    formDirected K22 [(0, 2); (1, 3)] = Ok d /\
    remove_edge K22 0 2 = Ok g_minus /\
    remove_node K22 0 = Ok g1 /\
    remove_node g1 2 = Ok g_plus /\
    br_first K22_branching =
      mkCall g_minus
        (match simple_cycles Reference.collaborators d with
         | [] => [(0, 2); (1, 3)]
         | _ :: _ => [(0, 3); (1, 2)]
         end) None /\
    br_second K22_branching =
      mkCall g_plus
        (match simple_cycles Reference.collaborators d with
         | [] => [(0, 3); (1, 2)]
         | _ :: _ => [(0, 2); (1, 3)]
         end) (Some [(0, 2)]).
Proof.
  split; [vm_compute; reflexivity|].
  apply (@subproblems_of_a_call Reference.collaborators K22 [(0, 2); (1, 3)]
           None K22_branching).
  vm_compute. reflexivity.
Defined.

(** C5, as stated, fails: the graph of one edge whose two ends both carry
    the attribute 0 is not rejected; the call returns one list of pairs. *)
Lemma same_side_edge_is_not_rejected :
  crossb same_side_edge (0, 1) = false /\
  enumMaximumMatching Reference.collaborators same_side_edge
  = Ok [[(0, 1); (1, 0)]].
Proof. split; vm_compute; reflexivity. Qed.

Lemma reorient_filter g items :
  (forall kv, In kv items -> In (fst kv) (nodes g)) ->
  forall match2,
    reorient g items match2
    = Ok (match2 ++ filter (fun kv => leftb g (fst kv)) items).
Proof.
  induction items as [|[kk vv] items IH]; intros H match2; simpl.
  - now rewrite app_nil_r.
  - assert (Hk : In kk (nodes g)) by (apply (H (kk, vv)); now left).
    unfold leftb at 1. simpl.
    destruct (bipartite g kk) as [a| |] eqn:B.
    + simpl. rewrite IH by (intros kv Hkv; apply H; now right).
      destruct a; simpl; [now rewrite <- app_assoc|reflexivity].
    + exfalso. clear -Hk B. unfold bipartite, nodes in *.
      induction (node g) as [|[y b] tbl IH]; simpl in *; [contradiction|].
      destruct (kk =? y) eqn:E; [discriminate|].
      destruct Hk as [->|Hk]; [now rewrite Nat.eqb_refl in E|auto].
    + exfalso. now apply (@ror_bipartite g kk).
Qed.

Lemma bipartite_missing g x :
  has_node g x = false -> bipartite g x = Raise KeyError.
Proof.
  unfold has_node, nodes, bipartite. intros H. apply memV_false in H.
  induction (node g) as [|[y a] tbl IH]; [reflexivity|].
  cbn [lookup_attr]. cbn [map fst In] in H.
  destruct (x =? y) eqn:E.
  - apply Nat.eqb_eq in E. exfalso. apply H. now left.
  - apply IH. intros Hin. apply H. now right.
Qed.

Lemma bipartite_raises g x e : bipartite g x = Raise e -> e = KeyError.
Proof.
  unfold bipartite. induction (node g) as [|[y a] tbl IH]; cbn [lookup_attr].
  - congruence.
  - destruct (x =? y); [discriminate|exact IH].
Qed.

Lemma reorient_KeyError g items :
  forallb (fun kv => has_node g (fst kv)) items = false ->
  forall match2, reorient g items match2 = Raise KeyError.
Proof.
  induction items as [|[kk vv] items IH]; intros H match2; [discriminate|].
  cbn [forallb fst] in H. cbn [reorient].
  destruct (bipartite g kk) as [b|e|] eqn:B; cbn [bind].
  - apply IH. destruct (has_node g kk) eqn:N; [exact H|].
    rewrite (bipartite_missing _ _ N) in B. discriminate.
  - now rewrite (bipartite_raises _ _ B).
  - exfalso. now apply (@ror_bipartite g kk).
Qed.

(** C5, amended.  [enumMaximumMatching] never looks at the sides of the two
    ends of an edge before it starts the recursion.  What can stop it at
    entry is the solver, whose error it passes on (networkx raises
    NetworkXError when it cannot colour the graph with two colours), and a
    key of the solver's dictionary that carries no attribute (KeyError).
    Otherwise, with or without an edge inside one side, it goes into the
    recursion on the whole graph with the solver's items whose key is on
    side 0, and whatever it returns starts with them. *)
Theorem entry_rejects_with_the_solver_only (X : Collaborators) (g : Graph) :
  match hopcroft_karp_matching X g with
  | Ok items =>
      let match_ := filter (fun kv => leftb g (fst kv)) items in
      if forallb (fun kv => has_node g (fst kv)) items
      then enumMaximumMatching X g
           = enumMaximumMatchingIter X g match_ [match_] None /\
           forall res, enumMaximumMatching X g = Ok res ->
                       exists new, res = match_ :: new
      else enumMaximumMatching X g = Raise KeyError
  | Raise e => enumMaximumMatching X g = Raise e
  | OutOfFuel => enumMaximumMatching X g = OutOfFuel
  end.
Proof.
  unfold enumMaximumMatching.
  destruct (hopcroft_karp_matching X g) as [items|e|]; cbn [bind];
    [|reflexivity|reflexivity].
  cbv zeta. destruct (forallb _ items) eqn:F.
  - rewrite reorient_filter.
    + cbn [bind app]. split; [reflexivity|]. intros res R.
      apply rec_prefix in R. destruct R as [new ->]. now exists new.
    + intros kv Hkv. rewrite forallb_forall in F.
      apply memV_In. exact (F kv Hkv).
  - now rewrite reorient_KeyError.
Qed.

Lemma entry_rejects_with_the_solver_only_examples :
  (crossb triangle (0, 1) = false /\
   enumMaximumMatching Reference.collaborators triangle
   = Raise NetworkXError) /\
  (crossb same_side_edge (0, 1) = false /\
   enumMaximumMatching Reference.collaborators same_side_edge
   = enumMaximumMatchingIter Reference.collaborators same_side_edge
       [(0, 1); (1, 0)] [[(0, 1); (1, 0)]] None).
Proof.
  split; (split; [vm_compute; reflexivity|]).
  - exact (entry_rejects_with_the_solver_only Reference.collaborators triangle).
  - exact (proj1 (entry_rejects_with_the_solver_only Reference.collaborators
                    same_side_edge)).
Defined.

(** C7 fails on the graph of two disjoint paths: the fourth matching
    returned holds the forced edge of a length-2 path as (R1, L0), its
    first component on side 1 and its second on side 0. *)
Theorem forced_path_edge_is_reversed :
  enumMaximumMatching Reference.collaborators two_paths
  = Ok [[(0, 2); (1, 4)]; [(0, 3); (1, 4)]; [(0, 2); (1, 5)]; [(1, 5); (3, 0)]]
  /\ left_right two_paths (3, 0) = false
  /\ left_right two_paths (0, 3) = true.
Proof. repeat split; vm_compute; reflexivity. Qed.

(** ** The reference collaborators meet the contract *)

Lemma zip_consecutive_app_last l x y :
  zip_consecutive ((l ++ [x]) ++ [y]) = zip_consecutive (l ++ [x]) ++ [(x, y)].
Proof.
  induction l as [|a l IH]; [reflexivity|].
  change (((a :: l) ++ [x]) ++ [y]) with (a :: ((l ++ [x]) ++ [y])).
  change ((a :: l) ++ [x]) with (a :: (l ++ [x])).
  destruct l as [|b l]; [reflexivity|].
  simpl in *. now rewrite IH.
Qed.

Lemma zip_consecutive_mid l1 a b l2 :
  In (a, b) (zip_consecutive (l1 ++ a :: b :: l2)).
Proof.
  induction l1 as [|x l1 IH]; [now left|].
  simpl. destruct (l1 ++ a :: b :: l2) eqn:E.
  - now destruct l1.
  - now right.
Qed.

Lemma successors_In d x w : In w (successors d x) <-> In (x, w) d.
Proof.
  unfold successors. rewrite in_map_iff. split.
  - intros ([a b] & <- & H). apply filter_In in H. destruct H as [H E].
    simpl in *. apply Nat.eqb_eq in E. now subst.
  - intros H. exists (x, w). split; [reflexivity|]. apply filter_In.
    split; [assumption|apply Nat.eqb_refl].
Qed.

Lemma cycle_arcs_snoc l x start :
  cycle_arcs ((start :: l) ++ [x])
  = zip_consecutive ((start :: l) ++ [x]) ++ [(x, start)].
Proof.
  unfold cycle_arcs. simpl firstn.
  apply (zip_consecutive_app_last (start :: l) x start).
Qed.

Lemma cycle_arcs_single start : cycle_arcs [start] = [(start, start)].
Proof. reflexivity. Qed.

Lemma zip_consecutive_incl_app l l' :
  incl (zip_consecutive l) (zip_consecutive (l ++ l')).
Proof.
  induction l as [|x l IH]; [intros a []|].
  destruct l as [|y l]; [intros a []|].
  change (incl ((x, y) :: zip_consecutive (y :: l))
               ((x, y) :: zip_consecutive ((y :: l) ++ l'))).
  intros a [<-|H]; [now left|right; now apply IH].
Qed.

Lemma dnodes_In d x :
  In x (dnodes d) <-> exists a, In a d /\ (fst a = x \/ snd a = x).
Proof.
  unfold dnodes. rewrite in_app_iff, !in_map_iff. split.
  - intros [(a & <- & H)|(a & <- & H)]; eauto.
  - intros (a & H & [<-|<-]); eauto.
Qed.

Lemma cycle_arcs_head start l :
  exists y, In (start, y) (cycle_arcs (start :: l)).
Proof.
  destruct l as [|y l]; [exists start; now left|exists y; now left].
Qed.

Lemma cycle_arcs_tail c x :
  In x c -> exists y, In (y, x) (cycle_arcs c).
Proof.
  intros H. destruct c as [|s c]; [contradiction|].
  destruct H as [->|H].
  - destruct (@exists_last _ (x :: c)) as (q & z & Hz); [discriminate|].
    exists z. destruct q as [|v q]; simpl in Hz; injection Hz as -> ->.
    + now left.
    + unfold cycle_arcs. simpl firstn.
      change ((v :: q ++ [z]) ++ [v]) with (((v :: q) ++ [z]) ++ [v]).
      rewrite <- app_assoc. apply zip_consecutive_mid.
  - apply in_split in H. destruct H as (l1 & l2 & ->).
    unfold cycle_arcs.
    destruct (@exists_last _ (s :: l1)) as (q & z & Hz); [discriminate|].
    exists z. change (s :: l1 ++ x :: l2) with ((s :: l1) ++ x :: l2).
    rewrite Hz, <- !app_assoc. apply zip_consecutive_mid.
Qed.

Module ReferenceFacts.
Import Reference.

Lemma circuits_from_sound d fuel start :
  forall pre cur c,
    In c (circuits_from d fuel start (cur :: pre) cur) ->
    (exists l, rev (cur :: pre) = start :: l) ->
    NoDup (cur :: pre) ->
    incl (zip_consecutive (rev (cur :: pre))) d ->
    c <> [] /\ NoDup c /\ incl (cycle_arcs c) d.
Proof.
  induction fuel as [|fuel IH]; intros pre cur c Hc Hs Hn Hd; [contradiction|].
  cbn [circuits_from] in Hc. apply in_flat_map in Hc.
  destruct Hc as (w & Hw & Hc). apply successors_In in Hw.
  destruct (w =? start) eqn:E.
  - apply Nat.eqb_eq in E. subst w. destruct Hc as [<-|[]].
    split; [|split].
    + intros Hx. apply (f_equal (@length V)) in Hx.
      rewrite length_rev in Hx. discriminate.
    + now apply NoDup_rev.
    + destruct Hs as (l & Hs). rewrite Hs in *.
      destruct (@exists_last _ (start :: l)) as (l' & z & Hz); [discriminate|].
      assert (z = cur).
      { rewrite <- Hs in Hz. simpl in Hz. apply app_inj_tail in Hz.
        destruct Hz. congruence. }
      subst z. destruct l' as [|s' l'].
      * inv Hz. rewrite cycle_arcs_single. intros a [<-|[]]. assumption.
      * simpl in Hz. injection Hz as -> ->.
        change (s' :: l' ++ [cur]) with ((s' :: l') ++ [cur]) in *.
        rewrite cycle_arcs_snoc.
        apply incl_app; [assumption|]. intros a [<-|[]]. assumption.
  - destruct (memV w (cur :: pre)) eqn:M; [contradiction|].
    apply memV_false in M.
    apply IH in Hc; [assumption| | |].
    + destruct Hs as (l & Hs). exists (l ++ [w]).
      change (rev (w :: cur :: pre)) with (rev (cur :: pre) ++ [w]).
      now rewrite Hs.
    + now constructor.
    + change (rev (w :: cur :: pre)) with ((rev pre ++ [cur]) ++ [w]).
      rewrite zip_consecutive_app_last. apply incl_app; [assumption|].
      intros a [<-|[]]. assumption.
Qed.

Lemma circuits_from_complete d start :
  forall suffix p cur fuel,
    (exists l, p = start :: l) ->
    (exists q, p = q ++ [cur]) ->
    NoDup (p ++ suffix) ->
    incl (cycle_arcs (p ++ suffix)) d ->
    length suffix < fuel ->
    In (p ++ suffix) (circuits_from d fuel start (rev p) cur).
Proof.
  induction suffix as [|w suffix IH]; intros p cur fuel Hs Hq Hn Hd Hf;
    (destruct fuel as [|fuel]; [simpl in Hf; lia|]);
    cbn [circuits_from]; apply in_flat_map.
  - rewrite app_nil_r in *. exists start. split.
    + apply successors_In. apply Hd. destruct Hs as (l & ->), Hq as (q & Hq).
      destruct q as [|s q]; simpl in Hq.
      * inv Hq. now left.
      * injection Hq as <- ->.
        change (start :: q ++ [cur]) with ((start :: q) ++ [cur]).
        rewrite cycle_arcs_snoc. apply in_or_app. right. now left.
    + rewrite Nat.eqb_refl. left. apply rev_involutive.
  - exists w. destruct Hs as (l & ->), Hq as (q & Hq).
    assert (Hw : In (cur, w) d).
    { apply Hd. unfold cycle_arcs. apply zip_consecutive_incl_app.
      rewrite Hq, <- app_assoc. apply zip_consecutive_mid. }
    split; [now apply successors_In|].
    assert (Hws : (w =? start) = false).
    { apply Nat.eqb_neq. intros ->. simpl in Hn. inv Hn. apply H1.
      apply in_or_app. right. now left. }
    rewrite Hws.
    assert (Hwp : memV w (rev (start :: l)) = false).
    { apply memV_false. rewrite <- in_rev. intros Hin.
      apply NoDup_remove_2 in Hn. apply Hn. apply in_or_app. now left. }
    rewrite Hwp.
    replace ((start :: l) ++ w :: suffix) with (((start :: l) ++ [w]) ++ suffix)
      in * by now rewrite <- app_assoc.
    specialize (IH ((start :: l) ++ [w]) w fuel).
    rewrite rev_unit in IH. apply IH; try assumption.
    + now exists (l ++ [w]).
    + now exists (start :: l).
    + simpl in Hf. lia.
Qed.

Lemma elementary_circuits_sound d c :
  In c (elementary_circuits d) -> c <> [] /\ NoDup c /\ incl (cycle_arcs c) d.
Proof.
  unfold elementary_circuits. intros H. apply in_flat_map in H.
  destruct H as (v & _ & H). eapply circuits_from_sound in H; eauto.
  - now exists [].
  - repeat constructor. intros [].
  - intros a [].
Qed.

Lemma elementary_circuits_complete d c :
  c <> [] -> NoDup c -> incl (cycle_arcs c) d -> elementary_circuits d <> [].
Proof.
  intros Hc Hn Hd. destruct c as [|start l]; [contradiction|].
  assert (Hin : In (start :: l) (elementary_circuits d)).
  { unfold elementary_circuits. apply in_flat_map. exists start. split.
    - apply nodup_In. apply dnodes_In.
      destruct (cycle_arcs_head start l) as (y & Hy). eauto.
    - change [start] with (rev [start]).
      change (start :: l) with ([start] ++ l).
      apply circuits_from_complete; try assumption.
      + now exists [].
      + now exists [].
      + apply Nat.lt_le_trans with (length (start :: l)); [simpl; lia|].
        apply NoDup_incl_length; [assumption|].
        intros x Hx. apply dnodes_In.
        destruct (cycle_arcs_tail _ _ Hx) as (y & Hy). eauto. }
  intros E. rewrite E in Hin. contradiction.
Qed.

Lemma bfs_successors_spec pv ws :
  forall paths next,
  exists extra,
    bfs_successors pv ws paths next = (paths ++ extra, next ++ map fst extra) /\
    (forall k p, In (k, p) extra ->
       In k ws /\ ~ In k (map fst paths) /\ p = pv ++ [k]) /\
    (forall w, In w ws -> In w (map fst (paths ++ extra))).
Proof.
  induction ws as [|w ws IH]; intros paths next; simpl.
  - exists []. rewrite !app_nil_r. repeat split; contradiction.
  - destruct (memV w (map fst paths)) eqn:M.
    + destruct (IH paths next) as (extra & -> & H1 & H2). exists extra.
      split; [reflexivity|]. split.
      * intros k p H. apply H1 in H. tauto.
      * intros w' [<-|H]; [|now apply H2].
        apply memV_In in M. rewrite map_app. apply in_or_app. now left.
    + apply memV_false in M.
      destruct (IH (paths ++ [(w, pv ++ [w])]) (next ++ [w]))
        as (extra & -> & H1 & H2).
      exists ((w, pv ++ [w]) :: extra). rewrite <- !app_assoc. simpl.
      split; [reflexivity|]. split.
      * intros k p [H|H]; [inv H; auto|].
        apply H1 in H. destruct H as (Ha & Hb & Hc).
        repeat split; auto. intros Hk. apply Hb. rewrite map_app.
        apply in_or_app. now left.
      * intros w' [<-|H].
        -- rewrite map_app. apply in_or_app. right. now left.
        -- apply H2 in H. now rewrite <- app_assoc in H.
Qed.

Lemma lookup_path_app paths extra v :
  In v (map fst paths) -> lookup_path (paths ++ extra) v = lookup_path paths v.
Proof.
  induction paths as [|[y p] paths IH]; simpl; [contradiction|].
  intros H. destruct (v =? y) eqn:E; [reflexivity|].
  apply IH. destruct H as [->|H]; [now rewrite Nat.eqb_refl in E|assumption].
Qed.

Lemma lookup_path_In paths v :
  In v (map fst paths) -> In (v, lookup_path paths v) paths.
Proof.
  induction paths as [|[y p] paths IH]; simpl; [contradiction|].
  intros H. destruct (v =? y) eqn:E.
  - apply Nat.eqb_eq in E. subst. now left.
  - right. apply IH. destruct H as [->|H]; [now rewrite Nat.eqb_refl in E|assumption].
Qed.

Lemma bfs_level_spec d vs :
  forall paths next,
    (forall v, In v vs -> In v (map fst paths)) ->
  exists extra,
    bfs_level d vs paths next = (paths ++ extra, next ++ map fst extra) /\
    (forall k p, In (k, p) extra ->
       exists v, In v vs /\ In (v, k) d /\ ~ In k (map fst paths) /\
                 p = lookup_path paths v ++ [k]) /\
    (forall v w, In v vs -> In (v, w) d -> In w (map fst (paths ++ extra))).
Proof.
  induction vs as [|v vs IH]; intros paths next Hk; simpl.
  - exists []. rewrite !app_nil_r. repeat split; contradiction.
  - destruct (bfs_successors_spec (lookup_path paths v) (successors d v)
                paths next) as (e1 & -> & H1 & H2). simpl.
    destruct (IH (paths ++ e1) (next ++ map fst e1)) as (e2 & -> & H3 & H4).
    { intros u Hu. rewrite map_app. apply in_or_app. left. apply Hk. now right. }
    exists (e1 ++ e2). rewrite map_app, <- !app_assoc.
    split; [reflexivity|]. split.
    + intros k p H. apply in_app_or in H. destruct H as [H|H].
      * apply H1 in H. destruct H as (Ha & Hb & Hc). exists v.
        rewrite successors_In in Ha. auto.
      * apply H3 in H. destruct H as (u & Ha & Hb & Hc & Hd). exists u.
        repeat split; auto.
        -- intros Hx. apply Hc. rewrite map_app. apply in_or_app. now left.
        -- rewrite Hd. f_equal. apply lookup_path_app. apply Hk. now right.
    + intros u w [<-|Hu] Hw.
      * apply successors_In, H2 in Hw. rewrite !map_app, !in_app_iff in *.
        tauto.
      * apply (H4 u w Hu) in Hw. now rewrite <- app_assoc in Hw.
Qed.

Lemma bfs_two_levels d vs paths :
  bfs d 2 vs paths
  = fst (bfs_level d (snd (bfs_level d vs paths [])) (fst (bfs_level d vs paths [])) []).
Proof.
  cbn [bfs]. destruct (snd (bfs_level d vs paths [])) eqn:E; [reflexivity|].
  now destruct (snd (bfs_level d (v :: l) (fst (bfs_level d vs paths [])) [])).
Qed.

Lemma shortest_path_items_two d s :
  exists e1 e2,
    shortest_path_items d s 2 = ((s, [s]) :: e1) ++ e2 /\
    (forall k p, In (k, p) e1 -> In (s, k) d /\ k <> s /\ p = [s; k]) /\
    (forall w, In (s, w) d -> w = s \/ In w (map fst e1)) /\
    (forall k p, In (k, p) e2 ->
       exists v, In (s, v) d /\ In (v, k) d /\ p = [s; v; k]) /\
    (forall v w, In v (map fst e1) -> In (v, w) d ->
       w = s \/ In w (map fst e1) \/ In w (map fst e2)).
Proof.
  unfold shortest_path_items. rewrite bfs_two_levels.
  destruct (bfs_level_spec d [s] [(s, [s])] []) as (e1 & -> & H1 & H2).
  { intros v [<-|[]]. now left. }
  simpl fst. simpl snd.
  destruct (bfs_level_spec d (map fst e1) ((s, [s]) :: e1) [])
    as (e2 & -> & H3 & H4).
  { intros v Hv. now right. }
  exists e1, e2. simpl fst. split; [reflexivity|].
  assert (E1 : forall k p, In (k, p) e1 -> In (s, k) d /\ k <> s /\ p = [s; k]).
  { intros k p H. apply H1 in H. destruct H as (v & [<-|[]] & Ha & Hb & ->).
    simpl. rewrite Nat.eqb_refl. repeat split; auto.
    intros ->. apply Hb. now left. }
  split; [exact E1|]. split.
  - intros w Hw. apply (H2 s w) in Hw; [|now left].
    simpl in Hw. intuition.
  - split.
    + intros k p H. apply H3 in H. destruct H as (v & Ha & Hb & Hc & ->).
      exists v. apply in_map_iff in Ha. destruct Ha as ([v' pv] & Hv & Ha).
      simpl in Hv. subst v'. destruct (E1 _ _ Ha) as (Hd & He & ->).
      repeat split; auto.
      assert (Hin : In v (map fst ((s, [s]) :: e1))).
      { right. apply in_map_iff. now exists (v, [s; v]). }
      apply lookup_path_In in Hin. simpl in Hin.
      destruct Hin as [Hin|Hin]; [now inv Hin|].
      destruct (v =? s) eqn:E; [apply Nat.eqb_eq in E; contradiction|].
      simpl. rewrite E in *. apply E1 in Hin. destruct Hin as (_ & _ & ->).
      reflexivity.
    + intros v w Hv Hw. apply (H4 v w Hv) in Hw.
      rewrite !map_app, !in_app_iff in Hw. simpl in Hw. intuition.
Qed.

Theorem reference_contract : contract collaborators.
Proof.
  constructor; unfold collaborators;
    cbn [set_listV set_listE simple_cycles single_source_shortest_path].
  - intros l x. apply nodup_In.
  - intros l. apply NoDup_nodup.
  - intros l x. apply nodup_In.
  - apply elementary_circuits_sound.
  - apply elementary_circuits_complete.
  - intros d s k p H Hl.
    destruct (shortest_path_items_two d s) as (e1 & e2 & E & H1 & _ & H3 & _).
    rewrite E in H. simpl in H. destruct H as [H|H]; [inv H; discriminate|].
    apply in_app_or in H. destruct H as [H|H].
    + apply H1 in H. destruct H as (_ & _ & ->). discriminate.
    + apply H3 in H. destruct H as (v & Ha & Hb & ->). eauto.
  - intros d s w x Hw Hx Hxs Hsx.
    destruct (shortest_path_items_two d s) as (e1 & e2 & -> & H1 & H2 & H3 & H4).
    apply H2 in Hw. destruct Hw as [->|Hw]; [contradiction|].
    apply (H4 w x Hw) in Hx. destruct Hx as [Hx|[Hx|Hx]]; [contradiction| |].
    + exfalso. apply in_map_iff in Hx. destruct Hx as ([k p] & <- & Hx).
      apply H1 in Hx. tauto.
    + apply in_map_iff in Hx. destruct Hx as ([k p] & <- & Hx).
      exists k, p. split.
      * simpl. right. apply in_or_app. now right.
      * apply H3 in Hx. destruct Hx as (v & _ & _ & ->). reflexivity.
Qed.

End ReferenceFacts.

(** ** The graph without vertices *)

Lemma no_cycle_in_empty_digraph (X : Collaborators) :
  contract X -> simple_cycles X [] = [].
Proof.
  intros C. destruct (simple_cycles X []) as [|c l] eqn:E; [reflexivity|].
  destruct (simple_cycles_sound C [] c) as (Hc & _ & Hi).
  { rewrite E. now left. }
  destruct c as [|s c]; [contradiction|].
  destruct (cycle_arcs_head s c) as (y & Hy). apply Hi in Hy. contradiction.
Qed.

Lemma set_listV_nil (X : Collaborators) (l : list V) :
  contract X -> (forall x, ~ In x l) -> set_listV X l = [].
Proof.
  intros C H. destruct (set_listV X l) as [|x l'] eqn:E; [reflexivity|].
  exfalso. apply (H x). apply (set_listV_In C l x). rewrite E. now left.
Qed.

(** C6. On the graph with no vertex, when the solver meets its contract
    (its matching is then empty), [enumMaximumMatching] returns normally
    the list whose only element is the empty matching. *)
Theorem enumMaximumMatching_empty_graph (X : Collaborators) :
  contract X ->
  hopcroft_karp_okb empty_graph (hopcroft_karp_matching X empty_graph) = true ->
  enumMaximumMatching X empty_graph = Ok [[]].
Proof.
  intros C H. unfold hopcroft_karp_okb in H.
  destruct (hopcroft_karp_matching X empty_graph) as [items| |] eqn:R;
    try discriminate.
  unfold hopcroft_karp_itemsb in H.
  apply andb_true_iff in H. destruct H as [_ H]. apply Nat.eqb_eq in H.
  change (2 * maximum_matching_number empty_graph) with 0 in H.
  apply length_zero_iff_nil in H.
  assert (B : iter_body X empty_graph [] None = Ok None).
  { unfold iter_body, formDirected.
    cbn [edges empty_graph formDirected_loop bind].
    rewrite (no_cycle_in_empty_digraph C).
    simpl. rewrite set_listV_nil; [reflexivity|exact C|intros x []]. }
  unfold enumMaximumMatching. rewrite R, H.
  cbn [reorient bind]. unfold enumMaximumMatchingIter.
  rewrite rec_S, B. reflexivity.
Qed.

Lemma enumMaximumMatching_empty_graph_reference :
  enumMaximumMatching Reference.collaborators empty_graph = Ok [[]].
Proof.
  apply (@enumMaximumMatching_empty_graph Reference.collaborators).
  - exact ReferenceFacts.reference_contract.
  - vm_compute. reflexivity.
Defined.

(** ** A digraph in which every arc has a successor has a cycle *)

Lemma zip_consecutive_fst l : map fst (zip_consecutive l) = removelast l.
Proof.
  induction l as [|x l IH]; [reflexivity|].
  destruct l as [|y l]; [reflexivity|].
  change (x :: map fst (zip_consecutive (y :: l)) = x :: removelast (y :: l)).
  now rewrite IH.
Qed.

Lemma zip_consecutive_snd l : map snd (zip_consecutive l) = tl l.
Proof.
  induction l as [|x l IH]; [reflexivity|].
  destruct l as [|y l]; [reflexivity|].
  change (y :: map snd (zip_consecutive (y :: l)) = y :: l).
  now rewrite IH.
Qed.

Lemma zip_consecutive_incl_suffix l1 l :
  incl (zip_consecutive l) (zip_consecutive (l1 ++ l)).
Proof.
  induction l1 as [|x l1 IH]; [apply incl_refl|].
  intros a Ha. apply IH in Ha. simpl.
  destruct (l1 ++ l); [contradiction|now right].
Qed.

Lemma repeated_segment (w : list V) :
  ~ NoDup w ->
  exists l1 x mid l2, w = l1 ++ x :: mid ++ x :: l2 /\ NoDup (x :: mid).
Proof.
  induction w as [|y w IH]; intros H; [elim H; constructor|].
  assert (Hdec : NoDup w \/ ~ NoDup w).
  { rewrite <- nodupb_NoDup. destruct (nodupb w); auto. }
  destruct Hdec as [Hn|Hn].
  - destruct (in_dec Nat.eq_dec y w) as [Hy|Hy];
      [|elim H; now constructor].
    apply in_split in Hy. destruct Hy as (m & l2 & ->).
    exists [], y, m, l2. split; [reflexivity|].
    constructor.
    + now apply NoDup_remove_2 in Hn; rewrite in_app_iff in Hn; intros Hm;
        apply Hn; left.
    + apply NoDup_remove_1 in Hn. now apply NoDup_app_remove_r in Hn.
  - destruct (IH Hn) as (l1 & x & mid & l2 & -> & Hm).
    exists (y :: l1), x, mid, l2. auto.
Qed.

Lemma successor_walk (H : list Edge) :
  (forall a, In a H -> exists b, In b H /\ fst b = snd a) ->
  forall n a, In a H ->
    exists w, length w = n /\ incl (zip_consecutive (fst a :: snd a :: w)) H.
Proof.
  intros Hs. induction n as [|n IH]; intros a Ha.
  - exists []. split; [reflexivity|]. intros x [<-|[]]. now destruct a.
  - destruct (Hs a Ha) as (b & Hb & Hab).
    destruct (IH b Hb) as (w & Hw & Hz).
    exists (snd b :: w). split; [simpl; now rewrite Hw|].
    rewrite Hab in Hz.
    change (incl ((fst a, snd a) :: zip_consecutive (snd a :: snd b :: w)) H).
    intros x [<-|Hx]; [now destruct a|now apply Hz].
Qed.

Lemma zip_consecutive_vertices w x :
  2 <= length w -> In x w -> In x (dnodes (zip_consecutive w)).
Proof.
  intros Hl Hx. unfold dnodes.
  rewrite zip_consecutive_fst, zip_consecutive_snd.
  destruct w as [|y w]; [contradiction|].
  destruct Hx as [->|Hx]; apply in_or_app.
  - left. destruct w; [simpl in Hl; lia|now left].
  - now right.
Qed.

Lemma successor_cycle (H : list Edge) :
  H <> [] ->
  (forall a, In a H -> exists b, In b H /\ fst b = snd a) ->
  exists c, c <> [] /\ NoDup c /\ incl (cycle_arcs c) H.
Proof.
  intros Hne Hs. destruct H as [|a H']; [contradiction|].
  set (H := a :: H') in *.
  destruct (@successor_walk H Hs (length (dnodes H)) a) as (w & Hw & Hz);
    [now left|].
  set (W := fst a :: snd a :: w) in *.
  assert (Hd : ~ NoDup W).
  { intros Hn. apply (NoDup_incl_length (l' := dnodes H)) in Hn.
    - unfold W in Hn. cbn [length] in Hn. rewrite Hw in Hn. lia.
    - intros x Hx. apply zip_consecutive_vertices in Hx;
        [|unfold W; simpl; lia].
      apply dnodes_In in Hx. destruct Hx as (b & Hb & Hx).
      apply dnodes_In. exists b. auto. }
  destruct (repeated_segment Hd) as (l1 & x & mid & l2 & HW & Hn).
  exists (x :: mid). split; [discriminate|]. split; [assumption|].
  intros b Hb. apply Hz. rewrite HW. apply zip_consecutive_incl_suffix.
  unfold cycle_arcs in Hb. simpl firstn in Hb.
  change (x :: mid ++ x :: l2) with ((x :: mid) ++ [x] ++ l2).
  rewrite app_assoc. now apply zip_consecutive_incl_app.
Qed.

(** * The exchange digraph and the toggled matching

    An abstract form of one call: [L] tells the vertices of side 0, [E] is
    the edge list with every edge written (left, right), [M] the pairs of the
    current matching that lie in the graph. *)

Lemma NoDup_map_inj {A B : Type} (f : A -> B) (l : list A) x y :
  NoDup (map f l) -> In x l -> In y l -> f x = f y -> x = y.
Proof.
  induction l as [|a l IH]; simpl; [contradiction|].
  intros H Hx Hy E. inv H. destruct Hx as [->|Hx], Hy as [->|Hy]; auto.
  - exfalso. apply H2. rewrite E. now apply in_map.
  - exfalso. apply H2. rewrite <- E. now apply in_map.
Qed.

Lemma NoDup_map_on {A B : Type} (f : A -> B) (l : list A) :
  NoDup l -> (forall x y, In x l -> In y l -> f x = f y -> x = y) ->
  NoDup (map f l).
Proof.
  induction l as [|a l IH]; simpl; intros H Hi; [constructor|].
  inv H. constructor.
  - intros Hin. apply in_map_iff in Hin. destruct Hin as (b & E & Hb).
    assert (b = a) by (apply Hi; auto). now subst.
  - apply IH; auto.
Qed.

Lemma NoDup_same_length {A : Type} (l1 l2 : list A) :
  NoDup l1 -> NoDup l2 -> (forall x, In x l1 <-> In x l2) ->
  length l1 = length l2.
Proof.
  intros H1 H2 H. apply Nat.le_antisymm; apply NoDup_incl_length; auto;
    intros x Hx; now apply H.
Qed.

Section Exchange.

Variable L : V -> bool.
Variable E : list Edge.
Variable M : list Edge.

Hypothesis E_sides : forall p, In p E -> L (fst p) = true /\ L (snd p) = false.
Hypothesis E_nodup : NoDup E.
Hypothesis M_edges : incl M E.
Hypothesis M_left : NoDup (map fst M).
Hypothesis M_right : NoDup (map snd M).

(** The arc of the edge [p]: left to right when matched, right to left
    otherwise. *)
Definition arc (p : Edge) : Edge := if memE p M then p else swap p.

Definition exchange_digraph : DiGraph := map arc E.

(** The pairs of the new matching: the matched edges off [flip] and the
    unmatched edges whose arc is on [flip]. *)
Definition kept (flip : list Edge) (p : Edge) : bool :=
  if memE p M then negb (memE p flip) else memE (swap p) flip.

Definition toggled (flip : list Edge) : Matching := filter (kept flip) E.

Lemma arc_In a :
  In a exchange_digraph <-> In a M \/ (In (swap a) E /\ ~ In (swap a) M).
Proof.
  unfold exchange_digraph, arc. rewrite in_map_iff. split.
  - intros (p & <- & Hp). destruct (memE p M) eqn:Hm.
    + left. now apply memE_In.
    + right. rewrite swap_swap. split; [assumption|now apply memE_false].
  - intros [H|[H1 H2]].
    + exists a. split; [|now apply M_edges].
      apply memE_In in H. now rewrite H.
    + exists (swap a). split; [|assumption].
      apply memE_false in H2. now rewrite H2, swap_swap.
Qed.

Lemma matched_arc a : In a exchange_digraph -> L (fst a) = true -> In a M.
Proof.
  intros H Hl. apply arc_In in H. destruct H as [H|[H _]]; [assumption|].
  apply E_sides in H. destruct a. simpl in *. destruct H. congruence.
Qed.

Lemma unmatched_arc a :
  In a exchange_digraph -> L (fst a) = false ->
  In (swap a) E /\ ~ In (swap a) M.
Proof.
  intros H Hl. apply arc_In in H. destruct H as [H|H]; [|assumption].
  apply M_edges, E_sides in H. destruct H. congruence.
Qed.

Lemma arc_sides a :
  In a exchange_digraph -> L (fst a) = negb (L (snd a)).
Proof.
  intros H. apply arc_In in H. destruct H as [H|[H _]].
  - apply M_edges, E_sides in H. destruct H as [-> ->]. reflexivity.
  - apply E_sides in H. destruct a. simpl in *. destruct H as [-> ->].
    reflexivity.
Qed.

Lemma toggled_In flip p :
  In p (toggled flip) <->
  (In p M /\ ~ In p flip) \/ (In p E /\ ~ In p M /\ In (swap p) flip).
Proof.
  unfold toggled, kept. rewrite filter_In. split.
  - intros [HE H]. destruct (memE p M) eqn:Hm.
    + left. apply memE_In in Hm. apply negb_true_iff, memE_false in H. auto.
    + right. apply memE_false in Hm. apply memE_In in H. auto.
  - intros [[H1 H2]|(H1 & H2 & H3)].
    + split; [now apply M_edges|]. apply memE_In in H1. rewrite H1.
      now apply negb_true_iff, memE_false.
    + split; [assumption|]. apply memE_false in H2. rewrite H2.
      now apply memE_In.
Qed.

Lemma toggled_edges flip : incl (toggled flip) E.
Proof. intros p H. apply filter_In in H. tauto. Qed.

Lemma toggled_nodup flip : NoDup (toggled flip).
Proof. now apply NoDup_filter. Qed.

(** What makes [flip] an alternating cycle or path that can be toggled:
    its arcs have distinct tails and distinct heads; where an unmatched arc
    of [flip] meets a matched edge, that edge is on [flip] too; and it has
    an unmatched arc. *)
Record flip_ok (flip : list Edge) : Prop := {
  flip_tails : forall a b, In a flip -> In b flip -> fst a = fst b -> a = b;
  flip_heads : forall a b, In a flip -> In b flip -> snd a = snd b -> a = b;
  flip_left : forall p q,
    In (swap p) flip -> In p E -> ~ In p M -> In q M -> fst q = fst p ->
    In q flip;
  flip_right : forall p q,
    In (swap p) flip -> In p E -> ~ In p M -> In q M -> snd q = snd p ->
    In q flip;
  flip_unmatched : exists p, In p E /\ ~ In p M /\ In (swap p) flip
}.

(** Toggling [flip] covers the same vertices of side 0 (of side 1). *)
Definition keeps_side (side : Edge -> V) (flip : list Edge) : Prop :=
  (forall q, In q M -> In q flip ->
     exists p, In p E /\ ~ In p M /\ In (swap p) flip /\ side p = side q) /\
  (forall p, In p E -> ~ In p M -> In (swap p) flip ->
     exists q, In q M /\ side q = side p).

Lemma swap_inj a b : swap a = swap b -> a = b.
Proof. intros H. apply (f_equal swap) in H. now rewrite !swap_swap in H. Qed.

Lemma toggled_left flip : flip_ok flip -> NoDup (map fst (toggled flip)).
Proof.
  intros F. apply NoDup_map_on; [apply toggled_nodup|].
  intros p q Hp Hq Hpq. apply toggled_In in Hp, Hq.
  destruct Hp as [[Hp Hp']|(Hp & Hp' & Hp'')],
           Hq as [[Hq Hq']|(Hq & Hq' & Hq'')].
  - apply (NoDup_map_inj fst M); auto.
  - exfalso. apply Hp'. eapply flip_left; eauto.
  - exfalso. apply Hq'. eapply flip_left; eauto.
  - apply swap_inj. eapply flip_heads; eauto.
Qed.

Lemma toggled_right flip : flip_ok flip -> NoDup (map snd (toggled flip)).
Proof.
  intros F. apply NoDup_map_on; [apply toggled_nodup|].
  intros p q Hp Hq Hpq. apply toggled_In in Hp, Hq.
  destruct Hp as [[Hp Hp']|(Hp & Hp' & Hp'')],
           Hq as [[Hq Hq']|(Hq & Hq' & Hq'')].
  - apply (NoDup_map_inj snd M); auto.
  - exfalso. apply Hp'. eapply flip_right; eauto.
  - exfalso. apply Hq'. eapply flip_right; eauto.
  - apply swap_inj. eapply flip_tails; eauto.
Qed.

Lemma toggled_side_length (side : Edge -> V) flip :
  NoDup (map side M) -> NoDup (map side (toggled flip)) ->
  keeps_side side flip -> length (toggled flip) = length M.
Proof.
  intros HM HT [K1 K2].
  rewrite <- (length_map side (toggled flip)), <- (length_map side M).
  apply NoDup_same_length; auto. intros x. rewrite !in_map_iff. split.
  - intros (p & <- & Hp). apply toggled_In in Hp.
    destruct Hp as [[Hp _]|(Hp & Hp' & Hp'')]; [eauto|].
    destruct (K2 p Hp Hp' Hp'') as (q & Hq & Hs). eauto.
  - intros (q & <- & Hq). destruct (in_dec Edge_eq_dec q flip) as [Hf|Hf].
    + destruct (K1 q Hq Hf) as (p & Hp & Hp' & Hp'' & Hs).
      exists p. split; [assumption|]. apply toggled_In. auto.
    + exists q. split; [reflexivity|]. apply toggled_In. auto.
Qed.

Lemma toggled_length flip :
  flip_ok flip -> keeps_side fst flip \/ keeps_side snd flip ->
  length (toggled flip) = length M.
Proof.
  intros F [K|K].
  - apply (@toggled_side_length fst); auto using toggled_left.
  - apply (@toggled_side_length snd); auto using toggled_right.
Qed.

Lemma toggled_differs flip :
  flip_ok flip -> exists p, In p (toggled flip) /\ ~ In p M.
Proof.
  intros F. destruct (flip_unmatched F) as (p & H1 & H2 & H3).
  exists p. split; [|assumption]. apply toggled_In. auto.
Qed.

(** *** Cycles *)

Lemma cycle_arcs_fst c : c <> [] -> map fst (cycle_arcs c) = c.
Proof.
  intros H. unfold cycle_arcs. rewrite zip_consecutive_fst.
  destruct c as [|s c]; [contradiction|]. simpl firstn. apply removelast_last.
Qed.

Lemma cycle_arcs_snd s c : map snd (cycle_arcs (s :: c)) = c ++ [s].
Proof. unfold cycle_arcs. now rewrite zip_consecutive_snd. Qed.

Lemma cycle_arcs_successor c a :
  In a (cycle_arcs c) -> exists b, In b (cycle_arcs c) /\ fst b = snd a.
Proof.
  intros H. destruct c as [|s c]; [contradiction|].
  assert (Hs : In (snd a) (map snd (cycle_arcs (s :: c)))) by now apply in_map.
  rewrite cycle_arcs_snd in Hs.
  assert (Hf : In (snd a) (map fst (cycle_arcs (s :: c)))).
  { rewrite cycle_arcs_fst by discriminate. apply in_app_or in Hs.
    destruct Hs as [Hs|[<-|[]]]; [now right|now left]. }
  apply in_map_iff in Hf. destruct Hf as (b & Hb & Hin). eauto.
Qed.

Lemma cycle_arcs_predecessor c a :
  In a (cycle_arcs c) -> exists b, In b (cycle_arcs c) /\ snd b = fst a.
Proof.
  intros H. destruct c as [|s c]; [contradiction|].
  assert (Hf : In (fst a) (map fst (cycle_arcs (s :: c)))) by now apply in_map.
  rewrite cycle_arcs_fst in Hf by discriminate.
  assert (Hs : In (fst a) (map snd (cycle_arcs (s :: c)))).
  { rewrite cycle_arcs_snd. apply in_or_app.
    destruct Hf as [<-|Hf]; [right; now left|now left]. }
  apply in_map_iff in Hs. destruct Hs as (b & Hb & Hin). eauto.
Qed.

Lemma cycle_arcs_tails c a b :
  NoDup c -> In a (cycle_arcs c) -> In b (cycle_arcs c) -> fst a = fst b ->
  a = b.
Proof.
  intros Hn. destruct c as [|s c]; [contradiction|].
  apply NoDup_map_inj. now rewrite cycle_arcs_fst.
Qed.

Lemma cycle_arcs_heads c a b :
  NoDup c -> In a (cycle_arcs c) -> In b (cycle_arcs c) -> snd a = snd b ->
  a = b.
Proof.
  intros Hn. destruct c as [|s c]; [contradiction|].
  apply NoDup_map_inj. rewrite cycle_arcs_snd.
  apply (Permutation_NoDup (Permutation_cons_append c s) Hn).
Qed.

Section Cycle.

Variable c : list V.
Hypothesis c_nonempty : c <> [].
Hypothesis c_nodup : NoDup c.
Hypothesis c_arcs : incl (cycle_arcs c) exchange_digraph.

Lemma cycle_after_unmatched p :
  In p E -> In (swap p) (cycle_arcs c) ->
  exists q, In q M /\ In q (cycle_arcs c) /\ fst q = fst p.
Proof.
  intros Hp Hf. destruct (cycle_arcs_successor _ _ Hf) as (b & Hb & Hfb).
  exists b. simpl in Hfb. repeat split; auto.
  apply matched_arc; [now apply c_arcs|]. rewrite Hfb. now apply E_sides.
Qed.

Lemma cycle_before_unmatched p :
  In p E -> In (swap p) (cycle_arcs c) ->
  exists q, In q M /\ In q (cycle_arcs c) /\ snd q = snd p.
Proof.
  intros Hp Hf. destruct (cycle_arcs_predecessor _ _ Hf) as (b & Hb & Hfb).
  exists b. simpl in Hfb. repeat split; auto.
  assert (Hd : In b exchange_digraph) by now apply c_arcs.
  apply matched_arc; [assumption|]. rewrite (arc_sides _ Hd), Hfb.
  apply E_sides in Hp. destruct Hp as [_ ->]. reflexivity.
Qed.

Lemma cycle_before_matched q :
  In q M -> In q (cycle_arcs c) ->
  exists p, In p E /\ ~ In p M /\ In (swap p) (cycle_arcs c) /\ fst p = fst q.
Proof.
  intros Hq Hf. destruct (cycle_arcs_predecessor _ _ Hf) as (b & Hb & Hfb).
  assert (Hd : In b exchange_digraph) by now apply c_arcs.
  assert (Hl : L (fst b) = false).
  { rewrite (arc_sides _ Hd), Hfb. apply M_edges, E_sides in Hq.
    destruct Hq as [-> _]. reflexivity. }
  destruct (unmatched_arc _ Hd Hl) as [H1 H2].
  exists (swap b). rewrite swap_swap. auto.
Qed.

Lemma cycle_after_matched q :
  In q M -> In q (cycle_arcs c) ->
  exists p, In p E /\ ~ In p M /\ In (swap p) (cycle_arcs c) /\ snd p = snd q.
Proof.
  intros Hq Hf. destruct (cycle_arcs_successor _ _ Hf) as (b & Hb & Hfb).
  assert (Hd : In b exchange_digraph) by now apply c_arcs.
  assert (Hl : L (fst b) = false).
  { rewrite Hfb. now apply M_edges, E_sides in Hq. }
  destruct (unmatched_arc _ Hd Hl) as [H1 H2].
  exists (swap b). rewrite swap_swap. auto.
Qed.

Lemma cycle_has_arc : exists a, In a (cycle_arcs c).
Proof.
  destruct c as [|s c']; [contradiction|].
  destruct (cycle_arcs_head s c') as (y & Hy). eauto.
Qed.

Lemma cycle_has_matched : exists q, In q M /\ In q (cycle_arcs c).
Proof.
  destruct cycle_has_arc as (a & Ha).
  assert (Hd : In a exchange_digraph) by now apply c_arcs.
  destruct (L (fst a)) eqn:Hl.
  - exists a. split; [now apply matched_arc|assumption].
  - destruct (unmatched_arc _ Hd Hl) as [H1 H2].
    destruct (cycle_after_unmatched (swap a)) as (q & Hq & Hq' & _);
      rewrite ?swap_swap; eauto.
Qed.

Lemma cycle_has_unmatched :
  exists p, In p E /\ ~ In p M /\ In (swap p) (cycle_arcs c).
Proof.
  destruct cycle_has_matched as (q & Hq & Hf).
  destruct (cycle_before_matched _ Hq Hf) as (p & H1 & H2 & H3 & _). eauto.
Qed.

Lemma cycle_flip_ok : flip_ok (cycle_arcs c).
Proof.
  constructor.
  - intros a b. now apply cycle_arcs_tails.
  - intros a b. now apply cycle_arcs_heads.
  - intros p q Hf Hp Hn Hq Hpq.
    destruct (cycle_after_unmatched _ Hp Hf) as (b & Hb & Hb' & Hbp).
    replace q with b; [assumption|].
    apply (NoDup_map_inj fst M); auto. congruence.
  - intros p q Hf Hp Hn Hq Hpq.
    destruct (cycle_before_unmatched _ Hp Hf) as (b & Hb & Hb' & Hbp).
    replace q with b; [assumption|].
    apply (NoDup_map_inj snd M); auto. congruence.
  - apply cycle_has_unmatched.
Qed.

Lemma cycle_keeps_left : keeps_side fst (cycle_arcs c).
Proof.
  split.
  - intros q Hq Hf. now apply cycle_before_matched.
  - intros p Hp Hn Hf.
    destruct (cycle_after_unmatched _ Hp Hf) as (b & Hb & _ & Hbp). eauto.
Qed.

End Cycle.

(** *** Paths of length two

    [p] is the unmatched edge of the path and [q] its matched edge; they
    share the middle vertex, and the other end of [p] is uncovered. *)

Section Path.

Variables p q : Edge.
Variable flip : list Edge.
Hypothesis p_edge : In p E.
Hypothesis p_unmatched : ~ In p M.
Hypothesis q_matched : In q M.
Hypothesis flip_arcs : forall a, In a flip <-> a = swap p \/ a = q.

Lemma swap_not_edge a : In a E -> ~ In (swap a) E.
Proof.
  intros Ha Hs. apply E_sides in Ha, Hs. destruct a. simpl in *.
  destruct Ha, Hs. congruence.
Qed.

Lemma path_unmatched_arc p' :
  In p' E -> In (swap p') flip -> p' = p.
Proof.
  intros He Hf. apply flip_arcs in Hf. destruct Hf as [Hf|Hf].
  - now apply swap_inj.
  - exfalso. apply (swap_not_edge _ He). rewrite Hf. now apply M_edges.
Qed.

Lemma path_matched_arc q' : In q' M -> In q' flip -> q' = q.
Proof.
  intros Hm Hf. apply flip_arcs in Hf. destruct Hf as [Hf|Hf]; [|assumption].
  exfalso. apply (swap_not_edge _ p_edge). rewrite <- Hf. now apply M_edges.
Qed.

Lemma path_arcs_apart a b :
  In a flip -> In b flip -> fst a = fst b \/ snd a = snd b -> a = b.
Proof.
  intros Ha Hb Hab. apply flip_arcs in Ha, Hb.
  pose proof (E_sides _ p_edge) as [P1 P2].
  pose proof (E_sides _ (M_edges _ q_matched)) as [Q1 Q2].
  destruct Ha as [->| ->], Hb as [->| ->]; auto; exfalso;
    destruct p, q; simpl in *; destruct Hab; congruence.
Qed.

Lemma path_flip_ok_left :
  fst p = fst q -> (forall m, In m M -> snd m <> snd p) ->
  flip_ok flip /\ keeps_side fst flip.
Proof.
  intros Hpq Hu. split; [constructor|split].
  - intros a b Ha Hb Hab. apply path_arcs_apart; auto.
  - intros a b Ha Hb Hab. apply path_arcs_apart; auto.
  - intros p' q' Hf Hp Hn Hq Hpq'.
    apply (path_unmatched_arc _ Hp) in Hf. subst p'.
    replace q' with q; [apply flip_arcs; now right|].
    apply (NoDup_map_inj fst M); auto. congruence.
  - intros p' q' Hf Hp Hn Hq Hpq'.
    apply (path_unmatched_arc _ Hp) in Hf. subst p'.
    exfalso. now apply (Hu q').
  - exists p. repeat split; auto. apply flip_arcs. now left.
  - intros q' Hq Hf. apply (path_matched_arc _ Hq) in Hf. subst q'.
    exists p. repeat split; auto. apply flip_arcs. now left.
  - intros p' Hp Hn Hf. apply (path_unmatched_arc _ Hp) in Hf. subst p'.
    exists q. auto.
Qed.

Lemma path_flip_ok_right :
  snd p = snd q -> (forall m, In m M -> fst m <> fst p) ->
  flip_ok flip /\ keeps_side snd flip.
Proof.
  intros Hpq Hu. split; [constructor|split].
  - intros a b Ha Hb Hab. apply path_arcs_apart; auto.
  - intros a b Ha Hb Hab. apply path_arcs_apart; auto.
  - intros p' q' Hf Hp Hn Hq Hpq'.
    apply (path_unmatched_arc _ Hp) in Hf. subst p'.
    exfalso. now apply (Hu q').
  - intros p' q' Hf Hp Hn Hq Hpq'.
    apply (path_unmatched_arc _ Hp) in Hf. subst p'.
    replace q' with q; [apply flip_arcs; now right|].
    apply (NoDup_map_inj snd M); auto. congruence.
  - exists p. repeat split; auto. apply flip_arcs. now left.
  - intros q' Hq Hf. apply (path_matched_arc _ Hq) in Hf. subst q'.
    exists p. repeat split; auto. apply flip_arcs. now left.
  - intros p' Hp Hn Hf. apply (path_unmatched_arc _ Hp) in Hf. subst p'.
    exists q. auto.
Qed.

(** The new matching is the old one with [q] replaced by [p]. *)
Lemma path_toggled m :
  In m (toggled flip) <-> (In m M /\ m <> q) \/ m = p.
Proof.
  rewrite toggled_In. split.
  - intros [[H1 H2]|(H1 & H2 & H3)].
    + left. split; [assumption|]. intros ->. apply H2, flip_arcs. now right.
    + right. now apply path_unmatched_arc.
  - intros [[H1 H2]| ->].
    + left. split; [assumption|]. intros H. now apply H2, path_matched_arc.
    + right. repeat split; auto. apply flip_arcs. now left.
Qed.

End Path.

(** *** A leaf: no cycle, and every unmatched edge has both ends covered *)

Section Leaf.

Hypothesis acyclic :
  forall c, c <> [] -> NoDup c -> ~ incl (cycle_arcs c) exchange_digraph.
Hypothesis covered : forall p, In p E -> ~ In p M ->
  (exists q, In q M /\ fst q = fst p) /\ (exists q, In q M /\ snd q = snd p).

Variable N : Matching.
Hypothesis N_edges : incl N E.
Hypothesis N_left : NoDup (map fst N).
Hypothesis N_right : NoDup (map snd N).
Hypothesis N_size : length N = length M.

(** The arcs of the exchange digraph on which [M] and [N] differ. *)
Definition difference_arcs : list Edge :=
  filter (fun q => negb (memE q N)) M
  ++ map swap (filter (fun p => negb (memE p M)) N).

Lemma difference_arcs_In a :
  In a difference_arcs <->
  (In a M /\ ~ In a N) \/ (In (swap a) N /\ ~ In (swap a) M).
Proof.
  unfold difference_arcs.
  rewrite in_app_iff, in_map_iff, filter_In, negb_true_iff, memE_false.
  split.
  - intros [H|(p & <- & H)]; [now left|right].
    rewrite swap_swap. apply filter_In in H.
    now rewrite negb_true_iff, memE_false in H.
  - intros [H|H]; [now left|right]. exists (swap a).
    now rewrite swap_swap, filter_In, negb_true_iff, memE_false.
Qed.

Lemma right_ends_covered : incl (map snd M) (map snd N).
Proof.
  apply NoDup_length_incl; [assumption| |].
  { rewrite !length_map. apply Nat.eq_le_incl. symmetry. exact N_size. }
  intros x Hx. apply in_map_iff in Hx. destruct Hx as (p & <- & Hp).
  destruct (in_dec Edge_eq_dec p M) as [Hm|Hm]; [now apply in_map|].
  destruct (covered _ (N_edges _ Hp) Hm) as [_ (q & Hq & <-)]. now apply in_map.
Qed.

Lemma difference_arcs_successor a :
  In a difference_arcs -> exists b, In b difference_arcs /\ fst b = snd a.
Proof.
  intros Ha. apply difference_arcs_In in Ha. destruct Ha as [[Hm Hn]|[Hn Hm]].
  - assert (Hs : In (snd a) (map snd N)) by (apply right_ends_covered; now apply in_map).
    apply in_map_iff in Hs. destruct Hs as (p & Hp & Hin).
    exists (swap p). split; [|assumption].
    apply difference_arcs_In. right. rewrite swap_swap. split; [assumption|].
    intros Hpm. apply Hn. replace a with p; [assumption|].
    apply (NoDup_map_inj snd M); auto.
  - destruct (covered _ (N_edges _ Hn) Hm) as [(q & Hq & Hqa) _].
    exists q. split; [|assumption].
    apply difference_arcs_In. left. split; [assumption|].
    intros Hqn. apply Hm. replace (swap a) with q; [assumption|].
    apply (NoDup_map_inj fst N); auto.
Qed.

Lemma difference_arcs_exchange : incl difference_arcs exchange_digraph.
Proof.
  intros a Ha. apply difference_arcs_In in Ha. apply arc_In.
  destruct Ha as [[Hm _]|[Hn Hm]]; [now left|right].
  split; [now apply N_edges|assumption].
Qed.

Theorem leaf_matching_unique : incl N M /\ incl M N.
Proof.
  assert (Hdec : incl N M \/ exists p, In p N /\ ~ In p M).
  { clear. induction N as [|p N' IH]; [left; intros x []|].
    destruct (in_dec Edge_eq_dec p M) as [Hp|Hp].
    - destruct IH as [IH|(p' & H1 & H2)].
      + left. intros x [<-|Hx]; auto.
      + right. exists p'. split; [now right|assumption].
    - right. exists p. split; [now left|assumption]. }
  destruct Hdec as [Hi|(p & Hp & Hm)].
  - split; [assumption|].
    apply NoDup_length_incl; [|lia|assumption].
    now apply NoDup_map_inv in N_left.
  - exfalso.
    destruct (@successor_cycle difference_arcs) as (c & Hc & Hn & Hi).
    + intros Hnil.
      assert (Hin : In (swap p) difference_arcs).
      { apply difference_arcs_In. right. now rewrite swap_swap. }
      rewrite Hnil in Hin. contradiction.
    + apply difference_arcs_successor.
    + apply (acyclic Hc Hn). intros a Ha.
      now apply difference_arcs_exchange, Hi.
Qed.

End Leaf.

End Exchange.

(** * One call of the enumerator on a bipartite graph *)

(** The edge [e] written (left, right). *)
Definition orient (g : Graph) (e : Edge) : Edge :=
  if leftb g (fst e) then e else swap e.

Definition oriented_edges (g : Graph) : list Edge := map (orient g) (edges g).

(** The pairs of [match_] that touch a node of [g]. *)
Definition live (g : Graph) (match_ : Matching) : Matching :=
  filter (fun p => has_node g (fst p) || has_node g (snd p)) match_.

Definition add_list (add_e : option (list Edge)) : list Edge :=
  match add_e with
  | Some l => l
  | None => []
  end.

Lemma append_add_e_list new_match add_e :
  append_add_e new_match add_e = new_match ++ add_list add_e.
Proof. destruct add_e; simpl; [reflexivity|now rewrite app_nil_r]. Qed.

Lemma extend_add_e_list e add_e : extend_add_e e add_e = e :: add_list add_e.
Proof. now destruct add_e. Qed.

Lemma right_not_left g x : rightb g x = true -> leftb g x = false.
Proof. unfold leftb, rightb. now destruct (bipartite g x) as [[|a]| |]. Qed.

Lemma left_right_sides g p :
  left_right g p = true -> leftb g (fst p) = true /\ leftb g (snd p) = false.
Proof.
  unfold left_right. rewrite andb_true_iff. intros [H1 H2].
  split; [assumption|now apply right_not_left].
Qed.

Section BipartiteGraph.

Variable g : Graph.
Hypothesis g_bipartite : bipartite_graphb g = true.

Lemma graph_nodes : NoDup (nodes g).
Proof.
  unfold bipartite_graphb in g_bipartite.
  rewrite !andb_true_iff in g_bipartite. now apply nodupb_NoDup.
Qed.

Lemma graph_cross e : In e (edges g) -> crossb g e = true.
Proof.
  unfold bipartite_graphb in g_bipartite.
  rewrite !andb_true_iff, forallb_forall in g_bipartite.
  now apply g_bipartite.
Qed.

Lemma graph_simple : simpleb (edges g) = true.
Proof.
  unfold bipartite_graphb in g_bipartite.
  now rewrite !andb_true_iff in g_bipartite.
Qed.

Lemma orient_left_right e : crossb g e = true -> left_right g (orient g e) = true.
Proof.
  unfold crossb, orient. rewrite orb_true_iff. intros [H|H].
  - apply left_right_sides in H as H'. destruct H' as [-> _]. assumption.
  - apply left_right_sides in H as H'. destruct e as [a b]. simpl in *.
    destruct H' as [_ ->]. assumption.
Qed.

Lemma orient_same_edge e : same_edge (orient g e) e = true.
Proof.
  unfold orient. apply same_edge_iff. destruct (leftb g (fst e)); auto.
Qed.

Lemma left_right_orient e p :
  left_right g p = true -> same_edge p e = true -> orient g e = p.
Proof.
  intros H Hs. apply left_right_sides in H. destruct H as [H1 H2].
  apply same_edge_iff in Hs. unfold orient. destruct Hs as [->| ->].
  - now rewrite H1.
  - destruct e as [a b]. simpl in *. now rewrite H2.
Qed.

Lemma oriented_edges_In p :
  In p (oriented_edges g) <-> left_right g p = true /\ edge_inb g p = true.
Proof.
  unfold oriented_edges, edge_inb. rewrite in_map_iff, existsb_exists. split.
  - intros (e & <- & He). split.
    + now apply orient_left_right, graph_cross.
    + exists e. split; [assumption|apply orient_same_edge].
  - intros (H & e & He & Hs). exists e. split; [|assumption].
    now apply left_right_orient.
Qed.

Lemma oriented_edges_sides p :
  In p (oriented_edges g) ->
  leftb g (fst p) = true /\ leftb g (snd p) = false.
Proof. intros H. apply oriented_edges_In in H. now apply left_right_sides. Qed.

Lemma simpleb_map_nodup (f : Edge -> Edge) l :
  simpleb l = true -> (forall a, same_edge (f a) a = true) -> NoDup (map f l).
Proof.
  intros Hs Hf. induction l as [|a l IH]; simpl in *; [constructor|].
  apply andb_true_iff in Hs. destruct Hs as [H1 H2]. constructor; [|auto].
  intros Hin. apply in_map_iff in Hin. destruct Hin as (b & Hb & Hin).
  apply negb_true_iff in H1. rewrite <- not_true_iff_false in H1. apply H1.
  apply existsb_exists. exists b. split; [assumption|].
  apply same_edge_trans with (f a); [apply same_edge_sym, Hf|].
  rewrite <- Hb. apply Hf.
Qed.

Lemma oriented_edges_nodup : NoDup (oriented_edges g).
Proof.
  apply simpleb_map_nodup; [apply graph_simple|apply orient_same_edge].
Qed.

End BipartiteGraph.

(** What holds of the arguments of every call: the graph is bipartite, the
    pairs of [match_] inside the graph are edges written (left, right) that
    cover no vertex twice, and the forced edges lie outside the graph and
    cover no vertex twice. *)
Record call_inv (g : Graph) (match_ : Matching) (add : list Edge) : Prop := {
  inv_graph : bipartite_graphb g = true;
  inv_live : incl (live g match_) (oriented_edges g);
  inv_valid : NoDup (endpoints (live g match_));
  inv_add_dead : forall p, In p add ->
    has_node g (fst p) = false /\ has_node g (snd p) = false;
  inv_add_valid : NoDup (endpoints add)
}.

Lemma bipartite_left g x : leftb g x = true -> bipartite g x = Ok 0.
Proof. apply leftb_bipartite. Qed.

Lemma has_node_In g x : has_node g x = true <-> In x (nodes g).
Proof. apply memV_In. Qed.

Lemma arc_same_edge M p : same_edge (arc M p) p = true.
Proof. unfold arc. apply same_edge_iff. destruct (memE p M); auto. Qed.

Lemma add_edge_new d u v : ~ In (u, v) d -> add_edge d u v = d ++ [(u, v)].
Proof. intros H. unfold add_edge. apply memE_false in H. now rewrite H. Qed.

Section CallFacts.

Variable g : Graph.
Variable match_ : Matching.
Variable add : list Edge.
Hypothesis Hinv : call_inv g match_ add.

Let E := oriented_edges g.
Let M := live g match_.

Lemma live_left : NoDup (map fst M).
Proof. eapply NoDup_app_remove_r. apply (inv_valid Hinv). Qed.

Lemma live_right : NoDup (map snd M).
Proof. eapply NoDup_app_remove_l. apply (inv_valid Hinv). Qed.

Lemma E_sides_of_g p :
  In p E -> leftb g (fst p) = true /\ leftb g (snd p) = false.
Proof. apply oriented_edges_sides, (inv_graph Hinv). Qed.

Lemma edge_ends_nodes e :
  In e (edges g) -> In (fst e) (nodes g) /\ In (snd e) (nodes g).
Proof.
  intros H. apply (@graph_cross g (inv_graph Hinv)) in H.
  unfold crossb, left_right in H. simpl in H.
  rewrite orb_true_iff, !andb_true_iff in H.
  destruct H as [[H1 H2]|[H1 H2]]; auto using leftb_node, rightb_node.
Qed.

Lemma matched_test ee :
  In ee (edges g) ->
  memE ee match_ || memE (swap ee) match_ = memE (orient g ee) M.
Proof.
  intros He. destruct (edge_ends_nodes _ He) as [N1 N2].
  apply eq_true_iff_eq. rewrite orb_true_iff, !memE_In. split.
  - intros H.
    assert (Hp : exists p, In p M /\ same_edge p ee = true).
    { destruct H as [H|H]; [exists ee|exists (swap ee)];
        (split; [|apply same_edge_iff; auto]);
        apply filter_In; (split; [assumption|]); simpl;
        apply has_node_In in N1, N2; rewrite ?N1, ?N2; auto using orb_true_r. }
    destruct Hp as (p & Hp & Hs).
    assert (Ho : orient g ee = p).
    { apply left_right_orient; [|assumption].
      now apply (@oriented_edges_In g (inv_graph Hinv)), (inv_live Hinv). }
    now rewrite Ho.
  - intros H. apply filter_In in H. destruct H as [H _].
    unfold orient in H. destruct (leftb g (fst ee)); auto.
Qed.

Lemma formDirected_loop_exchange es :
  forall d,
    incl es (edges g) ->
    NoDup (d ++ map (fun ee => arc M (orient g ee)) es) ->
    formDirected_loop g match_ es d
    = Ok (d ++ map (fun ee => arc M (orient g ee)) es).
Proof.
  induction es as [|ee es IH]; intros d Hi Hn; simpl.
  - now rewrite app_nil_r.
  - assert (He : In ee (edges g)) by (apply Hi; now left).
    rewrite (matched_test _ He).
    assert (Hd : forall b, bipartite g (fst ee) = Ok b ->
              (if memE (orient g ee) M
               then if b =? 0 then add_edge d (fst ee) (snd ee)
                    else add_edge d (snd ee) (fst ee)
               else if b =? 0 then add_edge d (snd ee) (fst ee)
                    else add_edge d (fst ee) (snd ee))
              = d ++ [arc M (orient g ee)]).
    { intros b Hb.
      assert (Hnew : ~ In (arc M (orient g ee)) d).
      { apply NoDup_remove_2 in Hn. intros H. apply Hn.
        apply in_or_app. now left. }
      assert (Hl : leftb g (fst ee) = (b =? 0)).
      { unfold leftb. rewrite Hb. now destruct b. }
      unfold arc, orient in *. rewrite Hl in *. destruct ee as [u v].
      simpl in *. destruct (b =? 0);
        match goal with
        | |- context [memE ?p M] => destruct (memE p M)
        end; now apply add_edge_new. }
    destruct (bipartite g (fst ee)) as [b| |] eqn:Hb.
    + simpl. rewrite (Hd b eq_refl), IH.
      * now rewrite <- app_assoc.
      * intros x Hx. apply Hi. now right.
      * now rewrite <- app_assoc.
    + exfalso. destruct (edge_ends_nodes _ He) as [N1 _].
      pose proof (@graph_cross g (inv_graph Hinv) _ He) as Hc.
      unfold crossb, left_right, leftb, rightb in Hc. simpl in Hc.
      rewrite Hb in Hc. simpl in Hc. rewrite andb_false_r in Hc.
      discriminate.
    + exfalso. now apply (@ror_bipartite g (fst ee)).
Qed.

Lemma formDirected_exchange : formDirected g match_ = Ok (exchange_digraph E M).
Proof.
  unfold formDirected, exchange_digraph, E, oriented_edges.
  rewrite map_map.
  rewrite (@formDirected_loop_exchange (edges g) []); auto.
  - apply incl_refl.
  - simpl. apply (@simpleb_map_nodup (fun ee => arc M (orient g ee))).
    + apply graph_simple, (inv_graph Hinv).
    + intros a. eapply same_edge_trans; [apply arc_same_edge|].
      apply orient_same_edge.
Qed.

Lemma E_attributes p :
  In p E ->
  bipartite g (fst p) = Ok 0 /\ exists a, bipartite g (snd p) = Ok (S a).
Proof.
  intros H. apply (@oriented_edges_In g (inv_graph Hinv)) in H.
  destruct H as [H _]. unfold left_right in H. apply andb_true_iff in H.
  destruct H as [H1 H2]. split; [now apply leftb_bipartite|].
  now apply rightb_bipartite.
Qed.

Lemma new_match_loop_filter flip E' :
  forall acc,
    incl E' E ->
    new_match_loop g flip (map (arc M) E') acc
    = Ok (acc ++ filter (kept M flip) E').
Proof.
  induction E' as [|p E' IH]; intros acc Hi;
    cbn [map new_match_loop filter].
  - now rewrite app_nil_r.
  - destruct (E_attributes p) as (Hl & a & Hr); [apply Hi; now left|].
    assert (Hi' : incl E' E) by (intros x Hx; apply Hi; now right).
    assert (Ha : arc M p = if memE p M then p else swap p) by reflexivity.
    assert (Hk : kept M flip p
                 = if memE p M then negb (memE p flip) else memE (swap p) flip)
      by reflexivity.
    rewrite !Ha, Hk. destruct (memE p M).
    + destruct (memE p flip); cbn [negb].
      * rewrite Hr. cbn [bind Nat.eqb]. now apply IH.
      * rewrite Hl. cbn [bind Nat.eqb]. rewrite IH by assumption.
        now rewrite <- app_assoc.
    + destruct (memE (swap p) flip); destruct p as [u v];
        unfold swap; cbn [fst snd] in *.
      * rewrite Hl. cbn [bind Nat.eqb]. rewrite IH by assumption.
        now rewrite <- app_assoc.
      * rewrite Hr. cbn [bind Nat.eqb]. now apply IH.
Qed.

Lemma new_match_loop_toggled flip :
  new_match_loop g flip (exchange_digraph E M) [] = Ok (toggled E M flip).
Proof.
  unfold exchange_digraph. rewrite new_match_loop_filter; [reflexivity|].
  apply incl_refl.
Qed.

(** The uncovered vertices, as the code computes them from [match_]. *)
Lemma all_uncovered_In v :
  In v (differenceV (differenceV (nodes g) (map fst match_)) (map snd match_))
  <-> In v (nodes g) /\ ~ In v (endpoints M).
Proof.
  unfold differenceV, endpoints.
  rewrite !filter_In, !negb_true_iff, !memV_false, in_app_iff.
  assert (Hf : forall f : Edge -> V, (f = fst \/ f = snd) ->
             In v (nodes g) -> (In v (map f match_) <-> In v (map f M))).
  { intros f Hf Hv. rewrite !in_map_iff. split.
    - intros (p & Hp & Hin). exists p. split; [assumption|].
      apply filter_In. split; [assumption|]. apply has_node_In in Hv.
      destruct Hf as [-> | ->]; rewrite Hp, Hv; auto using orb_true_r.
    - intros (p & Hp & Hin). exists p. split; [assumption|].
      apply filter_In in Hin. tauto. }
  split.
  - intros [[Hv H1] H2]. split; [assumption|].
    rewrite <- (Hf fst), <- (Hf snd); auto. tauto.
  - intros [Hv H]. rewrite (Hf fst), (Hf snd); auto. tauto.
Qed.

Lemma not_isolated v e :
  In e (edges g) -> incident v e = true -> memV v (isolates g) = false.
Proof.
  intros He Hv. apply memV_false. unfold isolates. rewrite filter_In.
  intros [_ H]. apply negb_true_iff in H.
  rewrite <- not_true_iff_false in H. apply H. apply existsb_exists. eauto.
Qed.

Lemma isolated_no_edge v p :
  In v (nodes g) -> memV v (isolates g) = true -> In p E ->
  fst p <> v /\ snd p <> v.
Proof.
  intros Hv Hi Hp. apply memV_In in Hi. unfold isolates in Hi.
  apply filter_In in Hi. destruct Hi as [_ Hi]. apply negb_true_iff in Hi.
  unfold E, oriented_edges in Hp. apply in_map_iff in Hp.
  destruct Hp as (e & <- & He).
  assert (Hn : incident v e = false).
  { apply not_true_is_false. intros Ht.
    rewrite <- not_true_iff_false in Hi. apply Hi.
    apply existsb_exists. eauto. }
  unfold incident in Hn. apply orb_false_iff in Hn.
  rewrite !Nat.eqb_neq in Hn. unfold orient.
  destruct (leftb g (fst e)); simpl; tauto.
Qed.

End CallFacts.

(** ** The search for a path of length two *)

Lemma reverse_In d a : In a (reverse d) <-> In (swap a) d.
Proof.
  unfold reverse. rewrite in_map_iff. split.
  - intros (b & <- & H). now rewrite swap_swap.
  - intros H. exists (swap a). now rewrite swap_swap.
Qed.

Lemma len2_In paths P :
  In P (len2 paths) <-> exists k, In (k, P) paths /\ length P = 3.
Proof.
  unfold len2. rewrite in_map_iff. split.
  - intros ([k P'] & <- & H). apply filter_In in H. destruct H as [H E].
    apply Nat.eqb_eq in E. eauto.
  - intros (k & H & E). exists (k, P). split; [reflexivity|].
    apply filter_In. split; [assumption|]. now apply Nat.eqb_eq.
Qed.

Section PathSearch.

Variable X : Collaborators.
Hypothesis X_contract : contract X.
Variable g : Graph.
Variable match_ : Matching.
Variable add : list Edge.
Hypothesis Hinv : call_inv g match_ add.

Let E := oriented_edges g.
Let M := live g match_.
Let D := exchange_digraph E M.

Lemma D_vertex u :
  In u (nodes g) -> memV u (isolates g) = false ->
  memV u (dnodes D) = true /\ memV u (dnodes (reverse D)) = true.
Proof.
  intros Hu Hi.
  assert (He : exists e, In e (edges g) /\ incident u e = true).
  { apply existsb_exists. destruct (existsb (incident u) (edges g)) eqn:Hx;
      [reflexivity|]. exfalso. apply memV_false in Hi. apply Hi.
    unfold isolates. apply filter_In. now rewrite Hx. }
  destruct He as (e & He & Hinc).
  set (a := arc M (orient g e)).
  assert (Ha : In a D).
  { unfold D, exchange_digraph, E, oriented_edges. rewrite map_map.
    apply in_map_iff. now exists e. }
  assert (Hs : same_edge a e = true).
  { eapply same_edge_trans; [apply arc_same_edge|apply orient_same_edge]. }
  assert (Hends : fst a = u \/ snd a = u).
  { apply same_edge_iff in Hs. unfold incident in Hinc.
    rewrite orb_true_iff, !Nat.eqb_eq in Hinc.
    destruct Hs as [->| ->]; simpl; tauto. }
  split; apply memV_In, dnodes_In.
  - exists a. auto.
  - exists (swap a). rewrite reverse_In, swap_swap. simpl. tauto.
Qed.

(** What the scan returns: paths of three vertices out of one uncovered
    vertex, or nothing when no uncovered vertex has a vertex at distance
    two, forwards or backwards. *)
Lemma find_len2paths_spec us :
  (forall u, In u us -> In u (nodes g)) ->
  match find_len2paths X g D us with
  | Ok (Some (ps, reversed)) =>
      ps <> [] /\
      exists u, In u us /\
        forall P, In P ps ->
          exists w x, P = [u; w; x] /\
            In (u, w) (if reversed : bool then reverse D else D) /\
            In (w, x) (if reversed : bool then reverse D else D)
  | Ok None =>
      forall u d, In u us -> d = D \/ d = reverse D ->
        forall w x, In (u, w) d -> In (w, x) d -> x <> u -> In (u, x) d
  | _ => False
  end.
Proof.
  induction us as [|u us IH]; intros Hus; cbn [find_len2paths].
  - intros u d [].
  - assert (Hu : In u (nodes g)) by (apply Hus; now left).
    assert (IH' := IH (fun v Hv => Hus v (or_intror Hv))). clear IH.
    destruct (memV u (isolates g)) eqn:Hiso; cbn [negb].
    + destruct (find_len2paths X g D us) as [[[ps reversed]|]| |];
        try assumption; cbv beta iota in IH' |- *.
      * destruct IH' as (Hne & v & Hv & HP). split; [assumption|].
        exists v. split; [now right|assumption].
      * intros v d [<-|Hv] Hd w x Hw; [|now apply (IH' v d)].
        exfalso.
        assert (Hw' : exists p, In p E /\ (fst p = u \/ snd p = u)).
        { destruct Hd as [-> | ->]; [|apply reverse_In in Hw];
            apply (arc_In (inv_live Hinv)) in Hw;
            destruct Hw as [Hw|[Hw _]];
            try apply (inv_live Hinv) in Hw;
            (eexists; split; [exact Hw|simpl; auto]). }
        destruct Hw' as (p & Hp & Hpu).
        destruct (isolated_no_edge g u p Hu Hiso Hp). tauto.
    + destruct (D_vertex u Hu Hiso) as [Hd1 Hd2].
      unfold shortest_paths. rewrite Hd1, Hd2. cbn [bind].
      destruct (0 <? length (len2 (single_source_shortest_path X D u 2)))
        eqn:H1.
      { split.
        - intros Hnil. rewrite Hnil in H1. discriminate.
        - exists u. split; [now left|]. intros P HP. apply len2_In in HP.
          destruct HP as (k & HP & Hl).
          destruct (shortest_path_sound X_contract _ _ _ _ HP Hl)
            as (w & x & -> & Hw & Hx). eauto. }
      destruct (0 <? length (len2 (single_source_shortest_path X (reverse D) u 2)))
        eqn:H2.
      { split.
        - intros Hnil. rewrite Hnil in H2. discriminate.
        - exists u. split; [now left|]. intros P HP. apply len2_In in HP.
          destruct HP as (k & HP & Hl).
          destruct (shortest_path_sound X_contract _ _ _ _ HP Hl)
            as (w & x & -> & Hw & Hx). eauto. }
      assert (Hnone : forall d, d = D \/ d = reverse D ->
                forall w x, In (u, w) d -> In (w, x) d -> x <> u ->
                  In (u, x) d).
      { intros d Hd w x Hw Hx Hxu.
        destruct (in_dec Edge_eq_dec (u, x) d) as [Hin|Hin]; [assumption|].
        exfalso.
        destruct (@shortest_path_complete X X_contract d u w x Hw Hx Hxu Hin)
          as (k & P & HP & Hl).
        assert (HP' : In P (len2 (single_source_shortest_path X d u 2)))
          by (apply len2_In; eauto).
        destruct Hd as [-> | ->].
        - apply Nat.ltb_ge in H1.
          destruct (len2 (single_source_shortest_path X D u 2));
            [contradiction|]. simpl in H1. lia.
        - apply Nat.ltb_ge in H2.
          destruct (len2 (single_source_shortest_path X (reverse D) u 2));
            [contradiction|]. simpl in H2. lia. }
      destruct (find_len2paths X g D us) as [[[ps reversed]|]| |];
        try assumption; cbv beta iota in IH' |- *.
      * destruct IH' as (Hne & v & Hv & HP). split; [assumption|].
        exists v. split; [now right|assumption].
      * intros v d [<-|Hv] Hd; [now apply Hnone|now apply (IH' v d)].
Qed.

End PathSearch.

(** ** The two subproblems *)

(** [g] without the edge [e], and [g] without the two ends of [e]. *)
Definition minus_graph (g : Graph) (e : Edge) : Graph :=
  {| node := node g;
     edges := filter (fun x => negb (same_edge e x)) (edges g) |}.

Definition plus_graph (g : Graph) (e : Edge) : Graph :=
  {| node := filter (fun p => negb (fst p =? snd e))
               (filter (fun p => negb (fst p =? fst e)) (node g));
     edges := filter (fun x => negb (incident (snd e) x))
                (filter (fun x => negb (incident (fst e) x)) (edges g)) |}.

Lemma lookup_attr_filter tbl x y :
  y <> x ->
  lookup_attr (filter (fun p => negb (fst p =? x)) tbl) y = lookup_attr tbl y.
Proof.
  intros H. induction tbl as [|[z a] tbl IH]; simpl; [reflexivity|].
  destruct (z =? x) eqn:Ez; simpl.
  - apply Nat.eqb_eq in Ez. subst z.
    destruct (y =? x) eqn:Ey; [apply Nat.eqb_eq in Ey; contradiction|].
    assumption.
  - now rewrite IH.
Qed.

Lemma plus_graph_bipartite g e y :
  y <> fst e -> y <> snd e -> bipartite (plus_graph g e) y = bipartite g y.
Proof.
  intros H1 H2. unfold bipartite, plus_graph. simpl.
  now rewrite !lookup_attr_filter.
Qed.

Lemma plus_graph_nodes g e y :
  In y (nodes (plus_graph g e)) <->
  In y (nodes g) /\ y <> fst e /\ y <> snd e.
Proof.
  unfold nodes, plus_graph. simpl. rewrite !in_map_iff. split.
  - intros (p & <- & H). rewrite !filter_In, !negb_true_iff, !Nat.eqb_neq in H.
    destruct H as [[H1 H2] H3]. repeat split; auto.
    exists p. auto.
  - intros ((p & <- & H) & H1 & H2). exists p. split; [reflexivity|].
    rewrite !filter_In, !negb_true_iff, !Nat.eqb_neq. auto.
Qed.

Lemma plus_graph_edges g e x :
  In x (edges (plus_graph g e)) <->
  In x (edges g) /\ incident (fst e) x = false /\ incident (snd e) x = false.
Proof.
  unfold plus_graph. simpl. rewrite !filter_In, !negb_true_iff. tauto.
Qed.

Lemma incident_false x e :
  incident x e = false <-> fst e <> x /\ snd e <> x.
Proof. unfold incident. now rewrite orb_false_iff, !Nat.eqb_neq. Qed.

Lemma simpleb_filter f l : simpleb l = true -> simpleb (filter f l) = true.
Proof.
  induction l as [|a l IH]; simpl; [reflexivity|].
  rewrite andb_true_iff, negb_true_iff. intros [H1 H2].
  destruct (f a); simpl; [|auto]. rewrite IH by assumption.
  rewrite andb_true_r, negb_true_iff. apply not_true_is_false. intros H.
  rewrite <- not_true_iff_false in H1. apply H1.
  apply existsb_exists in H. destruct H as (b & Hb & Hs).
  apply filter_In in Hb. apply existsb_exists. exists b. tauto.
Qed.

Lemma minus_graph_wf g e :
  bipartite_graphb g = true -> bipartite_graphb (minus_graph g e) = true.
Proof.
  unfold bipartite_graphb, minus_graph, nodes, crossb, left_right, leftb,
    rightb, bipartite. simpl.
  rewrite !andb_true_iff, !forallb_forall. intros [[H1 H2] H3].
  repeat split; auto using simpleb_filter.
  intros x Hx. apply filter_In in Hx. apply H2. tauto.
Qed.

Lemma plus_graph_wf g e :
  bipartite_graphb g = true -> bipartite_graphb (plus_graph g e) = true.
Proof.
  intros H. pose proof (@graph_nodes g H) as Hn.
  pose proof (@graph_cross g H) as Hc. pose proof (@graph_simple g H) as Hs.
  unfold bipartite_graphb. rewrite !andb_true_iff. repeat split.
  - apply nodupb_NoDup. unfold nodes, plus_graph in *. simpl.
    clear - Hn. induction (node g) as [|[z a] tbl IH]; simpl in *;
      [constructor|]. inv Hn.
    destruct (z =? fst e); simpl; auto.
    destruct (z =? snd e); simpl; auto. constructor; auto.
    intros Hin. apply H1. apply in_map_iff in Hin.
    destruct Hin as (p & Hp & Hin). rewrite !filter_In in Hin.
    apply in_map_iff. exists p. tauto.
  - apply forallb_forall. intros x Hx. apply plus_graph_edges in Hx.
    destruct Hx as (Hx & H1 & H2). apply Hc in Hx.
    apply incident_false in H1, H2.
    unfold crossb, left_right, leftb, rightb in *. simpl in *.
    rewrite !plus_graph_bipartite by tauto. assumption.
  - unfold plus_graph. simpl. now repeat apply simpleb_filter.
Qed.

Lemma form_subproblems_ok g e :
  In (fst e) (nodes g) -> In (snd e) (nodes g) -> fst e <> snd e ->
  edge_inb g e = true ->
  form_subproblems g e = Ok (plus_graph g e, minus_graph g e).
Proof.
  intros H1 H2 Hne He. unfold form_subproblems, remove_node.
  apply has_node_In in H1. rewrite H1. cbn [bind].
  assert (H2' : has_node
            {| node := filter (fun p => negb (fst p =? fst e)) (node g);
               edges := filter (fun e0 => negb (incident (fst e) e0)) (edges g) |}
            (snd e) = true).
  { apply has_node_In. unfold nodes. simpl. apply in_map_iff in H2.
    destruct H2 as (p & Hp & Hin). apply in_map_iff. exists p.
    split; [assumption|]. apply filter_In. split; [assumption|].
    apply negb_true_iff, Nat.eqb_neq. intros Hx. apply Hne.
    transitivity (fst p); [symmetry; exact Hx|exact Hp]. }
  rewrite H2'. cbn [bind]. unfold remove_edge.
  replace (fst e, snd e) with e by now destruct e.
  unfold edge_inb in He. rewrite He. reflexivity.
Qed.

Lemma same_edge_ends e e' x :
  same_edge e e' = true ->
  (x <> fst e /\ x <> snd e <-> x <> fst e' /\ x <> snd e').
Proof.
  intros H. apply same_edge_iff in H. destruct H as [->| ->]; simpl; tauto.
Qed.

Lemma endpoints_nodup (L : V -> bool) (T : Matching) :
  (forall p, In p T -> L (fst p) = true /\ L (snd p) = false) ->
  NoDup (map fst T) -> NoDup (map snd T) -> NoDup (endpoints T).
Proof.
  intros HL H1 H2. unfold endpoints. apply NoDup_app; auto.
  intros x Hx Hy. apply in_map_iff in Hx, Hy.
  destruct Hx as (p & <- & Hp), Hy as (q & Hq & Hq').
  apply HL in Hp, Hq'. destruct Hp, Hq'. congruence.
Qed.

Lemma endpoints_In m x :
  In x (endpoints m) <-> exists p, In p m /\ (fst p = x \/ snd p = x).
Proof.
  unfold endpoints. rewrite in_app_iff, !in_map_iff. split.
  - intros [(p & <- & H)|(p & <- & H)]; eauto.
  - intros (p & H & [<-|<-]); eauto.
Qed.

Lemma NoDup_app_apart {A : Type} (l1 l2 : list A) x :
  NoDup (l1 ++ l2) -> In x l1 -> ~ In x l2.
Proof.
  induction l1 as [|a l1 IH]; simpl; [contradiction|].
  intros H [->|Hx] Hy; inv H.
  - apply H2. apply in_or_app. now right.
  - now apply IH.
Qed.

Lemma NoDup_map_filter {A B : Type} (h : A -> B) f (l : list A) :
  NoDup (map h l) -> NoDup (map h (filter f l)).
Proof.
  induction l as [|a l IH]; simpl; intros H; [constructor|].
  inv H. destruct (f a); simpl; [|auto]. constructor; [|auto].
  intros Hin. apply H2. apply in_map_iff in Hin.
  destruct Hin as (b & Hb & Hin). apply filter_In in Hin.
  apply in_map_iff. exists b. tauto.
Qed.

Lemma endpoints_filter_nodup f m :
  NoDup (endpoints m) -> NoDup (endpoints (filter f m)).
Proof.
  unfold endpoints. intros H. apply NoDup_app.
  - apply NoDup_map_filter. now apply NoDup_app_remove_r in H.
  - apply NoDup_map_filter. now apply NoDup_app_remove_l in H.
  - intros x Hx Hy. apply (NoDup_app_apart _ _ x H).
    + apply in_map_iff in Hx. destruct Hx as (p & <- & Hp).
      apply filter_In in Hp. apply in_map. tauto.
    + apply in_map_iff in Hy. destruct Hy as (p & <- & Hp).
      apply filter_In in Hp. apply in_map. tauto.
Qed.

Lemma live_app g a b : live g (a ++ b) = live g a ++ live g b.
Proof. apply filter_app. Qed.

Lemma live_dead g add :
  (forall p, In p add ->
     has_node g (fst p) = false /\ has_node g (snd p) = false) ->
  live g add = [].
Proof.
  intros H. unfold live. induction add as [|p add IH]; simpl; [reflexivity|].
  destruct (H p (or_introl eq_refl)) as [-> ->]. simpl.
  apply IH. intros q Hq. apply H. now right.
Qed.

Lemma live_all g T :
  (forall p, In p T -> In (fst p) (nodes g)) -> live g T = T.
Proof.
  intros H. unfold live. induction T as [|p T IH]; simpl; [reflexivity|].
  assert (Hp : has_node g (fst p) = true) by (apply has_node_In, H; now left).
  rewrite Hp. simpl. f_equal. apply IH. intros q Hq. apply H. now right.
Qed.

Lemma minus_graph_oriented g e p :
  bipartite_graphb g = true ->
  (In p (oriented_edges (minus_graph g e)) <->
   In p (oriented_edges g) /\ same_edge e p = false).
Proof.
  intros Hg.
  rewrite (@oriented_edges_In _ (@minus_graph_wf g e Hg)),
    (@oriented_edges_In _ Hg).
  assert (Hlr : left_right (minus_graph g e) p = left_right g p) by reflexivity.
  rewrite Hlr. unfold edge_inb, minus_graph. simpl.
  rewrite !existsb_exists. split.
  - intros (H & x & Hx & Hs). apply filter_In in Hx. destruct Hx as [Hx Hn].
    split; [split; eauto|]. apply negb_true_iff in Hn.
    apply not_true_is_false. intros Ht. rewrite <- not_true_iff_false in Hn.
    apply Hn. now apply same_edge_trans with p.
  - intros [(H & x & Hx & Hs) Hn]. split; [assumption|]. exists x.
    split; [|assumption]. apply filter_In. split; [assumption|].
    apply negb_true_iff, not_true_is_false. intros Ht.
    rewrite <- not_true_iff_false in Hn. apply Hn.
    apply same_edge_trans with x; [assumption|now apply same_edge_sym].
Qed.

Lemma plus_graph_leftb g e y :
  y <> fst e -> y <> snd e -> leftb (plus_graph g e) y = leftb g y.
Proof. intros. unfold leftb. now rewrite plus_graph_bipartite. Qed.

Lemma plus_graph_rightb g e y :
  y <> fst e -> y <> snd e -> rightb (plus_graph g e) y = rightb g y.
Proof. intros. unfold rightb. now rewrite plus_graph_bipartite. Qed.

Definition away_from (e p : Edge) : Prop :=
  (fst p <> fst e /\ fst p <> snd e) /\ (snd p <> fst e /\ snd p <> snd e).

Lemma plus_graph_oriented g e p :
  bipartite_graphb g = true ->
  (In p (oriented_edges (plus_graph g e)) <->
   In p (oriented_edges g) /\ away_from e p).
Proof.
  intros Hg.
  rewrite (@oriented_edges_In _ (@plus_graph_wf g e Hg)),
    (@oriented_edges_In _ Hg).
  unfold edge_inb, away_from. rewrite !existsb_exists. split.
  - intros (H & x & Hx & Hs).
    assert (Ha : (fst p <> fst e /\ fst p <> snd e) /\
                 (snd p <> fst e /\ snd p <> snd e)).
    { unfold left_right in H. apply andb_true_iff in H. destruct H as [H1 H2].
      apply leftb_node, plus_graph_nodes in H1.
      apply rightb_node, plus_graph_nodes in H2. tauto. }
    split; [|assumption]. apply plus_graph_edges in Hx. split; [|exists x; tauto].
    unfold left_right in *.
    now rewrite plus_graph_leftb, plus_graph_rightb in H by tauto.
  - intros [(H & x & Hx & Hs) Ha]. split.
    + unfold left_right in *.
      now rewrite plus_graph_leftb, plus_graph_rightb by tauto.
    + exists x. split; [|assumption]. apply plus_graph_edges.
      split; [assumption|]. rewrite !incident_false.
      apply same_edge_iff in Hs. destruct Hs as [->| ->]; simpl in *; tauto.
Qed.

Lemma matching_apart M p q :
  NoDup (endpoints M) -> In p M -> In q M -> p <> q -> away_from q p.
Proof.
  intros H Hp Hq Hne. unfold endpoints in H.
  pose proof (NoDup_app_remove_r _ _ H) as H1.
  pose proof (NoDup_app_remove_l _ _ H) as H2.
  unfold away_from. repeat split; intros Hx.
  - apply Hne. now apply (NoDup_map_inj fst M).
  - apply (NoDup_app_apart _ _ (fst p) H); [now apply in_map|].
    rewrite Hx. now apply in_map.
  - apply (NoDup_app_apart _ _ (fst q) H); [now apply in_map|].
    rewrite <- Hx. now apply in_map.
  - apply Hne. now apply (NoDup_map_inj snd M).
Qed.

Lemma filter_both {A : Type} (f f1 f2 : A -> bool) (l : list A) :
  (forall x, In x l -> f x = f1 x && f2 x) ->
  filter f l = filter f2 (filter f1 l).
Proof.
  induction l as [|a l IH]; simpl; intros H; [reflexivity|].
  rewrite (H a (or_introl eq_refl)).
  assert (IH' := IH (fun x Hx => H x (or_intror Hx))).
  destruct (f1 a); simpl; [|assumption].
  destruct (f2 a); simpl; now rewrite IH'.
Qed.

Lemma filter_out_absent (l : list Edge) x :
  ~ In x l -> filter (fun y => negb (edge_eqb y x)) l = l.
Proof.
  induction l as [|a l IH]; simpl; intros H; [reflexivity|].
  destruct (edge_eqb a x) eqn:E.
  - apply edge_eqb_eq in E. subst a. elim H. now left.
  - simpl. f_equal. apply IH. intros Hin. apply H. now right.
Qed.

Lemma filter_out_length (l : list Edge) x :
  NoDup l -> In x l ->
  S (length (filter (fun y => negb (edge_eqb y x)) l)) = length l.
Proof.
  induction l as [|a l IH]; simpl; [contradiction|].
  intros H Hx. inv H. destruct (edge_eqb a x) eqn:E; simpl.
  - apply edge_eqb_eq in E. subst a. now rewrite filter_out_absent.
  - f_equal. apply IH; [assumption|]. destruct Hx as [->|Hx]; [|assumption].
    now rewrite edge_eqb_refl in E.
Qed.

Section Children.

Variable g : Graph.
Variable add : list Edge.

Lemma new_match_inv match_ T :
  call_inv g match_ add ->
  incl T (oriented_edges g) -> NoDup (map fst T) -> NoDup (map snd T) ->
  live g (T ++ add) = T /\ call_inv g (T ++ add) add.
Proof.
  intros Hinv HT H1 H2.
  assert (Hl : live g (T ++ add) = T).
  { rewrite live_app, (@live_dead g add (inv_add_dead Hinv)), app_nil_r.
    apply live_all. intros p Hp. apply HT in Hp.
    apply (@oriented_edges_sides g (inv_graph Hinv)) in Hp.
    apply leftb_node. tauto. }
  split; [assumption|]. constructor; rewrite ?Hl.
  - apply (inv_graph Hinv).
  - assumption.
  - apply (endpoints_nodup (leftb g)); auto.
    intros p Hp. now apply (@oriented_edges_sides g (inv_graph Hinv)), HT.
  - apply (inv_add_dead Hinv).
  - apply (inv_add_valid Hinv).
Qed.

Lemma minus_inv m e :
  call_inv g m add ->
  (forall q, In q (live g m) -> same_edge e q = false) ->
  call_inv (minus_graph g e) m add.
Proof.
  intros Hinv He.
  assert (Hl : live (minus_graph g e) m = live g m) by reflexivity.
  constructor; rewrite ?Hl.
  - apply minus_graph_wf, (inv_graph Hinv).
  - intros q Hq. apply minus_graph_oriented; [apply (inv_graph Hinv)|].
    split; [now apply (inv_live Hinv)|now apply He].
  - apply (inv_valid Hinv).
  - apply (inv_add_dead Hinv).
  - apply (inv_add_valid Hinv).
Qed.

Lemma away_from_same e e' p :
  same_edge e e' = true -> (away_from e p <-> away_from e' p).
Proof.
  intros H. unfold away_from.
  now rewrite (@same_edge_ends e e' (fst p) H), (@same_edge_ends e e' (snd p) H).
Qed.

Lemma plus_live m e e' :
  call_inv g m add -> In e' (live g m) -> same_edge e e' = true ->
  live (plus_graph g e) m
  = filter (fun p => negb (edge_eqb p e')) (live g m).
Proof.
  intros Hinv He' Hs. unfold live. apply filter_both.
  intros p Hp.
  assert (Hnode : forall y, has_node (plus_graph g e) y = true <->
            has_node g y = true /\ y <> fst e' /\ y <> snd e').
  { intros y. rewrite !has_node_In, plus_graph_nodes.
    rewrite (@same_edge_ends e e' y Hs). tauto. }
  destruct (has_node g (fst p) || has_node g (snd p)) eqn:Hg.
  - assert (HpM : In p (live g m)) by (apply filter_In; auto).
    destruct (edge_eqb p e') eqn:Ep; simpl.
    + apply edge_eqb_eq in Ep. subst p. apply orb_false_iff.
      split; apply not_true_is_false; intros Ht; apply Hnode in Ht; tauto.
    + assert (Hne : p <> e').
      { intros ->. now rewrite edge_eqb_refl in Ep. }
      destruct (@matching_apart _ p e' (inv_valid Hinv) HpM He' Hne) as [[A1 A2] _].
      apply (inv_live Hinv), (@oriented_edges_sides g (inv_graph Hinv)) in HpM.
      apply orb_true_iff. left. apply Hnode. split; [|tauto].
      apply has_node_In, leftb_node. tauto.
  - simpl. apply orb_false_iff in Hg. destruct Hg as [G1 G2].
    apply orb_false_iff. split; apply not_true_is_false; intros Ht;
      apply Hnode in Ht; destruct Ht; congruence.
Qed.

Lemma plus_inv m e e' :
  call_inv g m add -> In e' (live g m) -> same_edge e e' = true ->
  call_inv (plus_graph g e) m (e :: add).
Proof.
  intros Hinv He' Hs. pose proof (@plus_live m e e' Hinv He' Hs) as Hl.
  pose proof (inv_graph Hinv) as Hg.
  assert (Hsides : leftb g (fst e') = true /\ leftb g (snd e') = false).
  { now apply (@oriented_edges_sides g Hg), (inv_live Hinv). }
  assert (Hends : In (fst e) (nodes g) /\ In (snd e) (nodes g) /\
                  fst e <> snd e).
  { apply (inv_live Hinv), (@oriented_edges_In g Hg) in He'.
    destruct He' as [Hlr _]. unfold left_right in Hlr.
    apply andb_true_iff in Hlr. destruct Hlr as [L1 L2].
    apply leftb_node in L1 as N1. apply rightb_node in L2 as N2.
    assert (fst e' <> snd e') by (intros Hx; rewrite Hx in *; destruct Hsides; congruence).
    apply same_edge_iff in Hs. destruct Hs as [-> | ->]; simpl; auto. }
  constructor; rewrite ?Hl.
  - now apply plus_graph_wf.
  - intros p Hp. apply filter_In in Hp. destruct Hp as [Hp Hne].
    apply plus_graph_oriented; [assumption|].
    split; [now apply (inv_live Hinv)|].
    apply (@away_from_same e e' p Hs).
    apply (@matching_apart (live g m)); auto; [apply (inv_valid Hinv)|].
    intros ->. now rewrite edge_eqb_refl in Hne.
  - apply endpoints_filter_nodup, (inv_valid Hinv).
  - intros p [<-|Hp].
    + split; apply not_true_is_false; intros Ht;
        apply has_node_In, plus_graph_nodes in Ht; tauto.
    + destruct (inv_add_dead Hinv p Hp) as [D1 D2].
      split; apply not_true_is_false; intros Ht;
        apply has_node_In, plus_graph_nodes in Ht;
        destruct Ht as [Ht _]; apply has_node_In in Ht; congruence.
  - unfold endpoints. simpl.
    assert (Hdead : forall x, In x (endpoints add) -> ~ In x (nodes g)).
    { intros x Hx Hn. apply endpoints_In in Hx.
      destruct Hx as (p & Hp & Hx). apply has_node_In in Hn.
      destruct (inv_add_dead Hinv p Hp) as [D1 D2].
      destruct Hx as [<-|<-]; congruence. }
    pose proof (inv_add_valid Hinv) as Hv. unfold endpoints in *.
    constructor.
    + rewrite in_app_iff. simpl. intros [Hx|[Hx|Hx]].
      * apply (Hdead (fst e)); [apply in_or_app; now left|tauto].
      * destruct Hends as (_ & _ & Hne). congruence.
      * apply (Hdead (fst e)); [apply in_or_app; now right|tauto].
    + apply (@Permutation_NoDup _ (snd e :: map fst add ++ map snd add)).
      * apply Permutation_middle.
      * constructor; [|assumption]. intros Hx. apply (Hdead (snd e) Hx). tauto.
Qed.

Lemma plus_live_length m e e' :
  call_inv g m add -> In e' (live g m) -> same_edge e e' = true ->
  S (length (live (plus_graph g e) m)) = length (live g m).
Proof.
  intros Hinv He' Hs. rewrite (@plus_live m e e' Hinv He' Hs).
  apply filter_out_length; [|assumption].
  pose proof (inv_valid Hinv) as Hv. unfold endpoints in Hv.
  apply NoDup_app_remove_r in Hv. now apply NoDup_map_inv in Hv.
Qed.

End Children.

(** ** What one call does on a bipartite graph *)

Lemma first_In {A : Type} (l : list A) :
  l <> [] -> exists x, first l = Ok x /\ In x l.
Proof. destruct l as [|x l]; [contradiction|]. exists x. split; [reflexivity|now left]. Qed.

Section PathCaseFacts.

Variable g : Graph.
Variable match_ : Matching.
Variable add : list Edge.
Hypothesis Hinv : call_inv g match_ add.

Let E := oriented_edges g.
Let M := live g match_.
Let D := exchange_digraph E M.

Lemma live_match p : In p M -> In p match_.
Proof. intros H. apply filter_In in H. tauto. Qed.

Lemma match_live p :
  In p match_ -> In (fst p) (nodes g) \/ In (snd p) (nodes g) -> In p M.
Proof.
  intros H Hn. apply filter_In. split; [assumption|].
  apply orb_true_iff. rewrite !has_node_In. assumption.
Qed.

Lemma uncovered_not_matched u p :
  In u (nodes g) -> ~ In u (endpoints M) -> fst p = u \/ snd p = u ->
  ~ In p match_.
Proof.
  intros Hu Hc Hp Hin. apply Hc. apply endpoints_In. exists p.
  split; [|assumption]. apply match_live; [assumption|].
  destruct Hp as [-> | ->]; auto.
Qed.

Lemma path_case_facts (reversed : bool) u w x :
  In u (nodes g) -> ~ In u (endpoints M) ->
  In (u, w) (if reversed then reverse D else D) ->
  In (w, x) (if reversed then reverse D else D) ->
  exists p q,
    In p E /\ ~ In p M /\ In q M /\
    (forall a, In a (zip_consecutive (if reversed then rev [u; w; x] else [u; w; x]))
               <-> a = swap p \/ a = q) /\
    ((fst p = fst q /\ forall m, In m M -> snd m <> snd p) \/
     (snd p = snd q /\ forall m, In m M -> fst m <> fst p)) /\
    (forall a, In a (differenceE
                       (zip_consecutive (if reversed then rev [u; w; x] else [u; w; x]))
                       match_) <-> a = swap p).
Proof.
  intros Hu Hc Hw Hx.
  assert (Hcov : forall m, In m M -> fst m <> u /\ snd m <> u).
  { intros m Hm. split; intros Hx'; apply Hc, endpoints_In; eauto. }
  destruct reversed.
  - apply reverse_In in Hw, Hx. simpl in Hw, Hx.
    apply (arc_In (inv_live Hinv)) in Hw. simpl in Hw.
    destruct Hw as [Hw|[Hw Hwn]]; [apply Hcov in Hw; simpl in Hw; tauto|].
    destruct (@E_sides_of_g g match_ add Hinv _ Hw) as [L1 L2]. simpl in *.
    assert (Hq : In (x, w) M).
    { apply (matched_arc (leftb g) (@E_sides_of_g g match_ add Hinv)
               (inv_live Hinv) _ Hx).
      rewrite (arc_sides (leftb g) (@E_sides_of_g g match_ add Hinv)
                 (inv_live Hinv) _ Hx). simpl. now rewrite L2. }
    exists (u, w), (x, w). repeat split; auto.
    + simpl. intros [<-|[<-|[]]]; auto.
    + simpl. intros [->| ->]; auto.
    + right. split; [reflexivity|]. intros m Hm. now apply Hcov.
    + unfold differenceE. simpl.
      assert (H1 : memE (x, w) match_ = true) by now apply memE_In, live_match.
      assert (H2 : memE (w, u) match_ = false).
      { apply memE_false. apply (@uncovered_not_matched u); auto. }
      rewrite H1, H2. simpl. intros [<-|[]]. reflexivity.
    + unfold differenceE. simpl.
      assert (H1 : memE (x, w) match_ = true) by now apply memE_In, live_match.
      assert (H2 : memE (w, u) match_ = false).
      { apply memE_false. apply (@uncovered_not_matched u); auto. }
      rewrite H1, H2. simpl. intros ->. now left.
  - apply (arc_In (inv_live Hinv)) in Hw. simpl in Hw.
    destruct Hw as [Hw|[Hw Hwn]]; [apply Hcov in Hw; simpl in Hw; tauto|].
    destruct (@E_sides_of_g g match_ add Hinv _ Hw) as [L1 L2]. simpl in *.
    assert (Hq : In (w, x) M).
    { now apply (matched_arc (leftb g) (@E_sides_of_g g match_ add Hinv)
                   (inv_live Hinv) _ Hx). }
    exists (w, u), (w, x). repeat split; auto.
    + simpl. intros [<-|[<-|[]]]; auto.
    + simpl. intros [->| ->]; auto.
    + left. split; [reflexivity|]. intros m Hm. now apply Hcov.
    + unfold differenceE. simpl.
      assert (H1 : memE (w, x) match_ = true) by now apply memE_In, live_match.
      assert (H2 : memE (u, w) match_ = false).
      { apply memE_false. apply (@uncovered_not_matched u); auto. }
      rewrite H1, H2. simpl. intros [<-|[]]. reflexivity.
    + unfold differenceE. simpl.
      assert (H1 : memE (w, x) match_ = true) by now apply memE_In, live_match.
      assert (H2 : memE (u, w) match_ = false).
      { apply memE_false. apply (@uncovered_not_matched u); auto. }
      rewrite H1, H2. simpl. intros ->. now left.
Qed.

End PathCaseFacts.

Lemma first_only {A : Type} (l : list A) x :
  (forall a, In a l <-> a = x) -> first l = Ok x.
Proof.
  intros H. destruct l as [|a l].
  - exfalso. now apply (H x).
  - simpl. f_equal. apply H. now left.
Qed.

Lemma oriented_edge_subproblems g e e' :
  bipartite_graphb g = true ->
  In e' (oriented_edges g) -> same_edge e e' = true ->
  form_subproblems g e = Ok (plus_graph g e, minus_graph g e).
Proof.
  intros Hg He' Hs. apply (@oriented_edges_In g Hg) in He'.
  destruct He' as [Hlr Hin]. unfold left_right in Hlr.
  apply andb_true_iff in Hlr. destruct Hlr as [L1 L2].
  apply leftb_node in L1 as N1. apply rightb_node in L2 as N2.
  assert (Hne : fst e' <> snd e').
  { intros Hx. rewrite Hx in L1. apply right_not_left in L2. congruence. }
  assert (Hin' : edge_inb g e = true).
  { unfold edge_inb in *. apply existsb_exists in Hin.
    destruct Hin as (x & Hx & Hxs). apply existsb_exists. exists x.
    split; [assumption|]. now apply same_edge_trans with e'. }
  apply same_edge_iff in Hs.
  destruct Hs as [-> | ->]; apply form_subproblems_ok; simpl; auto.
Qed.

(** A leaf of the recursion: the exchange digraph has no cycle and no
    uncovered vertex has a vertex at distance exactly two, forwards or
    backwards. *)
Definition leaf_cond (g : Graph) (match_ : Matching) : Prop :=
  let D := exchange_digraph (oriented_edges g) (live g match_) in
  (forall c, c <> [] -> NoDup c -> ~ incl (cycle_arcs c) D) /\
  (forall u d, In u (nodes g) -> ~ In u (endpoints (live g match_)) ->
     d = D \/ d = reverse D ->
     forall w x, In (u, w) d -> In (w, x) d -> x <> u -> In (u, x) d).

(** A branching call: the new matching is the current one toggled along
    [flip] plus the forced edges; [e] is an edge of the graph, in the
    current matching and not in the new one (cycle case) or the other way
    round (path case); the subproblems are as the code forms them. *)
Definition branch_spec (g : Graph) (match_ : Matching)
    (add_e : option (list Edge)) (br : Branching) : Prop :=
  let E := oriented_edges g in
  let M := live g match_ in
  exists flip e',
    flip_ok E M flip /\
    (keeps_side E M fst flip \/ keeps_side E M snd flip) /\
    br_new_match br = toggled E M flip ++ add_list add_e /\
    In e' E /\ same_edge (br_e br) e' = true /\
    ((br_case br = CycleCase /\ In e' M /\ ~ In e' (toggled E M flip)) \/
     (br_case br = PathCase /\ ~ In e' M /\ In e' (toggled E M flip))) /\
    br_first br =
      mkCall (minus_graph g (br_e br))
        (match br_case br with CycleCase => br_new_match br | PathCase => match_ end)
        add_e /\
    br_second br =
      mkCall (plus_graph g (br_e br))
        (match br_case br with CycleCase => match_ | PathCase => br_new_match br end)
        (Some (br_e br :: add_list add_e)).

Section OneCall.

Variable X : Collaborators.
Hypothesis X_contract : contract X.
Variable g : Graph.
Variable match_ : Matching.
Variable add_e : option (list Edge).
Hypothesis Hinv : call_inv g match_ (add_list add_e).

Let E := oriented_edges g.
Let M := live g match_.
Let D := exchange_digraph E M.

Let E_sides := @E_sides_of_g g match_ (add_list add_e) Hinv.
Let M_edges := inv_live Hinv.
Let M_left := live_left Hinv.
Let M_right := live_right Hinv.

Lemma cycle_branch c cs :
  simple_cycles X D = c :: cs ->
  match
    (cycle0 <- first (c :: cs) ;;
     let cycle := zip_consecutive (cycle0 ++ firstn 1 cycle0) in
     new_match0 <- new_match_loop g cycle D [] ;;
     let new_match := append_add_e new_match0 add_e in
     e <- first (set_listE X (intersectionE match_ cycle)) ;;
     gs <- form_subproblems g e ;;
     let add_e_new := extend_add_e e add_e in
     Ok (Some {| br_case := CycleCase;
                 br_new_match := new_match;
                 br_e := e;
                 br_first := mkCall (snd gs) new_match add_e;
                 br_second := mkCall (fst gs) match_ (Some add_e_new) |}))
  with
  | Ok (Some br) => branch_spec g match_ add_e br
  | Ok None => leaf_cond g match_
  | _ => False
  end.
Proof.
  intros Hcyc. cbn [first bind].
  destruct (simple_cycles_sound X_contract D c) as (Hc & Hn & Hi).
  { rewrite Hcyc. now left. }
  change (zip_consecutive (c ++ firstn 1 c)) with (cycle_arcs c).
  rewrite (new_match_loop_toggled Hinv). cbn [bind].
  fold E M.
  pose proof (cycle_flip_ok (leftb g) E_sides M_edges M_left M_right Hc Hn Hi)
    as Hok.
  pose proof (cycle_keeps_left (leftb g) E_sides M_edges c Hi) as Hkeep.
  destruct (cycle_has_matched (leftb g) E_sides M_edges Hc Hn Hi) as (q & Hq & Hqf).
  assert (Hsel : forall a, In a (set_listE X (intersectionE match_ (cycle_arcs c)))
                   <-> In a M /\ In a (cycle_arcs c)).
  { intros a. rewrite (set_listE_In X_contract). unfold intersectionE.
    rewrite filter_In, memE_In. split.
    - intros [H1 H2]. split; [|assumption].
      apply (@match_live g match_); [assumption|].
      apply Hi, (arc_In M_edges) in H2.
      destruct H2 as [H2|[H2 _]].
      + apply M_edges, E_sides in H2. left. apply leftb_node. tauto.
      + apply E_sides in H2. right. apply leftb_node. simpl in H2. tauto.
    - intros [H1 H2]. split; [|assumption]. now apply (@live_match g match_). }
  destruct (@first_In _ (set_listE X (intersectionE match_ (cycle_arcs c))))
    as (e & He & Hein).
  { intros Hnil. assert (Hx : In q (set_listE X (intersectionE match_ (cycle_arcs c))))
      by now apply Hsel.
    rewrite Hnil in Hx. contradiction. }
  rewrite He. cbn [bind]. apply Hsel in Hein. destruct Hein as [HeM Hef].
  rewrite (@oriented_edge_subproblems g e e (inv_graph Hinv));
    [|now apply M_edges|apply same_edge_refl].
  cbn [bind fst snd]. unfold branch_spec. cbn [br_case br_new_match br_e br_first br_second].
  exists (cycle_arcs c), e. fold E M.
  rewrite append_add_e_list, extend_add_e_list.
  split; [exact Hok|]. split; [left; exact Hkeep|].
  split; [reflexivity|]. split; [now apply M_edges|].
  split; [apply same_edge_refl|]. split; [|split; reflexivity].
  left. split; [reflexivity|]. split; [assumption|].
  intros Ht. apply (toggled_In M_edges) in Ht.
  destruct Ht as [[_ Ht]|(_ & Ht & _)]; contradiction.
Qed.

Lemma path_branch (reversed : bool) u w x ps :
  In u (nodes g) -> ~ In u (endpoints M) ->
  In (u, w) (if reversed then reverse D else D) ->
  In (w, x) (if reversed then reverse D else D) ->
  match
    (len2path0 <- first ([u; w; x] :: ps) ;;
     let len2path :=
       zip_consecutive (if reversed then rev len2path0 else len2path0) in
     new_match0 <- new_match_loop g len2path D [] ;;
     let new_match := append_add_e new_match0 add_e in
     e <- first (set_listE X (differenceE len2path match_)) ;;
     gs <- form_subproblems g e ;;
     let add_e_new := extend_add_e e add_e in
     Ok (Some {| br_case := PathCase;
                 br_new_match := new_match;
                 br_e := e;
                 br_first := mkCall (snd gs) match_ add_e;
                 br_second := mkCall (fst gs) new_match (Some add_e_new) |}))
  with
  | Ok (Some br) => branch_spec g match_ add_e br
  | Ok None => leaf_cond g match_
  | _ => False
  end.
Proof.
  intros Hu Hc Hw Hx. cbn [first bind].
  destruct (path_case_facts Hinv reversed u w x Hu Hc Hw Hx)
    as (p & q & Hp & Hpn & Hq & Hflip & Hside & Hdiff).
  set (flip := zip_consecutive (if reversed then rev [u; w; x] else [u; w; x]))
    in *.
  rewrite (new_match_loop_toggled Hinv). cbn [bind]. fold E M.
  rewrite (@first_only _ (set_listE X (differenceE flip match_)) (swap p)).
  2:{ intros a. rewrite (set_listE_In X_contract). apply Hdiff. }
  cbn [bind].
  assert (Hsame : same_edge (swap p) p = true).
  { apply same_edge_iff. now right. }
  rewrite (@oriented_edge_subproblems g (swap p) p (inv_graph Hinv) Hp Hsame).
  cbn [bind fst snd]. unfold branch_spec.
  cbn [br_case br_new_match br_e br_first br_second].
  exists flip, p. fold E M.
  rewrite append_add_e_list, extend_add_e_list.
  assert (Hok : flip_ok E M flip /\
                (keeps_side E M fst flip \/ keeps_side E M snd flip)).
  { destruct Hside as [[Hs Hun]|[Hs Hun]].
    - destruct (path_flip_ok_left (leftb g) E_sides M_edges M_left flip
                  Hp Hpn Hq Hflip Hs Hun); auto.
    - destruct (path_flip_ok_right (leftb g) E_sides M_edges M_right flip
                  Hp Hpn Hq Hflip Hs Hun); auto. }
  destruct Hok as [Hok Hkeep].
  split; [exact Hok|]. split; [exact Hkeep|].
  split; [reflexivity|]. split; [assumption|].
  split; [assumption|]. split; [|split; reflexivity].
  right. split; [reflexivity|]. split; [assumption|].
  apply (toggled_In M_edges). right. repeat split; auto.
  apply Hflip. now left.
Qed.

(** One call on arguments that meet the invariant: it branches as
    [branch_spec] says or stops at a leaf, and raises nothing. *)
Lemma iter_body_spec :
  match iter_body X g match_ add_e with
  | Ok (Some br) => branch_spec g match_ add_e br
  | Ok None => leaf_cond g match_
  | _ => False
  end.
Proof.
  unfold iter_body. rewrite (formDirected_exchange Hinv). cbn [bind].
  fold E M D.
  destruct (simple_cycles X D) as [|c cs] eqn:Hcyc; cbn [length Nat.eqb].
  - assert (Hacyc : forall c, c <> [] -> NoDup c -> ~ incl (cycle_arcs c) D).
    { intros c Hc Hn Hi.
      now apply (@simple_cycles_complete X X_contract D c Hc Hn Hi). }
    set (us := set_listV X
                 (differenceV (differenceV (nodes g) (map fst match_))
                    (map snd match_))).
    assert (Hus : forall u, In u us <->
                    In u (nodes g) /\ ~ In u (endpoints M)).
    { intros u. unfold us. rewrite (set_listV_In X_contract).
      apply all_uncovered_In. }
    destruct (length us =? 0) eqn:Hlen.
    + split; [exact Hacyc|]. intros u d Hu Hc. exfalso.
      apply Nat.eqb_eq, length_zero_iff_nil in Hlen.
      assert (Hin : In u us) by (apply Hus; auto).
      rewrite Hlen in Hin. contradiction.
    + pose proof (find_len2paths_spec X_contract Hinv us
                    (fun u Hu => proj1 (proj1 (Hus u) Hu))) as Hf.
      fold E M D in Hf.
      destruct (find_len2paths X g D us) as [[[ps reversed]|]| |];
        try contradiction; cbn [bind].
      * destruct Hf as (Hne & u & Hu & HP).
        destruct ps as [|P ps]; [contradiction|].
        destruct (HP P (or_introl eq_refl)) as (w & x & -> & Hw & Hx).
        apply Hus in Hu. destruct Hu as [Hun Huc].
        apply path_branch; assumption.
      * split; [exact Hacyc|]. intros u d Hu Hc Hd.
        apply Hf; [|assumption]. apply Hus. auto.
  - now apply cycle_branch.
Qed.

End OneCall.

(** * Sets of undirected edges *)

(** [p] is an edge of [S], whichever way round it is written there. *)
Definition has_edge (S : Matching) (p : Edge) : Prop :=
  exists q, In q S /\ same_edge p q = true.

(** [S] and [T] are the same set of undirected edges. *)
Definition equiv (S T : Matching) : Prop :=
  forall p, has_edge S p <-> has_edge T p.

Lemma equiv_refl S : equiv S S.
Proof. intros p. tauto. Qed.

Lemma equiv_sym S T : equiv S T -> equiv T S.
Proof. intros H p. now rewrite (H p). Qed.

Lemma equiv_trans S T U : equiv S T -> equiv T U -> equiv S U.
Proof. intros H1 H2 p. now rewrite (H1 p), (H2 p). Qed.

Lemma has_edge_app S T p : has_edge (S ++ T) p <-> has_edge S p \/ has_edge T p.
Proof.
  unfold has_edge. split.
  - intros (q & Hq & Hs). apply in_app_or in Hq. destruct Hq; eauto.
  - intros [(q & Hq & Hs)|(q & Hq & Hs)]; exists q; split; auto;
      apply in_or_app; auto.
Qed.

Lemma has_edge_single e p : has_edge [e] p <-> same_edge p e = true.
Proof.
  unfold has_edge. split.
  - intros (q & [<-|[]] & Hs). assumption.
  - intros H. exists e. split; [now left|assumption].
Qed.

Lemma has_edge_same S p p' :
  same_edge p p' = true -> (has_edge S p <-> has_edge S p').
Proof.
  intros H. unfold has_edge. split; intros (q & Hq & Hs); exists q;
    (split; [assumption|]).
  - apply same_edge_trans with p; [now apply same_edge_sym|assumption].
  - now apply same_edge_trans with p'.
Qed.

Lemma has_edge_In S p : In p S -> has_edge S p.
Proof. intros H. exists p. split; [assumption|apply same_edge_refl]. Qed.

Lemma equiv_incl S T : incl S T -> incl T S -> equiv S T.
Proof.
  intros H1 H2 p. unfold has_edge. split; intros (q & Hq & Hs); eauto.
Qed.

Lemma equiv_snoc S T e : equiv S T -> equiv (S ++ [e]) (T ++ [e]).
Proof. intros H p. rewrite !has_edge_app, (H p). tauto. Qed.

Lemma equiv_snoc_cancel S T e :
  ~ has_edge S e -> ~ has_edge T e -> equiv (S ++ [e]) (T ++ [e]) ->
  equiv S T.
Proof.
  intros HS HT H p. specialize (H p). rewrite !has_edge_app in H.
  rewrite !has_edge_single in H. split; intros Hp.
  - destruct (proj1 H (or_introl Hp)) as [Hx|Hx]; [assumption|].
    exfalso. apply HS. now apply (has_edge_same S p e Hx).
  - destruct (proj2 H (or_introl Hp)) as [Hx|Hx]; [assumption|].
    exfalso. apply HT. now apply (has_edge_same T p e Hx).
Qed.

Lemma equiv_has S T e : equiv S T -> has_edge S e -> has_edge T e.
Proof. intros H. apply H. Qed.

Lemma equiv_filter_out A e e' :
  In e' A -> same_edge e e' = true ->
  equiv A (filter (fun p => negb (edge_eqb p e')) A ++ [e]).
Proof.
  intros Hin Hs p. rewrite has_edge_app, has_edge_single. unfold has_edge.
  split.
  - intros (q & Hq & Hpq). destruct (edge_eqb q e') eqn:E.
    + apply edge_eqb_eq in E. subst q. right.
      apply same_edge_trans with e'; [assumption|now apply same_edge_sym].
    + left. exists q. split; [|assumption]. apply filter_In. now rewrite E.
  - intros [(q & Hq & Hpq)|Hpe].
    + apply filter_In in Hq. exists q. tauto.
    + exists e'. split; [assumption|]. now apply same_edge_trans with e.
Qed.

Lemma subsetE_has S T :
  subsetE S T = true <-> forall p, In p S -> has_edge T p.
Proof.
  unfold subsetE. rewrite forallb_forall. unfold has_edge.
  split; intros H p Hp; specialize (H p Hp).
  - apply existsb_exists in H. exact H.
  - apply existsb_exists. exact H.
Qed.

Lemma same_edge_set_equiv S T : same_edge_set S T = true <-> equiv S T.
Proof.
  unfold same_edge_set. rewrite andb_true_iff, !subsetE_has. split.
  - intros [H1 H2] p. split; intros (q & Hq & Hs).
    + destruct (H1 q Hq) as (r & Hr & Hqr). exists r. split; [assumption|].
      now apply same_edge_trans with q.
    + destruct (H2 q Hq) as (r & Hr & Hqr). exists r. split; [assumption|].
      now apply same_edge_trans with q.
  - intros H. split; intros p Hp; apply H; now apply has_edge_In.
Qed.

(** * What the calls append *)

(** [T] is a matching of [g]: edges of [g], no vertex covered twice. *)
Definition matching_of (g : Graph) (T : Matching) : Prop :=
  (forall p, In p T -> edge_inb g p = true) /\ NoDup (endpoints T).

(** No two members of [l] are the same set of edges. *)
Fixpoint distinct (l : list Matching) : Prop :=
  match l with
  | [] => True
  | m :: l' => (forall T, In T l' -> ~ equiv m T) /\ distinct l'
  end.

(** No matching of [g] has more than [n] edges. *)
Definition is_maximum (g : Graph) (n : nat) : Prop :=
  forall N, incl N (oriented_edges g) -> NoDup (endpoints N) -> length N <= n.

(** What a call on [g], with [M] the part of its matching that lies in
    [g], appends (up to the forced edges): matchings of [g] of the size of
    [M], pairwise different, different from [M], and, when [M] is maximum,
    all matchings of that size but [M]. *)
Record post (g : Graph) (M : Matching) (Ts : list Matching) : Prop := {
  post_matchings :
    forall T, In T Ts -> matching_of g T /\ length T = length M;
  post_distinct : distinct Ts;
  post_fresh : forall T, In T Ts -> ~ equiv T M;
  post_complete :
    is_maximum g (length M) ->
    forall N, incl N (oriented_edges g) -> NoDup (endpoints N) ->
      length N = length M ->
      equiv N M \/ exists T, In T Ts /\ equiv T N
}.

Lemma distinct_app l1 l2 :
  distinct (l1 ++ l2) <->
  distinct l1 /\ distinct l2 /\
  (forall S T, In S l1 -> In T l2 -> ~ equiv S T).
Proof.
  induction l1 as [|S l1 IH]; simpl.
  - split; [intros H; repeat split; auto; intros S T []|tauto].
  - rewrite IH. split.
    + intros (H1 & H2 & H3 & H4). repeat split; auto.
      * intros T HT. apply H1. apply in_or_app. now left.
      * intros S' T [<-|HS] HT; [|now apply H4].
        apply H1. apply in_or_app. now right.
    + intros ((H1 & H2) & H3 & H4). repeat split; auto.
      intros T HT. apply in_app_or in HT. destruct HT as [HT|HT]; auto.
Qed.

Lemma distinct_map_snoc e Ts :
  distinct Ts -> (forall T, In T Ts -> ~ has_edge T e) ->
  distinct (map (fun T => T ++ [e]) Ts).
Proof.
  induction Ts as [|S Ts IH]; simpl; [auto|].
  intros [H1 H2] He. split; [|apply IH; auto].
  intros T HT Heq. apply in_map_iff in HT. destruct HT as (T' & <- & HT').
  apply (H1 T' HT'). apply (equiv_snoc_cancel (e := e)); auto.
Qed.

Lemma oriented_has g S e' :
  bipartite_graphb g = true ->
  incl S (oriented_edges g) -> In e' (oriented_edges g) ->
  has_edge S e' -> In e' S.
Proof.
  intros Hg HS He (q & Hq & Hs). apply same_edge_iff in Hs.
  destruct Hs as [->| ->]; [assumption|]. exfalso.
  apply HS in Hq. apply (@oriented_edges_sides g Hg) in Hq, He.
  destruct q. simpl in *. destruct Hq, He. congruence.
Qed.

Lemma oriented_edge_inb g p :
  bipartite_graphb g = true -> In p (oriented_edges g) -> edge_inb g p = true.
Proof. intros Hg H. now apply (@oriented_edges_In g Hg) in H. Qed.

Lemma endpoints_app S T :
  Permutation (endpoints (S ++ T)) (endpoints S ++ endpoints T).
Proof.
  unfold endpoints. rewrite !map_app, <- !app_assoc.
  apply Permutation_app_head. rewrite !app_assoc.
  apply Permutation_app_tail. apply Permutation_app_comm.
Qed.

Lemma endpoints_snoc_nodup T e :
  NoDup (endpoints T) -> fst e <> snd e ->
  ~ In (fst e) (endpoints T) -> ~ In (snd e) (endpoints T) ->
  NoDup (endpoints (T ++ [e])).
Proof.
  intros H Hne H1 H2.
  apply (Permutation_NoDup (Permutation_sym (endpoints_app T [e]))).
  apply NoDup_app; auto.
  - unfold endpoints. simpl. constructor; [|repeat constructor; auto].
    intros [Hx|[]]. congruence.
  - intros x Hx Hy. unfold endpoints in Hy. simpl in Hy.
    destruct Hy as [<-|[<-|[]]]; auto.
Qed.

Lemma edge_ends_away e p :
  away_from e p <-> (forall x, fst p = x \/ snd p = x -> x <> fst e /\ x <> snd e).
Proof.
  unfold away_from. split.
  - intros [H1 H2] x [<-|<-]; assumption.
  - intros H. split; apply H; auto.
Qed.

Lemma minus_graph_edge_inb g e p :
  edge_inb (minus_graph g e) p = true ->
  edge_inb g p = true /\ same_edge e p = false.
Proof.
  unfold edge_inb, minus_graph. simpl. rewrite !existsb_exists.
  intros (x & Hx & Hs). apply filter_In in Hx. destruct Hx as [Hx Hn].
  split; [eauto|]. apply negb_true_iff in Hn. apply not_true_is_false.
  intros Ht. rewrite <- not_true_iff_false in Hn. apply Hn.
  now apply same_edge_trans with p.
Qed.

Lemma plus_graph_edge_inb g e p :
  edge_inb (plus_graph g e) p = true ->
  edge_inb g p = true /\ away_from e p.
Proof.
  unfold edge_inb. rewrite !existsb_exists.
  intros (x & Hx & Hs). apply plus_graph_edges in Hx.
  destruct Hx as (Hx & H1 & H2). split; [eauto|].
  apply incident_false in H1, H2. unfold away_from.
  apply same_edge_iff in Hs. destruct Hs as [->| ->]; simpl; tauto.
Qed.

Lemma minus_matching g e T :
  matching_of (minus_graph g e) T -> matching_of g T /\ ~ has_edge T e.
Proof.
  intros [H1 H2]. split; [split; [|assumption]|].
  - intros p Hp. now apply H1, minus_graph_edge_inb in Hp.
  - intros (q & Hq & Hs). apply H1, minus_graph_edge_inb in Hq.
    destruct Hq. congruence.
Qed.

Lemma away_not_same e p : away_from e p -> same_edge e p = false.
Proof.
  intros [[H1 H2] [H3 H4]]. apply not_true_is_false. intros Hs.
  apply same_edge_iff in Hs. destruct Hs as [->| ->]; simpl in *; congruence.
Qed.

Lemma away_endpoints e T :
  (forall p, In p T -> away_from e p) ->
  ~ In (fst e) (endpoints T) /\ ~ In (snd e) (endpoints T).
Proof.
  intros H. split; intros Hin; apply endpoints_In in Hin;
    destruct Hin as (p & Hp & Hx); destruct (H p Hp) as [[H1 H2] [H3 H4]];
    destruct Hx; congruence.
Qed.

Lemma plus_matching g e T :
  edge_inb g e = true -> fst e <> snd e ->
  matching_of (plus_graph g e) T ->
  matching_of g (T ++ [e]) /\ ~ has_edge T e.
Proof.
  intros He Hne [H1 H2].
  assert (Ha : forall p, In p T -> away_from e p).
  { intros p Hp. now apply H1, plus_graph_edge_inb in Hp. }
  split; [split|].
  - intros p Hp. apply in_app_or in Hp. destruct Hp as [Hp|[<-|[]]];
      [|assumption]. now apply H1, plus_graph_edge_inb in Hp.
  - destruct (@away_endpoints e T Ha). now apply endpoints_snoc_nodup.
  - intros (q & Hq & Hs). apply Ha, away_not_same in Hq. congruence.
Qed.

Lemma is_maximum_minus g e n :
  bipartite_graphb g = true ->
  is_maximum g n -> is_maximum (minus_graph g e) n.
Proof.
  intros Hg H N HN Hn. apply H; [|assumption].
  intros p Hp. apply HN, (@minus_graph_oriented g e p Hg) in Hp. tauto.
Qed.

Lemma is_maximum_plus g e e' n :
  bipartite_graphb g = true ->
  In e' (oriented_edges g) -> same_edge e e' = true ->
  is_maximum g (S n) -> is_maximum (plus_graph g e) n.
Proof.
  intros Hg He' Hs H N HN Hn.
  assert (Ha : forall p, In p N -> away_from e' p).
  { intros p Hp. apply HN, (@plus_graph_oriented g e p Hg) in Hp.
    now apply (@away_from_same e e' p Hs). }
  assert (Hl : length (N ++ [e']) <= S n).
  { apply H.
    - intros p Hp. apply in_app_or in Hp. destruct Hp as [Hp|[<-|[]]];
        [|assumption]. apply HN, (@plus_graph_oriented g e p Hg) in Hp. tauto.
    - destruct (@away_endpoints e' N Ha).
      apply endpoints_snoc_nodup; auto.
      apply (@oriented_edges_sides g Hg) in He'. destruct He' as [L1 L2].
      intros Hx. rewrite Hx in L1. congruence. }
  rewrite length_app in Hl. simpl in Hl. lia.
Qed.

Lemma has_edge_In_same S e p :
  In p S -> same_edge e p = true -> has_edge S e.
Proof. intros H1 H2. now exists p. Qed.

(** ** The two subproblems together

    [A] is the matching that holds the edge [e'] (written [e] in the code)
    and [B] the one that does not; the first recursive call works on [B] in
    the graph without the edge, the second on [A] less [e'] in the graph
    without its ends. *)

Section Combine.

Variable g : Graph.
Variables e e' : Edge.
Variables A B : Matching.
Variables Ts1 Ts2 : list Matching.

Hypothesis Hg : bipartite_graphb g = true.
Hypothesis He' : In e' (oriented_edges g).
Hypothesis Hs : same_edge e e' = true.
Hypothesis HA : incl A (oriented_edges g).
Hypothesis HAn : NoDup (endpoints A).
Hypothesis HAe : In e' A.
Hypothesis HB : incl B (oriented_edges g).
Hypothesis HBn : NoDup (endpoints B).
Hypothesis HBe : ~ In e' B.
Hypothesis Hlen : length B = length A.

Let A' := filter (fun p => negb (edge_eqb p e')) A.

Hypothesis P1 : post (minus_graph g e) B Ts1.
Hypothesis P2 : post (plus_graph g e) A' Ts2.

Let Ts' := Ts1 ++ map (fun T => T ++ [e]) Ts2.

Lemma combine_e_edge : edge_inb g e = true /\ fst e <> snd e.
Proof.
  pose proof (@oriented_edges_sides g Hg e' He') as [L1 L2].
  assert (Hne : fst e' <> snd e') by (intros Hx; rewrite Hx in L1; congruence).
  split.
  - pose proof (@oriented_edge_inb g e' Hg He') as Hin. unfold edge_inb in *.
    apply existsb_exists in Hin. destruct Hin as (x & Hx & Hxs).
    apply existsb_exists. exists x. split; [assumption|].
    now apply same_edge_trans with e'.
  - apply same_edge_iff in Hs. destruct Hs as [-> | ->]; simpl; auto.
Qed.

Lemma combine_has S : incl S (oriented_edges g) -> (has_edge S e <-> In e' S).
Proof.
  intros HS. rewrite (has_edge_same S e e' Hs). split.
  - intros H. exact (@oriented_has g S e' Hg HS He' H).
  - apply has_edge_In.
Qed.

Lemma combine_A_nodup : NoDup A.
Proof.
  unfold endpoints in HAn. apply NoDup_app_remove_r in HAn.
  now apply NoDup_map_inv in HAn.
Qed.

Lemma combine_A'_length : S (length A') = length A.
Proof. apply filter_out_length; [apply combine_A_nodup|assumption]. Qed.

Lemma combine_A'_lacks : ~ has_edge A' e.
Proof.
  intros H. apply combine_has in H.
  - apply filter_In in H. destruct H as [_ H].
    now rewrite edge_eqb_refl in H.
  - intros p Hp. apply filter_In in Hp. apply HA. tauto.
Qed.

Lemma combine_A_equiv : equiv A (A' ++ [e]).
Proof. now apply equiv_filter_out. Qed.

Lemma combine_first T :
  In T Ts1 ->
  (matching_of g T /\ length T = length A) /\ ~ has_edge T e /\ ~ equiv T B.
Proof.
  intros HT. destruct (post_matchings P1 T HT) as [Hm Hl].
  apply minus_matching in Hm. destruct Hm as [Hm Hn].
  split; [split; [exact Hm|transitivity (length B); assumption]|].
  split; [exact Hn|now apply (post_fresh P1)].
Qed.

Lemma combine_second T :
  In T Ts2 ->
  (matching_of g (T ++ [e]) /\ length (T ++ [e]) = length A) /\
  ~ has_edge T e /\ ~ equiv T A'.
Proof.
  intros HT. destruct (post_matchings P2 T HT) as [Hm Hl].
  destruct combine_e_edge as [E1 E2].
  apply (plus_matching E1 E2) in Hm. destruct Hm as [Hm Hn].
  split; [split; [exact Hm|]|split; [exact Hn|now apply (post_fresh P2)]].
  rewrite length_app, Hl, <- combine_A'_length. apply Nat.add_1_r.
Qed.

Lemma combine_members T :
  In T Ts' ->
  (matching_of g T /\ length T = length A) /\ (~ equiv T A /\ ~ equiv T B).
Proof.
  intros HT. apply in_app_or in HT. destruct HT as [HT|HT].
  - destruct (combine_first T HT) as (H1 & H2 & H3).
    split; [exact H1|]. split; [|exact H3]. intros Heq. apply H2.
    apply (equiv_has (equiv_sym Heq)). now apply combine_has.
  - apply in_map_iff in HT. destruct HT as (T' & <- & HT).
    destruct (combine_second T' HT) as (H1 & H2 & H3).
    split; [exact H1|]. split.
    + intros Heq. apply H3. apply (equiv_snoc_cancel (e := e)); auto.
      * apply combine_A'_lacks.
      * apply (equiv_trans Heq combine_A_equiv).
    + intros Heq.
      assert (Hin : has_edge B e).
      { apply (equiv_has Heq). apply has_edge_app. right.
        apply has_edge_single, same_edge_refl. }
      apply combine_has in Hin; auto.
Qed.

Lemma combine_distinct : distinct Ts'.
Proof.
  apply distinct_app. split; [apply (post_distinct P1)|]. split.
  - apply distinct_map_snoc; [apply (post_distinct P2)|].
    intros T HT. now apply combine_second.
  - intros S T HS HT Heq. apply in_map_iff in HT.
    destruct HT as (T' & <- & HT).
    destruct (combine_first S HS) as (_ & Hn & _). apply Hn.
    apply (equiv_has (equiv_sym Heq)). apply has_edge_app. right.
    apply has_edge_single, same_edge_refl.
Qed.

Lemma combine_apart : ~ equiv A B.
Proof.
  intros Heq.
  assert (Hin : has_edge B e) by (apply (equiv_has Heq); now apply combine_has).
  apply combine_has in Hin; auto.
Qed.

Lemma combine_complete :
  is_maximum g (length A) ->
  forall N, incl N (oriented_edges g) -> NoDup (endpoints N) ->
    length N = length A ->
    equiv N A \/ equiv N B \/ exists T, In T Ts' /\ equiv T N.
Proof.
  intros Hmax N HN Hn Hl.
  destruct (in_dec Edge_eq_dec e' N) as [Hin|Hout].
  - set (N' := filter (fun p => negb (edge_eqb p e')) N).
    assert (HNd : NoDup N).
    { unfold endpoints in Hn. apply NoDup_app_remove_r in Hn.
      now apply NoDup_map_inv in Hn. }
    assert (HlN : S (length N') = length N) by now apply filter_out_length.
    assert (HlN' : length N' = length A').
    { pose proof combine_A'_length as HlA. apply eq_add_S.
      transitivity (length N); [exact HlN|].
      transitivity (length A); [exact Hl|now symmetry]. }
    assert (HN' : incl N' (oriented_edges (plus_graph g e))).
    { intros p Hp. apply filter_In in Hp. destruct Hp as [Hp Hne].
      apply (@plus_graph_oriented g e p Hg). split; [now apply HN|].
      apply (@away_from_same e e' p Hs). apply (@matching_apart N); auto.
      intros ->. now rewrite edge_eqb_refl in Hne. }
    assert (Hmax' : is_maximum (plus_graph g e) (length A')).
    { apply (@is_maximum_plus g e e'); auto.
      now rewrite combine_A'_length. }
    destruct (post_complete P2 Hmax' HN' (@endpoints_filter_nodup _ N Hn) HlN')
      as [Heq|(T & HT & Heq)].
    + left. apply equiv_trans with (N' ++ [e]);
        [now apply equiv_filter_out|].
      apply equiv_trans with (A' ++ [e]);
        [now apply equiv_snoc|apply equiv_sym, combine_A_equiv].
    + right. right. exists (T ++ [e]). split.
      * apply in_or_app. right. apply in_map_iff. now exists T.
      * apply equiv_trans with (N' ++ [e]); [now apply equiv_snoc|].
        apply equiv_sym. now apply equiv_filter_out.
  - assert (HN' : incl N (oriented_edges (minus_graph g e))).
    { intros p Hp. apply (@minus_graph_oriented g e p Hg).
      split; [now apply HN|]. apply not_true_is_false. intros Ht.
      apply Hout. apply (combine_has HN). now apply has_edge_In_same with p. }
    assert (Hmax' : is_maximum (minus_graph g e) (length B)).
    { apply is_maximum_minus; [assumption|]. now rewrite Hlen. }
    assert (HlN : length N = length B) by (now rewrite Hlen).
    destruct (post_complete P1 Hmax' HN' Hn HlN) as [Heq|(T & HT & Heq)].
    + right. now left.
    + right. right. exists T. split; [|assumption].
      apply in_or_app. now left.
Qed.

Lemma combine_matching S :
  incl S (oriented_edges g) -> NoDup (endpoints S) -> matching_of g S.
Proof.
  intros H1 H2. split; [|assumption].
  intros p Hp. apply oriented_edge_inb; auto.
Qed.

(** The cycle case: the call holds [A] and appends [B] first. *)
Lemma combine_post_A : post g A (B :: Ts').
Proof.
  constructor.
  - intros T [<-|HT]; [|now apply combine_members].
    split; [now apply combine_matching|exact Hlen].
  - split; [|exact combine_distinct].
    intros T HT Heq. apply combine_members in HT.
    destruct HT as (_ & _ & HT). apply HT. now apply equiv_sym.
  - intros T [<-|HT].
    + intros Heq. apply combine_apart. now apply equiv_sym.
    + apply combine_members in HT. tauto.
  - intros Hmax N HN Hn Hl.
    destruct (combine_complete Hmax HN Hn Hl) as [H|[H|(T & HT & H)]].
    + now left.
    + right. exists B. split; [now left|now apply equiv_sym].
    + right. exists T. split; [now right|assumption].
Qed.

(** The path case: the call holds [B] and appends [A] first. *)
Lemma combine_post_B : post g B (A :: Ts').
Proof.
  constructor.
  - intros T [<-|HT].
    + split; [now apply combine_matching|now symmetry].
    + apply combine_members in HT. destruct HT as ((H1 & H2) & _).
      split; [assumption|]. now rewrite Hlen.
  - split; [|exact combine_distinct].
    intros T HT Heq. apply combine_members in HT.
    destruct HT as (_ & HT & _). apply HT. now apply equiv_sym.
  - intros T [<-|HT].
    + exact combine_apart.
    + apply combine_members in HT. tauto.
  - rewrite Hlen. intros Hmax N HN Hn Hl.
    destruct (combine_complete Hmax HN Hn Hl) as [H|[H|(T & HT & H)]].
    + right. exists A. split; [now left|now apply equiv_sym].
    + now left.
    + right. exists T. split; [now right|assumption].
Qed.

End Combine.

(** ** A leaf appends nothing, and rightly so *)

Section LeafPost.

Variable g : Graph.
Variable match_ : Matching.
Variable add : list Edge.
Hypothesis Hinv : call_inv g match_ add.
Hypothesis Hleaf : leaf_cond g match_.
Hypothesis Hmax : is_maximum g (length (live g match_)).

Let E := oriented_edges g.
Let M := live g match_.
Let D := exchange_digraph E M.

Let Hg := inv_graph Hinv.
Let E_sides := E_sides_of_g Hinv.
Let M_edges : incl M E := inv_live Hinv.

Lemma leaf_unmatched_arc p : In p E -> ~ In p M -> In (swap p) D.
Proof.
  intros Hp Hm. apply (arc_In M_edges). right. now rewrite swap_swap.
Qed.

Lemma leaf_matched_arc q : In q M -> In q D.
Proof. intros Hq. apply (arc_In M_edges). now left. Qed.

Lemma leaf_no_same_side x y : In (x, y) D -> leftb g x <> leftb g y.
Proof.
  intros H. apply (arc_sides (leftb g) E_sides M_edges) in H. simpl in H.
  rewrite H. now destruct (leftb g y).
Qed.

Lemma leaf_ends_nodes p :
  In p E -> In (fst p) (nodes g) /\ In (snd p) (nodes g).
Proof.
  intros Hp. apply (@oriented_edges_In g Hg) in Hp. destruct Hp as [Hp _].
  unfold left_right in Hp. apply andb_true_iff in Hp.
  destruct Hp. split; [now apply leftb_node|now apply rightb_node].
Qed.

Lemma leaf_left_covered_by x :
  leftb g x = true -> In x (endpoints M) -> exists q, In q M /\ fst q = x.
Proof.
  intros Hx Hin. apply endpoints_In in Hin.
  destruct Hin as (q & Hq & [H|H]); [now exists q|].
  apply M_edges, E_sides in Hq. destruct Hq as [_ Hq]. congruence.
Qed.

Lemma leaf_right_covered_by x :
  leftb g x = false -> In x (endpoints M) -> exists q, In q M /\ snd q = x.
Proof.
  intros Hx Hin. apply endpoints_In in Hin.
  destruct Hin as (q & Hq & [H|H]); [|now exists q].
  apply M_edges, E_sides in Hq. destruct Hq as [Hq _]. congruence.
Qed.

Lemma leaf_one_end_covered p :
  In p E -> ~ In p M -> In (fst p) (endpoints M) \/ In (snd p) (endpoints M).
Proof.
  intros Hp Hm.
  destruct (in_dec Nat.eq_dec (fst p) (endpoints M)) as [H1|H1]; [now left|].
  destruct (in_dec Nat.eq_dec (snd p) (endpoints M)) as [H2|H2]; [now right|].
  exfalso.
  assert (Hl : length (M ++ [p]) <= length M).
  { apply Hmax.
    - intros q Hq. apply in_app_or in Hq.
      destruct Hq as [Hq|[<-|[]]]; [now apply M_edges|assumption].
    - apply endpoints_snoc_nodup; auto; [apply (inv_valid Hinv)|].
      destruct (E_sides p Hp) as [L1 L2]. intros Hx. rewrite Hx in L1.
      congruence. }
  rewrite length_app in Hl. simpl in Hl. lia.
Qed.

Lemma leaf_covered p :
  In p E -> ~ In p M ->
  (exists q, In q M /\ fst q = fst p) /\ (exists q, In q M /\ snd q = snd p).
Proof.
  intros Hp Hm. destruct Hleaf as [_ Hnopath].
  destruct (E_sides p Hp) as [L1 L2].
  destruct (leaf_ends_nodes _ Hp) as [N1 N2].
  pose proof (leaf_unmatched_arc _ Hp Hm) as Harc.
  destruct p as [l r]. simpl in *. unfold swap in Harc. simpl in Harc.
  assert (Hleft : exists q, In q M /\ fst q = l).
  { destruct (in_dec Nat.eq_dec l (endpoints M)) as [H1|H1];
      [now apply leaf_left_covered_by|].
    exfalso.
    destruct (leaf_one_end_covered _ Hp Hm) as [H|H]; [now apply H1|].
    simpl in H. apply (leaf_right_covered_by _ L2) in H.
    destruct H as ([x r'] & Hq & Hr). simpl in Hr. subst r'.
    assert (Hx : x <> l).
    { intros ->. apply H1. apply endpoints_In. exists (l, r). auto. }
    assert (Hd : In (l, x) (reverse D)).
    { apply (Hnopath l (reverse D) N1 H1 (or_intror eq_refl) r x); auto.
      - now apply reverse_In.
      - apply reverse_In. now apply leaf_matched_arc. }
    apply reverse_In in Hd. unfold swap in Hd. simpl in Hd.
    apply leaf_no_same_side in Hd.
    apply M_edges, E_sides in Hq. simpl in Hq. destruct Hq as [Hq _].
    apply Hd. now rewrite Hq, L1. }
  split; [assumption|].
  destruct (in_dec Nat.eq_dec r (endpoints M)) as [H2|H2];
    [now apply leaf_right_covered_by|].
  exfalso. destruct Hleft as ([l' y] & Hq & Hl). simpl in Hl. subst l'.
  assert (Hy : y <> r).
  { intros ->. apply H2. apply endpoints_In. exists (l, r). auto. }
  assert (Hd : In (r, y) D).
  { apply (Hnopath r D N2 H2 (or_introl eq_refl) l y); auto.
    now apply leaf_matched_arc. }
  apply leaf_no_same_side in Hd.
  apply M_edges, E_sides in Hq. simpl in Hq. destruct Hq as [_ Hq].
  apply Hd. now rewrite Hq, L2.
Qed.

Lemma leaf_post : post g M [].
Proof.
  constructor.
  - intros T [].
  - exact I.
  - intros T [].
  - intros _ N HN Hn Hl. left.
    assert (H : incl N M /\ incl M N).
    { apply (leaf_matching_unique M_edges (live_right Hinv)
               (proj1 Hleaf) leaf_covered HN); [| |exact Hl].
      - unfold endpoints in Hn. now apply NoDup_app_remove_r in Hn.
      - unfold endpoints in Hn. now apply NoDup_app_remove_l in Hn. }
    destruct H. now apply equiv_incl.
Qed.

End LeafPost.

(** ** The whole recursion *)

Lemma same_edge_oriented g e e' q :
  bipartite_graphb g = true ->
  In e' (oriented_edges g) -> In q (oriented_edges g) ->
  same_edge e e' = true -> same_edge e q = true -> q = e'.
Proof.
  intros Hg He' Hq H1 H2.
  assert (H : same_edge q e' = true).
  { apply same_edge_trans with e; [now apply same_edge_sym|assumption]. }
  apply same_edge_iff in H. destruct H as [H|H]; [assumption|]. exfalso.
  apply (@oriented_edges_sides g Hg) in He', Hq. subst q.
  destruct e'. simpl in *. destruct He', Hq. congruence.
Qed.

Lemma map_snoc_add (e : Edge) add (Ts : list Matching) :
  map (fun T => T ++ e :: add) Ts
  = map (fun T => T ++ add) (map (fun T => T ++ [e]) Ts).
Proof.
  rewrite map_map. apply map_ext. intros T. now rewrite <- app_assoc.
Qed.

Lemma lacks_edge g e e' T :
  bipartite_graphb g = true ->
  In e' (oriented_edges g) -> same_edge e e' = true ->
  incl T (oriented_edges g) -> ~ In e' T ->
  forall q, In q T -> same_edge e q = false.
Proof.
  intros Hg He' Hs HT Hn q Hq. apply not_true_is_false. intros Ht.
  apply Hn. now rewrite <- (@same_edge_oriented g e e' q Hg He' (HT q Hq) Hs Ht).
Qed.

Lemma leaf_post_any g match_ add :
  call_inv g match_ add -> leaf_cond g match_ -> post g (live g match_) [].
Proof.
  intros Hinv Hleaf. constructor.
  - intros T [].
  - exact I.
  - intros T [].
  - intros Hmax. exact (post_complete (leaf_post Hinv Hleaf Hmax) Hmax).
Qed.

Lemma bind_returns {A B : Type} (c : result A) (k : A -> result B) a r :
  c = Ok a -> k a = r -> bind c k = r.
Proof. intros -> H. exact H. Qed.

Section Whole.

Variable X : Collaborators.
Hypothesis X_contract : contract X.

(** Every call on a well-formed state returns, having appended exactly the
    matchings described by [post], each with the forced edges at its end. *)
Lemma rec_post fuel : forall g match_ all add_e,
  call_inv g match_ (add_list add_e) ->
  length (edges g) < fuel ->
  exists Ts,
    enumMaximumMatchingIter_rec X fuel g match_ all add_e
    = Ok (all ++ map (fun T => T ++ add_list add_e) Ts) /\
    post g (live g match_) Ts.
Proof.
  induction fuel as [|fuel IH]; intros g match_ all add_e Hinv Hf; [lia|].
  rewrite rec_S.
  pose proof (iter_body_spec X_contract add_e Hinv) as Hspec.
  pose proof (@iter_body_shrinks X g match_ add_e) as Hshr.
  destruct (iter_body X g match_ add_e) as [[br|]| |]; try contradiction.
  - destruct (Hshr br eq_refl) as [S1 S2]. clear Hshr.
    destruct Hspec as (flip & e' & Hflip & Hkeep & Hnew & He' & Hs & Hcase
                       & Hfirst & Hsecond).
    destruct br as [c nm e c1 c2].
    cbn [br_case br_new_match br_e br_first br_second] in *.
    subst c1 c2 nm.
    cbn [call_g call_match call_add_e bind
         br_case br_new_match br_e br_first br_second] in *.
    set (add := add_list add_e) in *.
    pose proof (inv_graph Hinv) as Hg.
    pose proof (@oriented_edges_nodup g Hg) as E_nodup.
    pose proof (inv_live Hinv) as M_edges.
    pose proof (live_left Hinv) as M_left.
    pose proof (live_right Hinv) as M_right.
    pose proof (toggled_edges (oriented_edges g) (live g match_) flip) as HT0.
    pose proof (toggled_left E_nodup M_edges M_left Hflip) as HT0l.
    pose proof (toggled_right E_nodup M_edges M_right Hflip) as HT0r.
    pose proof (toggled_length E_nodup M_edges M_left M_right Hflip Hkeep)
      as Hlen.
    destruct (new_match_inv Hinv HT0 HT0l HT0r) as [Hlive0 Hinv0].
    pose proof (inv_valid Hinv0) as HT0n. rewrite Hlive0 in HT0n.
    destruct Hcase as [(-> & HeM & HeT)|(-> & HeM & HeT)].
    + assert (Hinv1 : call_inv (minus_graph g e)
                        (toggled (oriented_edges g) (live g match_) flip ++ add)
                        add).
      { apply minus_inv; [assumption|]. rewrite Hlive0.
        now apply (@lacks_edge g e e'). }
      assert (Hinv2 : call_inv (plus_graph g e) match_
                        (add_list (Some (e :: add)))).
      { now apply (plus_inv e e'). }
      destruct (IH _ _ (all ++ [toggled (oriented_edges g) (live g match_) flip
                                 ++ add]) add_e Hinv1 ltac:(lia))
        as (Ts1 & R1 & P1).
      destruct (IH _ _ ((all ++ [toggled (oriented_edges g) (live g match_) flip
                                  ++ add])
                        ++ map (fun T => T ++ add) Ts1)
                  (Some (e :: add)) Hinv2 ltac:(lia))
        as (Ts2 & R2 & P2).
      exists (toggled (oriented_edges g) (live g match_) flip
              :: Ts1 ++ map (fun T => T ++ [e]) Ts2).
      split.
      * apply (bind_returns _ R1). etransitivity; [exact R2|].
        f_equal. cbn [add_list map]. rewrite map_app, <- map_snoc_add.
        rewrite <- !app_assoc. reflexivity.
      * change (live (minus_graph g e)
                  (toggled (oriented_edges g) (live g match_) flip ++ add))
          with (live g (toggled (oriented_edges g) (live g match_) flip ++ add))
          in P1.
        rewrite Hlive0 in P1. rewrite (plus_live e e' Hinv HeM Hs) in P2.
        exact (combine_post_A e' Hg He' Hs M_edges (inv_valid Hinv) HeM
                 HT0 HT0n HeT Hlen P1 P2).
    + assert (Hinv1 : call_inv (minus_graph g e) match_ add).
      { apply minus_inv; [assumption|]. now apply (@lacks_edge g e e'). }
      assert (HeT0 : In e' (live g (toggled (oriented_edges g) (live g match_)
                                      flip ++ add)))
        by now rewrite Hlive0.
      assert (Hinv2 : call_inv (plus_graph g e)
                        (toggled (oriented_edges g) (live g match_) flip ++ add)
                        (add_list (Some (e :: add)))).
      { now apply (plus_inv e e'). }
      destruct (IH _ _ (all ++ [toggled (oriented_edges g) (live g match_) flip
                                 ++ add]) add_e Hinv1 ltac:(lia))
        as (Ts1 & R1 & P1).
      destruct (IH _ _ ((all ++ [toggled (oriented_edges g) (live g match_) flip
                                  ++ add])
                        ++ map (fun T => T ++ add) Ts1)
                  (Some (e :: add)) Hinv2 ltac:(lia))
        as (Ts2 & R2 & P2).
      exists (toggled (oriented_edges g) (live g match_) flip
              :: Ts1 ++ map (fun T => T ++ [e]) Ts2).
      split.
      * apply (bind_returns _ R1). etransitivity; [exact R2|].
        f_equal. cbn [add_list map]. rewrite map_app, <- map_snoc_add.
        rewrite <- !app_assoc. reflexivity.
      * change (live (minus_graph g e) match_) with (live g match_) in P1.
        rewrite (plus_live e e' Hinv0 HeT0 Hs), Hlive0 in P2.
        exact (combine_post_B e' Hg He' Hs HT0 HT0n HeT M_edges HeM
                 (eq_sym Hlen) P1 P2).
  - exists []. split; [cbn [bind map]; now rewrite app_nil_r|].
    now apply (@leaf_post_any g match_ (add_list add_e)).
Qed.

End Whole.

(** * The enumeration against the exhaustive search *)

(** ** Matchings written either way round *)

Lemma endpoints_cons p T :
  Permutation (endpoints (p :: T)) (fst p :: snd p :: endpoints T).
Proof.
  unfold endpoints. simpl. constructor.
  apply Permutation_sym, Permutation_middle.
Qed.

Lemma endpoints_map_flip (f : Edge -> Edge) T :
  (forall p, f p = p \/ f p = swap p) ->
  Permutation (endpoints (map f T)) (endpoints T).
Proof.
  intros Hf. induction T as [|p T IH]; [apply Permutation_refl|].
  cbn [map].
  apply Permutation_trans with (fst (f p) :: snd (f p) :: endpoints (map f T));
    [apply endpoints_cons|].
  apply Permutation_trans with (fst p :: snd p :: endpoints T);
    [|apply Permutation_sym, endpoints_cons].
  destruct (Hf p) as [-> | ->].
  - now do 2 constructor.
  - destruct p as [a b]. simpl.
    apply Permutation_trans with (a :: b :: endpoints (map f T));
      [constructor|now do 2 constructor].
Qed.

Lemma endpoints_perm S T :
  Permutation S T -> Permutation (endpoints S) (endpoints T).
Proof.
  intros H. unfold endpoints. apply Permutation_app; now apply Permutation_map.
Qed.

Lemma orient_cases g p : orient g p = p \/ orient g p = swap p.
Proof. unfold orient. destruct (leftb g (fst p)); auto. Qed.

Lemma orient_equiv g T : equiv (map (orient g) T) T.
Proof.
  intros p. unfold has_edge. split.
  - intros (q & Hq & Hs). apply in_map_iff in Hq.
    destruct Hq as (x & <- & Hx). exists x. split; [assumption|].
    apply same_edge_trans with (orient g x); [assumption|].
    unfold orient. apply same_edge_iff. destruct (leftb g (fst x)); auto.
  - intros (q & Hq & Hs). exists (orient g q). split; [now apply in_map|].
    apply same_edge_trans with q; [assumption|]. apply same_edge_sym.
    unfold orient. apply same_edge_iff. destruct (leftb g (fst q)); auto.
Qed.

Lemma orient_endpoints g T :
  NoDup (endpoints (map (orient g) T)) <-> NoDup (endpoints T).
Proof.
  pose proof (endpoints_map_flip (orient g) T (orient_cases g)) as H.
  split; apply Permutation_NoDup; [assumption|now apply Permutation_sym].
Qed.

Lemma crossb_same g p x :
  same_edge p x = true -> crossb g x = true -> crossb g p = true.
Proof.
  intros Hs Hx. apply same_edge_iff in Hs. destruct Hs as [->| ->];
    [assumption|]. unfold crossb in *. rewrite swap_swap. now rewrite orb_comm.
Qed.

Lemma orient_incl g T :
  bipartite_graphb g = true ->
  (forall p, In p T -> edge_inb g p = true) ->
  incl (map (orient g) T) (oriented_edges g).
Proof.
  intros Hg HT q Hq. apply in_map_iff in Hq. destruct Hq as (p & <- & Hp).
  specialize (HT p Hp). apply (@oriented_edges_In g Hg).
  unfold edge_inb in *. apply existsb_exists in HT.
  destruct HT as (x & Hx & Hs). split.
  - apply orient_left_right. apply (@crossb_same g p x Hs).
    now apply (@graph_cross g Hg).
  - apply existsb_exists. exists x. split; [assumption|].
    apply same_edge_trans with p; [|assumption].
    unfold orient. apply same_edge_iff. destruct (leftb g (fst p)); auto.
Qed.

(** ** Sublists of the edge list *)

Lemma sublists_incl {A : Type} (l S : list A) :
  In S (sublists l) -> incl S l.
Proof.
  revert S. induction l as [|x l IH]; simpl; intros S H.
  - destruct H as [<-|[]]. apply incl_refl.
  - apply in_app_or in H. destruct H as [H|H].
    + apply in_map_iff in H. destruct H as (S' & <- & H').
      intros y [<-|Hy]; [now left|right; now apply (IH S')].
    + intros y Hy. right. now apply (IH S).
Qed.

Lemma sublists_filter {A : Type} (f : A -> bool) (l : list A) :
  In (filter f l) (sublists l).
Proof.
  induction l as [|x l IH]; simpl; [now left|].
  apply in_or_app. destruct (f x); [left; now apply in_map|now right].
Qed.

Lemma list_max_ge n l : In n l -> n <= list_max l.
Proof.
  intros H. pose proof (proj1 (list_max_le l (list_max l)) (le_n _)) as HF.
  rewrite Forall_forall in HF. now apply HF.
Qed.

(** The edges of [g] that [N] holds, as [g] lists them. *)
Definition select (g : Graph) (N : Matching) : Matching :=
  filter (fun x => memE (orient g x) N) (edges g).

Lemma filter_map_comm {A B : Type} (f : B -> bool) (h : A -> B) l :
  filter f (map h l) = map h (filter (fun x => f (h x)) l).
Proof.
  induction l as [|a l IH]; simpl; [reflexivity|].
  destruct (f (h a)); simpl; now rewrite IH.
Qed.

Lemma select_perm g N :
  bipartite_graphb g = true ->
  incl N (oriented_edges g) -> NoDup N ->
  Permutation (map (orient g) (select g N)) N.
Proof.
  intros Hg HN Hd. unfold select.
  rewrite <- (filter_map_comm (fun p => memE p N) (orient g)).
  apply NoDup_Permutation; [|assumption|].
  - apply NoDup_filter. apply (@oriented_edges_nodup g Hg).
  - intros p. rewrite filter_In, memE_In. split; [tauto|].
    intros H. split; [now apply HN|assumption].
Qed.

Lemma endpoints_NoDup_list (N : Matching) : NoDup (endpoints N) -> NoDup N.
Proof.
  unfold endpoints. intros H. apply NoDup_app_remove_r in H.
  now apply NoDup_map_inv in H.
Qed.

Lemma select_spec g N :
  bipartite_graphb g = true ->
  incl N (oriented_edges g) -> NoDup (endpoints N) ->
  In (select g N) (all_matchings g) /\ length (select g N) = length N /\
  equiv (select g N) N.
Proof.
  intros Hg HN Hn.
  pose proof (@select_perm g N Hg HN (@endpoints_NoDup_list N Hn)) as HP.
  split; [|split].
  - unfold all_matchings. apply filter_In. split; [apply sublists_filter|].
    apply nodupb_NoDup, (orient_endpoints g).
    apply (Permutation_NoDup (Permutation_sym (@endpoints_perm _ _ HP)) Hn).
  - rewrite <- (Permutation_length HP). now rewrite length_map.
  - apply equiv_trans with (map (orient g) (select g N));
      [apply equiv_sym, orient_equiv|].
    apply equiv_incl; intros p Hp;
      [apply (Permutation_in _ HP)|apply (Permutation_in _ (Permutation_sym HP))];
      assumption.
Qed.

Lemma matching_bound g :
  bipartite_graphb g = true -> is_maximum g (maximum_matching_number g).
Proof.
  intros Hg N HN Hn. destruct (@select_spec g N Hg HN Hn) as (H1 & H2 & _).
  rewrite <- H2. unfold maximum_matching_number. apply list_max_ge.
  now apply in_map.
Qed.

(** ** The first matching *)

Section Solver.

Variable g : Graph.
Variable items : list (V * V).
Hypothesis Hg : bipartite_graphb g = true.
Hypothesis Hhk : hopcroft_karp_itemsb g items = true.

Let match2 : Matching := filter (fun kv => leftb g (fst kv)) items.

Lemma hk_keys : NoDup (map fst items).
Proof.
  unfold hopcroft_karp_itemsb in Hhk. rewrite !andb_true_iff in Hhk.
  now apply nodupb_NoDup.
Qed.

Lemma hk_sym kv : In kv items -> In (swap kv) items.
Proof.
  intros H. unfold hopcroft_karp_itemsb in Hhk.
  rewrite !andb_true_iff, forallb_forall in Hhk.
  destruct Hhk as [[_ Hall] _]. specialize (Hall kv H).
  apply andb_true_iff in Hall. now apply memE_In.
Qed.

Lemma hk_edge kv : In kv items -> edge_inb g kv = true.
Proof.
  intros H. unfold hopcroft_karp_itemsb in Hhk.
  rewrite !andb_true_iff, forallb_forall in Hhk.
  destruct Hhk as [[_ Hall] _]. specialize (Hall kv H).
  now apply andb_true_iff in Hall.
Qed.

Lemma hk_length : length items = 2 * maximum_matching_number g.
Proof.
  unfold hopcroft_karp_itemsb in Hhk. rewrite !andb_true_iff in Hhk.
  now apply Nat.eqb_eq.
Qed.

Lemma hk_cross kv : In kv items -> crossb g kv = true.
Proof.
  intros H. apply hk_edge in H. unfold edge_inb in H.
  apply existsb_exists in H. destruct H as (x & Hx & Hs).
  apply (@crossb_same g kv x Hs). now apply (@graph_cross g Hg).
Qed.

Lemma hk_sides kv :
  In kv items ->
  (leftb g (fst kv) = true /\ leftb g (snd kv) = false) \/
  (leftb g (fst kv) = false /\ leftb g (snd kv) = true).
Proof.
  intros H. apply hk_cross in H. unfold crossb in H.
  apply orb_true_iff in H. destruct H as [H|H]; apply left_right_sides in H.
  - now left.
  - right. destruct kv. simpl in *. tauto.
Qed.

Lemma hk_node kv : In kv items -> In (fst kv) (nodes g).
Proof.
  intros H. apply hk_cross in H. unfold crossb, left_right in H.
  rewrite orb_true_iff, !andb_true_iff in H.
  destruct H as [[H _]|[_ H]]; [now apply leftb_node|].
  destruct kv. simpl in H. now apply rightb_node.
Qed.

Lemma hk_reorient : reorient g items [] = Ok match2.
Proof. apply (reorient_filter g items hk_node []). Qed.

Lemma hk_oriented : incl match2 (oriented_edges g).
Proof.
  intros p Hp. apply filter_In in Hp. destruct Hp as [Hp Hl].
  apply (@oriented_edges_In g Hg). split; [|now apply hk_edge].
  pose proof (hk_cross p Hp) as Hc. unfold crossb in Hc.
  apply orb_true_iff in Hc. destruct Hc as [Hc|Hc]; [assumption|].
  apply left_right_sides in Hc. destruct p. simpl in *.
  destruct Hc. congruence.
Qed.

Lemma hk_left : NoDup (map fst match2).
Proof. apply NoDup_map_filter, hk_keys. Qed.

Lemma hk_right : NoDup (map snd match2).
Proof.
  apply NoDup_map_on; [apply (NoDup_map_inv fst), hk_left|].
  intros x y Hx Hy E. apply filter_In in Hx, Hy.
  destruct Hx as [Hx _], Hy as [Hy _]. apply hk_sym in Hx, Hy.
  apply swap_inj.
  apply (NoDup_map_inj fst items); [exact hk_keys|assumption|assumption|].
  destruct x, y. exact E.
Qed.

Lemma hk_valid : NoDup (endpoints match2).
Proof.
  apply (endpoints_nodup (leftb g)); [|apply hk_left|apply hk_right].
  intros p Hp. now apply (@oriented_edges_sides g Hg), hk_oriented.
Qed.

Lemma hk_live : live g match2 = match2.
Proof.
  apply live_all. intros p Hp. apply filter_In in Hp. now apply hk_node.
Qed.

Lemma hk_inv : call_inv g match2 [].
Proof.
  constructor; rewrite ?hk_live.
  - exact Hg.
  - exact hk_oriented.
  - exact hk_valid.
  - intros p [].
  - constructor.
Qed.

Lemma hk_half : length match2 = maximum_matching_number g.
Proof.
  pose proof (filter_length (fun kv => leftb g (fst kv)) items) as Hsum.
  assert (Heq : length (filter (fun kv => negb (leftb g (fst kv))) items)
                = length match2).
  { rewrite <- (length_map swap match2). apply NoDup_same_length.
    - apply NoDup_filter. apply (NoDup_map_inv fst), hk_keys.
    - apply NoDup_map_on; [apply (NoDup_map_inv fst), hk_left|].
      intros x y _ _. apply swap_inj.
    - intros q. rewrite filter_In, in_map_iff, negb_true_iff. split.
      + intros [Hq Hl]. exists (swap q). rewrite swap_swap.
        split; [reflexivity|]. apply filter_In. split; [now apply hk_sym|].
        destruct (hk_sides q Hq) as [[H1 H2]|[H1 H2]]; [congruence|].
        destruct q. exact H2.
      + intros (p & <- & Hp). apply filter_In in Hp. destruct Hp as [Hp Hl].
        split; [now apply hk_sym|].
        destruct (hk_sides p Hp) as [[H1 H2]|[H1 H2]]; [|congruence].
        destruct p. exact H2. }
  pose proof hk_length as Hlen. cbv beta in Hsum. fold match2 in Hsum.
  rewrite Heq in Hsum.
  change (@length (V * V) match2) with (@length Edge match2) in Hsum. lia.
Qed.

End Solver.

(** ** What [enumMaximumMatching] returns *)

Lemma map_app_nil (Ts : list Matching) : map (fun T => T ++ []) Ts = Ts.
Proof.
  induction Ts as [|T Ts IH]; simpl; [reflexivity|].
  now rewrite app_nil_r, IH.
Qed.

(** The first matching of the solver's dictionary, side 0 first. *)
Definition first_matching (X : Collaborators) (g : Graph) : Matching :=
  filter (fun kv => leftb g (fst kv)) (solver_items X g).

Lemma solver_returns X g :
  hopcroft_karp_okb g (hopcroft_karp_matching X g) = true ->
  hopcroft_karp_matching X g = Ok (solver_items X g) /\
  hopcroft_karp_itemsb g (solver_items X g) = true.
Proof.
  unfold solver_items, hopcroft_karp_okb.
  destruct (hopcroft_karp_matching X g); [auto|discriminate|discriminate].
Qed.

Lemma enumMaximumMatching_result X g :
  contract X -> bipartite_graphb g = true ->
  hopcroft_karp_okb g (hopcroft_karp_matching X g) = true ->
  exists Ts,
    enumMaximumMatching X g = Ok (first_matching X g :: Ts) /\
    post g (first_matching X g) Ts.
Proof.
  intros HX Hg Hhk0. destruct (solver_returns _ _ Hhk0) as [Hret Hhk].
  unfold enumMaximumMatching. rewrite Hret. cbn [bind].
  rewrite (@hk_reorient g _ Hg Hhk). cbn [bind]. fold (first_matching X g).
  pose proof (@hk_inv g _ Hg Hhk) as Hinv. fold (first_matching X g) in Hinv.
  destruct (@rec_post X HX (S (length (edges g))) g (first_matching X g)
              [first_matching X g] None Hinv (Nat.lt_succ_diag_r _))
    as (Ts & R & P).
  exists Ts. split.
  - unfold enumMaximumMatchingIter. etransitivity; [exact R|].
    cbn [add_list]. now rewrite map_app_nil.
  - pose proof (@hk_live g _ Hg Hhk) as Hl. fold (first_matching X g) in Hl.
    now rewrite Hl in P.
Qed.

Lemma first_matching_maximum X g :
  bipartite_graphb g = true ->
  hopcroft_karp_okb g (hopcroft_karp_matching X g) = true ->
  matching_of g (first_matching X g) /\
  length (first_matching X g) = maximum_matching_number g /\
  incl (first_matching X g) (oriented_edges g).
Proof.
  intros Hg Hhk0. destruct (solver_returns _ _ Hhk0) as [_ Hhk].
  split; [|split].
  - apply combine_matching; [assumption|apply (@hk_oriented g _ Hg Hhk)
                                         |apply (@hk_valid g _ Hg Hhk)].
  - apply (@hk_half g _ Hg Hhk).
  - apply (@hk_oriented g _ Hg Hhk).
Qed.

Lemma distinct_nth l i j :
  distinct l -> i < j -> j < length l -> ~ equiv (nth i l []) (nth j l []).
Proof.
  revert i j. induction l as [|m l IH]; simpl; intros i j Hd Hij Hj; [lia|].
  destruct Hd as [H1 H2]. destruct j as [|j]; [lia|].
  destruct i as [|i].
  - apply H1. apply nth_In. lia.
  - apply IH; [assumption|lia|lia].
Qed.

(** C1. On a bipartite graph, with collaborators that meet their contract
    (the solver returns a maximum matching as a symmetric dictionary),
    [enumMaximumMatching] returns a list, each member of which covers no
    vertex twice, is made of edges of the graph, and has as many pairs as
    the maximum matching number of the graph, found by exhaustive search,
    which is also the size of the first member. *)
Theorem returned_matchings_are_maximum (X : Collaborators) (g : Graph) :
  contract X -> bipartite_graphb g = true ->
  hopcroft_karp_okb g (hopcroft_karp_matching X g) = true ->
  exists res,
    enumMaximumMatching X g = Ok res /\
    forall S, In S res ->
      valid_matchingb S = true /\
      (forall p, In p S -> edge_inb g p = true) /\
      length S = maximum_matching_number g /\
      length S = length (hd [] res).
Proof.
  intros HX Hg Hhk.
  destruct (@enumMaximumMatching_result X g HX Hg Hhk) as (Ts & R & P).
  destruct (@first_matching_maximum X g Hg Hhk) as ([F1 F2] & F3 & _).
  exists (first_matching X g :: Ts). split; [exact R|].
  intros S [<-|HS]; cbn [hd].
  - split; [now apply nodupb_NoDup|]. auto.
  - destruct (post_matchings P _ HS) as [[M1 M2] M3].
    split; [now apply nodupb_NoDup|]. split; [exact M1|].
    split; [|exact M3]. now rewrite M3.
Qed.

Lemma returned_matchings_are_maximum_K22 :
  exists res,
    enumMaximumMatching Reference.collaborators K22 = Ok res /\
    forall S, In S res ->
      valid_matchingb S = true /\
      (forall p, In p S -> edge_inb K22 p = true) /\
      length S = maximum_matching_number K22 /\
      length S = length (hd [] res).
Proof.
  apply (@returned_matchings_are_maximum Reference.collaborators K22
           ReferenceFacts.reference_contract); vm_compute; reflexivity.
Defined.

(** C3. Under the same assumptions, no two members of the returned list,
    at different positions, are the same set of undirected edges. *)
Theorem returned_matchings_are_distinct (X : Collaborators) (g : Graph) :
  contract X -> bipartite_graphb g = true ->
  hopcroft_karp_okb g (hopcroft_karp_matching X g) = true ->
  exists res,
    enumMaximumMatching X g = Ok res /\
    forall i j, i < j -> j < length res ->
      same_edge_set (nth i res []) (nth j res []) = false.
Proof.
  intros HX Hg Hhk.
  destruct (@enumMaximumMatching_result X g HX Hg Hhk) as (Ts & R & P).
  exists (first_matching X g :: Ts). split; [exact R|].
  intros i j Hij Hj. apply not_true_is_false. intros Heq.
  apply same_edge_set_equiv in Heq. revert Heq.
  apply distinct_nth; [|assumption|assumption].
  split; [|apply (post_distinct P)].
  intros T HT Heq. apply (post_fresh P HT). now apply equiv_sym.
Qed.

Lemma returned_matchings_are_distinct_K22 :
  exists res,
    enumMaximumMatching Reference.collaborators K22 = Ok res /\
    forall i j, i < j -> j < length res ->
      same_edge_set (nth i res []) (nth j res []) = false.
Proof.
  apply (@returned_matchings_are_distinct Reference.collaborators K22
           ReferenceFacts.reference_contract); vm_compute; reflexivity.
Defined.

(** ** Counting *)

Lemma distinct_remove Q1 S Q2 :
  distinct (Q1 ++ S :: Q2) ->
  distinct (Q1 ++ Q2) /\ forall S', In S' (Q1 ++ Q2) -> ~ equiv S S'.
Proof.
  intros H. apply distinct_app in H. destruct H as (H1 & [H2 H3] & H4).
  split.
  - apply distinct_app. split; [assumption|]. split; [assumption|].
    intros A B HA HB. apply H4; [assumption|now right].
  - intros S' HS' Heq. apply in_app_or in HS'. destruct HS' as [HS'|HS'].
    + apply (H4 S' S HS'); [now left|now apply equiv_sym].
    + now apply (H2 S').
Qed.

(** Two lists without repetition, each covering the other up to the
    writing of the edge sets, have the same length. *)
Lemma distinct_count R : forall Q,
  distinct R -> distinct Q ->
  (forall T, In T R -> exists S, In S Q /\ equiv T S) ->
  (forall S, In S Q -> exists T, In T R /\ equiv T S) ->
  length R = length Q.
Proof.
  induction R as [|T R IH]; intros Q HR HQ H1 H2.
  - destruct Q as [|S Q]; [reflexivity|].
    destruct (H2 S (or_introl eq_refl)) as (T & [] & _).
  - destruct (H1 T (or_introl eq_refl)) as (S & HS & HTS).
    apply in_split in HS. destruct HS as (Q1 & Q2 & ->).
    destruct (distinct_remove _ _ _ HQ) as [HQ' HS'].
    destruct HR as [HT HR].
    rewrite length_app. simpl. rewrite Nat.add_succ_r, <- length_app.
    f_equal. apply IH; auto.
    + intros T' HT'. destruct (H1 T' (or_intror HT')) as (S' & HS1 & HS2).
      exists S'. split; [|assumption].
      apply in_app_or in HS1. apply in_or_app.
      destruct HS1 as [HS1|[<-|HS1]]; auto.
      exfalso. apply (HT T' HT').
      apply equiv_trans with S; [assumption|now apply equiv_sym].
    + intros S' HS1.
      assert (HS2 : In S' (Q1 ++ S :: Q2)).
      { apply in_app_or in HS1. apply in_or_app.
        destruct HS1; [now left|right; now right]. }
      destruct (H2 S' HS2) as (T' & [<-|HT'] & Heq); [|now exists T'].
      exfalso. apply (HS' S' HS1).
      apply equiv_trans with T; [now apply equiv_sym|assumption].
Qed.

Lemma distinct_filter f l : distinct l -> distinct (filter f l).
Proof.
  induction l as [|m l IH]; simpl; [auto|]. intros [H1 H2].
  destruct (f m); simpl; [|auto]. split; [|auto].
  intros T HT. apply filter_In in HT. now apply H1.
Qed.

Lemma equiv_cons_cancel S T (x : Edge) :
  ~ has_edge S x -> ~ has_edge T x -> equiv (x :: S) (x :: T) -> equiv S T.
Proof.
  intros HS HT H p. specialize (H p).
  change (x :: S) with ([x] ++ S) in H. change (x :: T) with ([x] ++ T) in H.
  rewrite !has_edge_app, !has_edge_single in H. split; intros Hp.
  - destruct (proj1 H (or_intror Hp)) as [Hx|Hx]; [|assumption].
    exfalso. apply HS. now apply (has_edge_same S p x Hx).
  - destruct (proj2 H (or_intror Hp)) as [Hx|Hx]; [|assumption].
    exfalso. apply HT. now apply (has_edge_same T p x Hx).
Qed.

Lemma sublists_lack l (x : Edge) S :
  existsb (same_edge x) l = false -> In S (sublists l) -> ~ has_edge S x.
Proof.
  intros Hx HS (q & Hq & Hs). apply sublists_incl in HS.
  rewrite <- not_true_iff_false in Hx. apply Hx.
  apply existsb_exists. exists q. split; [now apply HS|assumption].
Qed.

Lemma sublists_distinct l : simpleb l = true -> distinct (sublists l).
Proof.
  induction l as [|x l IH]; simpl; intros H.
  - split; [intros T []|exact I].
  - apply andb_true_iff in H. destruct H as [Hx Hl].
    apply negb_true_iff in Hx. specialize (IH Hl).
    apply distinct_app. split; [|split; [assumption|]].
    + revert IH. generalize (fun S => @sublists_lack l x S Hx).
      generalize (sublists l) as Ss.
      induction Ss as [|S Ss IHs]; simpl; intros Hlack Hd; [exact I|].
      destruct Hd as [H1 H2]. split; [|apply IHs; auto].
      intros T HT Heq. apply in_map_iff in HT.
      destruct HT as (T' & <- & HT'). apply (H1 T' HT').
      apply (@equiv_cons_cancel S T' x); auto.
    + intros S T HS HT Heq. apply in_map_iff in HS.
      destruct HS as (S' & <- & HS').
      apply (@sublists_lack l x T Hx HT). apply (equiv_has Heq).
      apply has_edge_In. now left.
Qed.

Lemma maximum_matchings_distinct g :
  bipartite_graphb g = true -> distinct (maximum_matchings g).
Proof.
  intros Hg. unfold maximum_matchings, all_matchings.
  do 2 apply distinct_filter. apply sublists_distinct.
  apply (@graph_simple g Hg).
Qed.

Lemma maximum_matchings_In g S :
  In S (maximum_matchings g) <->
  In S (sublists (edges g)) /\ NoDup (endpoints S) /\
  length S = maximum_matching_number g.
Proof.
  unfold maximum_matchings, all_matchings, valid_matchingb.
  rewrite !filter_In, Nat.eqb_eq, nodupb_NoDup. tauto.
Qed.

(** A matching of [g], however its pairs are written, is one of the
    matchings of the exhaustive search. *)
Lemma matching_listed g T :
  bipartite_graphb g = true ->
  matching_of g T -> length T = maximum_matching_number g ->
  exists S, In S (maximum_matchings g) /\ equiv T S.
Proof.
  intros Hg [H1 H2] Hl.
  pose proof (@orient_incl g T Hg H1) as HN.
  pose proof (proj2 (orient_endpoints g T) H2) as Hn.
  destruct (@select_spec g _ Hg HN Hn) as (S1 & S2 & S3).
  exists (select g (map (orient g) T)). split.
  - unfold maximum_matchings. apply filter_In. split; [assumption|].
    apply Nat.eqb_eq. rewrite S2, length_map. exact Hl.
  - apply equiv_sym. apply (equiv_trans S3). apply orient_equiv.
Qed.

(** A matching of the exhaustive search, side 0 first. *)
Lemma listed_matching g S :
  bipartite_graphb g = true -> In S (maximum_matchings g) ->
  incl (map (orient g) S) (oriented_edges g) /\
  NoDup (endpoints (map (orient g) S)) /\
  length (map (orient g) S) = maximum_matching_number g.
Proof.
  intros Hg HS. apply maximum_matchings_In in HS.
  destruct HS as (H1 & H2 & H3). split; [|split].
  - apply orient_incl; [assumption|]. intros p Hp.
    apply edge_inb_iff. left. now apply (sublists_incl _ _ H1).
  - now apply orient_endpoints.
  - now rewrite length_map.
Qed.

(** C2. Under the same assumptions the returned list has as many members
    as the graph has maximum matchings, counted by exhaustive search (which
    lists no edge set twice), and every maximum matching is the edge set
    of a member. *)
Theorem returned_matchings_are_all (X : Collaborators) (g : Graph) :
  contract X -> bipartite_graphb g = true ->
  hopcroft_karp_okb g (hopcroft_karp_matching X g) = true ->
  exists res,
    enumMaximumMatching X g = Ok res /\
    length res = length (maximum_matchings g) /\
    forall S, In S (maximum_matchings g) ->
      exists T, In T res /\ same_edge_set T S = true.
Proof.
  intros HX Hg Hhk.
  destruct (@enumMaximumMatching_result X g HX Hg Hhk) as (Ts & R & P).
  destruct (@first_matching_maximum X g Hg Hhk) as (F1 & F2 & F3).
  exists (first_matching X g :: Ts). split; [exact R|].
  assert (Hmax : is_maximum g (length (first_matching X g))).
  { rewrite F2. now apply matching_bound. }
  assert (Hall : forall S, In S (maximum_matchings g) ->
                   exists T, In T (first_matching X g :: Ts) /\ equiv T S).
  { intros S HS. destruct (@listed_matching g S Hg HS) as (N1 & N2 & N3).
    rewrite <- F2 in N3.
    destruct (post_complete P Hmax N1 N2 N3) as [Heq|(T & HT & Heq)].
    - exists (first_matching X g). split; [now left|].
      apply equiv_sym. apply (equiv_trans (equiv_sym (orient_equiv g S)) Heq).
    - exists T. split; [now right|].
      apply (equiv_trans Heq). apply orient_equiv. }
  split.
  - apply distinct_count.
    + split; [|apply (post_distinct P)].
      intros T HT Heq. apply (post_fresh P HT). now apply equiv_sym.
    + now apply maximum_matchings_distinct.
    + intros T [<-|HT].
      * now apply matching_listed.
      * destruct (post_matchings P _ HT) as [M1 M2].
        apply matching_listed; [assumption|assumption|]. now rewrite M2.
    + exact Hall.
  - intros S HS. destruct (Hall S HS) as (T & HT & Heq). exists T.
    split; [assumption|]. now apply same_edge_set_equiv.
Qed.

Lemma returned_matchings_are_all_K22 :
  enumMaximumMatching Reference.collaborators K22
  = Ok [[(0, 2); (1, 3)]; [(0, 3); (1, 2)]] /\
  maximum_matchings K22 = [[(0, 2); (1, 3)]; [(0, 3); (1, 2)]] /\
  exists res,
    enumMaximumMatching Reference.collaborators K22 = Ok res /\
    length res = length (maximum_matchings K22) /\
    forall S, In S (maximum_matchings K22) ->
      exists T, In T res /\ same_edge_set T S = true.
Proof.
  split; [vm_compute; reflexivity|]. split; [vm_compute; reflexivity|].
  apply (@returned_matchings_are_all Reference.collaborators K22
           ReferenceFacts.reference_contract); vm_compute; reflexivity.
Defined.

(** * The version on adjacency matrices

    [enumMaximumMatching2] works on the adjacency matrix of the graph, the
    vertices numbered by their position in [nodes = list(s1) + list(s2)].
    A sparse matrix is its shape and its entries; indexing outside the
    shape raises [IndexError]. *)

Record lil_matrix : Type := mkMatrix {
  shape : nat;                 (* the matrices are square *)
  entry : nat -> nat -> Z
}.

Definition in_shape (m : lil_matrix) (i : nat) : bool := i <? shape m.

(** [m[i,j]] *)
Definition mget (m : lil_matrix) (i j : nat) : result Z :=
  if in_shape m i && in_shape m j then Ok (entry m i j) else Raise IndexError.

(** [m[i,j]=v] *)
Definition mset (m : lil_matrix) (i j : nat) (v : Z) : result lil_matrix :=
  if in_shape m i && in_shape m j
  then Ok (mkMatrix (shape m)
             (fun a b => if (a =? i) && (b =? j) then v else entry m a b))
  else Raise IndexError.

(** [m[i,:]=0] and [m[:,j]=0] *)
Definition zero_row (m : lil_matrix) (i : nat) : result lil_matrix :=
  if in_shape m i
  then Ok (mkMatrix (shape m) (fun a b => if a =? i then 0%Z else entry m a b))
  else Raise IndexError.

Definition zero_col (m : lil_matrix) (j : nat) : result lil_matrix :=
  if in_shape m j
  then Ok (mkMatrix (shape m) (fun a b => if b =? j then 0%Z else entry m a b))
  else Raise IndexError.

Definition indices (m : lil_matrix) : list nat := seq 0 (shape m).

Definition sumZ (l : list Z) : Z := fold_right Z.add 0%Z l.

(** [d=matchadj.multiply(adj)] followed by
    [d[n1:,:]=adj[n1:,:]-matchadj[n1:,:].multiply(adj[n1:,:])] *)
Definition exchange_matrix (n1 : nat) (adj matchadj : lil_matrix) : lil_matrix :=
  mkMatrix (shape adj)
    (fun i j =>
       if i <? n1 then (entry matchadj i j * entry adj i j)%Z
       else (entry adj i j - entry matchadj i j * entry adj i j)%Z).

(** [nx.from_numpy_matrix(d.toarray(),create_using=nx.DiGraph())]: an arc
    for every entry that is not zero. *)
Definition from_numpy_matrix (d : lil_matrix) : DiGraph :=
  flat_map (fun i =>
              flat_map (fun j => if (entry d i j =? 0)%Z then [] else [(i, j)])
                       (indices d))
           (indices d).

(** The loop over the arcs of the cycle: matched arcs leave the matching,
    the last of them is [e]; the others enter it. *)
Fixpoint toggle_cycle (matchadj : lil_matrix) (cycle : list Edge)
    (new_match : lil_matrix) (e : option Edge)
    : result (lil_matrix * option Edge) :=
  match cycle with
  | [] => Ok (new_match, e)
  | ee :: cycle' =>
      x <- mget matchadj (fst ee) (snd ee) ;;
      if (x =? 1)%Z then
        m1 <- mset new_match (fst ee) (snd ee) 0%Z ;;
        m2 <- mset m1 (snd ee) (fst ee) 0%Z ;;
        toggle_cycle matchadj cycle' m2 (Some ee)
      else
        m1 <- mset new_match (fst ee) (snd ee) 1%Z ;;
        m2 <- mset m1 (snd ee) (fst ee) 1%Z ;;
        toggle_cycle matchadj cycle' m2 e
  end.

(** [for ii in add_e: new_match[ii[0],ii[1]]=1] *)
Fixpoint set_add_e (add_e : list Edge) (new_match : lil_matrix)
    : result lil_matrix :=
  match add_e with
  | [] => Ok new_match
  | ii :: add_e' =>
      m <- mset new_match (fst ii) (snd ii) 1%Z ;;
      set_add_e add_e' m
  end.

(** The two subproblems: [g_plus] loses the rows and columns of the ends of
    [e], [g_minus] the two entries of [e]. *)
Definition form_subproblems2 (adj : lil_matrix) (e : Edge)
    : result (lil_matrix * lil_matrix) :=
  p1 <- zero_row adj (fst e) ;;
  p2 <- zero_col p1 (snd e) ;;
  p3 <- zero_col p2 (fst e) ;;
  g_plus <- zero_row p3 (snd e) ;;
  m1 <- mset adj (fst e) (snd e) 0%Z ;;
  g_minus <- mset m1 (snd e) (fst e) 0%Z ;;
  Ok (g_plus, g_minus).

(** [numpy.where(numpy.sum(matchadj,axis=1)==0)[0]] *)
Definition row_sum (m : lil_matrix) (i : nat) : Z :=
  sumZ (map (entry m i) (indices m)).

Definition uncovered_rows (matchadj : lil_matrix) : list nat :=
  filter (fun i => (row_sum matchadj i =? 0)%Z) (indices matchadj).

(** [adj[ii,:].dot(matchadj)], a row *)
Definition dot_row (adj matchadj : lil_matrix) (ii : nat) (j : nat) : Z :=
  sumZ (map (fun k => (entry adj ii k * entry matchadj k j)%Z) (indices adj)).

(** The scan of the uncovered vertices for one with a vertex at distance
    two; it stops at the first. *)
Fixpoint find_path (adj matchadj : lil_matrix) (uncovered : list nat)
    : result (option (nat * nat)) :=
  match uncovered with
  | [] => Ok None
  | ii :: rest =>
      let aa := dot_row adj matchadj ii in
      if (sumZ (map aa (indices matchadj)) =? 0)%Z
      then find_path adj matchadj rest
      else
        j <- first (filter (fun j => (aa j =? 1)%Z) (indices matchadj)) ;;
        Ok (Some (ii, j))
  end.

(** [int(a)] for an array [a]: it must hold one element. *)
Definition int_of_array (a : list nat) : result nat :=
  match a with
  | [k] => Ok k
  | _ => Raise TypeError
  end.

(** [sparse.find(matchadj[:,j]==1)[0]] *)
Definition column_ones (m : lil_matrix) (j : nat) : list nat :=
  filter (fun k => (entry m k j =? 1)%Z) (indices m).

Inductive Call2 : Type := mkCall2 {
  call2_adj : lil_matrix;
  call2_match : lil_matrix;
  call2_add_e : option (list Edge)
}.

Record Branching2 : Type := mkBranching2 {
  br2_new_match : lil_matrix;
  br2_e : Edge;
  br2_first : Call2;     (* the call on g_minus *)
  br2_second : Call2     (* the call on g_plus *)
}.

Section Enumerator2.

Variable X : Collaborators.

(** The cycle case of a call, up to its recursive calls. *)
Definition cycle_step (adj matchadj : lil_matrix) (add_e : option (list Edge))
    (cycles : list (list V)) : result Branching2 :=
  cycle0 <- first cycles ;;
  let cycle := zip_consecutive (cycle0 ++ firstn 1 cycle0) in
  r <- toggle_cycle matchadj cycle matchadj None ;;
  new_match <- set_add_e (add_list add_e) (fst r) ;;
  match snd r with
  | None => Raise UnboundLocalError
  | Some e =>
      gs <- form_subproblems2 adj e ;;
      let add_e_new := extend_add_e e add_e in
      Ok {| br2_new_match := new_match;
            br2_e := e;
            br2_first := mkCall2 (snd gs) new_match add_e;
            br2_second := mkCall2 (fst gs) matchadj (Some add_e_new) |}
  end.

(** The path case of a call, up to its recursive calls; [None] when the
    call returns [all_matches] as it is. *)
Definition path_step (adj matchadj : lil_matrix) (add_e : option (list Edge))
    : result (option Branching2) :=
  let uncovered := uncovered_rows matchadj in
  if length uncovered =? 0 then Ok None
  else
    paths <- find_path adj matchadj uncovered ;;
    match paths with
    | None => Ok None
    | Some (feas1, feas2) =>
        k <- int_of_array (column_ones matchadj feas2) ;;
        let e := (feas1, k) in
        m1 <- zero_row matchadj feas2 ;;
        m2 <- zero_col m1 feas2 ;;
        m3 <- mset m2 feas1 k 1%Z ;;
        m4 <- mset m3 k feas1 1%Z ;;
        new_match <- set_add_e (add_list add_e) m4 ;;
        gs <- form_subproblems2 adj e ;;
        let add_e_new := extend_add_e e add_e in
        Ok (Some {| br2_new_match := new_match;
                    br2_e := e;
                    br2_first := mkCall2 (snd gs) matchadj add_e;
                    br2_second := mkCall2 (fst gs) new_match (Some add_e_new) |})
    end.

(** One call: the flag [check_cycle] it passes on and what it branches on. *)
Definition iter2_body (adj matchadj : lil_matrix) (n1 : nat)
    (add_e : option (list Edge)) (check_cycle : bool)
    : result (bool * option Branching2) :=
  let cycles :=
    if check_cycle
    then simple_cycles X (from_numpy_matrix (exchange_matrix n1 adj matchadj))
    else [] in
  let check_cycle' := check_cycle && negb (length cycles =? 0) in
  if check_cycle' then
    br <- cycle_step adj matchadj add_e cycles ;;
    Ok (check_cycle', Some br)
  else
    b <- path_step adj matchadj add_e ;;
    Ok (check_cycle', b).

Fixpoint enumMaximumMatchingIter2_rec (fuel : nat) (adj matchadj : lil_matrix)
    (all_matches : list lil_matrix) (n1 : nat) (add_e : option (list Edge))
    (check_cycle : bool) : result (list lil_matrix) :=
  match fuel with
  | 0 => OutOfFuel
  | S fuel' =>
      b <- iter2_body adj matchadj n1 add_e check_cycle ;;
      match snd b with
      | None => Ok all_matches
      | Some br =>
          let all_matches1 := all_matches ++ [br2_new_match br] in
          all_matches2 <-
            enumMaximumMatchingIter2_rec fuel' (call2_adj (br2_first br))
              (call2_match (br2_first br)) all_matches1 n1
              (call2_add_e (br2_first br)) (fst b) ;;
          enumMaximumMatchingIter2_rec fuel' (call2_adj (br2_second br))
            (call2_match (br2_second br)) all_matches2 n1
            (call2_add_e (br2_second br)) (fst b)
      end
  end.

Definition enumMaximumMatchingIter2 (adj matchadj : lil_matrix)
    (all_matches : list lil_matrix) (n1 : nat) (add_e : option (list Edge))
    (check_cycle : bool) : result (list lil_matrix) :=
  enumMaximumMatchingIter2_rec (S (length (from_numpy_matrix adj)))
    adj matchadj all_matches n1 add_e check_cycle.

(** [nodes.index(x)] *)
Fixpoint index (l : list V) (x : V) : result nat :=
  match l with
  | [] => Raise ValueError
  | y :: l' => if y =? x then Ok 0 else i <- index l' x ;; Ok (S i)
  end.

(** The matrix that [nx.adjacency_matrix(g,nodes)] builds for a graph
    without weights: an entry 1 where the two nodes are joined. *)
Definition adjacency (g : Graph) (nodelist : list V) : lil_matrix :=
  mkMatrix (length nodelist)
    (fun i j =>
       if (i <? length nodelist) && (j <? length nodelist)
          && edge_inb g (nth i nodelist 0, nth j nodelist 0)
       then 1%Z else 0%Z).

(** [nx.adjacency_matrix(g,nodes)]: networkx refuses an empty list of nodes
    (Graph has no nodes or edges) and a list that names a node twice
    (Ambiguous ordering). *)
Definition adjacency_matrix (g : Graph) (nodelist : list V)
    : result lil_matrix :=
  if length nodelist =? 0 then Raise NetworkXError
  else if nodupb nodelist then Ok (adjacency g nodelist)
  else Raise NetworkXError.

(** The loop that enters the solver's dictionary into [matchadj]. *)
Fixpoint fill_matchadj (nodelist : list V) (items : list (V * V))
    (matchadj : lil_matrix) : result lil_matrix :=
  match items with
  | [] => Ok matchadj
  | (kk, vv) :: items' =>
      i <- index nodelist kk ;;
      j <- index nodelist vv ;;
      m <- mset matchadj i j 1%Z ;;
      fill_matchadj nodelist items' m
  end.

(** [nodes[jj]] *)
Definition item (l : list V) (jj : nat) : result V :=
  match nth_error l jj with
  | Some x => Ok x
  | None => Raise IndexError
  end.

Fixpoint mapM {A B : Type} (f : A -> result B) (l : list A)
    : result (list B) :=
  match l with
  | [] => Ok []
  | a :: l' => b <- f a ;; bs <- mapM f l' ;; Ok (b :: bs)
  end.

(** [sparse.find(ii[:n1]==1)]: the (row, column) of the entries 1 in the
    first [n1] rows; scipy lists them column by column. *)
Definition pairs_of (n1 : nat) (m : lil_matrix) : Matching :=
  flat_map (fun c =>
              flat_map (fun r => if (entry m r c =? 1)%Z then [(r, c)] else [])
                       (seq 0 (Nat.min n1 (shape m))))
           (indices m).

(** The rows and the columns found are named, then zipped. *)
Definition match_list (nodelist : list V) (n1 : nat) (ii : lil_matrix)
    : result Matching :=
  let found := pairs_of n1 ii in
  m1 <- mapM (item nodelist) (map fst found) ;;
  m2 <- mapM (item nodelist) (map snd found) ;;
  Ok (combine m1 m2).

Definition enumMaximumMatching2 (g : Graph) : result (list Matching) :=
  let s1 := filter (leftb g) (nodes g) in
  let s2 := differenceV (nodes g) s1 in
  let l1 := set_listV X s1 in
  let n1 := length l1 in
  let nodelist := l1 ++ set_listV X s2 in
  adj <- adjacency_matrix g nodelist ;;
  match_ <- hopcroft_karp_matching X g ;;
  matchadj <- fill_matchadj nodelist match_
                (mkMatrix (shape adj) (fun _ _ => 0%Z)) ;;
  all_matches <- enumMaximumMatchingIter2 adj matchadj [matchadj] n1 None true ;;
  mapM (match_list nodelist n1) all_matches.

End Enumerator2.

(** ** The graph and the matching that the matrices stand for *)

(** The graph on the indices: side 0 is the first [n1] of them. *)
Definition graph_of (n1 : nat) (adj : lil_matrix) : Graph :=
  {| node := map (fun i => (i, if i <? n1 then 0 else 1)) (indices adj);
     edges := filter (fun p => fst p <? n1) (from_numpy_matrix adj) |}.

(** The matched edges of the graph, and the matched pairs that are no
    longer edges of it. *)
Definition matched (n1 : nat) (adj matchadj : lil_matrix) : Matching :=
  filter (fun p => (entry matchadj (fst p) (snd p) =? 1)%Z)
         (edges (graph_of n1 adj)).

Definition forced (n1 : nat) (adj matchadj : lil_matrix) : Matching :=
  filter (fun p => (entry adj (fst p) (snd p) =? 0)%Z) (pairs_of n1 matchadj).

Definition bit (z : Z) : Prop := z = 0%Z \/ z = 1%Z.

(** A symmetric 0/1 matrix of shape [n] whose entries 1 join the two
    sides. *)
Record bimatrix (n n1 : nat) (m : lil_matrix) : Prop := {
  bi_shape : shape m = n;
  bi_bit : forall i j, bit (entry m i j);
  bi_range : forall i j, entry m i j = 1%Z -> i < n /\ j < n;
  bi_sym : forall i j, entry m i j = entry m j i;
  bi_cross : forall i j, entry m i j = 1%Z -> (i <? n1) <> (j <? n1)
}.

Lemma grid_In (rows cols : list nat) (t : nat -> nat -> bool) a :
  In a (flat_map (fun i => flat_map (fun j => if t i j then [(i, j)] else [])
                                    cols) rows)
  <-> In (fst a) rows /\ In (snd a) cols /\ t (fst a) (snd a) = true.
Proof.
  rewrite in_flat_map. split.
  - intros (i & Hi & H). apply in_flat_map in H. destruct H as (j & Hj & H).
    destruct (t i j) eqn:E; [|destruct H]. destruct H as [<-|[]]. auto.
  - intros (Hi & Hj & Ht). exists (fst a). split; [assumption|].
    apply in_flat_map. exists (snd a). split; [assumption|].
    rewrite Ht. left. now destruct a.
Qed.

Lemma grid_row_NoDup (cols : list nat) (t : nat -> bool) (i : nat) :
  NoDup cols ->
  NoDup (flat_map (fun j => if t j then [(i, j)] else []) cols).
Proof.
  induction cols as [|j cols IH]; simpl; intros H; [constructor|].
  inv H. destruct (t j); simpl; [|auto]. constructor; [|auto].
  intros Hin. apply in_flat_map in Hin. destruct Hin as (k & Hk & Hin).
  destruct (t k); [|destruct Hin]. destruct Hin as [Hin|[]].
  inv Hin. contradiction.
Qed.

Lemma grid_NoDup (rows cols : list nat) (t : nat -> nat -> bool) :
  NoDup rows -> NoDup cols ->
  NoDup (flat_map (fun i => flat_map (fun j => if t i j then [(i, j)] else [])
                                     cols) rows).
Proof.
  intros Hr Hc. induction rows as [|i rows IH]; simpl; [constructor|].
  inv Hr. apply NoDup_app; auto.
  - now apply (grid_row_NoDup (t i)).
  - intros a Ha Hb.
    apply in_flat_map in Ha. destruct Ha as (j & Hj & Ha).
    destruct (t i j); [|destruct Ha]. destruct Ha as [<-|[]].
    apply (grid_In rows cols t) in Hb. simpl in Hb. tauto.
Qed.

Lemma from_numpy_matrix_grid d :
  from_numpy_matrix d
  = flat_map (fun i => flat_map (fun j => if negb (entry d i j =? 0)%Z
                                          then [(i, j)] else [])
                                (indices d)) (indices d).
Proof.
  unfold from_numpy_matrix. apply flat_map_ext. intros i.
  apply flat_map_ext. intros j. now destruct (entry d i j =? 0)%Z.
Qed.

Lemma indices_In m i : In i (indices m) <-> i < shape m.
Proof. unfold indices. rewrite in_seq. lia. Qed.

Lemma from_numpy_matrix_In d a :
  In a (from_numpy_matrix d) <->
  fst a < shape d /\ snd a < shape d /\ entry d (fst a) (snd a) <> 0%Z.
Proof.
  rewrite from_numpy_matrix_grid, grid_In, !indices_In, negb_true_iff,
    Z.eqb_neq. tauto.
Qed.

Lemma from_numpy_matrix_NoDup d : NoDup (from_numpy_matrix d).
Proof.
  rewrite from_numpy_matrix_grid. apply grid_NoDup; apply seq_NoDup.
Qed.

Lemma grid_column (t : nat -> nat -> bool) (rows : list nat) (c : nat) :
  flat_map (fun r => if t r c then [(r, c)] else []) rows
  = map swap (flat_map (fun r => if t r c then [(c, r)] else []) rows).
Proof.
  induction rows as [|r rs IHr]; [reflexivity|].
  cbn [flat_map]. rewrite map_app, IHr. now destruct (t r c).
Qed.

Lemma grid_columns (t : nat -> nat -> bool) (rows cols : list nat) :
  flat_map (fun c => flat_map (fun r => if t r c then [(r, c)] else []) rows)
           cols
  = map swap
      (flat_map (fun c => flat_map (fun r => if t r c then [(c, r)] else [])
                                   rows) cols).
Proof.
  induction cols as [|c cs IH]; [reflexivity|].
  cbn [flat_map]. now rewrite map_app, IH, grid_column.
Qed.

Lemma pairs_of_columns n1 m :
  pairs_of n1 m
  = map swap
      (flat_map (fun c =>
                   flat_map (fun r => if (entry m r c =? 1)%Z then [(c, r)]
                                      else [])
                            (seq 0 (Nat.min n1 (shape m))))
                (indices m)).
Proof.
  unfold pairs_of.
  apply (grid_columns (fun r c => (entry m r c =? 1)%Z)).
Qed.

Lemma pairs_of_In n1 m p :
  In p (pairs_of n1 m) <->
  fst p < n1 /\ fst p < shape m /\ snd p < shape m /\
  entry m (fst p) (snd p) = 1%Z.
Proof.
  rewrite pairs_of_columns, in_map_iff.
  pose proof (Nat.le_min_l n1 (shape m)) as L1.
  pose proof (Nat.le_min_r n1 (shape m)) as L2. split.
  - intros (q & <- & Hq).
    apply (grid_In _ _ (fun c r => (entry m r c =? 1)%Z)) in Hq.
    rewrite indices_In, in_seq, Z.eqb_eq in Hq.
    destruct q as [b a]. cbn [swap fst snd] in *.
    destruct Hq as (Q1 & Q2 & Q3). repeat split; lia || exact Q3.
  - intros (H1 & H2 & H3 & H4). exists (swap p). split; [apply swap_swap|].
    apply (grid_In _ _ (fun c r => (entry m r c =? 1)%Z)).
    rewrite indices_In, in_seq, Z.eqb_eq.
    destruct p as [a b]. cbn [swap fst snd] in *.
    split; [exact H3|]. split; [|exact H4].
    destruct (Nat.min_spec n1 (shape m)) as [[? ->]|[? ->]]; lia.
Qed.

Lemma pairs_of_NoDup n1 m : NoDup (pairs_of n1 m).
Proof.
  rewrite pairs_of_columns. apply NoDup_map_on.
  - apply (@grid_NoDup _ _ (fun c r => (entry m r c =? 1)%Z)); apply seq_NoDup.
  - intros x y _ _. apply swap_inj.
Qed.

(** The state of a call: two symmetric 0/1 matrices of one shape, the
    second with at most one entry 1 in a row; a matched pair that is not an
    edge has lost all the edges at its ends; the forced edges are matched
    and are not edges. *)
Record state_inv (n n1 : nat) (adj matchadj : lil_matrix) (add : list Edge)
    : Prop := {
  st_n1 : n1 <= n;
  st_adj : bimatrix n n1 adj;
  st_match : bimatrix n n1 matchadj;
  st_unique : forall i j k,
    entry matchadj i j = 1%Z -> entry matchadj i k = 1%Z -> j = k;
  st_dead : forall i j k,
    entry matchadj i j = 1%Z -> entry adj i j = 0%Z -> entry adj i k = 0%Z;
  st_add : forall ii, In ii add ->
    entry matchadj (fst ii) (snd ii) = 1%Z /\ entry adj (fst ii) (snd ii) = 0%Z
}.

Lemma lookup_attr_seq (f : nat -> nat) len : forall s i,
  s <= i < s + len ->
  lookup_attr (map (fun i => (i, f i)) (seq s len)) i = Ok (f i).
Proof.
  induction len as [|len IH]; intros s i H; [lia|]. simpl.
  destruct (i =? s) eqn:E.
  - apply Nat.eqb_eq in E. now subst.
  - apply Nat.eqb_neq in E. apply IH. lia.
Qed.

Lemma simpleb_left_first (l : list Edge) :
  NoDup l -> (forall p q, In p l -> In q l -> p <> swap q) ->
  simpleb l = true.
Proof.
  induction l as [|a l IH]; simpl; intros Hd Hs; [reflexivity|].
  inv Hd. apply andb_true_iff. split.
  - apply negb_true_iff, not_true_is_false. intros H.
    apply existsb_exists in H. destruct H as (b & Hb & H).
    apply same_edge_iff in H. destruct H as [->| ->]; [contradiction|].
    apply (Hs (swap b) b); auto.
  - apply IH; [assumption|]. intros p q Hp Hq. apply Hs; now right.
Qed.

Lemma bit_not_zero z : bit z -> (z <> 0%Z <-> z = 1%Z).
Proof. intros [->| ->]; lia. Qed.

Section MatrixState.

Variables n n1 : nat.
Variables adj matchadj : lil_matrix.
Variable add : list Edge.
Hypothesis Hst : state_inv n n1 adj matchadj add.

Let gi := graph_of n1 adj.
Let M := matched n1 adj matchadj.

Lemma gi_nodes : nodes gi = seq 0 n.
Proof.
  unfold nodes, gi, graph_of. cbn [node]. rewrite map_map. cbn [fst].
  rewrite map_id. unfold indices. now rewrite (bi_shape (st_adj Hst)).
Qed.

Lemma gi_attr i : i < n -> bipartite gi i = Ok (if i <? n1 then 0 else 1).
Proof.
  intros H. unfold bipartite, gi, graph_of, indices. cbn [node].
  rewrite (bi_shape (st_adj Hst)).
  apply (lookup_attr_seq (fun i => if i <? n1 then 0 else 1)). lia.
Qed.

Lemma gi_leftb i : i < n -> leftb gi i = (i <? n1).
Proof. intros H. unfold leftb. rewrite (gi_attr H). now destruct (i <? n1). Qed.

Lemma gi_rightb i : i < n -> rightb gi i = negb (i <? n1).
Proof. intros H. unfold rightb. rewrite (gi_attr H). now destruct (i <? n1). Qed.

Lemma gi_edges_In p :
  In p (edges gi) <-> fst p < n1 /\ entry adj (fst p) (snd p) = 1%Z.
Proof.
  unfold gi, graph_of. cbn [edges].
  rewrite filter_In, from_numpy_matrix_In, Nat.ltb_lt,
    (bit_not_zero (bi_bit (st_adj Hst) _ _)), (bi_shape (st_adj Hst)).
  split; [tauto|]. intros [H1 H2].
  destruct (bi_range (st_adj Hst) _ _ H2). tauto.
Qed.

Lemma gi_edge_sides p :
  In p (edges gi) ->
  (fst p < n /\ snd p < n) /\ (fst p <? n1) = true /\ (snd p <? n1) = false.
Proof.
  intros H. apply gi_edges_In in H. destruct H as [H1 H2].
  pose proof (bi_range (st_adj Hst) _ _ H2) as Hr.
  pose proof (bi_cross (st_adj Hst) _ _ H2) as Hc.
  apply Nat.ltb_lt in H1. rewrite H1 in Hc.
  split; [assumption|]. split; [assumption|].
  destruct (snd p <? n1); congruence.
Qed.

Lemma gi_bipartite : bipartite_graphb gi = true.
Proof.
  unfold bipartite_graphb. rewrite !andb_true_iff. split; [split|].
  - apply nodupb_NoDup. rewrite gi_nodes. apply seq_NoDup.
  - apply forallb_forall. intros p Hp.
    destruct (gi_edge_sides p Hp) as ([R1 R2] & S1 & S2).
    unfold crossb, left_right. rewrite (gi_leftb R1), (gi_rightb R2), S1, S2.
    reflexivity.
  - apply simpleb_left_first.
    + unfold gi, graph_of. cbn [edges].
      apply NoDup_filter, from_numpy_matrix_NoDup.
    + intros p q Hp Hq ->.
      destruct (gi_edge_sides _ Hp) as (_ & S1 & _).
      destruct (gi_edge_sides _ Hq) as (_ & _ & S2).
      simpl in S1. congruence.
Qed.

Lemma gi_oriented : oriented_edges gi = edges gi.
Proof.
  unfold oriented_edges. rewrite <- (map_id (edges gi)) at 2.
  apply map_ext_in. intros p Hp.
  destruct (gi_edge_sides p Hp) as ([R1 R2] & S1 & S2).
  unfold orient. now rewrite (gi_leftb R1), S1.
Qed.

Lemma gi_E_In p :
  In p (oriented_edges gi) <-> fst p < n1 /\ entry adj (fst p) (snd p) = 1%Z.
Proof. rewrite gi_oriented. apply gi_edges_In. Qed.

Lemma gi_M_In p :
  In p M <->
  fst p < n1 /\ entry adj (fst p) (snd p) = 1%Z /\
  entry matchadj (fst p) (snd p) = 1%Z.
Proof.
  unfold M, matched. fold gi. rewrite filter_In, gi_edges_In, Z.eqb_eq. tauto.
Qed.

Lemma gi_M_incl : incl M (oriented_edges gi).
Proof. intros p Hp. apply gi_E_In. apply gi_M_In in Hp. tauto. Qed.

Lemma gi_M_nodup : NoDup M.
Proof.
  unfold M, matched. apply NoDup_filter. unfold graph_of. cbn [edges].
  apply NoDup_filter, from_numpy_matrix_NoDup.
Qed.

Lemma gi_M_left : NoDup (map fst M).
Proof.
  apply NoDup_map_on; [apply gi_M_nodup|].
  intros [a b] [c d] Hx Hy E. simpl in E. subst c.
  apply gi_M_In in Hx, Hy. simpl in *.
  f_equal. apply (st_unique Hst a); tauto.
Qed.

Lemma gi_M_right : NoDup (map snd M).
Proof.
  apply NoDup_map_on; [apply gi_M_nodup|].
  intros [a b] [c d] Hx Hy E. simpl in E. subst d.
  apply gi_M_In in Hx, Hy. simpl in *.
  f_equal. apply (st_unique Hst b); rewrite (bi_sym (st_match Hst)); tauto.
Qed.

Lemma gi_M_valid : NoDup (endpoints M).
Proof.
  apply (endpoints_nodup (fun i => i <? n1)); [|apply gi_M_left|apply gi_M_right].
  intros p Hp. apply gi_M_incl in Hp. rewrite gi_oriented in Hp.
  now apply gi_edge_sides in Hp.
Qed.

Lemma gi_live : live gi M = M.
Proof.
  apply live_all. intros p Hp. rewrite gi_nodes. apply in_seq.
  apply gi_M_incl in Hp. rewrite gi_oriented in Hp.
  apply gi_edge_sides in Hp. lia.
Qed.

Lemma gi_call_inv : call_inv gi M [].
Proof.
  constructor; rewrite ?gi_live.
  - exact gi_bipartite.
  - exact gi_M_incl.
  - exact gi_M_valid.
  - intros p [].
  - constructor.
Qed.

End MatrixState.

(** ** The digraph of a call *)

Section MatrixDigraph.

Variables n n1 : nat.
Variables adj matchadj : lil_matrix.
Variable add : list Edge.
Hypothesis Hst : state_inv n n1 adj matchadj add.

Let E := oriented_edges (graph_of n1 adj).
Let M := matched n1 adj matchadj.
Let d := exchange_matrix n1 adj matchadj.

Lemma exchange_entry a b :
  entry d a b <> 0%Z <->
  entry adj a b = 1%Z /\
  (if a <? n1 then entry matchadj a b = 1%Z else entry matchadj a b = 0%Z).
Proof.
  unfold d, exchange_matrix. cbn [entry].
  destruct (bi_bit (st_adj Hst) a b) as [Ha|Ha],
    (bi_bit (st_match Hst) a b) as [Hm|Hm]; rewrite Ha, Hm;
    destruct (a <? n1); lia.
Qed.

Lemma exchange_arcs_In a :
  In a (from_numpy_matrix d) <-> In a (exchange_digraph E M).
Proof.
  rewrite from_numpy_matrix_In, exchange_entry. unfold E, M.
  rewrite (arc_In (gi_M_incl Hst)).
  rewrite !(gi_M_In Hst), !(gi_E_In Hst). cbn [swap fst snd].
  change (shape d) with (shape adj). rewrite (bi_shape (st_adj Hst)).
  rewrite (bi_sym (st_adj Hst) (snd a) (fst a)),
    (bi_sym (st_match Hst) (snd a) (fst a)).
  destruct (fst a <? n1) eqn:S1.
  - apply Nat.ltb_lt in S1. split.
    + intros (_ & _ & H1 & H2). left. tauto.
    + intros [H|[[H1 H2] _]].
      * destruct (bi_range (st_adj Hst) _ _ (proj1 (proj2 H))). tauto.
      * exfalso. apply (bi_cross (st_adj Hst) _ _ H2).
        apply Nat.ltb_lt in S1, H1. congruence.
  - apply Nat.ltb_ge in S1. split.
    + intros (_ & _ & H1 & H2). right.
      pose proof (bi_cross (st_adj Hst) _ _ H1) as Hc.
      assert (S2 : snd a < n1).
      { apply Nat.ltb_lt. destruct (snd a <? n1) eqn:S2; [reflexivity|].
        exfalso. apply Hc. now apply Nat.ltb_ge. }
      split; [tauto|]. intros (_ & _ & H3). lia.
    + intros [H|[[H1 H2] H3]]; [lia|].
      destruct (bi_range (st_adj Hst) _ _ H2) as [R1 R2].
      split; [assumption|]. split; [assumption|]. split; [assumption|].
      destruct (bi_bit (st_match Hst) (fst a) (snd a)) as [Hm|Hm];
        [assumption|]. exfalso. apply H3. tauto.
Qed.

Lemma exchange_arc_entry a :
  In a (exchange_digraph E M) ->
  (fst a < n /\ snd a < n) /\ entry adj (fst a) (snd a) = 1%Z /\
  (fst a <? n1) <> (snd a <? n1) /\
  (entry matchadj (fst a) (snd a) = 1%Z <-> fst a < n1).
Proof.
  intros H. apply exchange_arcs_In in H. apply from_numpy_matrix_In in H.
  destruct H as (_ & _ & H). apply exchange_entry in H. destruct H as [H1 H2].
  split; [apply (bi_range (st_adj Hst) _ _ H1)|]. split; [assumption|].
  split; [apply (bi_cross (st_adj Hst) _ _ H1)|].
  destruct (fst a <? n1) eqn:S1.
  - apply Nat.ltb_lt in S1. tauto.
  - apply Nat.ltb_ge in S1. rewrite H2. split; [discriminate|lia].
Qed.

End MatrixDigraph.

(** ** The new matching of a call *)

Definition on_flip (flip : list Edge) (a b : nat) : bool :=
  memE (a, b) flip || memE (b, a) flip.

(** [nm] is [matchadj] with the entries of the arcs of [flip], and of their
    reverses, exchanged between 0 and 1. *)
Definition toggle_spec (matchadj : lil_matrix) (flip : list Edge)
    (nm : lil_matrix) : Prop :=
  shape nm = shape matchadj /\
  forall a b,
    entry nm a b =
    if on_flip flip a b
    then (if (entry matchadj a b =? 1)%Z then 0%Z else 1%Z)
    else entry matchadj a b.

Section Toggle.

Variables n n1 : nat.
Variables adj matchadj : lil_matrix.
Variable add : list Edge.
Hypothesis Hst : state_inv n n1 adj matchadj add.

Let E := oriented_edges (graph_of n1 adj).
Let M := matched n1 adj matchadj.
Let F := forced n1 adj matchadj.

Variable flip : list Edge.
Hypothesis flip_arcs : incl flip (exchange_digraph E M).
Hypothesis flip_good : flip_ok E M flip.

Variable nm : lil_matrix.
Hypothesis Hnm : toggle_spec matchadj flip nm.

Let T0 := toggled E M flip.

Lemma on_flip_facts a b :
  on_flip flip a b = true ->
  (a < n /\ b < n) /\ entry adj a b = 1%Z /\ (a <? n1) <> (b <? n1).
Proof.
  unfold on_flip. rewrite orb_true_iff, !memE_In. intros [H|H];
    apply flip_arcs, (exchange_arc_entry Hst) in H; cbn [fst snd] in H.
  - tauto.
  - rewrite (bi_sym (st_adj Hst)). destruct H as (H1 & H2 & H3 & _).
    split; [tauto|]. split; [assumption|]. congruence.
Qed.

Lemma on_flip_sym a b : on_flip flip a b = on_flip flip b a.
Proof. unfold on_flip. apply orb_comm. Qed.

Lemma toggle_bimatrix : bimatrix n n1 nm.
Proof.
  destruct Hnm as [Hs He]. constructor.
  - rewrite Hs. apply (bi_shape (st_match Hst)).
  - intros i j. rewrite He. destruct (on_flip flip i j).
    + destruct (entry matchadj i j =? 1)%Z; [now left|now right].
    + apply (bi_bit (st_match Hst)).
  - intros i j. rewrite He. destruct (on_flip flip i j) eqn:Ef.
    + intros _. now apply on_flip_facts.
    + apply (bi_range (st_match Hst)).
  - intros i j. rewrite !He, (on_flip_sym i j), (bi_sym (st_match Hst) i j).
    reflexivity.
  - intros i j. rewrite He. destruct (on_flip flip i j) eqn:Ef.
    + intros _. now apply on_flip_facts.
    + apply (bi_cross (st_match Hst)).
Qed.

Lemma toggle_rep p :
  In p (pairs_of n1 nm) <-> In p (T0 ++ F).
Proof.
  destruct Hnm as [Hs He]. destruct p as [i j].
  rewrite pairs_of_In, in_app_iff. unfold T0, E, M.
  rewrite (toggled_In (gi_M_incl Hst)). unfold F, forced.
  rewrite filter_In, pairs_of_In, !(gi_M_In Hst), (gi_E_In Hst), Z.eqb_eq.
  cbn [fst snd swap]. rewrite He, Hs, (bi_shape (st_match Hst)).
  change (swap (i, j)) with (j, i).
  destruct (on_flip flip i j) eqn:Ef; unfold on_flip in Ef.
  - apply orb_true_iff in Ef. rewrite !memE_In in Ef. destruct Ef as [F1|F2].
    + pose proof F1 as F1'.
      apply flip_arcs, (exchange_arc_entry Hst) in F1'. cbn [fst snd] in F1'.
      destruct F1' as (R & A & C & Hm). split.
      * intros (H1 & _ & _ & H2). apply Hm in H1. rewrite H1 in H2.
        cbn in H2. discriminate.
      * intros [[[_ H]|(H0 & H & _)]|[_ H]]; [contradiction| |lia].
        exfalso. apply H. tauto.
    + pose proof F2 as F2'.
      apply flip_arcs, (exchange_arc_entry Hst) in F2'. cbn [fst snd] in F2'.
      destruct F2' as (R & A & C & Hm).
      rewrite (bi_sym (st_adj Hst)) in A.
      rewrite (bi_sym (st_match Hst)) in Hm.
      split.
      * intros (H1 & _ & _ & H2). left. right.
        split; [tauto|]. split; [|assumption]. intros (_ & _ & H3).
        rewrite H3 in H2. cbn in H2. discriminate.
      * intros [[[[H1 [_ H2]] _]|(H1 & H2 & _)]|[(H1 & _ & _ & H2) H3]].
        -- exfalso. apply Hm in H2. apply C. apply Nat.ltb_lt in H1, H2.
           congruence.
        -- destruct (entry matchadj i j =? 1)%Z eqn:Em; [|lia].
           apply Z.eqb_eq in Em. exfalso. apply H2. tauto.
        -- lia.
  - apply orb_false_iff in Ef. rewrite !memE_false in Ef.
    destruct Ef as [F1 F2]. split.
    + intros (H1 & H2 & H3 & H4).
      destruct (bi_bit (st_adj Hst) i j) as [A|A].
      * right. tauto.
      * left. left. tauto.
    + intros [[[(H1 & H2 & H3) _]|(_ & _ & H)]|[H _]]; [|contradiction|tauto].
      destruct (bi_range (st_match Hst) _ _ H3). tauto.
Qed.

Lemma forced_In p :
  In p F <->
  fst p < n1 /\ entry matchadj (fst p) (snd p) = 1%Z /\
  entry adj (fst p) (snd p) = 0%Z.
Proof.
  unfold F, forced. rewrite filter_In, pairs_of_In, Z.eqb_eq,
    (bi_shape (st_match Hst)).
  split; [tauto|]. intros (H1 & H2 & H3).
  destruct (bi_range (st_match Hst) _ _ H2). tauto.
Qed.

Lemma forced_dead p x k :
  In p F -> fst p = x \/ snd p = x -> entry adj x k = 0%Z.
Proof.
  intros Hp Hx. apply forced_In in Hp. destruct Hp as (_ & H1 & H2).
  destruct Hx as [<-|<-].
  - apply (st_dead Hst _ _ k H1 H2).
  - rewrite (bi_sym (st_match Hst)) in H1. rewrite (bi_sym (st_adj Hst)) in H2.
    apply (st_dead Hst _ _ k H1 H2).
Qed.

Lemma toggled_alive p :
  In p T0 -> entry adj (fst p) (snd p) = 1%Z /\ entry adj (snd p) (fst p) = 1%Z.
Proof.
  intros Hp. apply (toggled_edges E M flip), (gi_E_In Hst) in Hp.
  destruct Hp as [_ Hp]. split; [assumption|].
  now rewrite (bi_sym (st_adj Hst)).
Qed.

Lemma forced_nodup : NoDup F.
Proof. unfold F, forced. apply NoDup_filter, pairs_of_NoDup. Qed.

Lemma toggle_left : NoDup (map fst (T0 ++ F)).
Proof.
  rewrite map_app. apply NoDup_app.
  - apply toggled_left; auto.
    + unfold E. rewrite (gi_oriented Hst). unfold graph_of. cbn [edges].
      apply NoDup_filter, from_numpy_matrix_NoDup.
    + apply (gi_M_incl Hst).
    + apply (gi_M_left Hst).
  - apply NoDup_map_on; [apply forced_nodup|].
    intros [a b] [c d] Hx Hy Ex. simpl in Ex. subst c.
    apply forced_In in Hx, Hy. simpl in *. f_equal.
    apply (st_unique Hst a); tauto.
  - intros x Hx Hy. apply in_map_iff in Hx, Hy.
    destruct Hx as (p & <- & Hp), Hy as (q & Hq & Hq').
    apply toggled_alive in Hp. destruct Hp as [Hp _].
    rewrite (@forced_dead q (fst p) (snd p) Hq' (or_introl Hq)) in Hp.
    discriminate.
Qed.

Lemma toggle_right : NoDup (map snd (T0 ++ F)).
Proof.
  rewrite map_app. apply NoDup_app.
  - apply toggled_right; auto.
    + unfold E. rewrite (gi_oriented Hst). unfold graph_of. cbn [edges].
      apply NoDup_filter, from_numpy_matrix_NoDup.
    + apply (gi_M_incl Hst).
    + apply (gi_M_right Hst).
  - apply NoDup_map_on; [apply forced_nodup|].
    intros [a b] [c d] Hx Hy Ex. simpl in Ex. subst d.
    apply forced_In in Hx, Hy. simpl in *. f_equal.
    apply (st_unique Hst b); rewrite (bi_sym (st_match Hst)); tauto.
  - intros x Hx Hy. apply in_map_iff in Hx, Hy.
    destruct Hx as (p & <- & Hp), Hy as (q & Hq & Hq').
    apply toggled_alive in Hp. destruct Hp as [_ Hp].
    rewrite (@forced_dead q (snd p) (fst p) Hq' (or_intror Hq)) in Hp.
    discriminate.
Qed.

Lemma toggle_state : state_inv n n1 adj nm add.
Proof.
  pose proof toggle_bimatrix as Hb. destruct Hnm as [Hs He]. constructor.
  - apply (st_n1 Hst).
  - apply (st_adj Hst).
  - exact Hb.
  - intros i j k Hj Hk.
    destruct (bi_range Hb _ _ Hj) as [Ri Rj].
    destruct (bi_range Hb _ _ Hk) as [_ Rk].
    pose proof (bi_cross Hb _ _ Hj) as Cj.
    pose proof (bi_cross Hb _ _ Hk) as Ck.
    rewrite <- (bi_shape Hb) in Ri, Rj, Rk.
    destruct (i <? n1) eqn:Si.
    + apply Nat.ltb_lt in Si.
      assert (Pj : In (i, j) (T0 ++ F)) by (apply toggle_rep, pairs_of_In; tauto).
      assert (Pk : In (i, k) (T0 ++ F)) by (apply toggle_rep, pairs_of_In; tauto).
      pose proof (NoDup_map_inj fst _ _ _ toggle_left Pj Pk eq_refl) as Heq.
      now inv Heq.
    + assert (Sj : j < n1).
      { apply Nat.ltb_lt. destruct (j <? n1); congruence. }
      assert (Sk : k < n1).
      { apply Nat.ltb_lt. destruct (k <? n1); congruence. }
      rewrite (bi_sym Hb) in Hj, Hk.
      assert (Pj : In (j, i) (T0 ++ F)) by (apply toggle_rep, pairs_of_In; tauto).
      assert (Pk : In (k, i) (T0 ++ F)) by (apply toggle_rep, pairs_of_In; tauto).
      pose proof (NoDup_map_inj snd _ _ _ toggle_right Pj Pk eq_refl) as Heq.
      now inv Heq.
  - intros i j k. rewrite He. destruct (on_flip flip i j) eqn:Ef.
    + intros _ A. apply on_flip_facts in Ef. destruct Ef as (_ & A' & _).
      rewrite A in A'. discriminate.
    + apply (st_dead Hst).
  - intros ii Hii. destruct (st_add Hst ii Hii) as [H1 H2].
    split; [|assumption]. rewrite He.
    destruct (on_flip flip (fst ii) (snd ii)) eqn:Ef; [|assumption].
    apply on_flip_facts in Ef. destruct Ef as (_ & A' & _).
    rewrite H2 in A'. discriminate.
Qed.

End Toggle.

(** ** The operations on the matrices *)

Lemma mget_Ok m i j :
  i < shape m -> j < shape m -> mget m i j = Ok (entry m i j).
Proof.
  intros Hi Hj. unfold mget, in_shape.
  apply Nat.ltb_lt in Hi, Hj. now rewrite Hi, Hj.
Qed.

Lemma mset_Ok m i j v :
  i < shape m -> j < shape m ->
  mset m i j v
  = Ok (mkMatrix (shape m)
          (fun a b => if (a =? i) && (b =? j) then v else entry m a b)).
Proof.
  intros Hi Hj. unfold mset, in_shape.
  apply Nat.ltb_lt in Hi, Hj. now rewrite Hi, Hj.
Qed.

Lemma zero_row_Ok m i :
  i < shape m ->
  zero_row m i
  = Ok (mkMatrix (shape m) (fun a b => if a =? i then 0%Z else entry m a b)).
Proof.
  intros Hi. unfold zero_row, in_shape. apply Nat.ltb_lt in Hi. now rewrite Hi.
Qed.

Lemma zero_col_Ok m j :
  j < shape m ->
  zero_col m j
  = Ok (mkMatrix (shape m) (fun a b => if b =? j then 0%Z else entry m a b)).
Proof.
  intros Hj. unfold zero_col, in_shape. apply Nat.ltb_lt in Hj. now rewrite Hj.
Qed.

Definition flipped (m : lil_matrix) (a b : nat) : Z :=
  if (entry m a b =? 1)%Z then 0%Z else 1%Z.

Lemma on_flip_cons ee flip a b :
  on_flip (ee :: flip) a b
  = ((a =? fst ee) && (b =? snd ee)) || ((b =? fst ee) && (a =? snd ee))
    || on_flip flip a b.
Proof.
  unfold on_flip, memE. cbn [existsb]. unfold edge_eqb. cbn [fst snd].
  repeat match goal with
         | |- context [existsb ?f ?l] => generalize (existsb f l); intro
         end.
  destruct ((a =? fst ee) && (b =? snd ee)),
    ((b =? fst ee) && (a =? snd ee)); repeat match goal with
                                             | x : bool |- _ => destruct x
                                             end; reflexivity.
Qed.

Lemma toggle_cycle_spec matchadj cyc :
  (forall i j, entry matchadj i j = entry matchadj j i) ->
  (forall ee, In ee cyc -> fst ee < shape matchadj /\ snd ee < shape matchadj) ->
  forall nm e0, shape nm = shape matchadj ->
  exists nm' e',
    toggle_cycle matchadj cyc nm e0 = Ok (nm', e') /\
    shape nm' = shape matchadj /\
    (forall a b, entry nm' a b
                 = if on_flip cyc a b then flipped matchadj a b
                   else entry nm a b) /\
    ((exists ee, In ee cyc /\ entry matchadj (fst ee) (snd ee) = 1%Z /\
                 e' = Some ee) \/
     ((forall ee, In ee cyc -> entry matchadj (fst ee) (snd ee) <> 1%Z) /\
      e' = e0)).
Proof.
  intros Hsym. induction cyc as [|ee cyc IH]; intros Hr nm e0 Hs.
  - exists nm, e0. split; [reflexivity|]. split; [assumption|].
    split; [reflexivity|]. right. split; [intros ee []|reflexivity].
  - destruct (Hr ee (or_introl eq_refl)) as [R1 R2].
    assert (Hr' : forall x, In x cyc ->
                    fst x < shape matchadj /\ snd x < shape matchadj).
    { intros x Hx. apply Hr. now right. }
    set (v := flipped matchadj (fst ee) (snd ee)).
    set (m2 := mkMatrix (shape nm)
                 (fun a b => if (a =? snd ee) && (b =? fst ee) then v
                             else if (a =? fst ee) && (b =? snd ee) then v
                                  else entry nm a b)).
    assert (Hstep : toggle_cycle matchadj (ee :: cyc) nm e0
                    = toggle_cycle matchadj cyc m2
                        (if (entry matchadj (fst ee) (snd ee) =? 1)%Z
                         then Some ee else e0)).
    { cbn [toggle_cycle]. unfold V. rewrite (@mget_Ok matchadj _ _ R1 R2).
      cbn [bind].
      unfold m2, v, flipped.
      destruct (entry matchadj (fst ee) (snd ee) =? 1)%Z;
        rewrite (@mset_Ok nm) by (rewrite Hs; assumption); cbn [bind];
        rewrite mset_Ok by (cbn [shape]; rewrite Hs; assumption);
        cbn [bind shape entry]; reflexivity. }
    assert (Hent : forall nm' a b,
               entry nm' a b = (if on_flip cyc a b then flipped matchadj a b
                                else entry m2 a b) ->
               entry nm' a b = (if on_flip (ee :: cyc) a b
                                then flipped matchadj a b else entry nm a b)).
    { intros nm' a b ->. rewrite on_flip_cons. unfold V.
      destruct (on_flip cyc a b); [now rewrite orb_true_r|].
      rewrite orb_false_r. unfold m2. cbn [entry].
      rewrite (andb_comm (b =? fst ee) (a =? snd ee)).
      destruct ((a =? snd ee) && (b =? fst ee)) eqn:E1.
      - rewrite orb_true_r. apply andb_true_iff in E1. destruct E1 as [E1 E2].
        apply Nat.eqb_eq in E1, E2. subst a b. unfold v, flipped.
        now rewrite Hsym.
      - rewrite orb_false_r.
        destruct ((a =? fst ee) && (b =? snd ee)) eqn:E2; [|reflexivity].
        apply andb_true_iff in E2. destruct E2 as [E2 E3].
        apply Nat.eqb_eq in E2, E3. now subst a b. }
    destruct (IH Hr' m2 (if (entry matchadj (fst ee) (snd ee) =? 1)%Z
                         then Some ee else e0) Hs)
      as (nm' & e' & R & S' & He & Hl).
    exists nm', e'. split; [now rewrite Hstep|]. split; [assumption|].
    split; [intros a b; now apply Hent|].
    destruct (entry matchadj (fst ee) (snd ee) =? 1)%Z eqn:Em.
    + left. destruct Hl as [(x & Hx & Hm & ->)|[_ ->]].
      * exists x. split; [now right|]. split; [assumption|reflexivity].
      * exists ee. split; [now left|]. split; [|reflexivity].
        now apply Z.eqb_eq.
    + destruct Hl as [(x & Hx & Hm & ->)|[Hn ->]].
      * left. exists x. split; [now right|]. split; [assumption|reflexivity].
      * right. split; [|reflexivity]. intros x [<-|Hx]; [|now apply Hn].
        now apply Z.eqb_neq.
Qed.

Lemma set_add_e_same add : forall m,
  (forall ii, In ii add ->
     (fst ii < shape m /\ snd ii < shape m) /\
     entry m (fst ii) (snd ii) = 1%Z) ->
  exists m', set_add_e add m = Ok m' /\ shape m' = shape m /\
             forall a b, entry m' a b = entry m a b.
Proof.
  induction add as [|ii add IH]; intros m H.
  - exists m. auto.
  - destruct (H ii (or_introl eq_refl)) as [[R1 R2] H1].
    cbn [set_add_e]. unfold V. rewrite (@mset_Ok m _ _ 1%Z R1 R2). cbn [bind].
    set (m1 := mkMatrix _ _).
    assert (H1' : forall a b, entry m1 a b = entry m a b).
    { intros a b. unfold m1. cbn [entry].
      destruct ((a =? fst ii) && (b =? snd ii)) eqn:Eq; [|reflexivity].
      apply andb_true_iff in Eq. destruct Eq as [E1 E2].
      apply Nat.eqb_eq in E1, E2. now subst. }
    destruct (IH m1) as (m' & R & S' & He).
    { intros x Hx. rewrite H1'. apply H. now right. }
    exists m'. split; [assumption|]. split; [assumption|].
    intros a b. now rewrite He.
Qed.

Lemma form_subproblems2_spec adj e :
  fst e < shape adj -> snd e < shape adj ->
  exists g_plus g_minus,
    form_subproblems2 adj e = Ok (g_plus, g_minus) /\
    shape g_plus = shape adj /\ shape g_minus = shape adj /\
    (forall a b, entry g_plus a b
                 = if (a =? fst e) || (a =? snd e) || (b =? fst e) || (b =? snd e)
                   then 0%Z else entry adj a b) /\
    (forall a b, entry g_minus a b
                 = if ((a =? fst e) && (b =? snd e)) || ((a =? snd e) && (b =? fst e))
                   then 0%Z else entry adj a b).
Proof.
  intros R1 R2. unfold form_subproblems2, V.
  rewrite (@zero_row_Ok adj _ R1). cbn [bind].
  rewrite zero_col_Ok by assumption. cbn [bind].
  rewrite zero_col_Ok by assumption. cbn [bind].
  rewrite zero_row_Ok by assumption. cbn [bind].
  rewrite (@mset_Ok adj _ _ 0%Z R1 R2). cbn [bind].
  rewrite mset_Ok by assumption. cbn [bind shape entry].
  eexists. eexists. split; [reflexivity|]. cbn [shape entry].
  split; [reflexivity|]. split; [reflexivity|]. split; intros a b.
  - destruct (a =? fst e), (a =? snd e), (b =? fst e), (b =? snd e); reflexivity.
  - destruct (a =? fst e), (a =? snd e), (b =? fst e), (b =? snd e); reflexivity.
Qed.

Ltac case_if :=
  match goal with
  | |- context [if ?c then _ else _] => destruct c
  end.

(** ** The subproblems of a call *)

(** [post] looks at a graph through its edges and at a matching through
    its members. *)
Lemma post_ext g g' M M' Ts :
  (forall p, In p (oriented_edges g) <-> In p (oriented_edges g')) ->
  (forall p, edge_inb g p = edge_inb g' p) ->
  (forall p, In p M <-> In p M') -> length M = length M' ->
  post g M Ts -> post g' M' Ts.
Proof.
  intros HE Hin HM Hl P.
  assert (Heq : equiv M M').
  { apply equiv_incl; intros p Hp; now apply HM. }
  constructor.
  - intros T HT. destruct (post_matchings P _ HT) as [[H1 H2] H3].
    split; [split; [|assumption]|now rewrite <- Hl].
    intros p Hp. rewrite <- Hin. now apply H1.
  - apply (post_distinct P).
  - intros T HT Hx. apply (post_fresh P HT).
    apply (equiv_trans Hx). now apply equiv_sym.
  - intros Hmax N HN Hn HlN.
    assert (Hmax' : is_maximum g (length M)).
    { intros N' HN' Hn'. rewrite Hl. apply Hmax; [|assumption].
      intros p Hp. now apply HE, HN'. }
    assert (HN' : incl N (oriented_edges g)).
    { intros p Hp. now apply HE, HN. }
    rewrite <- Hl in HlN.
    destruct (post_complete P Hmax' HN' Hn HlN) as [H|H].
    + left. now apply (equiv_trans H).
    + now right.
Qed.

(** [g_minus] and [g_plus], by their entries. *)
Definition minus_entries (adj gm : lil_matrix) (e : Edge) : Prop :=
  shape gm = shape adj /\
  forall a b,
    entry gm a b
    = if ((a =? fst e) && (b =? snd e)) || ((a =? snd e) && (b =? fst e))
      then 0%Z else entry adj a b.

Definition plus_entries (adj gp : lil_matrix) (e : Edge) : Prop :=
  shape gp = shape adj /\
  forall a b,
    entry gp a b
    = if (a =? fst e) || (a =? snd e) || (b =? fst e) || (b =? snd e)
      then 0%Z else entry adj a b.

Lemma minus_entries_swap adj gm e :
  minus_entries adj gm e -> minus_entries adj gm (swap e).
Proof.
  intros [Hs He]. split; [assumption|]. intros a b. rewrite He.
  cbn [swap fst snd]. now rewrite orb_comm.
Qed.

Lemma plus_entries_swap adj gp e :
  plus_entries adj gp e -> plus_entries adj gp (swap e).
Proof.
  intros [Hs He]. split; [assumption|]. intros a b. rewrite He.
  cbn [swap fst snd].
  destruct (a =? fst e), (a =? snd e), (b =? fst e), (b =? snd e); reflexivity.
Qed.

Lemma minus_bimatrix n n1 adj gm e :
  bimatrix n n1 adj -> minus_entries adj gm e -> bimatrix n n1 gm.
Proof.
  intros Hb [Hs He]. constructor.
  - rewrite Hs. apply (bi_shape Hb).
  - intros i j. rewrite He. case_if; [now left|apply (bi_bit Hb)].
  - intros i j. rewrite He. case_if; [discriminate|apply (bi_range Hb)].
  - intros i j. rewrite !He, (bi_sym Hb i j).
    rewrite (andb_comm (i =? fst e)), (andb_comm (i =? snd e)).
    now rewrite orb_comm.
  - intros i j. rewrite He. case_if; [discriminate|apply (bi_cross Hb)].
Qed.

Lemma plus_bimatrix n n1 adj gp e :
  bimatrix n n1 adj -> plus_entries adj gp e -> bimatrix n n1 gp.
Proof.
  intros Hb [Hs He]. constructor.
  - rewrite Hs. apply (bi_shape Hb).
  - intros i j. rewrite He. case_if; [now left|apply (bi_bit Hb)].
  - intros i j. rewrite He. case_if; [discriminate|apply (bi_range Hb)].
  - intros i j. rewrite !He, (bi_sym Hb i j).
    destruct (i =? fst e), (i =? snd e), (j =? fst e), (j =? snd e); reflexivity.
  - intros i j. rewrite He. case_if; [discriminate|apply (bi_cross Hb)].
Qed.

Lemma minus_state n n1 adj m add gm e :
  state_inv n n1 adj m add -> minus_entries adj gm e ->
  entry m (fst e) (snd e) = 0%Z ->
  state_inv n n1 gm m add.
Proof.
  intros Hst Hgm Hm. pose proof Hgm as [Hs He]. constructor.
  - apply (st_n1 Hst).
  - apply (minus_bimatrix (st_adj Hst) Hgm).
  - apply (st_match Hst).
  - apply (st_unique Hst).
  - intros i j k H1. rewrite !He.
    destruct (((i =? fst e) && (j =? snd e)) || ((i =? snd e) && (j =? fst e)))
      eqn:Ec.
    + exfalso. apply orb_true_iff in Ec.
      rewrite !andb_true_iff, !Nat.eqb_eq in Ec.
      destruct Ec as [[-> ->]|[-> ->]]; [|rewrite (bi_sym (st_match Hst)) in H1];
        rewrite Hm in H1; discriminate.
    + intros H2. rewrite (st_dead Hst _ _ k H1 H2). now case_if.
  - intros ii Hii. destruct (st_add Hst ii Hii) as [H1 H2].
    split; [assumption|]. rewrite He, H2. now case_if.
Qed.

Lemma plus_state n n1 adj m add gp e :
  state_inv n n1 adj m add -> plus_entries adj gp e ->
  entry m (fst e) (snd e) = 1%Z ->
  state_inv n n1 gp m (e :: add).
Proof.
  intros Hst Hgp Hm. pose proof Hgp as [Hs He].
  pose proof Hm as Hm'. rewrite (bi_sym (st_match Hst)) in Hm'.
  constructor.
  - apply (st_n1 Hst).
  - apply (plus_bimatrix (st_adj Hst) Hgp).
  - apply (st_match Hst).
  - apply (st_unique Hst).
  - intros i j k H1. rewrite !He.
    destruct (i =? fst e) eqn:E1; [reflexivity|].
    destruct (i =? snd e) eqn:E2; [reflexivity|]. cbn [orb].
    apply Nat.eqb_neq in E1, E2.
    destruct (j =? fst e) eqn:E3.
    { exfalso. apply Nat.eqb_eq in E3. subst j.
      rewrite (bi_sym (st_match Hst)) in H1.
      apply E2. apply (st_unique Hst _ _ _ H1 Hm). }
    destruct (j =? snd e) eqn:E4.
    { exfalso. apply Nat.eqb_eq in E4. subst j.
      rewrite (bi_sym (st_match Hst)) in H1.
      apply E1. apply (st_unique Hst _ _ _ H1 Hm'). }
    cbn [orb]. intros H2. rewrite (st_dead Hst _ _ k H1 H2).
    now case_if.
  - intros ii [<-|Hii].
    + split; [assumption|]. rewrite He, Nat.eqb_refl. reflexivity.
    + destruct (st_add Hst ii Hii) as [H1 H2].
      split; [assumption|]. rewrite He, H2. now case_if.
Qed.

Lemma edge_inb_ext g g' :
  (forall x, In x (edges g) <-> In x (edges g')) ->
  forall p, edge_inb g p = edge_inb g' p.
Proof.
  intros H p. unfold edge_inb. apply eq_true_iff_eq.
  rewrite !existsb_exists. split; intros (x & Hx & Hs); exists x;
    (split; [now apply H|assumption]).
Qed.

Lemma minus_cell (e : Edge) (a b : V) :
  ((a =? fst e) && (b =? snd e)) || ((a =? snd e) && (b =? fst e))
  = same_edge e (a, b).
Proof.
  unfold same_edge, edge_eqb. cbn [swap fst snd].
  rewrite (Nat.eqb_sym a (fst e)), (Nat.eqb_sym b (snd e)),
    (Nat.eqb_sym a (snd e)), (Nat.eqb_sym b (fst e)).
  now rewrite (andb_comm (snd e =? a)).
Qed.

Lemma plus_cell (e : Edge) (a b : V) :
  (a =? fst e) || (a =? snd e) || (b =? fst e) || (b =? snd e) = false
  <-> away_from e (a, b).
Proof.
  unfold away_from. cbn [fst snd]. rewrite !orb_false_iff, !Nat.eqb_neq. tauto.
Qed.

Lemma same_edge_ends_eq (e : Edge) (a b : V) :
  same_edge e (a, b) = true ->
  (fst e = a /\ snd e = b) \/ (fst e = b /\ snd e = a).
Proof.
  intros H. apply same_edge_iff in H. destruct H as [->| ->]; auto.
Qed.

Section ChildGraphs.

Variables n n1 : nat.
Variables adj m : lil_matrix.
Variable add : list Edge.
Hypothesis Hst : state_inv n n1 adj m add.

Let gi := graph_of n1 adj.

Variable e' : Edge.
Hypothesis He' : In e' (oriented_edges gi).

Section Minus.

Variable gm : lil_matrix.
Hypothesis Hgm : minus_entries adj gm e'.
Hypothesis Hm : entry m (fst e') (snd e') = 0%Z.

Let Hst' : state_inv n n1 gm m add := minus_state Hst Hgm Hm.

Lemma minus_unmatched (a b : V) :
  same_edge e' (a, b) = true -> entry m a b = 0%Z.
Proof.
  intros Es. pose proof Hm as Hm0. apply same_edge_ends_eq in Es.
  destruct Es as [[E1 E2]|[E1 E2]]; rewrite E1, E2 in Hm0;
    [assumption|now rewrite (bi_sym (st_match Hst))].
Qed.

Lemma minus_child_edges p :
  In p (edges (graph_of n1 gm)) <-> In p (edges (minus_graph gi e')).
Proof.
  rewrite (gi_edges_In Hst'). unfold minus_graph. cbn [edges].
  rewrite filter_In. unfold gi. rewrite (gi_edges_In Hst).
  pose proof Hgm as [_ He]. rewrite He. destruct p as [a b]. cbn [fst snd].
  rewrite minus_cell. destruct (same_edge e' (a, b)); cbn [negb].
  - split; [intros [_ H]; discriminate|intros [_ H]; discriminate].
  - tauto.
Qed.

Lemma minus_child_oriented p :
  In p (oriented_edges (graph_of n1 gm))
  <-> In p (oriented_edges (minus_graph gi e')).
Proof.
  rewrite (gi_oriented Hst'), minus_child_edges.
  rewrite (@minus_graph_oriented gi e' p (gi_bipartite Hst)).
  unfold gi. rewrite (gi_oriented Hst). unfold minus_graph. cbn [edges].
  rewrite filter_In, negb_true_iff. tauto.
Qed.

Lemma minus_child_matched p :
  In p (matched n1 gm m) <-> In p (matched n1 adj m).
Proof.
  rewrite (gi_M_In Hst'), (gi_M_In Hst). pose proof Hgm as [_ He].
  rewrite He. destruct p as [a b]. cbn [fst snd]. rewrite minus_cell.
  destruct (same_edge e' (a, b)) eqn:Es; [|tauto].
  split; [intros (_ & H & _); discriminate|]. intros (H1 & H2 & H3).
  rewrite (minus_unmatched _ _ Es) in H3. discriminate.
Qed.

Lemma minus_child_forced p :
  In p (forced n1 gm m) <-> In p (forced n1 adj m).
Proof.
  rewrite (forced_In Hst'), (forced_In Hst). pose proof Hgm as [_ He].
  rewrite He. destruct p as [a b]. cbn [fst snd]. rewrite minus_cell.
  destruct (same_edge e' (a, b)) eqn:Es; [|tauto].
  split; intros (H1 & H2 & H3); rewrite (minus_unmatched _ _ Es) in H2;
    discriminate.
Qed.

End Minus.

Section Plus.

Variable gp : lil_matrix.
Hypothesis Hgp : plus_entries adj gp e'.
Hypothesis Hm : entry m (fst e') (snd e') = 1%Z.

Let Hst' : state_inv n n1 gp m (e' :: add) := plus_state Hst Hgp Hm.

Lemma plus_child_edges p :
  In p (edges (graph_of n1 gp)) <-> In p (edges (plus_graph gi e')).
Proof.
  rewrite (gi_edges_In Hst'), plus_graph_edges, !incident_false.
  unfold gi. rewrite (gi_edges_In Hst).
  pose proof Hgp as [_ He]. rewrite He. destruct p as [a b]. cbn [fst snd].
  pose proof (plus_cell e' a b) as Hc. unfold away_from in Hc.
  cbn [fst snd] in Hc.
  destruct ((a =? fst e') || (a =? snd e') || (b =? fst e') || (b =? snd e')).
  - split; [intros [_ H]; discriminate|]. intros (_ & H1 & H2).
    assert (true = false) by (apply Hc; tauto). discriminate.
  - pose proof (proj1 Hc eq_refl). tauto.
Qed.

Lemma plus_child_oriented p :
  In p (oriented_edges (graph_of n1 gp))
  <-> In p (oriented_edges (plus_graph gi e')).
Proof.
  rewrite (gi_oriented Hst'), plus_child_edges.
  rewrite (@plus_graph_oriented gi e' p (gi_bipartite Hst)).
  unfold gi. rewrite (gi_oriented Hst), plus_graph_edges, !incident_false.
  unfold away_from. tauto.
Qed.

Lemma plus_child_matched p :
  In p (matched n1 gp m) <->
  In p (filter (fun q => negb (edge_eqb q e')) (matched n1 adj m)).
Proof.
  rewrite filter_In, (gi_M_In Hst'), (gi_M_In Hst), negb_true_iff.
  pose proof Hgp as [_ He]. rewrite He. destruct p as [a b]. cbn [fst snd].
  pose proof (plus_cell e' a b) as Hc.
  assert (Hin : In e' (matched n1 adj m)).
  { apply (gi_M_In Hst). apply (gi_E_In Hst) in He'. tauto. }
  destruct ((a =? fst e') || (a =? snd e') || (b =? fst e') || (b =? snd e'))
    eqn:Ec.
  - split; [intros (_ & H & _); discriminate|]. intros [H Hne]. exfalso.
    assert (Hp : In (a, b) (matched n1 adj m)) by now apply (gi_M_In Hst).
    assert (Hx : (a, b) <> e').
    { intros Heq. rewrite Heq, edge_eqb_refl in Hne. discriminate. }
    pose proof (@matching_apart _ (a, b) e' (gi_M_valid Hst) Hp Hin Hx) as Ha.
    apply Hc in Ha. discriminate.
  - split; [|tauto]. intros H. split; [assumption|].
    apply not_true_is_false. intros Heq. apply edge_eqb_eq in Heq.
    pose proof (f_equal fst Heq) as Ha. cbn [fst] in Ha.
    rewrite Ha, Nat.eqb_refl in Ec. discriminate.
Qed.

Lemma plus_child_forced p :
  In p (forced n1 gp m) <-> In p (e' :: forced n1 adj m).
Proof.
  cbn [In]. rewrite (forced_In Hst'), (forced_In Hst).
  pose proof Hgp as [_ He]. rewrite He. destruct p as [a b]. cbn [fst snd].
  pose proof (plus_cell e' a b) as Hc.
  pose proof He' as He2. apply (gi_E_In Hst) in He2. destruct He2 as [L1 A1].
  pose proof Hm as Hm'. rewrite (bi_sym (st_match Hst)) in Hm'.
  destruct ((a =? fst e') || (a =? snd e') || (b =? fst e') || (b =? snd e'))
    eqn:Ec.
  - split.
    + intros (H1 & H2 & _). left.
      pose proof (bi_cross (st_adj Hst) _ _ A1) as Cx.
      pose proof (bi_cross (st_match Hst) _ _ H2) as Cy.
      apply Nat.ltb_lt in L1, H1. rewrite L1 in Cx. rewrite H1 in Cy.
      rewrite !orb_true_iff, !Nat.eqb_eq in Ec.
      rewrite (surjective_pairing e').
      destruct Ec as [[[Ea|Ea]|Eb]|Eb].
      * subst a. f_equal. apply (st_unique Hst _ _ _ Hm H2).
      * subst a. rewrite H1 in Cx. congruence.
      * subst b. rewrite L1 in Cy. congruence.
      * subst b. f_equal. rewrite (bi_sym (st_match Hst)) in H2.
        apply (st_unique Hst _ _ _ Hm' H2).
    + intros [Heq|(H1 & H2 & H3)].
      * pose proof (f_equal fst Heq) as Ha. pose proof (f_equal snd Heq) as Hb.
        cbn [fst snd] in Ha, Hb. subst a b. tauto.
      * split; [assumption|]. tauto.
  - split; [tauto|]. intros [Heq|H]; [|tauto].
    pose proof (f_equal fst Heq) as Ha. cbn [fst] in Ha.
    rewrite <- Ha, Nat.eqb_refl in Ec. discriminate.
Qed.

End Plus.

End ChildGraphs.

Section ToggleParts.

Variables n n1 : nat.
Variables adj matchadj : lil_matrix.
Variable add : list Edge.
Hypothesis Hst : state_inv n n1 adj matchadj add.

Let E := oriented_edges (graph_of n1 adj).
Let M := matched n1 adj matchadj.

Variable flip : list Edge.
Hypothesis flip_arcs : incl flip (exchange_digraph E M).
Hypothesis flip_good : flip_ok E M flip.

Variable nm : lil_matrix.
Hypothesis Hnm : toggle_spec matchadj flip nm.

Let Hst' : state_inv n n1 adj nm add :=
  toggle_state Hst flip_arcs flip_good Hnm.

Lemma toggle_matched p :
  In p (matched n1 adj nm) <-> In p (toggled E M flip).
Proof.
  rewrite (gi_M_In Hst'). split.
  - intros (H1 & H2 & H3).
    assert (Hp : In p (pairs_of n1 nm)).
    { apply pairs_of_In. destruct (bi_range (st_match Hst') _ _ H3).
      rewrite (bi_shape (st_match Hst')). tauto. }
    apply (toggle_rep Hst flip_arcs Hnm), in_app_or in Hp.
    destruct Hp as [Hp|Hp]; [assumption|].
    apply (forced_In Hst) in Hp. destruct Hp as (_ & _ & H0).
    rewrite H0 in H2. discriminate.
  - intros Hp.
    pose proof (toggled_alive Hst flip p Hp) as [A _].
    assert (Hq : In p (pairs_of n1 nm)).
    { apply (toggle_rep Hst flip_arcs Hnm), in_or_app. now left. }
    apply pairs_of_In in Hq. tauto.
Qed.

Lemma toggle_forced p :
  In p (forced n1 adj nm) <-> In p (forced n1 adj matchadj).
Proof.
  rewrite (forced_In Hst'). split.
  - intros (H1 & H2 & H3).
    assert (Hp : In p (pairs_of n1 nm)).
    { apply pairs_of_In. destruct (bi_range (st_match Hst') _ _ H2).
      rewrite (bi_shape (st_match Hst')). tauto. }
    apply (toggle_rep Hst flip_arcs Hnm), in_app_or in Hp.
    destruct Hp as [Hp|Hp]; [|assumption].
    pose proof (toggled_alive Hst flip p Hp) as [A _].
    rewrite A in H3. discriminate.
  - intros Hp.
    assert (Hq : In p (pairs_of n1 nm)).
    { apply (toggle_rep Hst flip_arcs Hnm), in_or_app. now right. }
    apply pairs_of_In in Hq. apply (forced_In Hst) in Hp. tauto.
Qed.

End ToggleParts.

(** ** Digraphs without cycle *)

Definition acyclic (d : DiGraph) : Prop :=
  forall c, c <> [] -> NoDup c -> ~ incl (cycle_arcs c) d.

Lemma acyclic_incl d d' : incl d' d -> acyclic d -> acyclic d'.
Proof.
  intros H Hd c Hc Hn Hi. apply (Hd c Hc Hn).
  intros a Ha. now apply H, Hi.
Qed.

Lemma child_arcs_incl n n1 adj m add adj' m' add' :
  state_inv n n1 adj m add -> state_inv n n1 adj' m' add' ->
  (forall a b, entry adj' a b = 1%Z ->
     entry adj a b = 1%Z /\ entry m' a b = entry m a b) ->
  incl (exchange_digraph (oriented_edges (graph_of n1 adj')) (matched n1 adj' m'))
       (exchange_digraph (oriented_edges (graph_of n1 adj)) (matched n1 adj m)).
Proof.
  intros Hst Hst' H a Ha.
  apply (exchange_arcs_In Hst'), from_numpy_matrix_In in Ha.
  destruct Ha as (R1 & R2 & Ha). apply (exchange_entry Hst') in Ha.
  destruct Ha as [A Hm]. destruct (H _ _ A) as [A' Hm'].
  apply (exchange_arcs_In Hst), from_numpy_matrix_In.
  cbn [exchange_matrix shape] in *.
  rewrite (bi_shape (st_adj Hst)). rewrite (bi_shape (st_adj Hst')) in R1, R2.
  split; [assumption|]. split; [assumption|].
  apply (exchange_entry Hst). rewrite <- Hm'. tauto.
Qed.

(** ** Sums of entries *)

Lemma sumZ_zero l :
  (forall x, In x l -> (0 <= x)%Z) ->
  (sumZ l = 0%Z <-> forall x, In x l -> x = 0%Z).
Proof.
  induction l as [|a l IH]; simpl; intros H.
  - split; [intros _ x []|reflexivity].
  - assert (Ha : (0 <= a)%Z) by (apply H; now left).
    assert (Hl : forall x, In x l -> (0 <= x)%Z) by (intros x Hx; apply H; now right).
    assert (Hs : (0 <= sumZ l)%Z).
    { clear -Hl. induction l as [|b l IH]; simpl; [lia|].
      assert (0 <= b)%Z by (apply Hl; now left).
      assert (0 <= sumZ l)%Z by (apply IH; intros x Hx; apply Hl; now right).
      lia. }
    specialize (IH Hl). split.
    + intros Hsum x [<-|Hx]; [lia|]. apply IH; [lia|assumption].
    + intros Hall. rewrite (Hall a (or_introl eq_refl)).
      rewrite (proj2 IH); [reflexivity|]. intros x Hx. apply Hall. now right.
Qed.

Lemma sumZ_unique {A : Type} (f : A -> Z) (l : list A) :
  (forall x, In x l -> bit (f x)) ->
  (forall x y, In x l -> In y l -> f x = 1%Z -> f y = 1%Z -> x = y) ->
  NoDup l ->
  bit (sumZ (map f l)) /\
  (sumZ (map f l) = 1%Z <-> exists x, In x l /\ f x = 1%Z).
Proof.
  induction l as [|a l IH]; simpl; intros Hb Hu Hd.
  - split; [now left|]. split; [discriminate|intros (x & [] & _)].
  - inv Hd.
    destruct IH as [IH1 IH2]; auto.
    destruct (Hb a (or_introl eq_refl)) as [Ha|Ha]; rewrite Ha.
    + split; [exact IH1|]. rewrite Z.add_0_l, IH2. split.
      * intros (x & Hx & Hfx). eauto.
      * intros (x & [<-|Hx] & Hfx); [rewrite Ha in Hfx; discriminate|eauto].
    + assert (Hz : sumZ (map f l) = 0%Z).
      { destruct IH1 as [Hz0|Hz1]; [assumption|]. exfalso.
        apply IH2 in Hz1. destruct Hz1 as (x & Hx & Hfx).
        assert (a = x) by (apply Hu; auto). subst x. contradiction. }
      rewrite Hz. split; [now right|]. split; [|reflexivity].
      intros _. exists a. auto.
Qed.

Lemma filter_unique {A : Type} (f : A -> bool) (l : list A) x :
  NoDup l -> In x l -> f x = true ->
  (forall y, In y l -> f y = true -> y = x) ->
  filter f l = [x].
Proof.
  induction l as [|a l IH]; simpl; intros Hd Hx Hf Hu; [contradiction|].
  inv Hd. destruct (f a) eqn:Ea.
  - assert (a = x) by (apply Hu; auto). subst a. f_equal.
    assert (Hn : forall y, In y l -> f y = false).
    { intros y Hy. apply not_true_is_false. intros Hfy.
      assert (y = x) by (apply Hu; auto). subst y. contradiction. }
    clear -Hn. induction l as [|b l IH]; simpl; [reflexivity|].
    rewrite (Hn b (or_introl eq_refl)). apply IH. intros y Hy. apply Hn. now right.
  - destruct Hx as [->|Hx]; [congruence|]. apply IH; auto.
Qed.

Lemma bit_nonneg z : bit z -> (0 <= z)%Z.
Proof. intros [->| ->]; lia. Qed.

Section MatrixSums.

Variables n n1 : nat.
Variables adj matchadj : lil_matrix.
Variable add : list Edge.
Hypothesis Hst : state_inv n n1 adj matchadj add.

Lemma bi_zero m i j : bimatrix n n1 m -> ~ (i < n /\ j < n) -> entry m i j = 0%Z.
Proof.
  intros Hb Hr. destruct (bi_bit Hb i j) as [H|H]; [assumption|].
  apply (bi_range Hb) in H. contradiction.
Qed.

Lemma row_sum_zero i :
  row_sum matchadj i = 0%Z <-> forall j, entry matchadj i j = 0%Z.
Proof.
  unfold row_sum. rewrite sumZ_zero.
  - split.
    + intros H j. destruct (bi_bit (st_match Hst) i j) as [Hj|Hj]; [assumption|].
      apply H. apply in_map. apply indices_In.
      rewrite (bi_shape (st_match Hst)).
      now apply (bi_range (st_match Hst)) in Hj.
    + intros H x Hx. apply in_map_iff in Hx. destruct Hx as (j & <- & _).
      apply H.
  - intros x Hx. apply in_map_iff in Hx. destruct Hx as (j & <- & _).
    apply bit_nonneg, (bi_bit (st_match Hst)).
Qed.

Lemma uncovered_rows_In i :
  In i (uncovered_rows matchadj) <->
  i < n /\ forall j, entry matchadj i j = 0%Z.
Proof.
  unfold uncovered_rows.
  rewrite filter_In, indices_In, Z.eqb_eq, row_sum_zero,
    (bi_shape (st_match Hst)). tauto.
Qed.

Lemma column_unique k k' j :
  entry matchadj k j = 1%Z -> entry matchadj k' j = 1%Z -> k = k'.
Proof.
  rewrite (bi_sym (st_match Hst) k), (bi_sym (st_match Hst) k').
  apply (st_unique Hst).
Qed.

Lemma product_bit i k j : bit (entry adj i k * entry matchadj k j)%Z.
Proof.
  destruct (bi_bit (st_adj Hst) i k) as [-> | ->],
    (bi_bit (st_match Hst) k j) as [-> | ->]; [left|left|left|right]; lia.
Qed.

Lemma product_one i k j :
  (entry adj i k * entry matchadj k j)%Z = 1%Z <->
  entry adj i k = 1%Z /\ entry matchadj k j = 1%Z.
Proof.
  destruct (bi_bit (st_adj Hst) i k) as [-> | ->],
    (bi_bit (st_match Hst) k j) as [-> | ->]; lia.
Qed.

Lemma dot_row_spec i j :
  bit (dot_row adj matchadj i j) /\
  (dot_row adj matchadj i j = 1%Z <->
   exists k, entry adj i k = 1%Z /\ entry matchadj k j = 1%Z).
Proof.
  unfold dot_row.
  destruct (@sumZ_unique _ (fun k => (entry adj i k * entry matchadj k j)%Z)
              (indices adj)) as [H1 H2].
  - intros k _. apply product_bit.
  - intros k k' _ _ Hk Hk'. apply product_one in Hk, Hk'.
    apply (column_unique k k' j); tauto.
  - apply seq_NoDup.
  - split; [assumption|]. rewrite H2. split.
    + intros (k & _ & Hk). exists k. now apply product_one.
    + intros (k & Hk & Hk'). exists k. split; [|now apply product_one].
      apply indices_In. rewrite (bi_shape (st_adj Hst)).
      now apply (bi_range (st_adj Hst)) in Hk.
Qed.

Lemma column_ones_single k j :
  entry matchadj k j = 1%Z -> column_ones matchadj j = [k].
Proof.
  intros H. unfold column_ones. apply filter_unique.
  - apply seq_NoDup.
  - apply indices_In. rewrite (bi_shape (st_match Hst)).
    now apply (bi_range (st_match Hst)) in H.
  - now apply Z.eqb_eq.
  - intros y _ Hy. apply Z.eqb_eq in Hy. now apply (column_unique y k j).
Qed.

(** The scan finds a vertex at distance two of the first uncovered vertex
    that has one, and nothing when none has. *)
Lemma find_path_spec us :
  (find_path adj matchadj us = Ok None /\
   forall ii, In ii us ->
     forall k j, ~ (entry adj ii k = 1%Z /\ entry matchadj k j = 1%Z)) \/
  (exists ii j k,
     In ii us /\ find_path adj matchadj us = Ok (Some (ii, j)) /\
     entry adj ii k = 1%Z /\ entry matchadj k j = 1%Z).
Proof.
  induction us as [|ii us IH]; cbn [find_path].
  - left. split; [reflexivity|intros ii []].
  - set (aa := dot_row adj matchadj ii).
    destruct (sumZ (map aa (indices matchadj)) =? 0)%Z eqn:Es.
    + apply Z.eqb_eq in Es. rewrite sumZ_zero in Es.
      2:{ intros x Hx. apply in_map_iff in Hx. destruct Hx as (j & <- & _).
          apply bit_nonneg, dot_row_spec. }
      destruct IH as [[R Hn]|(ii' & j & k & Hin & R & H1 & H2)].
      * left. split; [assumption|]. intros i [<-|Hi]; [|now apply Hn].
        intros k j [H1 H2].
        assert (Haa : aa j = 1%Z) by (apply dot_row_spec; eauto).
        rewrite (Es (aa j)) in Haa; [discriminate|].
        apply in_map, indices_In. rewrite (bi_shape (st_match Hst)).
        now apply (bi_range (st_match Hst)) in H2.
      * right. exists ii', j, k. split; [now right|]. tauto.
    + apply Z.eqb_neq in Es. right.
      destruct (filter (fun j => (aa j =? 1)%Z) (indices matchadj))
        as [|j js] eqn:Ef.
      * exfalso. apply Es. apply sumZ_zero.
        { intros x Hx. apply in_map_iff in Hx. destruct Hx as (j & <- & _).
          apply bit_nonneg, dot_row_spec. }
        intros x Hx. apply in_map_iff in Hx. destruct Hx as (j & <- & Hj).
        destruct (proj1 (dot_row_spec ii j)) as [H0|H1]; [assumption|].
        assert (Hin : In j (filter (fun j => (aa j =? 1)%Z) (indices matchadj))).
        { apply filter_In. split; [assumption|]. now apply Z.eqb_eq. }
        rewrite Ef in Hin. destruct Hin.
      * assert (Hin : In j (filter (fun j => (aa j =? 1)%Z) (indices matchadj))).
        { rewrite Ef. now left. }
        apply filter_In in Hin. destruct Hin as [_ Hj]. apply Z.eqb_eq in Hj.
        apply dot_row_spec in Hj. destruct Hj as (k & H1 & H2).
        exists ii, j, k. split; [now left|]. split; [reflexivity|]. tauto.
Qed.

End MatrixSums.

(** ** One call of [enumMaximumMatchingIter2] *)

(** A branching call: the new matching is the current one toggled along
    the arcs [flip] of a cycle (flag on) or of a path of two arcs (flag
    off); [e] is an edge, in the current matching and not in the new one,
    or the other way round; the subproblems are as the code forms them. *)
Definition branch2_spec (n1 : nat) (adj matchadj : lil_matrix)
    (add_e : option (list Edge)) (cc : bool) (br : Branching2) : Prop :=
  let E := oriented_edges (graph_of n1 adj) in
  let M := matched n1 adj matchadj in
  exists flip e' gm gp,
    incl flip (exchange_digraph E M) /\
    flip_ok E M flip /\
    (keeps_side E M fst flip \/ keeps_side E M snd flip) /\
    toggle_spec matchadj flip (br2_new_match br) /\
    In e' E /\ same_edge (br2_e br) e' = true /\
    minus_entries adj gm (br2_e br) /\ plus_entries adj gp (br2_e br) /\
    ((cc = true /\ In e' M /\ ~ In e' (toggled E M flip) /\
      br2_first br = mkCall2 gm (br2_new_match br) add_e /\
      br2_second br
      = mkCall2 gp matchadj (Some (br2_e br :: add_list add_e))) \/
     (cc = false /\ ~ In e' M /\ In e' (toggled E M flip) /\
      acyclic (exchange_digraph E M) /\
      (forall a b, on_flip flip a b = true -> entry gp a b = 0%Z) /\
      br2_first br = mkCall2 gm matchadj add_e /\
      br2_second br
      = mkCall2 gp (br2_new_match br) (Some (br2_e br :: add_list add_e)))).

Lemma toggle_spec_ext matchadj flip nm nm' :
  toggle_spec matchadj flip nm -> shape nm' = shape nm ->
  (forall a b, entry nm' a b = entry nm a b) ->
  toggle_spec matchadj flip nm'.
Proof.
  intros [Hs He] Hs' He'. split; [congruence|].
  intros a b. now rewrite He', He.
Qed.

Section OneCall2.

Variable X : Collaborators.
Hypothesis X_contract : contract X.
Variables n n1 : nat.
Variables adj matchadj : lil_matrix.
Variable add_e : option (list Edge).
Hypothesis Hst : state_inv n n1 adj matchadj (add_list add_e).

Let E := oriented_edges (graph_of n1 adj).
Let M := matched n1 adj matchadj.
Let D := exchange_digraph E M.
Let L := fun i : V => i <? n1.

Lemma E_sides2 p : In p E -> L (fst p) = true /\ L (snd p) = false.
Proof.
  unfold E. rewrite (gi_oriented Hst). intros H.
  now apply (gi_edge_sides Hst) in H.
Qed.

Lemma E_nodup2 : NoDup E.
Proof.
  unfold E. rewrite (gi_oriented Hst). unfold graph_of. cbn [edges].
  apply NoDup_filter, from_numpy_matrix_NoDup.
Qed.

Lemma add_e_ones nm :
  state_inv n n1 adj nm (add_list add_e) ->
  exists nm', set_add_e (add_list add_e) nm = Ok nm' /\
              shape nm' = shape nm /\
              forall a b, entry nm' a b = entry nm a b.
Proof.
  intros Hst'. apply set_add_e_same. intros ii Hii.
  destruct (st_add Hst' ii Hii) as [H1 _]. split; [|assumption].
  rewrite (bi_shape (st_match Hst')). now apply (bi_range (st_match Hst')).
Qed.

Lemma cycle_step_spec cycles :
  cycles = simple_cycles X
             (from_numpy_matrix (exchange_matrix n1 adj matchadj)) ->
  cycles <> [] ->
  match cycle_step adj matchadj add_e cycles with
  | Ok br => branch2_spec n1 adj matchadj add_e true br
  | _ => False
  end.
Proof.
  intros Hcs Hne. destruct cycles as [|c cs]; [contradiction|]. clear Hne.
  assert (Hin : In c (simple_cycles X
                        (from_numpy_matrix (exchange_matrix n1 adj matchadj))))
    by (rewrite <- Hcs; now left).
  destruct (simple_cycles_sound X_contract _ _ Hin) as (Hc & Hn & Hi0).
  assert (Hi : incl (cycle_arcs c) D).
  { intros a Ha. now apply (exchange_arcs_In Hst), Hi0. }
  pose proof (gi_M_incl Hst) as M_edges.
  pose proof (cycle_flip_ok L E_sides2 M_edges (gi_M_left Hst) (gi_M_right Hst)
                Hc Hn Hi) as Hflip.
  pose proof (cycle_keeps_left L E_sides2 M_edges c Hi) as Hkeep.
  unfold cycle_step. cbn [first bind]. fold (cycle_arcs c).
  destruct (@toggle_cycle_spec matchadj (cycle_arcs c) (bi_sym (st_match Hst)))
    with (nm := matchadj) (e0 := @None Edge)
    as (nm & eo & R & Hs & He & Hl); [|reflexivity|].
  { intros ee Hee. apply Hi, (exchange_arc_entry Hst) in Hee.
    rewrite (bi_shape (st_match Hst)). tauto. }
  rewrite R. cbn [bind fst snd].
  assert (Hnm : toggle_spec matchadj (cycle_arcs c) nm) by (split; assumption).
  pose proof (toggle_state Hst Hi Hflip Hnm) as Hst'.
  destruct (add_e_ones Hst') as (nm' & R' & Hs' & He').
  rewrite R'. cbn [bind].
  destruct Hl as [(ee & Hee & Hm & ->)|[Hno _]].
  2:{ exfalso.
      destruct (cycle_has_matched L E_sides2 M_edges Hc Hn Hi) as (q & Hq & Hqc).
      apply (Hno q Hqc). apply (gi_M_In Hst) in Hq. tauto. }
  pose proof (exchange_arc_entry Hst ee (Hi ee Hee)) as (Rg & A & _ & Hside).
  destruct (@form_subproblems2_spec adj ee) as (gp & gm & R2 & Sp & Sm & Hp & Hm2).
  { rewrite (bi_shape (st_adj Hst)). tauto. }
  { rewrite (bi_shape (st_adj Hst)). tauto. }
  rewrite R2. cbn [bind fst snd].
  exists (cycle_arcs c), ee, gm, gp. cbn [br2_new_match br2_e br2_first br2_second].
  assert (HeM : In ee M).
  { apply (gi_M_In Hst). split; [now apply Hside|]. tauto. }
  split; [exact Hi|]. split; [exact Hflip|]. split; [now left|].
  split; [apply (@toggle_spec_ext _ _ _ _ Hnm Hs' He')|].
  split; [now apply M_edges|]. split; [apply same_edge_refl|].
  split; [exact (conj Sm Hm2)|]. split; [exact (conj Sp Hp)|].
  left. split; [reflexivity|]. split; [exact HeM|]. split.
  - intros Ht. apply (toggled_In M_edges) in Ht.
    destruct Ht as [[_ Ht]|(_ & Ht & _)]; contradiction.
  - now rewrite extend_add_e_list.
Qed.

End OneCall2.

(** ** The path case: an uncovered vertex [ii], a neighbour [k] of it and
    the partner [j] of [k] *)

Section PathToggle.

Variables n n1 : nat.
Variables adj matchadj : lil_matrix.
Variable add : list Edge.
Hypothesis Hst : state_inv n n1 adj matchadj add.

Variables ii k j : nat.
Hypothesis Hrow : forall x, entry matchadj ii x = 0%Z.
Hypothesis Hadj : entry adj ii k = 1%Z.
Hypothesis Hmat : entry matchadj k j = 1%Z.

Let E := oriented_edges (graph_of n1 adj).
Let M := matched n1 adj matchadj.
Let L := fun i : V => i <? n1.

(** The unmatched edge and the matched edge of the path, side 0 first. *)
Definition path_p : Edge := if ii <? n1 then (ii, k) else (k, ii).
Definition path_q : Edge := if ii <? n1 then (j, k) else (k, j).
Definition path_flip : list Edge := [swap path_p; path_q].

Lemma path_col x : entry matchadj x ii = 0%Z.
Proof. rewrite (bi_sym (st_match Hst)). apply Hrow. Qed.

Lemma path_adj_kj : entry adj k j = 1%Z.
Proof.
  destruct (bi_bit (st_adj Hst) k j) as [H|H]; [|assumption]. exfalso.
  pose proof (st_dead Hst _ _ ii Hmat H) as H0.
  rewrite (bi_sym (st_adj Hst)), Hadj in H0. discriminate.
Qed.

Lemma path_sides :
  (ii <? n1) <> (k <? n1) /\ (k <? n1) <> (j <? n1).
Proof.
  split; [apply (bi_cross (st_adj Hst) _ _ Hadj)|].
  apply (bi_cross (st_match Hst) _ _ Hmat).
Qed.

Lemma path_p_edge : In path_p E.
Proof.
  apply (gi_E_In Hst). unfold path_p. destruct path_sides as [S1 _].
  destruct (ii <? n1) eqn:Si; cbn [fst snd].
  - split; [now apply Nat.ltb_lt|assumption].
  - split; [|now rewrite (bi_sym (st_adj Hst))].
    apply Nat.ltb_lt. destruct (k <? n1); congruence.
Qed.

Lemma path_p_unmatched : ~ In path_p M.
Proof.
  intros H. apply (gi_M_In Hst) in H. destruct H as (_ & _ & H).
  unfold path_p in H. destruct (ii <? n1); cbn [fst snd] in H.
  - rewrite Hrow in H. discriminate.
  - rewrite path_col in H. discriminate.
Qed.

Lemma path_q_matched : In path_q M.
Proof.
  apply (gi_M_In Hst). unfold path_q. destruct path_sides as [S1 S2].
  pose proof path_adj_kj as A.
  destruct (ii <? n1) eqn:Si; cbn [fst snd].
  - rewrite (bi_sym (st_adj Hst)), (bi_sym (st_match Hst)).
    split; [|tauto]. apply Nat.ltb_lt.
    destruct (k <? n1), (j <? n1); congruence.
  - split; [|tauto]. apply Nat.ltb_lt. destruct (k <? n1); congruence.
Qed.

Lemma path_flip_In a : In a path_flip <-> a = swap path_p \/ a = path_q.
Proof.
  unfold path_flip. cbn [In]. split.
  - intros [H|[H|[]]]; [left|right]; now symmetry.
  - intros [H|H]; [left|right; left]; now symmetry.
Qed.

Lemma path_flip_arcs : incl path_flip (exchange_digraph E M).
Proof.
  intros a Ha. apply path_flip_In in Ha. apply (arc_In (gi_M_incl Hst)).
  destruct Ha as [-> | ->].
  - right. rewrite swap_swap. split; [apply path_p_edge|apply path_p_unmatched].
  - left. apply path_q_matched.
Qed.

Lemma path_uncovered m : In m M -> fst m <> ii /\ snd m <> ii.
Proof.
  intros Hm. apply (gi_M_In Hst) in Hm. destruct Hm as (_ & _ & Hm).
  split; intros Heq; rewrite Heq in Hm.
  - rewrite Hrow in Hm. discriminate.
  - rewrite path_col in Hm. discriminate.
Qed.

Lemma E_sides3 p : In p E -> L (fst p) = true /\ L (snd p) = false.
Proof.
  unfold E. rewrite (gi_oriented Hst). intros H.
  now apply (gi_edge_sides Hst) in H.
Qed.

Lemma path_flip_good :
  flip_ok E M path_flip /\
  (keeps_side E M fst path_flip \/ keeps_side E M snd path_flip).
Proof.
  pose proof (gi_M_incl Hst) as M_edges.
  destruct (ii <? n1) eqn:Si.
  - destruct (path_flip_ok_right L E_sides3 M_edges (gi_M_right Hst) path_flip
                path_p_edge path_p_unmatched path_q_matched path_flip_In)
      as [H1 H2].
    + unfold path_p, path_q. now rewrite Si.
    + intros m Hm. unfold path_p. rewrite Si. cbn [fst].
      now apply path_uncovered.
    + split; [assumption|now right].
  - destruct (path_flip_ok_left L E_sides3 M_edges (gi_M_left Hst) path_flip
                path_p_edge path_p_unmatched path_q_matched path_flip_In)
      as [H1 H2].
    + unfold path_p, path_q. now rewrite Si.
    + intros m Hm. unfold path_p. rewrite Si. cbn [snd].
      now apply path_uncovered.
    + split; [assumption|now left].
Qed.

Lemma path_p_toggled : In path_p (toggled E M path_flip).
Proof.
  apply (toggled_In (gi_M_incl Hst)). right.
  split; [apply path_p_edge|]. split; [apply path_p_unmatched|].
  apply path_flip_In. now left.
Qed.

Lemma path_e_same : same_edge (ii, k) path_p = true.
Proof.
  unfold path_p. apply same_edge_iff. destruct (ii <? n1); auto.
Qed.

End PathToggle.

Lemma same_edge_swap_l e x : same_edge (swap e) x = same_edge e x.
Proof.
  unfold same_edge, edge_eqb. cbn [swap fst snd].
  destruct (snd e =? fst x), (fst e =? snd x), (fst e =? fst x),
    (snd e =? snd x); reflexivity.
Qed.

Lemma on_flip_cell (ee : Edge) (a b : V) :
  ((a =? fst ee) && (b =? snd ee)) || ((b =? fst ee) && (a =? snd ee))
  = same_edge ee (a, b).
Proof. rewrite <- minus_cell. now rewrite (andb_comm (b =? fst ee)). Qed.

Section PathEntries.

Variables n n1 : nat.
Variables adj matchadj : lil_matrix.
Variable add : list Edge.
Hypothesis Hst : state_inv n n1 adj matchadj add.

Variables ii k j : nat.
Hypothesis Hrow : forall x, entry matchadj ii x = 0%Z.
Hypothesis Hadj : entry adj ii k = 1%Z.
Hypothesis Hmat : entry matchadj k j = 1%Z.

Lemma path_on_flip (a b : V) :
  on_flip (path_flip n1 ii k j) a b
  = same_edge (ii, k) (a, b) || same_edge (k, j) (a, b).
Proof.
  unfold path_flip. rewrite !on_flip_cons, !on_flip_cell, same_edge_swap_l.
  unfold on_flip. cbn [memE existsb]. rewrite orb_false_r.
  unfold path_p, path_q. destruct (ii <? n1).
  - f_equal. rewrite <- (same_edge_swap_l (k, j)). reflexivity.
  - f_equal. rewrite <- (same_edge_swap_l (ii, k)). reflexivity.
Qed.

Lemma path_distinct : ii <> k /\ k <> j /\ ii <> j.
Proof.
  destruct (path_sides Hst _ _ _ Hadj Hmat) as [S1 S2].
  split; [intros Heq; apply S1; now rewrite Heq|].
  split; [intros Heq; apply S2; now rewrite Heq|].
  intros Heq. rewrite <- Heq in Hmat.
  rewrite (bi_sym (st_match Hst)), Hrow in Hmat. discriminate.
Qed.

Lemma path_col_j a : a <> k -> entry matchadj a j = 0%Z.
Proof.
  intros Hne. destruct (bi_bit (st_match Hst) a j) as [H|H]; [assumption|].
  exfalso. apply Hne. apply (column_unique Hst _ _ _ H Hmat).
Qed.

Lemma path_row_j b : b <> k -> entry matchadj j b = 0%Z.
Proof. rewrite (bi_sym (st_match Hst)). apply path_col_j. Qed.

Lemma path_entries (a b : V) :
  (if (a =? k) && (b =? ii) then 1%Z
   else if (a =? ii) && (b =? k) then 1%Z
        else if b =? j then 0%Z
             else if a =? j then 0%Z else entry matchadj a b)
  = if on_flip (path_flip n1 ii k j) a b then flipped matchadj a b
    else entry matchadj a b.
Proof.
  rewrite path_on_flip, <- !minus_cell. cbn [fst snd].
  destruct path_distinct as (D1 & D2 & D3).
  pose proof (path_col Hst _ Hrow) as Hcol.
  pose proof Hmat as Hjk. rewrite (bi_sym (st_match Hst)) in Hjk.
  unfold flipped.
  destruct (Nat.eqb_spec a k) as [Ak|Ak], (Nat.eqb_spec b ii) as [Bi|Bi],
    (Nat.eqb_spec a ii) as [Ai|Ai], (Nat.eqb_spec b k) as [Bk|Bk],
    (Nat.eqb_spec a j) as [Aj|Aj], (Nat.eqb_spec b j) as [Bj|Bj];
    cbn [andb orb];
    try (exfalso; congruence);
    try subst a; try subst b;
    rewrite ?Hrow, ?Hcol, ?Hmat, ?Hjk;
    try rewrite (path_col_j Ak); try rewrite (path_row_j Bk);
    try reflexivity.
Qed.

End PathEntries.

Section Leaf2.

Variables n n1 : nat.
Variables adj matchadj : lil_matrix.
Variable add : list Edge.
Hypothesis Hst : state_inv n n1 adj matchadj add.

Let gi := graph_of n1 adj.
Let E := oriented_edges gi.
Let M := matched n1 adj matchadj.
Let D := exchange_digraph E M.

Hypothesis Hacyc : acyclic D.
Hypothesis Hnone : forall ii, In ii (uncovered_rows matchadj) ->
  forall k j, ~ (entry adj ii k = 1%Z /\ entry matchadj k j = 1%Z).

Lemma leaf2_uncovered u w :
  In u (nodes gi) -> ~ In u (endpoints M) -> entry adj u w = 1%Z ->
  In u (uncovered_rows matchadj).
Proof.
  intros Hu Hnot Hw. unfold gi in Hu. rewrite (gi_nodes Hst) in Hu.
  apply in_seq in Hu. apply (uncovered_rows_In Hst). split; [lia|].
  intros x. destruct (bi_bit (st_match Hst) u x) as [H|H]; [assumption|].
  exfalso. destruct (bi_bit (st_adj Hst) u x) as [A|A].
  - rewrite (st_dead Hst _ _ w H A) in Hw. discriminate.
  - apply Hnot. apply endpoints_In. destruct (u <? n1) eqn:Su.
    + exists (u, x). split; [|now left]. apply (gi_M_In Hst). cbn [fst snd].
      apply Nat.ltb_lt in Su. tauto.
    + exists (x, u). split; [|now right]. apply (gi_M_In Hst). cbn [fst snd].
      rewrite (bi_sym (st_adj Hst)), (bi_sym (st_match Hst)).
      split; [|tauto]. apply Nat.ltb_lt.
      pose proof (bi_cross (st_adj Hst) _ _ A) as C. rewrite Su in C.
      destruct (x <? n1); congruence.
Qed.

Lemma no_path_leaf : leaf_cond gi M.
Proof.
  unfold leaf_cond. unfold gi, M. rewrite (gi_live Hst). fold gi E M D.
  split; [exact Hacyc|].
  intros u d Hu Hnot Hd w x H1 H2 Hxu. exfalso.
  assert (Harc : forall a b, In (a, b) D ->
            entry adj a b = 1%Z /\ (a <? n1) <> (b <? n1) /\
            (entry matchadj a b = 1%Z <-> a < n1)).
  { intros a b H. apply (exchange_arc_entry Hst) in H. cbn [fst snd] in H.
    tauto. }
  destruct Hd as [-> | ->].
  - destruct (Harc _ _ H1) as (A1 & C1 & M1).
    destruct (Harc _ _ H2) as (A2 & C2 & M2).
    pose proof (@leaf2_uncovered u w Hu Hnot A1) as Hunc.
    apply (Hnone u Hunc w x). split; [assumption|]. apply M2.
    apply (uncovered_rows_In Hst) in Hunc. destruct Hunc as [_ Hz].
    apply Nat.ltb_lt. destruct (u <? n1) eqn:Su.
    + apply Nat.ltb_lt in Su. apply M1 in Su. rewrite Hz in Su. discriminate.
    + destruct (w <? n1); congruence.
  - apply reverse_In in H1, H2. unfold swap in H1, H2. cbn [fst snd] in H1, H2.
    destruct (Harc _ _ H1) as (A1 & C1 & M1).
    destruct (Harc _ _ H2) as (A2 & C2 & M2).
    rewrite (bi_sym (st_adj Hst)) in A1.
    pose proof (@leaf2_uncovered u w Hu Hnot A1) as Hunc.
    apply (Hnone u Hunc w x). split; [assumption|].
    rewrite (bi_sym (st_match Hst)). apply M2.
    apply (uncovered_rows_In Hst) in Hunc. destruct Hunc as [_ Hz].
    apply Nat.ltb_lt. destruct (w <? n1) eqn:Sw.
    + apply Nat.ltb_lt in Sw. apply M1 in Sw.
      rewrite (bi_sym (st_match Hst)), Hz in Sw. discriminate.
    + destruct (x <? n1); congruence.
Qed.

End Leaf2.

Section OneCall2b.

Variable X : Collaborators.
Hypothesis X_contract : contract X.
Variables n n1 : nat.
Variables adj matchadj : lil_matrix.
Variable add_e : option (list Edge).
Hypothesis Hst : state_inv n n1 adj matchadj (add_list add_e).

Let gi := graph_of n1 adj.
Let E := oriented_edges gi.
Let M := matched n1 adj matchadj.
Let D := exchange_digraph E M.

Lemma path_step_spec :
  acyclic D ->
  match path_step adj matchadj add_e with
  | Ok (Some br) => branch2_spec n1 adj matchadj add_e false br
  | Ok None => leaf_cond gi M
  | _ => False
  end.
Proof.
  intros Hacyc. unfold path_step.
  destruct (length (uncovered_rows matchadj) =? 0) eqn:El.
  { apply Nat.eqb_eq, length_zero_iff_nil in El.
    apply (no_path_leaf Hst Hacyc). rewrite El. intros ii []. }
  destruct (find_path_spec Hst (uncovered_rows matchadj))
    as [[R Hn]|(ii & j & k & Hin & R & H1 & H2)]; rewrite R; cbn [bind].
  { now apply (no_path_leaf Hst Hacyc). }
  apply (uncovered_rows_In Hst) in Hin. destruct Hin as [Ri Hrow].
  destruct (bi_range (st_match Hst) _ _ H2) as [Rk Rj].
  rewrite (column_ones_single Hst _ _ H2). cbn [int_of_array bind].
  pose proof (bi_shape (st_match Hst)) as Sm.
  rewrite (@zero_row_Ok matchadj j) by (rewrite Sm; assumption). cbn [bind].
  rewrite zero_col_Ok by (cbn [shape]; rewrite Sm; assumption). cbn [bind].
  rewrite mset_Ok by (cbn [shape]; rewrite Sm; assumption). cbn [bind].
  rewrite mset_Ok by (cbn [shape]; rewrite Sm; assumption).
  cbn [bind shape entry].
  set (m4 := mkMatrix _ _).
  assert (Harcs : incl (path_flip n1 ii k j) D)
    by exact (path_flip_arcs Hst Hrow H1 H2).
  destruct (path_flip_good Hst _ _ _ Hrow H1 H2) as [Hflip Hkeep].
  assert (Hnm : toggle_spec matchadj (path_flip n1 ii k j) m4).
  { split; [reflexivity|]. intros a b. unfold m4. cbn [entry].
    apply (path_entries Hst _ _ _ Hrow H1 H2). }
  pose proof (toggle_state Hst Harcs Hflip Hnm) as Hst'.
  destruct (@add_e_ones _ _ _ _ _ Hst') as (nm' & R' & Hs' & He').
  rewrite R'. cbn [bind].
  destruct (@form_subproblems2_spec adj (ii, k))
    as (gp & gm & R2 & Sp & Sm2 & Hp & Hm2).
  { rewrite (bi_shape (st_adj Hst)). exact Ri. }
  { rewrite (bi_shape (st_adj Hst)). exact Rk. }
  rewrite R2. cbn [bind fst snd].
  exists (path_flip n1 ii k j), (path_p n1 ii k), gm, gp.
  cbn [br2_new_match br2_e br2_first br2_second].
  split; [exact Harcs|]. split; [exact Hflip|]. split; [exact Hkeep|].
  split; [apply (@toggle_spec_ext _ _ _ _ Hnm Hs' He')|].
  split; [apply (path_p_edge Hst _ _ _ H1 H2)|].
  split; [apply path_e_same|].
  split; [exact (conj Sm2 Hm2)|]. split; [exact (conj Sp Hp)|].
  right. split; [reflexivity|].
  split; [apply (path_p_unmatched Hst _ _ Hrow)|].
  split; [apply (path_p_toggled Hst _ _ _ Hrow H1 H2)|].
  split; [exact Hacyc|]. split.
  - intros a b Hf. rewrite (path_on_flip n1 ii k j), <- !minus_cell in Hf.
    rewrite Hp. cbn [fst snd] in *.
    destruct (a =? ii), (a =? k), (b =? ii), (b =? k); try reflexivity;
      cbn in Hf; rewrite ?andb_false_r in Hf; discriminate.
  - now rewrite extend_add_e_list.
Qed.

Lemma iter2_body_spec cc :
  (cc = false -> acyclic D) ->
  match iter2_body X adj matchadj n1 add_e cc with
  | Ok (cc', Some br) => branch2_spec n1 adj matchadj add_e cc' br
  | Ok (cc', None) => cc' = false /\ leaf_cond gi M
  | _ => False
  end.
Proof.
  intros Hcc. unfold iter2_body.
  set (cycles := if cc then simple_cycles X _ else []).
  destruct (cc && negb (length cycles =? 0)) eqn:Ec.
  - apply andb_true_iff in Ec. destruct Ec as [-> Ec]. unfold cycles in *.
    apply negb_true_iff, Nat.eqb_neq in Ec.
    pose proof (@cycle_step_spec X X_contract n n1 adj matchadj add_e Hst
                  _ eq_refl) as Hc.
    destruct (cycle_step adj matchadj add_e _) as [br| |].
    + cbn [bind]. apply Hc. intros Heq. apply Ec. now rewrite Heq.
    + apply Hc. intros Heq. apply Ec. now rewrite Heq.
    + apply Hc. intros Heq. apply Ec. now rewrite Heq.
  - assert (Hacyc : acyclic D).
    { destruct cc; [|now apply Hcc]. cbn [andb] in Ec.
      apply negb_false_iff, Nat.eqb_eq, length_zero_iff_nil in Ec.
      unfold cycles in Ec. intros c Hc Hn Hi.
      refine (@simple_cycles_complete X X_contract
                (from_numpy_matrix (exchange_matrix n1 adj matchadj)) c Hc Hn
                _ Ec).
      intros a Ha. now apply (exchange_arcs_In Hst), Hi. }
    pose proof (path_step_spec Hacyc) as Hp.
    destruct (path_step adj matchadj add_e) as [[br|]| |]; cbn [bind];
      [assumption|split; [reflexivity|assumption]|assumption|assumption].
Qed.

End OneCall2b.

(** ** The whole recursion on matrices *)

(** The first [n1] rows of [m] hold the matching [T] and the forced
    edges [F]. *)
Definition rep (n1 : nat) (F : list Edge) (m : lil_matrix) (T : Matching)
    : Prop :=
  forall p, In p (pairs_of n1 m) <-> In p (T ++ F).

Lemma rep_ext n1 F F' m T :
  (forall p, In p F' <-> In p F) -> rep n1 F' m T -> rep n1 F m T.
Proof.
  intros H Hr p. rewrite (Hr p), !in_app_iff, (H p). tauto.
Qed.

Lemma rep_snoc n1 F F' e' m T :
  (forall p, In p F' <-> In p (e' :: F)) ->
  rep n1 F' m T -> rep n1 F m (T ++ [e']).
Proof.
  intros H Hr p. rewrite (Hr p), !in_app_iff, (H p). cbn [In]. tauto.
Qed.

Lemma Forall2_map_r {A B C : Type} (P : A -> B -> Prop) (Q : A -> C -> Prop)
    (f : B -> C) l1 l2 :
  (forall a b, P a b -> Q a (f b)) ->
  Forall2 P l1 l2 -> Forall2 Q l1 (map f l2).
Proof. intros H HF. induction HF; simpl; constructor; auto. Qed.

Lemma Forall2_weaken {A B : Type} (P Q : A -> B -> Prop) l1 l2 :
  (forall a b, P a b -> Q a b) -> Forall2 P l1 l2 -> Forall2 Q l1 l2.
Proof. intros H HF. induction HF; constructor; auto. Qed.

Lemma minus_entries_same adj gm e e' :
  same_edge e e' = true -> minus_entries adj gm e -> minus_entries adj gm e'.
Proof.
  intros Hs H. apply same_edge_iff in Hs. destruct Hs as [Hs|Hs].
  - now subst.
  - apply minus_entries_swap in H. now rewrite Hs, swap_swap in H.
Qed.

Lemma plus_entries_same adj gp e e' :
  same_edge e e' = true -> plus_entries adj gp e -> plus_entries adj gp e'.
Proof.
  intros Hs H. apply same_edge_iff in Hs. destruct Hs as [Hs|Hs].
  - now subst.
  - apply plus_entries_swap in H. now rewrite Hs, swap_swap in H.
Qed.

Section Children2.

Variables n n1 : nat.
Variables adj m : lil_matrix.
Variable add : list Edge.
Hypothesis Hst : state_inv n n1 adj m add.

Let gi := graph_of n1 adj.

Variables e e' : Edge.
Hypothesis He' : In e' (oriented_edges gi).
Hypothesis Hs : same_edge e e' = true.

Lemma entry_same : entry m (fst e) (snd e) = entry m (fst e') (snd e').
Proof.
  apply same_edge_iff in Hs. destruct Hs as [Heq|Heq]; rewrite Heq;
    [reflexivity|]. cbn [swap fst snd]. apply (bi_sym (st_match Hst)).
Qed.

Lemma matched_entry :
  In e' (matched n1 adj m) -> entry m (fst e) (snd e) = 1%Z.
Proof. intros H. rewrite entry_same. apply (gi_M_In Hst) in H. tauto. Qed.

Lemma unmatched_entry :
  ~ In e' (matched n1 adj m) -> entry m (fst e) (snd e) = 0%Z.
Proof.
  intros H. rewrite entry_same.
  destruct (bi_bit (st_match Hst) (fst e') (snd e')) as [H0|H1]; [assumption|].
  exfalso. apply H. apply (gi_M_In Hst). apply (gi_E_In Hst) in He'. tauto.
Qed.

Lemma child_minus_state gm :
  minus_entries adj gm e -> ~ In e' (matched n1 adj m) ->
  state_inv n n1 gm m add.
Proof.
  intros Hgm Hn. apply (minus_state Hst Hgm). now apply unmatched_entry.
Qed.

Lemma child_plus_state gp :
  plus_entries adj gp e -> In e' (matched n1 adj m) ->
  state_inv n n1 gp m (e :: add).
Proof.
  intros Hgp Hn. apply (plus_state Hst Hgp). now apply matched_entry.
Qed.

Lemma child_minus_post gm Ts :
  minus_entries adj gm e -> ~ In e' (matched n1 adj m) ->
  post (graph_of n1 gm) (matched n1 gm m) Ts ->
  post (minus_graph gi e') (matched n1 adj m) Ts.
Proof.
  intros Hgm Hn P.
  assert (Hgm' : minus_entries adj gm e') by now apply (@minus_entries_same adj gm e e' Hs).
  assert (Hm : entry m (fst e') (snd e') = 0%Z).
  { rewrite <- entry_same. now apply unmatched_entry. }
  pose proof (minus_state Hst Hgm' Hm) as Hst'.
  apply (@post_ext (graph_of n1 gm) _ (matched n1 gm m) _ Ts); auto.
  - apply (minus_child_oriented Hst Hgm' Hm).
  - apply edge_inb_ext. apply (minus_child_edges Hst Hgm' Hm).
  - apply (minus_child_matched Hst Hgm' Hm).
  - apply NoDup_same_length;
      [apply gi_M_nodup|apply gi_M_nodup|].
    apply (minus_child_matched Hst Hgm' Hm).
Qed.

Lemma child_minus_forced gm p :
  minus_entries adj gm e -> ~ In e' (matched n1 adj m) ->
  (In p (forced n1 gm m) <-> In p (forced n1 adj m)).
Proof.
  intros Hgm Hn.
  assert (Hgm' : minus_entries adj gm e') by now apply (@minus_entries_same adj gm e e' Hs).
  assert (Hm : entry m (fst e') (snd e') = 0%Z).
  { rewrite <- entry_same. now apply unmatched_entry. }
  apply (minus_child_forced Hst Hgm' Hm).
Qed.

Lemma child_plus_post gp Ts :
  plus_entries adj gp e -> In e' (matched n1 adj m) ->
  post (graph_of n1 gp) (matched n1 gp m) Ts ->
  post (plus_graph gi e')
       (filter (fun q => negb (edge_eqb q e')) (matched n1 adj m)) Ts.
Proof.
  intros Hgp Hn P.
  assert (Hgp' : plus_entries adj gp e') by now apply (@plus_entries_same adj gp e e' Hs).
  assert (Hm : entry m (fst e') (snd e') = 1%Z).
  { rewrite <- entry_same. now apply matched_entry. }
  pose proof (plus_state Hst Hgp' Hm) as Hst'.
  apply (@post_ext (graph_of n1 gp) _ (matched n1 gp m) _ Ts); auto.
  - apply (plus_child_oriented Hst Hgp' Hm).
  - apply edge_inb_ext. apply (plus_child_edges Hst Hgp' Hm).
  - apply (plus_child_matched Hst He' Hgp' Hm).
  - apply NoDup_same_length;
      [apply gi_M_nodup|apply NoDup_filter, gi_M_nodup|].
    apply (plus_child_matched Hst He' Hgp' Hm).
Qed.

Lemma child_plus_forced gp p :
  plus_entries adj gp e -> In e' (matched n1 adj m) ->
  (In p (forced n1 gp m) <-> In p (e' :: forced n1 adj m)).
Proof.
  intros Hgp Hn.
  assert (Hgp' : plus_entries adj gp e') by now apply (@plus_entries_same adj gp e e' Hs).
  assert (Hm : entry m (fst e') (snd e') = 1%Z).
  { rewrite <- entry_same. now apply matched_entry. }
  apply (plus_child_forced Hst He' Hgp' Hm).
Qed.

Lemma child_minus_shrinks gm :
  minus_entries adj gm e ->
  length (edges (graph_of n1 gm)) < length (edges gi).
Proof.
  intros Hgm.
  assert (Hgm' : minus_entries adj gm e') by now apply (@minus_entries_same adj gm e e' Hs).
  pose proof (minus_bimatrix (st_adj Hst) Hgm') as Hb.
  assert (Hin : forall p, In p (edges (graph_of n1 gm)) ->
                  In p (edges gi) /\ p <> e').
  { intros p Hp. unfold graph_of in Hp. cbn [edges] in Hp.
    apply filter_In in Hp. destruct Hp as [Hp Hl].
    apply from_numpy_matrix_In in Hp. destruct Hp as (_ & _ & Hp).
    apply (bit_not_zero (bi_bit Hb _ _)) in Hp.
    destruct Hgm' as [_ He]. rewrite He in Hp.
    destruct p as [a b]. cbn [fst snd] in *. rewrite minus_cell in Hp.
    destruct (same_edge e' (a, b)) eqn:Es; [discriminate|]. split.
    - apply (gi_edges_In Hst). cbn [fst snd]. apply Nat.ltb_lt in Hl. tauto.
    - intros Heq. rewrite Heq, same_edge_refl in Es. discriminate. }
  change (S (length (edges (graph_of n1 gm))) <= length (edges gi)).
  change (S (length (edges (graph_of n1 gm))))
    with (length (e' :: edges (graph_of n1 gm))).
  apply NoDup_incl_length.
  - constructor; [intros H; now apply Hin in H|].
    unfold graph_of. cbn [edges]. apply NoDup_filter, from_numpy_matrix_NoDup.
  - intros p [<-|Hp]; [|now apply Hin].
    unfold gi in He'. now rewrite (gi_oriented Hst) in He'.
Qed.

Lemma child_plus_shrinks gp :
  plus_entries adj gp e ->
  length (edges (graph_of n1 gp)) < length (edges gi).
Proof.
  intros Hgp.
  assert (Hgp' : plus_entries adj gp e') by now apply (@plus_entries_same adj gp e e' Hs).
  pose proof (plus_bimatrix (st_adj Hst) Hgp') as Hb.
  assert (Hin : forall p, In p (edges (graph_of n1 gp)) ->
                  In p (edges gi) /\ p <> e').
  { intros p Hp. unfold graph_of in Hp. cbn [edges] in Hp.
    apply filter_In in Hp. destruct Hp as [Hp Hl].
    apply from_numpy_matrix_In in Hp. destruct Hp as (_ & _ & Hp).
    apply (bit_not_zero (bi_bit Hb _ _)) in Hp.
    destruct Hgp' as [_ He]. rewrite He in Hp.
    destruct p as [a b]. cbn [fst snd] in *.
    destruct ((a =? fst e') || (a =? snd e') || (b =? fst e') || (b =? snd e'))
      eqn:Ec; [discriminate|]. split.
    - apply (gi_edges_In Hst). cbn [fst snd]. apply Nat.ltb_lt in Hl. tauto.
    - intros Heq. rewrite <- Heq in Ec. cbn [fst snd] in Ec.
      rewrite Nat.eqb_refl in Ec. discriminate. }
  change (S (length (edges (graph_of n1 gp))) <= length (edges gi)).
  change (S (length (edges (graph_of n1 gp))))
    with (length (e' :: edges (graph_of n1 gp))).
  apply NoDup_incl_length.
  - constructor; [intros H; now apply Hin in H|].
    unfold graph_of. cbn [edges]. apply NoDup_filter, from_numpy_matrix_NoDup.
  - intros p [<-|Hp]; [|now apply Hin].
    unfold gi in He'. now rewrite (gi_oriented Hst) in He'.
Qed.

End Children2.

Lemma post_matching_ext g M M' Ts :
  (forall p, In p M <-> In p M') -> NoDup M -> NoDup M' ->
  post g M Ts -> post g M' Ts.
Proof.
  intros H H1 H2. apply post_ext; auto; try tauto.
  now apply NoDup_same_length.
Qed.

Section Whole2.

Variable X : Collaborators.
Hypothesis X_contract : contract X.
Variables n n1 : nat.

Lemma toggled_valid adj matchadj add flip :
  state_inv n n1 adj matchadj add ->
  flip_ok (oriented_edges (graph_of n1 adj)) (matched n1 adj matchadj) flip ->
  keeps_side (oriented_edges (graph_of n1 adj)) (matched n1 adj matchadj)
    fst flip \/
  keeps_side (oriented_edges (graph_of n1 adj)) (matched n1 adj matchadj)
    snd flip ->
  let T0 := toggled (oriented_edges (graph_of n1 adj))
              (matched n1 adj matchadj) flip in
  incl T0 (oriented_edges (graph_of n1 adj)) /\
  NoDup (endpoints T0) /\ NoDup T0 /\
  length T0 = length (matched n1 adj matchadj).
Proof.
  intros Hst Hflip Hkeep T0.
  pose proof (@E_nodup2 n n1 adj matchadj (Some add) Hst) as E_nodup.
  pose proof (gi_M_incl Hst) as M_edges.
  split; [apply toggled_edges|]. split; [|split].
  - apply (endpoints_nodup (fun i => i <? n1)).
    + intros p Hp. apply toggled_edges in Hp.
      apply (@E_sides2 n n1 adj matchadj (Some add) Hst p Hp).
    + apply (toggled_left E_nodup M_edges (gi_M_left Hst) Hflip).
    + apply (toggled_right E_nodup M_edges (gi_M_right Hst) Hflip).
  - now apply toggled_nodup.
  - apply (toggled_length E_nodup M_edges (gi_M_left Hst) (gi_M_right Hst)
             Hflip Hkeep).
Qed.

(** Every call on a well-formed state returns, having appended exactly the
    matrices of the matchings described by [post], each with the forced
    edges. *)
Lemma rec2_post fuel : forall adj matchadj all add_e cc,
  state_inv n n1 adj matchadj (add_list add_e) ->
  (cc = false ->
   acyclic (exchange_digraph (oriented_edges (graph_of n1 adj))
              (matched n1 adj matchadj))) ->
  length (edges (graph_of n1 adj)) < fuel ->
  exists Ms Ts,
    enumMaximumMatchingIter2_rec X fuel adj matchadj all n1 add_e cc
    = Ok (all ++ Ms) /\
    post (graph_of n1 adj) (matched n1 adj matchadj) Ts /\
    Forall2 (rep n1 (forced n1 adj matchadj)) Ms Ts.
Proof.
  induction fuel as [|fuel IH]; intros adj matchadj all add_e cc Hst Hcc Hf;
    [lia|].
  cbn [enumMaximumMatchingIter2_rec].
  pose proof (iter2_body_spec X_contract add_e Hst Hcc) as Hspec.
  destruct (iter2_body X adj matchadj n1 add_e cc) as [[cc' [br|]]| |];
    try contradiction.
  2:{ destruct Hspec as [_ Hleaf]. exists [], []. cbn [bind snd].
      split; [now rewrite app_nil_r|]. split; [|constructor].
      pose proof (leaf_post_any (gi_call_inv Hst) Hleaf) as P.
      now rewrite (gi_live Hst) in P. }
  cbn [bind snd fst].
  destruct Hspec as (flip & e' & gm & gp & Harcs & Hflip & Hkeep & Hnm & He'
                     & Hs & Hgm & Hgp & Hcase).
  destruct br as [nm e c1 c2].
  cbn [br2_new_match br2_e br2_first br2_second] in *.
  pose proof (toggle_state Hst Harcs Hflip Hnm) as Hstn.
  destruct (toggled_valid Hst Hflip Hkeep) as (HT0 & HT0n & HT0d & Hlen).
  pose proof (gi_M_incl Hst) as M_edges.
  pose proof (gi_bipartite Hst) as Hg.
  pose proof (toggle_rep Hst Harcs Hnm) as Hrep0.
  assert (HTm : forall p, In p (matched n1 adj nm) <->
                  In p (toggled (oriented_edges (graph_of n1 adj))
                          (matched n1 adj matchadj) flip))
    by exact (toggle_matched Hst Harcs Hflip Hnm).
  assert (HTf : forall p, In p (forced n1 adj nm) <->
                  In p (forced n1 adj matchadj))
    by exact (toggle_forced Hst Harcs Hflip Hnm).
  destruct Hcase as [(-> & HeM & HeT & -> & ->)
                    |(-> & HeM & HeT & Hacyc & Hzero & -> & ->)];
    cbn [call2_adj call2_match call2_add_e].
  - assert (HeTm : ~ In e' (matched n1 adj nm)) by (intros H; now apply HeT, HTm).
    pose proof (child_minus_state Hstn e' He' Hs Hgm HeTm) as Hst1.
    pose proof (child_plus_state Hst e' Hs Hgp HeM) as Hst2.
    pose proof (child_minus_shrinks Hstn e' He' Hs Hgm) as Sh1.
    pose proof (child_plus_shrinks Hst e' He' Hs Hgp) as Sh2.
    destruct (IH gm nm (all ++ [nm]) add_e true Hst1
                (fun H => False_ind _ (diff_true_false H)) ltac:(lia))
      as (Ms1 & Ts1 & R1 & P1 & F1).
    destruct (IH gp matchadj ((all ++ [nm]) ++ Ms1) (Some (e :: add_list add_e))
                true Hst2 (fun H => False_ind _ (diff_true_false H))
                ltac:(lia))
      as (Ms2 & Ts2 & R2 & P2 & F2).
    exists (nm :: Ms1 ++ Ms2), (toggled (oriented_edges (graph_of n1 adj))
                                  (matched n1 adj matchadj) flip
                                :: Ts1 ++ map (fun T => T ++ [e']) Ts2).
    split; [|split].
    + apply (bind_returns _ R1). etransitivity; [exact R2|]. f_equal.
      rewrite <- !app_assoc. reflexivity.
    + apply (child_minus_post Hstn e' He' Hs Hgm HeTm) in P1.
      apply (post_matching_ext HTm (gi_M_nodup n1 adj nm) HT0d) in P1.
      apply (child_plus_post Hst e' He' Hs Hgp HeM) in P2.
      exact (combine_post_A e' Hg He' (same_edge_refl e') M_edges
               (gi_M_valid Hst) HeM HT0 HT0n HeT Hlen P1 P2).
    + constructor; [exact Hrep0|]. apply Forall2_app.
      * apply (Forall2_weaken (P := rep n1 (forced n1 gm nm))); [|exact F1].
        intros m T. apply rep_ext. intros p.
        rewrite (child_minus_forced Hstn e' He' Hs p Hgm HeTm). apply HTf.
      * apply (Forall2_map_r (P := rep n1 (forced n1 gp matchadj)));
          [|exact F2].
        intros m T. apply rep_snoc. intros p.
        apply (child_plus_forced Hst e' He' Hs p Hgp HeM).
  - assert (HeTm : In e' (matched n1 adj nm)) by now apply HTm.
    pose proof (child_minus_state Hst e' He' Hs Hgm HeM) as Hst1.
    pose proof (child_plus_state Hstn e' Hs Hgp HeTm) as Hst2.
    pose proof (child_minus_shrinks Hst e' He' Hs Hgm) as Sh1.
    pose proof (child_plus_shrinks Hstn e' He' Hs Hgp) as Sh2.
    assert (A1 : acyclic (exchange_digraph (oriented_edges (graph_of n1 gm))
                            (matched n1 gm matchadj))).
    { apply (acyclic_incl (d := exchange_digraph
                                  (oriented_edges (graph_of n1 adj))
                                  (matched n1 adj matchadj))); [|exact Hacyc].
      apply (child_arcs_incl Hst Hst1). intros a b Hab.
      destruct Hgm as [_ He]. rewrite He in Hab.
      split; [|reflexivity]. revert Hab. case_if; [discriminate|auto]. }
    assert (A2 : acyclic (exchange_digraph (oriented_edges (graph_of n1 gp))
                            (matched n1 gp nm))).
    { apply (acyclic_incl (d := exchange_digraph
                                  (oriented_edges (graph_of n1 adj))
                                  (matched n1 adj matchadj))); [|exact Hacyc].
      apply (child_arcs_incl Hst Hst2). intros a b Hab.
      destruct Hnm as [_ Hn]. rewrite Hn.
      destruct (on_flip flip a b) eqn:Ef.
      - rewrite (Hzero a b Ef) in Hab. discriminate.
      - split; [|reflexivity]. destruct Hgp as [_ He]. rewrite He in Hab.
        revert Hab. case_if; [discriminate|auto]. }
    destruct (IH gm matchadj (all ++ [nm]) add_e false Hst1 (fun _ => A1)
                ltac:(lia))
      as (Ms1 & Ts1 & R1 & P1 & F1).
    destruct (IH gp nm ((all ++ [nm]) ++ Ms1) (Some (e :: add_list add_e))
                false Hst2 (fun _ => A2) ltac:(lia))
      as (Ms2 & Ts2 & R2 & P2 & F2).
    exists (nm :: Ms1 ++ Ms2), (toggled (oriented_edges (graph_of n1 adj))
                                  (matched n1 adj matchadj) flip
                                :: Ts1 ++ map (fun T => T ++ [e']) Ts2).
    split; [|split].
    + apply (bind_returns _ R1). etransitivity; [exact R2|]. f_equal.
      rewrite <- !app_assoc. reflexivity.
    + apply (child_minus_post Hst e' He' Hs Hgm HeM) in P1.
      apply (child_plus_post Hstn e' He' Hs Hgp HeTm) in P2.
      assert (HTm' : forall p,
                 In p (filter (fun q => negb (edge_eqb q e')) (matched n1 adj nm))
                 <-> In p (filter (fun q => negb (edge_eqb q e'))
                             (toggled (oriented_edges (graph_of n1 adj))
                                (matched n1 adj matchadj) flip))).
      { intros p. rewrite !filter_In, (HTm p). tauto. }
      apply (post_matching_ext HTm'
               (NoDup_filter _ (gi_M_nodup n1 adj nm))
               (NoDup_filter _ HT0d)) in P2.
      exact (combine_post_B e' Hg He' (same_edge_refl e') HT0 HT0n HeT
               M_edges HeM (eq_sym Hlen) P1 P2).
    + constructor; [exact Hrep0|]. apply Forall2_app.
      * apply (Forall2_weaken (P := rep n1 (forced n1 gm matchadj)));
          [|exact F1].
        intros m T. apply rep_ext. intros p.
        apply (child_minus_forced Hst e' He' Hs p Hgm HeM).
      * apply (Forall2_map_r (P := rep n1 (forced n1 gp nm))); [|exact F2].
        intros m T. apply rep_snoc. intros p.
        rewrite (child_plus_forced Hstn e' He' Hs p Hgp HeTm). cbn [In].
        now rewrite (HTf p).
Qed.

End Whole2.

(** * [enumMaximumMatching2] *)

(** ** Positions in the list of nodes *)

Lemma index_In l x :
  In x l -> exists i, index l x = Ok i /\ i < length l /\ nth i l 0 = x.
Proof.
  induction l as [|y l IH]; simpl; intros H; [contradiction|].
  destruct (y =? x) eqn:E.
  - apply Nat.eqb_eq in E. exists 0. split; [reflexivity|]. split; [lia|assumption].
  - apply Nat.eqb_neq in E. destruct H as [H|H]; [contradiction|].
    destruct (IH H) as (i & R & Hi & Hn). exists (S i). rewrite R.
    split; [reflexivity|]. split; [lia|assumption].
Qed.

Lemma index_not_In l x : ~ In x l -> index l x = Raise ValueError.
Proof.
  induction l as [|y l IH]; simpl; intros H; [reflexivity|].
  destruct (y =? x) eqn:E.
  - apply Nat.eqb_eq in E. exfalso. apply H. now left.
  - rewrite IH; [reflexivity|]. intros Hin. apply H. now right.
Qed.

Lemma index_nth l i :
  NoDup l -> i < length l -> index l (nth i l 0) = Ok i.
Proof.
  intros Hd Hi.
  destruct (@index_In l (nth i l 0)) as (j & R & Hj & Hn);
    [now apply nth_In|].
  rewrite R. f_equal. apply (proj1 (NoDup_nth l 0) Hd); assumption.
Qed.

Lemma edge_inb_swap g e : edge_inb g (swap e) = edge_inb g e.
Proof.
  apply eq_true_iff_eq. rewrite !edge_inb_iff, swap_swap. tauto.
Qed.

Section Top2.

Variable X : Collaborators.
Hypothesis X_contract : contract X.
Variable g : Graph.
Hypothesis Hg : bipartite_graphb g = true.

Let s1 := filter (leftb g) (nodes g).
Let l1 := set_listV X s1.
Let l2 := set_listV X (differenceV (nodes g) s1).
Let nodelist := l1 ++ l2.
Let n1 := length l1.
Let n := length nodelist.
Let adj := adjacency g nodelist.

Definition node_at (nodelist : list V) (i : nat) : V := nth i nodelist 0.
Definition rename (nodelist : list V) (p : Edge) : Edge :=
  (node_at nodelist (fst p), node_at nodelist (snd p)).

Lemma l1_In x : In x l1 <-> In x (nodes g) /\ leftb g x = true.
Proof.
  unfold l1, s1. rewrite (set_listV_In X_contract), filter_In. tauto.
Qed.

Lemma l2_In x : In x l2 <-> In x (nodes g) /\ leftb g x = false.
Proof.
  unfold l2, s1, differenceV.
  rewrite (set_listV_In X_contract), filter_In, negb_true_iff, memV_false,
    filter_In.
  split.
  - intros [H1 H2]. split; [assumption|].
    destruct (leftb g x); [exfalso; apply H2; auto|reflexivity].
  - intros [H1 H2]. split; [assumption|]. intros [_ H]. congruence.
Qed.

Lemma nodelist_In x : In x nodelist <-> In x (nodes g).
Proof.
  unfold nodelist. rewrite in_app_iff, l1_In, l2_In.
  destruct (leftb g x); split; try tauto; intros [[_ H]|[_ H]]; congruence.
Qed.

Lemma nodelist_NoDup : NoDup nodelist.
Proof.
  unfold nodelist. apply NoDup_app.
  - apply (set_listV_NoDup X_contract).
  - apply (set_listV_NoDup X_contract).
  - intros x H1 H2. apply l1_In in H1. apply l2_In in H2.
    destruct H1, H2. congruence.
Qed.

Lemma n1_le_n : n1 <= n.
Proof. unfold n, nodelist. rewrite length_app. fold n1. lia. Qed.

Lemma node_at_side i : i < n -> leftb g (node_at nodelist i) = (i <? n1).
Proof.
  intros Hi. unfold node_at, nodelist. destruct (i <? n1) eqn:Si.
  - apply Nat.ltb_lt in Si. rewrite app_nth1 by exact Si.
    apply (nth_In l1 0) in Si. now apply l1_In in Si.
  - apply Nat.ltb_ge in Si. rewrite app_nth2 by exact Si.
    assert (Hl : i - n1 < length l2).
    { unfold n, nodelist in Hi. rewrite length_app in Hi. fold n1 in Hi. lia. }
    apply (nth_In l2 0) in Hl. now apply l2_In in Hl.
Qed.

Lemma node_at_node i : i < n -> In (node_at nodelist i) (nodes g).
Proof. intros Hi. apply nodelist_In. now apply nth_In. Qed.

Lemma node_at_inj i j :
  i < n -> j < n -> node_at nodelist i = node_at nodelist j -> i = j.
Proof. apply (proj1 (NoDup_nth nodelist 0) nodelist_NoDup). Qed.

Lemma adj_entry i j :
  entry adj i j = 1%Z <->
  i < n /\ j < n /\ edge_inb g (node_at nodelist i, node_at nodelist j) = true.
Proof.
  unfold adj, adjacency. cbn [entry]. fold n.
  fold (node_at nodelist i) (node_at nodelist j).
  destruct (Nat.ltb_spec i n) as [Ei|Ei], (Nat.ltb_spec j n) as [Ej|Ej];
    cbn [andb]; try (split; [discriminate|lia]).
  destruct (edge_inb g _).
  - split; [intros _; split; [|split]; auto|reflexivity].
  - split; [discriminate|]. intros (_ & _ & H). discriminate.
Qed.

Lemma adj_bimatrix : bimatrix n n1 adj.
Proof.
  constructor.
  - reflexivity.
  - intros i j. unfold adj, adjacency. cbn [entry].
    case_if; [now right|now left].
  - intros i j H. apply adj_entry in H. tauto.
  - intros i j. unfold adj, adjacency. cbn [entry].
    rewrite (andb_comm (i <? length nodelist)).
    change (nth j nodelist 0, nth i nodelist 0)
      with (swap (nth i nodelist 0, nth j nodelist 0)).
    now rewrite edge_inb_swap.
  - intros i j H. apply adj_entry in H. destruct H as (Hi & Hj & H).
    rewrite <- (node_at_side Hi), <- (node_at_side Hj).
    unfold edge_inb in H. apply existsb_exists in H.
    destruct H as (x & Hx & Hs).
    pose proof (@crossb_same g _ x Hs (@graph_cross g Hg x Hx)) as Hc.
    unfold crossb in Hc. apply orb_true_iff in Hc.
    destruct Hc as [Hc|Hc]; apply left_right_sides in Hc;
      cbn [swap fst snd] in Hc; destruct Hc; congruence.
Qed.

End Top2.

Lemma fill_matchadj_spec nodelist items :
  NoDup nodelist ->
  (forall kv, In kv items -> In (fst kv) nodelist /\ In (snd kv) nodelist) ->
  forall m0, shape m0 = length nodelist ->
  exists m,
    fill_matchadj nodelist items m0 = Ok m /\ shape m = length nodelist /\
    forall i j,
      entry m i j
      = if (i <? length nodelist) && (j <? length nodelist)
           && memE (node_at nodelist i, node_at nodelist j) items
        then 1%Z else entry m0 i j.
Proof.
  intros Hd. induction items as [|[kk vv] items IH]; intros Hin m0 Hs.
  - exists m0. split; [reflexivity|]. split; [assumption|].
    intros i j. cbn [memE existsb]. now rewrite andb_false_r.
  - destruct (Hin (kk, vv) (or_introl eq_refl)) as [Hk Hv]. cbn [fst snd] in *.
    destruct (index_In _ _ Hk) as (a & Ra & La & Na).
    destruct (index_In _ _ Hv) as (b & Rb & Lb & Nb).
    cbn [fill_matchadj]. rewrite Ra, Rb. cbn [bind].
    rewrite mset_Ok by (rewrite Hs; assumption). cbn [bind].
    set (m1 := mkMatrix _ _).
    destruct (IH (fun kv H => Hin kv (or_intror H)) m1 Hs) as (m & R & S' & He).
    exists m. split; [exact R|]. split; [exact S'|].
    intros i j. rewrite He. unfold m1. cbn [entry memE existsb].
    fold (memE (node_at nodelist i, node_at nodelist j) items).
    assert (Hcell : i < length nodelist -> j < length nodelist ->
                    edge_eqb (node_at nodelist i, node_at nodelist j) (kk, vv)
                    = (i =? a) && (j =? b)).
    { intros Hi Hj. unfold edge_eqb, node_at. cbn [fst snd].
      rewrite <- Na, <- Nb.
      destruct (Nat.eqb_spec i a) as [Ea|Ea].
      - rewrite Ea, Nat.eqb_refl. cbn [andb].
        destruct (Nat.eqb_spec j b) as [Eb|Eb];
          [rewrite Eb; apply Nat.eqb_refl|].
        apply Nat.eqb_neq. intros E. apply Eb.
        apply (proj1 (NoDup_nth nodelist 0) Hd); assumption.
      - cbn [andb]. apply andb_false_iff. left.
        apply Nat.eqb_neq. intros E. apply Ea.
        apply (proj1 (NoDup_nth nodelist 0) Hd); assumption. }
    destruct (Nat.ltb_spec i (length nodelist)) as [Hi|Hi],
      (Nat.ltb_spec j (length nodelist)) as [Hj|Hj]; cbn [andb].
    + rewrite (Hcell Hi Hj).
      destruct (memE (node_at nodelist i, node_at nodelist j) items);
        [now rewrite orb_true_r|]. now rewrite orb_false_r.
    + destruct (Nat.eqb_spec j b) as [Eb|Eb]; [lia|].
      now rewrite andb_false_r.
    + destruct (Nat.eqb_spec i a) as [Ea|Ea]; [lia|]. reflexivity.
    + destruct (Nat.eqb_spec i a) as [Ea|Ea]; [lia|]. reflexivity.
Qed.

(** ** From positions back to nodes *)

Lemma node_right g x : In x (nodes g) -> leftb g x = false -> rightb g x = true.
Proof.
  unfold nodes, leftb, rightb, bipartite. intros Hin.
  induction (node g) as [|[y a] tbl IH]; simpl in *; [contradiction|].
  destruct (x =? y) eqn:E.
  - destruct a; [discriminate|reflexivity].
  - apply Nat.eqb_neq in E. destruct Hin as [Hin|Hin]; [congruence|].
    now apply IH.
Qed.

Lemma endpoints_map (f : V -> V) (S : Matching) :
  endpoints (map (fun p => (f (fst p), f (snd p))) S) = map f (endpoints S).
Proof. unfold endpoints. now rewrite map_app, !map_map. Qed.

Lemma mapM_Ok {A B : Type} (f : A -> result B) (h : A -> B) l :
  (forall a, In a l -> f a = Ok (h a)) -> mapM f l = Ok (map h l).
Proof.
  induction l as [|a l IH]; intros H; [reflexivity|].
  cbn [mapM map]. rewrite (H a (or_introl eq_refl)). cbn [bind].
  rewrite IH by (intros b Hb; apply H; now right). reflexivity.
Qed.

Lemma mapM_item nodelist l :
  (forall i, In i l -> i < length nodelist) ->
  mapM (item nodelist) l = Ok (map (node_at nodelist) l).
Proof.
  induction l as [|i l IH]; intros H; [reflexivity|].
  cbn [mapM map]. unfold item at 1, node_at at 1.
  assert (Hi : i < length nodelist) by (apply H; now left).
  rewrite (nth_error_nth' nodelist 0 Hi). cbn [bind].
  rewrite IH by (intros j Hj; apply H; now right). reflexivity.
Qed.

Lemma combine_rename nodelist (S : Matching) :
  combine (map (node_at nodelist) (map fst S))
          (map (node_at nodelist) (map snd S))
  = map (rename nodelist) S.
Proof.
  induction S as [|p S IH]; [reflexivity|].
  cbn [map combine]. now rewrite IH.
Qed.

(** Within the list of nodes, the pairs read off a matrix are the renamed
    positions of its entries 1. *)
Lemma match_list_rename nodelist n1 m :
  (forall p, In p (pairs_of n1 m) ->
     fst p < length nodelist /\ snd p < length nodelist) ->
  match_list nodelist n1 m = Ok (map (rename nodelist) (pairs_of n1 m)).
Proof.
  intros H. unfold match_list.
  rewrite !mapM_item.
  - cbn [bind]. now rewrite combine_rename.
  - intros i Hi. apply in_map_iff in Hi. destruct Hi as (p & <- & Hp).
    now apply H.
  - intros i Hi. apply in_map_iff in Hi. destruct Hi as (p & <- & Hp).
    now apply H.
Qed.

Section Rename.

Variable nodelist : list V.
Hypothesis nodelist_nodup : NoDup nodelist.

Let n := length nodelist.

(** The position of a node, 0 for what is not a node. *)
Definition position (nodelist : list V) (x : V) : nat :=
  match index nodelist x with
  | Ok i => i
  | _ => 0
  end.

Definition unrename (nodelist : list V) (p : Edge) : Edge :=
  (position nodelist (fst p), position nodelist (snd p)).

Lemma position_node_at i : i < n -> position nodelist (node_at nodelist i) = i.
Proof.
  intros Hi. unfold position, node_at. now rewrite index_nth.
Qed.

Lemma node_at_position x :
  In x nodelist ->
  position nodelist x < n /\ node_at nodelist (position nodelist x) = x.
Proof.
  intros H. destruct (index_In _ _ H) as (i & R & Hi & Hn).
  unfold position. rewrite R. split; assumption.
Qed.

Definition in_range (n : nat) (S : Matching) : Prop :=
  forall p, In p S -> fst p < n /\ snd p < n.

Lemma rename_inj p q :
  fst p < n -> snd p < n -> fst q < n -> snd q < n ->
  rename nodelist p = rename nodelist q -> p = q.
Proof.
  intros P1 P2 Q1 Q2 H. unfold rename in H. inv H.
  destruct p, q. cbn [fst snd] in *. f_equal;
    apply (proj1 (NoDup_nth nodelist 0) nodelist_nodup); assumption.
Qed.

Lemma rename_same_edge p q :
  fst p < n -> snd p < n -> fst q < n -> snd q < n ->
  same_edge (rename nodelist p) (rename nodelist q) = same_edge p q.
Proof.
  intros P1 P2 Q1 Q2. apply eq_true_iff_eq. rewrite !same_edge_iff.
  change (swap (rename nodelist q)) with (rename nodelist (swap q)).
  split; intros [H|H].
  - left. now apply rename_inj.
  - right. apply rename_inj; auto.
  - left. now rewrite H.
  - right. now rewrite H.
Qed.

Lemma rename_has_edge S p :
  in_range n S -> fst p < n -> snd p < n ->
  (has_edge (map (rename nodelist) S) (rename nodelist p) <-> has_edge S p).
Proof.
  intros HS P1 P2. unfold has_edge. split.
  - intros (q & Hq & Hs). apply in_map_iff in Hq.
    destruct Hq as (q' & <- & Hq'). exists q'. split; [assumption|].
    destruct (HS _ Hq'). now rewrite rename_same_edge in Hs.
  - intros (q & Hq & Hs). exists (rename nodelist q).
    split; [now apply in_map|]. destruct (HS _ Hq).
    now rewrite rename_same_edge.
Qed.

Lemma has_edge_range S p :
  in_range n S -> has_edge S p -> fst p < n /\ snd p < n.
Proof.
  intros HS (q & Hq & Hs). destruct (HS _ Hq).
  apply same_edge_iff in Hs. destruct Hs as [->| ->]; cbn [swap fst snd]; tauto.
Qed.

Lemma rename_equiv S T :
  in_range n S -> in_range n T ->
  (equiv (map (rename nodelist) S) (map (rename nodelist) T) <-> equiv S T).
Proof.
  intros HS HT. split.
  - intros H p. split; intros Hp.
    + destruct (@has_edge_range S p HS Hp).
      apply (@rename_has_edge T p HT); auto. apply H.
      now apply (@rename_has_edge S p HS).
    + destruct (@has_edge_range T p HT Hp).
      apply (@rename_has_edge S p HS); auto. apply H.
      now apply (@rename_has_edge T p HT).
  - intros H p. unfold has_edge. split; intros (q & Hq & Hs);
      apply in_map_iff in Hq; destruct Hq as (q' & <- & Hq').
    + assert (Hh : has_edge T q') by (apply H; now apply has_edge_In).
      destruct Hh as (r & Hr & Hqr). exists (rename nodelist r).
      split; [now apply in_map|].
      apply same_edge_trans with (rename nodelist q'); [assumption|].
      destruct (HS _ Hq'), (HT _ Hr). now rewrite rename_same_edge.
    + assert (Hh : has_edge S q') by (apply H; now apply has_edge_In).
      destruct Hh as (r & Hr & Hqr). exists (rename nodelist r).
      split; [now apply in_map|].
      apply same_edge_trans with (rename nodelist q'); [assumption|].
      destruct (HT _ Hq'), (HS _ Hr). now rewrite rename_same_edge.
Qed.

Lemma rename_endpoints_nodup S :
  in_range n S -> NoDup (endpoints S) ->
  NoDup (endpoints (map (rename nodelist) S)).
Proof.
  intros HS Hn. unfold rename. rewrite (endpoints_map (node_at nodelist)).
  apply NoDup_map_on; [assumption|].
  intros x y Hx Hy. apply endpoints_In in Hx, Hy.
  destruct Hx as (p & Hp & Hpx), Hy as (q & Hq & Hqy).
  destruct (HS _ Hp), (HS _ Hq).
  apply (proj1 (NoDup_nth nodelist 0) nodelist_nodup);
    [destruct Hpx as [<-|<-]|destruct Hqy as [<-|<-]]; assumption.
Qed.

Lemma unrename_rename S :
  (forall p, In p S -> In (fst p) nodelist /\ In (snd p) nodelist) ->
  map (rename nodelist) (map (unrename nodelist) S) = S.
Proof.
  intros H. rewrite map_map. rewrite <- (map_id S) at 2.
  apply map_ext_in. intros p Hp. destruct (H p Hp) as [H1 H2].
  unfold rename, unrename. cbn [fst snd].
  rewrite (proj2 (node_at_position _ H1)), (proj2 (node_at_position _ H2)).
  now destruct p.
Qed.

Lemma unrename_range S :
  (forall p, In p S -> In (fst p) nodelist /\ In (snd p) nodelist) ->
  in_range n (map (unrename nodelist) S).
Proof.
  intros H q Hq. apply in_map_iff in Hq. destruct Hq as (p & <- & Hp).
  destruct (H p Hp) as [H1 H2]. unfold unrename. cbn [fst snd].
  split; now apply node_at_position.
Qed.

Lemma unrename_endpoints_nodup S :
  (forall p, In p S -> In (fst p) nodelist /\ In (snd p) nodelist) ->
  NoDup (endpoints S) -> NoDup (endpoints (map (unrename nodelist) S)).
Proof.
  intros H Hn. unfold unrename. rewrite (endpoints_map (position nodelist)).
  apply NoDup_map_on; [assumption|].
  intros x y Hx Hy E.
  assert (Hin : forall z, In z (endpoints S) -> In z nodelist).
  { intros z Hz. apply endpoints_In in Hz. destruct Hz as (p & Hp & Hz).
    destruct (H p Hp). destruct Hz as [<-|<-]; assumption. }
  rewrite <- (proj2 (node_at_position _ (Hin x Hx))),
    <- (proj2 (node_at_position _ (Hin y Hy))). now rewrite E.
Qed.

End Rename.

(** ** Moving [post] along a representation *)

Lemma Forall2_In_l {A B : Type} (R : A -> B -> Prop) l1 l2 a :
  Forall2 R l1 l2 -> In a l1 -> exists b, In b l2 /\ R a b.
Proof.
  intros H. induction H as [|x y l1 l2 Hxy H IH]; intros Hin; [destruct Hin|].
  destruct Hin as [<-|Hin].
  - exists y. split; [now left|assumption].
  - destruct (IH Hin) as (b & Hb & Hr). exists b. split; [now right|assumption].
Qed.

Lemma Forall2_In_r {A B : Type} (R : A -> B -> Prop) l1 l2 b :
  Forall2 R l1 l2 -> In b l2 -> exists a, In a l1 /\ R a b.
Proof.
  intros H. induction H as [|x y l1 l2 Hxy H IH]; intros Hin; [destruct Hin|].
  destruct Hin as [<-|Hin].
  - exists x. split; [now left|assumption].
  - destruct (IH Hin) as (a & Ha & Hr). exists a. split; [now right|assumption].
Qed.

Section PostTransfer.

Variable A : Type.
Variable f : A -> Matching.
Variable rel : A -> Matching -> Prop.
Variables g g' : Graph.

Hypothesis c1 : forall m T,
  rel m T -> matching_of g T ->
  matching_of g' (f m) /\ length (f m) = length T.
Hypothesis c2 : forall m T m' T',
  rel m T -> rel m' T' -> matching_of g T -> matching_of g T' ->
  equiv (f m) (f m') -> equiv T T'.
Hypothesis c3 : forall k, is_maximum g' k -> is_maximum g k.
Hypothesis c4 : forall N',
  incl N' (oriented_edges g') -> NoDup (endpoints N') ->
  exists N, incl N (oriented_edges g) /\ NoDup (endpoints N) /\
            length N = length N' /\
            forall m T, rel m T -> matching_of g T -> equiv T N ->
                        equiv (f m) N'.

Lemma post_transfer m0 M Ms Ts :
  matching_of g M -> rel m0 M -> Forall2 rel Ms Ts ->
  post g M Ts -> post g' (f m0) (map f Ms).
Proof.
  intros HM Hr0 HF P.
  destruct (c1 Hr0 HM) as [HM' HlM].
  assert (Hmem : forall m, In m Ms ->
            exists T, In T Ts /\ rel m T /\ matching_of g T /\
                      length T = length M).
  { intros m Hm. destruct (@Forall2_In_l _ _ _ _ _ _ HF Hm) as (T & HT & Hr).
    exists T. destruct (post_matchings P _ HT). auto. }
  constructor.
  - intros R HR. apply in_map_iff in HR. destruct HR as (m & <- & Hm).
    destruct (Hmem m Hm) as (T & HT & Hr & HTm & HTl).
    destruct (c1 Hr HTm) as [H1 H2]. split; [assumption|]. congruence.
  - pose proof (post_distinct P) as Hd.
    assert (Hall : forall T, In T Ts -> matching_of g T).
    { intros T HT. now destruct (post_matchings P _ HT). }
    clear Hmem P. induction HF as [|m T Ms Ts Hr HF IH]; [exact I|].
    cbn [map distinct]. destruct Hd as [Hd1 Hd2]. split.
    + intros R HR Heq. apply in_map_iff in HR. destruct HR as (m' & <- & Hm').
      destruct (@Forall2_In_l _ _ _ _ _ _ HF Hm') as (T' & HT' & Hr').
      apply (Hd1 T' HT').
      apply (c2 Hr Hr'); auto; apply Hall; [now left|now right].
    + apply IH; [assumption|]. intros T' HT'. apply Hall. now right.
  - intros R HR Heq. apply in_map_iff in HR. destruct HR as (m & <- & Hm).
    destruct (Hmem m Hm) as (T & HT & Hr & HTm & HTl).
    apply (post_fresh P HT). now apply (c2 Hr Hr0).
  - intros Hmax N' HN' Hn' Hl'.
    destruct (c4 HN' Hn') as (N & HN & Hn & Hl & Hback).
    assert (Hmax0 : is_maximum g (length M)).
    { apply c3. now rewrite <- HlM. }
    assert (HlN : length N = length M) by congruence.
    destruct (post_complete P Hmax0 HN Hn HlN) as [Heq|(T & HT & Heq)].
    + left. apply equiv_sym. apply (Hback m0 M Hr0 HM). now apply equiv_sym.
    + right. destruct (@Forall2_In_r _ _ _ _ _ _ HF HT) as (m & Hm & Hr).
      exists (f m). split; [now apply in_map|].
      apply (Hback m T Hr); [|assumption].
      now destruct (post_matchings P _ HT).
Qed.

End PostTransfer.

(** ** The first call of the matrix version *)

(** [list(s1) + list(s2)] and [len(s1)] *)
Definition nodelist_of (X : Collaborators) (g : Graph) : list V :=
  set_listV X (filter (leftb g) (nodes g))
  ++ set_listV X (differenceV (nodes g) (filter (leftb g) (nodes g))).

Definition side0_size (X : Collaborators) (g : Graph) : nat :=
  length (set_listV X (filter (leftb g) (nodes g))).

Section Matrix2Top.

Variable X : Collaborators.
Hypothesis X_contract : contract X.
Variable g : Graph.
Hypothesis Hg : bipartite_graphb g = true.
Hypothesis Hhk0 : hopcroft_karp_okb g (hopcroft_karp_matching X g) = true.

Let items := solver_items X g.
Let Hhk : hopcroft_karp_itemsb g items = true :=
  proj2 (solver_returns X g Hhk0).
Let nodelist := nodelist_of X g.
Let n1 := side0_size X g.
Let n := length nodelist.
Let adj := adjacency g nodelist.
Let gi := graph_of n1 adj.

Lemma items_nodes kv :
  In kv items -> In (fst kv) nodelist /\ In (snd kv) nodelist.
Proof.
  intros H. split; apply (nodelist_In X_contract g).
  - apply (hk_node g items Hg Hhk kv H).
  - apply (hk_node g items Hg Hhk (swap kv)). now apply (hk_sym g items Hhk).
Qed.

(** The entries of a matrix that holds the solver's dictionary. *)
Definition holds_items (m : lil_matrix) : Prop :=
  shape m = n /\
  forall i j,
    entry m i j
    = if (i <? n) && (j <? n)
         && memE (node_at nodelist i, node_at nodelist j) items
      then 1%Z else 0%Z.

Lemma fill_matchadj_items :
  exists m,
    fill_matchadj nodelist items (mkMatrix (shape adj) (fun _ _ => 0%Z)) = Ok m
    /\ holds_items m.
Proof.
  destruct (@fill_matchadj_spec nodelist items
              (nodelist_NoDup X_contract g) items_nodes
              (mkMatrix (shape adj) (fun _ _ => 0%Z)) eq_refl)
    as (m & R & Hs & He).
  exists m. split; [exact R|]. split; [exact Hs|exact He].
Qed.

Section Initial.

Variable m : lil_matrix.
Hypothesis Hm : holds_items m.

Lemma items_entry i j :
  entry m i j = 1%Z <->
  i < n /\ j < n /\ In (node_at nodelist i, node_at nodelist j) items.
Proof.
  destruct Hm as [_ He]. rewrite He.
  destruct (Nat.ltb_spec i n) as [Hi|Hi], (Nat.ltb_spec j n) as [Hj|Hj];
    cbn [andb]; try (split; [discriminate|lia]).
  destruct (memE _ items) eqn:Em.
  - apply memE_In in Em. tauto.
  - apply memE_false in Em. split; [discriminate|tauto].
Qed.

Lemma items_bimatrix : bimatrix n n1 m.
Proof.
  pose proof Hm as [Hs He]. constructor.
  - exact Hs.
  - intros i j. rewrite He. case_if; [now right|now left].
  - intros i j H. apply items_entry in H. tauto.
  - assert (Hb : forall a b, bit (entry m a b)).
    { intros a b. rewrite He. case_if; [now right|now left]. }
    assert (Hsym : forall a b, entry m a b = 1%Z -> entry m b a = 1%Z).
    { intros a b H. apply items_entry in H. apply items_entry.
      destruct H as (Hi & Hj & H). split; [assumption|]. split; [assumption|].
      apply (hk_sym g items Hhk) in H. exact H. }
    intros i j. destruct (Hb i j) as [H0|H1], (Hb j i) as [H0'|H1'];
      try congruence.
    + apply Hsym in H1'. congruence.
    + apply Hsym in H1. congruence.
  - intros i j H. apply items_entry in H. destruct H as (Hi & Hj & H).
    assert (S1 : leftb g (node_at nodelist i) = (i <? n1))
      by exact (node_at_side X_contract g Hi).
    assert (S2 : leftb g (node_at nodelist j) = (j <? n1))
      by exact (node_at_side X_contract g Hj).
    rewrite <- S1, <- S2.
    destruct (hk_sides g items Hg Hhk _ H) as [[H1 H2]|[H1 H2]];
      cbn [fst snd] in *; congruence.
Qed.

Lemma items_are_edges i j : entry m i j = 1%Z -> entry adj i j = 1%Z.
Proof.
  intros H. apply items_entry in H. destruct H as (Hi & Hj & H).
  apply (adj_entry X g). split; [assumption|]. split; [assumption|].
  apply (hk_edge g items Hhk _ H).
Qed.

Lemma init_state : state_inv n n1 adj m [].
Proof.
  constructor.
  - apply (n1_le_n X g).
  - apply (adj_bimatrix X_contract g Hg).
  - apply items_bimatrix.
  - intros i j k Hj Hk. apply items_entry in Hj, Hk.
    destruct Hj as (Hi & Hj & H1), Hk as (_ & Hk & H2).
    apply (node_at_inj X_contract g Hj Hk).
    pose proof (NoDup_map_inj fst items _ _ (hk_keys g items Hhk) H1 H2 eq_refl)
      as Heq.
    now inv Heq.
  - intros i j k H1 H2. apply items_are_edges in H1. rewrite H1 in H2.
    discriminate.
  - intros ii [].
Qed.

Lemma init_forced p : ~ In p (forced n1 adj m).
Proof.
  intros H. apply (forced_In init_state) in H. destruct H as (_ & H1 & H2).
  apply items_are_edges in H1. rewrite H1 in H2. discriminate.
Qed.

Lemma init_matched p : In p (matched n1 adj m) <-> In p (pairs_of n1 m).
Proof.
  rewrite (gi_M_In init_state), pairs_of_In.
  rewrite (bi_shape items_bimatrix). split.
  - intros (H1 & H2 & H3). destruct (bi_range items_bimatrix _ _ H3). tauto.
  - intros (H1 & H2 & H3 & H4). pose proof (items_are_edges _ _ H4). tauto.
Qed.

Lemma gi_range p : In p (oriented_edges gi) -> fst p < n /\ snd p < n.
Proof.
  intros H. unfold gi in H. rewrite (gi_oriented init_state) in H.
  now apply (gi_edge_sides init_state) in H.
Qed.

Lemma rename_oriented p :
  In p (oriented_edges gi) -> In (rename nodelist p) (oriented_edges g).
Proof.
  intros H. destruct (gi_range p H) as [R1 R2].
  apply (gi_E_In init_state) in H. destruct H as [H1 H2].
  assert (C : (fst p <? n1) <> (snd p <? n1))
    by exact (bi_cross (adj_bimatrix X_contract g Hg) _ _ H2).
  apply (@oriented_edges_In g Hg). unfold rename. split.
  - unfold left_right. cbn [fst snd].
    assert (S1 : leftb g (node_at nodelist (fst p)) = (fst p <? n1))
      by exact (node_at_side X_contract g R1).
    assert (S2 : leftb g (node_at nodelist (snd p)) = (snd p <? n1))
      by exact (node_at_side X_contract g R2).
    apply Nat.ltb_lt in H1. rewrite S1, H1. cbn [andb].
    apply node_right; [exact (node_at_node X_contract g R2)|].
    rewrite S2. rewrite H1 in C. destruct (snd p <? n1); congruence.
  - apply (adj_entry X g) in H2. tauto.
Qed.

Lemma oriented_nodes q :
  In q (oriented_edges g) -> In (fst q) nodelist /\ In (snd q) nodelist.
Proof.
  intros H. apply (@oriented_edges_In g Hg) in H. destruct H as [H _].
  unfold left_right in H. apply andb_true_iff in H. destruct H as [H1 H2].
  split; apply (nodelist_In X_contract g);
    [now apply leftb_node|now apply rightb_node].
Qed.

Lemma unrename_oriented q :
  In q (oriented_edges g) -> In (unrename nodelist q) (oriented_edges gi).
Proof.
  intros H. destruct (oriented_nodes q H) as [N1 N2].
  destruct (node_at_position nodelist _ N1) as [R1 E1].
  destruct (node_at_position nodelist _ N2) as [R2 E2].
  apply (gi_E_In init_state). unfold unrename. cbn [fst snd]. split.
  - apply Nat.ltb_lt.
    assert (S1 : leftb g (node_at nodelist (position nodelist (fst q)))
                 = (position nodelist (fst q) <? n1))
      by exact (node_at_side X_contract g R1).
    unfold V in *. rewrite <- S1, E1.
    apply (@oriented_edges_sides g Hg) in H. tauto.
  - apply (adj_entry X g). split; [exact R1|]. split; [exact R2|].
    change (edge_inb g (node_at nodelist (position nodelist (fst q)),
                        node_at nodelist (position nodelist (snd q))) = true).
    unfold V in *. rewrite E1, E2.
    apply (@oriented_edges_In g Hg) in H. now destruct q.
Qed.

(** What a result matrix gives: the pairs of nodes of its first rows. *)
Definition result_of (mm : lil_matrix) : Matching :=
  map (rename nodelist) (pairs_of n1 mm).

Lemma rep_facts mm T :
  rep n1 [] mm T -> matching_of gi T ->
  incl T (oriented_edges gi) /\ Permutation (pairs_of n1 mm) T /\
  in_range n (pairs_of n1 mm).
Proof.
  intros Hr [H1 H2].
  assert (Hin : forall p, In p (pairs_of n1 mm) <-> In p T).
  { intros p. rewrite (Hr p), app_nil_r. tauto. }
  assert (HT : incl T (oriented_edges gi)).
  { intros p Hp. pose proof (proj2 (Hin p) Hp) as Hq.
    apply pairs_of_In in Hq. destruct Hq as (L1 & _).
    specialize (H1 p Hp). apply edge_inb_iff in H1.
    unfold gi. rewrite (gi_oriented init_state).
    destruct H1 as [H1|H1]; [exact H1|]. exfalso.
    apply (gi_edge_sides init_state) in H1. cbn [swap fst snd] in H1.
    destruct H1 as (_ & _ & H1). apply Nat.ltb_lt in L1. congruence. }
  split; [exact HT|]. split.
  - apply NoDup_Permutation;
      [apply pairs_of_NoDup|now apply endpoints_NoDup_list|exact Hin].
  - intros p Hp. apply gi_range, HT. now apply Hin.
Qed.

Lemma c1_matrix mm T :
  rep n1 [] mm T -> matching_of gi T ->
  matching_of g (result_of mm) /\ length (result_of mm) = length T.
Proof.
  intros Hr HT. destruct (rep_facts Hr HT) as (Ho & Hp & Hrange).
  unfold result_of. split; [split|].
  - intros q Hq. apply in_map_iff in Hq. destruct Hq as (p & <- & Hp').
    apply oriented_edge_inb; [exact Hg|]. apply rename_oriented, Ho.
    now apply (Permutation_in _ Hp).
  - apply (rename_endpoints_nodup (nodelist_NoDup X_contract g) Hrange).
    apply (Permutation_NoDup (Permutation_sym (endpoints_perm Hp))).
    apply HT.
  - rewrite length_map. now apply Permutation_length.
Qed.

Lemma c2_matrix mm T mm' T' :
  rep n1 [] mm T -> rep n1 [] mm' T' ->
  matching_of gi T -> matching_of gi T' ->
  equiv (result_of mm) (result_of mm') -> equiv T T'.
Proof.
  intros Hr Hr' HT HT' Heq.
  destruct (rep_facts Hr HT) as (_ & Hp & Hrange).
  destruct (rep_facts Hr' HT') as (_ & Hp' & Hrange').
  unfold result_of in Heq.
  apply (rename_equiv (nodelist_NoDup X_contract g) Hrange Hrange') in Heq.
  apply equiv_trans with (pairs_of n1 mm).
  - apply equiv_incl; intros p Hp0;
      [apply (Permutation_in _ (Permutation_sym Hp))|apply (Permutation_in _ Hp)];
      assumption.
  - apply (equiv_trans Heq).
    apply equiv_incl; intros p Hp0;
      [apply (Permutation_in _ Hp')|apply (Permutation_in _ (Permutation_sym Hp'))];
      assumption.
Qed.

Lemma c3_matrix k : is_maximum g k -> is_maximum gi k.
Proof.
  intros H N HN Hn. rewrite <- (length_map (rename nodelist) N). apply H.
  - intros q Hq. apply in_map_iff in Hq. destruct Hq as (p & <- & Hp).
    now apply rename_oriented, HN.
  - apply (rename_endpoints_nodup (nodelist_NoDup X_contract g)); [|exact Hn].
    intros p Hp. now apply gi_range, HN.
Qed.

Lemma c4_matrix N' :
  incl N' (oriented_edges g) -> NoDup (endpoints N') ->
  exists N, incl N (oriented_edges gi) /\ NoDup (endpoints N) /\
            length N = length N' /\
            forall mm T, rep n1 [] mm T -> matching_of gi T -> equiv T N ->
                         equiv (result_of mm) N'.
Proof.
  intros HN' Hn'.
  assert (Hnodes : forall p, In p N' ->
                     In (fst p) nodelist /\ In (snd p) nodelist).
  { intros p Hp. now apply oriented_nodes, HN'. }
  exists (map (unrename nodelist) N'). split; [|split; [|split]].
  - intros q Hq. apply in_map_iff in Hq. destruct Hq as (p & <- & Hp).
    now apply unrename_oriented, HN'.
  - now apply unrename_endpoints_nodup.
  - apply length_map.
  - intros mm T Hr HT Heq. destruct (rep_facts Hr HT) as (_ & Hp & Hrange).
    unfold result_of.
    rewrite <- (unrename_rename nodelist N' Hnodes).
    apply (rename_equiv (nodelist_NoDup X_contract g) Hrange
             (unrename_range nodelist N' Hnodes)).
    apply equiv_trans with T; [|exact Heq].
    apply equiv_incl; intros p Hp0;
      [apply (Permutation_in _ Hp)|apply (Permutation_in _ (Permutation_sym Hp))];
      assumption.
Qed.

Lemma init_run :
  exists Ms Ts,
    enumMaximumMatchingIter2 X adj m [m] n1 None true = Ok (m :: Ms) /\
    post gi (matched n1 adj m) Ts /\ Forall2 (rep n1 []) Ms Ts.
Proof.
  destruct (@rec2_post X X_contract n n1 (S (length (from_numpy_matrix adj)))
              adj m [m] None true) as (Ms & Ts & R & P & F).
  - exact init_state.
  - discriminate.
  - unfold graph_of. cbn [edges]. apply Nat.lt_succ_r, filter_length_le.
  - exists Ms, Ts. split; [exact R|]. split; [exact P|].
    revert F. apply Forall2_weaken. intros a b. apply rep_ext.
    intros p. split; [intros H; now apply init_forced in H|intros []].
Qed.

Lemma init_post Ms Ts :
  post gi (matched n1 adj m) Ts -> Forall2 (rep n1 []) Ms Ts ->
  post g (result_of m) (map result_of Ms).
Proof.
  intros P F.
  apply (@post_transfer lil_matrix result_of (rep n1 []) gi g
           c1_matrix c2_matrix c3_matrix c4_matrix m (matched n1 adj m) Ms Ts).
  - split.
    + intros p Hp. apply oriented_edge_inb; [exact (gi_bipartite init_state)|].
      exact (gi_M_incl init_state p Hp).
    + exact (gi_M_valid init_state).
  - intros p. rewrite app_nil_r. symmetry. apply init_matched.
  - exact F.
  - exact P.
Qed.

Lemma init_first q : In q (result_of m) <-> In q (first_matching X g).
Proof.
  unfold result_of, first_matching. rewrite in_map_iff, filter_In. fold items. split.
  - intros (p & <- & Hp). apply pairs_of_In in Hp.
    destruct Hp as (L & _ & _ & E). apply items_entry in E.
    destruct E as (Hi & Hj & E). split; [exact E|].
    unfold rename. cbn [fst].
    assert (S1 : leftb g (node_at nodelist (fst p)) = (fst p <? n1))
      by exact (node_at_side X_contract g Hi).
    rewrite S1. now apply Nat.ltb_lt.
  - intros [Hq Hl]. destruct (items_nodes q Hq) as [N1 N2].
    destruct (node_at_position nodelist _ N1) as [R1 E1].
    destruct (node_at_position nodelist _ N2) as [R2 E2].
    exists (unrename nodelist q). split.
    + unfold rename, unrename. cbn [fst snd]. unfold V in *.
      rewrite E1, E2. now destruct q.
    + apply pairs_of_In. unfold unrename. cbn [fst snd].
      rewrite (bi_shape items_bimatrix).
      assert (S1 : leftb g (node_at nodelist (position nodelist (fst q)))
                   = (position nodelist (fst q) <? n1))
        by exact (node_at_side X_contract g R1).
      unfold V in *. rewrite E1, Hl in S1. symmetry in S1.
      apply Nat.ltb_lt in S1.
      split; [exact S1|]. split; [exact R1|]. split; [exact R2|].
      apply items_entry. split; [exact R1|]. split; [exact R2|].
      rewrite E1, E2. now destruct q.
Qed.

Lemma init_rep : rep n1 [] m (matched n1 adj m) /\ matching_of gi (matched n1 adj m).
Proof.
  split.
  - intros p. rewrite app_nil_r. symmetry. apply init_matched.
  - split.
    + intros p Hp. apply oriented_edge_inb; [exact (gi_bipartite init_state)|].
      exact (gi_M_incl init_state p Hp).
    + exact (gi_M_valid init_state).
Qed.

Lemma init_member Ms Ts mm :
  post gi (matched n1 adj m) Ts -> Forall2 (rep n1 []) Ms Ts ->
  In mm (m :: Ms) ->
  in_range n (pairs_of n1 mm) /\ incl (result_of mm) (oriented_edges g).
Proof.
  intros P F Hin.
  assert (H : exists T, rep n1 [] mm T /\ matching_of gi T).
  { destruct Hin as [<-|Hin].
    - exists (matched n1 adj m). exact init_rep.
    - destruct (Forall2_In_l mm F Hin) as (T & HT & Hr). exists T.
      split; [exact Hr|]. apply (post_matchings P _ HT). }
  destruct H as (T & Hr & HT).
  destruct (rep_facts Hr HT) as (Ho & Hp & Hrange).
  split; [exact Hrange|].
  intros q Hq. unfold result_of in Hq. apply in_map_iff in Hq.
  destruct Hq as (p & <- & Hp'). apply rename_oriented, Ho.
  now apply (Permutation_in _ Hp).
Qed.

End Initial.

Lemma adjacency_matrix_Ok :
  0 < length (nodes g) -> adjacency_matrix g nodelist = Ok adj.
Proof.
  intros Hne. unfold adjacency_matrix.
  assert (Hl : length nodelist <> 0).
  { destruct (nodes g) as [|x l] eqn:E; [cbn in Hne; lia|].
    assert (Hx : In x nodelist).
    { apply (nodelist_In X_contract g). rewrite E. now left. }
    destruct nodelist; [destruct Hx|discriminate]. }
  apply Nat.eqb_neq in Hl. rewrite Hl.
  rewrite (proj2 (nodupb_NoDup nodelist) (nodelist_NoDup X_contract g)).
  reflexivity.
Qed.

(** The matrix version returns the first matching and what the recursion
    appends to it, both read back as pairs of nodes, side 0 first. *)
Lemma enumMaximumMatching2_result :
  0 < length (nodes g) ->
  exists M0 Ts,
    enumMaximumMatching2 X g = Ok (M0 :: Ts) /\
    matching_of g M0 /\ length M0 = maximum_matching_number g /\
    post g M0 Ts /\
    Permutation M0 (first_matching X g) /\
    forall S, In S (M0 :: Ts) -> incl S (oriented_edges g).
Proof.
  intros Hne.
  destruct fill_matchadj_items as (m & R & Hm).
  destruct (init_run Hm) as (Ms & Ts & R2 & P & F).
  pose proof (init_post Hm P F) as Q.
  pose proof (fun mm => @init_member m Hm Ms Ts mm P F) as Hmem.
  destruct (@first_matching_maximum X g Hg Hhk0) as (F1 & F2 & _).
  assert (Hperm : Permutation (result_of m) (first_matching X g)).
  { apply NoDup_Permutation.
    - unfold result_of.
      apply endpoints_NoDup_list.
      apply (rename_endpoints_nodup (nodelist_NoDup X_contract g)).
      + intros p Hp. apply pairs_of_In in Hp.
        rewrite (bi_shape (items_bimatrix Hm)) in Hp. tauto.
      + apply (Permutation_NoDup (l := endpoints (matched n1 adj m))).
        * apply endpoints_perm. apply NoDup_Permutation.
          -- apply gi_M_nodup.
          -- apply pairs_of_NoDup.
          -- intros p. apply (init_matched Hm).
        * exact (gi_M_valid (init_state Hm)).
    - apply endpoints_NoDup_list, F1.
    - intros q. apply (init_first Hm). }
  exists (result_of m), (map result_of Ms).
  split; [|split; [|split; [|split; [|split]]]].
  - change (enumMaximumMatching2 X g) with
      (adj0 <- adjacency_matrix g nodelist ;;
       match_ <- hopcroft_karp_matching X g ;;
       matchadj <- fill_matchadj nodelist match_
                     (mkMatrix (shape adj0) (fun _ _ => 0%Z)) ;;
       all_matches <- enumMaximumMatchingIter2 X adj0 matchadj [matchadj] n1
                        None true ;;
       mapM (match_list nodelist n1) all_matches).
    rewrite (adjacency_matrix_Ok Hne). cbn [bind].
    rewrite (proj1 (solver_returns X g Hhk0)). cbn [bind]. fold items.
    rewrite R. cbn [bind]. rewrite R2. cbn [bind].
    change (result_of m :: map result_of Ms) with (map result_of (m :: Ms)).
    apply mapM_Ok. intros mm Hmm. apply match_list_rename.
    exact (proj1 (Hmem mm Hmm)).
  - split.
    + intros p Hp. apply F1. now apply (Permutation_in _ Hperm).
    + apply (Permutation_NoDup (Permutation_sym (endpoints_perm Hperm))).
      apply F1.
  - rewrite (Permutation_length Hperm). exact F2.
  - exact Q.
  - exact Hperm.
  - intros S HS. change (In S (map result_of (m :: Ms))) in HS.
    apply in_map_iff in HS. destruct HS as (mm & <- & Hmm).
    exact (proj2 (Hmem mm Hmm)).
Qed.

End Matrix2Top.

(** ** What a first maximum matching and the appended ones list *)

Section Enumerates.

Variables (g : Graph) (M0 : Matching) (Ts : list Matching).
Hypothesis Hg : bipartite_graphb g = true.
Hypothesis HM : matching_of g M0.
Hypothesis Hl : length M0 = maximum_matching_number g.
Hypothesis P : post g M0 Ts.

Lemma listed_members S :
  In S (M0 :: Ts) -> matching_of g S /\ length S = maximum_matching_number g.
Proof.
  intros [<-|HS]; [now split|].
  destruct (post_matchings P _ HS) as [M1 M2]. split; [exact M1|].
  now rewrite M2.
Qed.

Lemma listed_distinct : distinct (M0 :: Ts).
Proof.
  split; [|apply (post_distinct P)].
  intros T HT Heq. apply (post_fresh P HT). now apply equiv_sym.
Qed.

Lemma listed_covers S :
  In S (maximum_matchings g) -> exists T, In T (M0 :: Ts) /\ equiv T S.
Proof.
  intros HS. destruct (@listed_matching g S Hg HS) as (N1 & N2 & N3).
  assert (Hmax : is_maximum g (length M0)).
  { rewrite Hl. now apply matching_bound. }
  rewrite <- Hl in N3.
  destruct (post_complete P Hmax N1 N2 N3) as [Heq|(T & HT & Heq)].
  - exists M0. split; [now left|].
    apply equiv_sym. apply (equiv_trans (equiv_sym (orient_equiv g S)) Heq).
  - exists T. split; [now right|].
    apply (equiv_trans Heq). apply orient_equiv.
Qed.

Lemma listed_count : length (M0 :: Ts) = length (maximum_matchings g).
Proof.
  apply distinct_count.
  - exact listed_distinct.
  - now apply maximum_matchings_distinct.
  - intros T HT. destruct (@listed_members T HT) as [M1 M2].
    now apply matching_listed.
  - exact listed_covers.
Qed.

End Enumerates.

(** ** Results of the version on adjacency matrices *)

(** X1. On a bipartite graph with at least one node, with collaborators that
    meet their contract, [enumMaximumMatching2] returns a list, each member
    of which covers no vertex twice, is made of edges of the graph, and has
    as many pairs as the maximum matching number of the graph, found by
    exhaustive search. *)
Theorem matrix_matchings_are_maximum (X : Collaborators) (g : Graph) :
  contract X -> bipartite_graphb g = true ->
  hopcroft_karp_okb g (hopcroft_karp_matching X g) = true ->
  0 < length (nodes g) ->
  exists res,
    enumMaximumMatching2 X g = Ok res /\
    forall S, In S res ->
      valid_matchingb S = true /\
      (forall p, In p S -> edge_inb g p = true) /\
      length S = maximum_matching_number g.
Proof.
  intros HX Hg Hhk Hne.
  destruct (enumMaximumMatching2_result HX g Hg Hhk Hne)
    as (M0 & Ts & R & HM & Hl & P & _).
  exists (M0 :: Ts). split; [exact R|]. intros S HS.
  destruct (listed_members HM Hl P HS) as [[M1 M2] M3].
  split; [now apply nodupb_NoDup|]. now split.
Qed.

Lemma matrix_matchings_are_maximum_two_paths :
  exists res,
    enumMaximumMatching2 Reference.collaborators two_paths = Ok res /\
    forall S, In S res ->
      valid_matchingb S = true /\
      (forall p, In p S -> edge_inb two_paths p = true) /\
      length S = maximum_matching_number two_paths.
Proof.
  apply (@matrix_matchings_are_maximum Reference.collaborators two_paths
           ReferenceFacts.reference_contract);
    vm_compute; first [reflexivity | lia].
Defined.

(** X2. Under the same assumptions the list that [enumMaximumMatching2]
    returns has as many members as the graph has maximum matchings, counted
    by exhaustive search, and every maximum matching is the edge set of a
    member. *)
Theorem matrix_matchings_are_all (X : Collaborators) (g : Graph) :
  contract X -> bipartite_graphb g = true ->
  hopcroft_karp_okb g (hopcroft_karp_matching X g) = true ->
  0 < length (nodes g) ->
  exists res,
    enumMaximumMatching2 X g = Ok res /\
    length res = length (maximum_matchings g) /\
    forall S, In S (maximum_matchings g) ->
      exists T, In T res /\ same_edge_set T S = true.
Proof.
  intros HX Hg Hhk Hne.
  destruct (enumMaximumMatching2_result HX g Hg Hhk Hne)
    as (M0 & Ts & R & HM & Hl & P & _).
  exists (M0 :: Ts). split; [exact R|]. split.
  - exact (listed_count Hg HM Hl P).
  - intros S HS. destruct (listed_covers Hg Hl P S HS) as (T & HT & Heq).
    exists T. split; [exact HT|]. now apply same_edge_set_equiv.
Qed.

Lemma matrix_matchings_are_all_K22 :
  maximum_matchings K22 = [[(0, 2); (1, 3)]; [(0, 3); (1, 2)]] /\
  exists res,
    enumMaximumMatching2 Reference.collaborators K22 = Ok res /\
    length res = length (maximum_matchings K22) /\
    forall S, In S (maximum_matchings K22) ->
      exists T, In T res /\ same_edge_set T S = true.
Proof.
  split; [vm_compute; reflexivity|].
  apply (@matrix_matchings_are_all Reference.collaborators K22
           ReferenceFacts.reference_contract);
    vm_compute; first [reflexivity | lia].
Defined.

(** X3. Under the same assumptions no two members of the list that
    [enumMaximumMatching2] returns, at different positions, are the same
    set of undirected edges. *)
Theorem matrix_matchings_are_distinct (X : Collaborators) (g : Graph) :
  contract X -> bipartite_graphb g = true ->
  hopcroft_karp_okb g (hopcroft_karp_matching X g) = true ->
  0 < length (nodes g) ->
  exists res,
    enumMaximumMatching2 X g = Ok res /\
    forall i j, i < j -> j < length res ->
      same_edge_set (nth i res []) (nth j res []) = false.
Proof.
  intros HX Hg Hhk Hne.
  destruct (enumMaximumMatching2_result HX g Hg Hhk Hne)
    as (M0 & Ts & R & HM & Hl & P & _).
  exists (M0 :: Ts). split; [exact R|].
  intros i j Hij Hj. apply not_true_is_false. intros Heq.
  apply same_edge_set_equiv in Heq. revert Heq.
  apply distinct_nth; [|assumption|assumption].
  exact (listed_distinct P).
Qed.

Lemma matrix_matchings_are_distinct_two_paths :
  exists res,
    enumMaximumMatching2 Reference.collaborators two_paths = Ok res /\
    forall i j, i < j -> j < length res ->
      same_edge_set (nth i res []) (nth j res []) = false.
Proof.
  apply (@matrix_matchings_are_distinct Reference.collaborators two_paths
           ReferenceFacts.reference_contract);
    vm_compute; first [reflexivity | lia].
Defined.

(** X4. Under the same assumptions every pair of every matching that
    [enumMaximumMatching2] returns has its first component on side 0 and
    its second on side 1, and the first member holds the pairs of the
    solver's dictionary whose key is on side 0. *)
Theorem matrix_pairs_are_ordered (X : Collaborators) (g : Graph) :
  contract X -> bipartite_graphb g = true ->
  hopcroft_karp_okb g (hopcroft_karp_matching X g) = true ->
  0 < length (nodes g) ->
  exists res,
    enumMaximumMatching2 X g = Ok res /\
    (forall S p, In S res -> In p S -> left_right g p = true) /\
    Permutation (hd [] res) (first_matching X g).
Proof.
  intros HX Hg Hhk Hne.
  destruct (enumMaximumMatching2_result HX g Hg Hhk Hne)
    as (M0 & Ts & R & _ & _ & _ & Hp & Ho).
  exists (M0 :: Ts). split; [exact R|]. split; [|exact Hp].
  intros S p HS Hin.
  apply (@oriented_edges_In g Hg). exact (Ho S HS p Hin).
Qed.

Lemma matrix_pairs_are_ordered_two_paths :
  exists res,
    enumMaximumMatching2 Reference.collaborators two_paths = Ok res /\
    (forall S p, In S res -> In p S -> left_right two_paths p = true) /\
    Permutation (hd [] res) (first_matching Reference.collaborators two_paths).
Proof.
  apply (@matrix_pairs_are_ordered Reference.collaborators two_paths
           ReferenceFacts.reference_contract);
    vm_compute; first [reflexivity | lia].
Defined.

Lemma versions_cover (X : Collaborators) (g : Graph) :
  contract X -> bipartite_graphb g = true ->
  hopcroft_karp_okb g (hopcroft_karp_matching X g) = true ->
  0 < length (nodes g) ->
  exists res res2,
    enumMaximumMatching X g = Ok res /\
    enumMaximumMatching2 X g = Ok res2 /\
    length res = length res2 /\
    (forall S, In S res -> exists T, In T res2 /\ same_edge_set S T = true) /\
    (forall T, In T res2 -> exists S, In S res /\ same_edge_set S T = true).
Proof.
  intros HX Hg Hhk Hne.
  destruct (@enumMaximumMatching_result X g HX Hg Hhk) as (Ts & R & P).
  destruct (@first_matching_maximum X g Hg Hhk) as (F1 & F2 & _).
  destruct (enumMaximumMatching2_result HX g Hg Hhk Hne)
    as (M0 & Ts2 & R2 & HM & Hl & P2 & _).
  exists (first_matching X g :: Ts), (M0 :: Ts2).
  split; [exact R|]. split; [exact R2|]. split; [|split].
  - rewrite (listed_count Hg F1 F2 P). symmetry.
    exact (listed_count Hg HM Hl P2).
  - intros S HS. destruct (listed_members F1 F2 P HS) as [S1 S2].
    destruct (@matching_listed g S Hg S1 S2) as (N & HN & E1).
    destruct (listed_covers Hg Hl P2 N HN) as (T & HT & E2).
    exists T. split; [exact HT|]. apply same_edge_set_equiv.
    apply (equiv_trans E1). now apply equiv_sym.
  - intros T HT. destruct (listed_members HM Hl P2 HT) as [S1 S2].
    destruct (@matching_listed g T Hg S1 S2) as (N & HN & E1).
    destruct (listed_covers Hg F2 P N HN) as (S & HS & E2).
    exists S. split; [exact HS|]. apply same_edge_set_equiv.
    apply (equiv_trans E2). now apply equiv_sym.
Qed.

(** X5. On a bipartite graph with at least one node, the version on
    adjacency matrices and the version on lists return lists of the same
    length, and every member of either list is the edge set of a member of
    the other. *)
Theorem both_versions_agree (X : Collaborators) (g : Graph) :
  contract X -> bipartite_graphb g = true ->
  hopcroft_karp_okb g (hopcroft_karp_matching X g) = true ->
  0 < length (nodes g) ->
  exists res res2,
    enumMaximumMatching X g = Ok res /\
    enumMaximumMatching2 X g = Ok res2 /\
    length res = length res2 /\
    (forall S, In S res -> exists T, In T res2 /\ same_edge_set S T = true) /\
    (forall T, In T res2 -> exists S, In S res /\ same_edge_set S T = true).
Proof. exact (@versions_cover X g). Qed.




Lemma both_versions_agree_K22 :
  exists res res2,
    enumMaximumMatching Reference.collaborators K22 = Ok res /\
    enumMaximumMatching2 Reference.collaborators K22 = Ok res2 /\
    length res = length res2 /\
    (forall S, In S res -> exists T, In T res2 /\ same_edge_set S T = true) /\
    (forall T, In T res2 -> exists S, In S res /\ same_edge_set S T = true).
Proof.
  apply (@both_versions_agree Reference.collaborators K22
           ReferenceFacts.reference_contract);
    vm_compute; first [reflexivity | lia].
Defined.

(** X6. On a graph without nodes [enumMaximumMatching2] raises the
    NetworkXError of [nx.adjacency_matrix], which refuses an empty list of
    nodes; the version on lists returns the list of the empty matching
    there. *)
Theorem matrix_version_refuses_no_nodes (X : Collaborators) (g : Graph) :
  contract X -> nodes g = [] ->
  enumMaximumMatching2 X g = Raise NetworkXError.
Proof.
  intros HX Hn. unfold enumMaximumMatching2. rewrite Hn. cbn [filter].
  unfold differenceV. cbn [filter].
  assert (He : set_listV X [] = []).
  { destruct (set_listV X []) as [|x l] eqn:E; [reflexivity|].
    assert (Hx : In x (set_listV X [])) by (rewrite E; now left).
    apply (set_listV_In HX [] x) in Hx. destruct Hx. }
  rewrite He. reflexivity.
Qed.

Lemma matrix_version_refuses_no_nodes_empty_graph :
  enumMaximumMatching2 Reference.collaborators empty_graph
  = Raise NetworkXError /\
  enumMaximumMatching Reference.collaborators empty_graph = Ok [[]].
Proof.
  split; [|vm_compute; reflexivity].
  apply (@matrix_version_refuses_no_nodes Reference.collaborators empty_graph
           ReferenceFacts.reference_contract).
  reflexivity.
Defined.

(** * The exchange digraph of any list of pairs *)

(** The test of the loop of [formDirected]: the edge is in [match_], one
    way round or the other. *)
Definition in_match (match_ : Matching) (ee : Edge) : bool :=
  memE ee match_ || memE (swap ee) match_.

(** The way round [formDirected] wants an arc: from side 0 when the edge is
    in [match_], towards side 0 when it is not. *)
Definition well_directed (g : Graph) (match_ : Matching) (a : Edge) : Prop :=
  leftb g (fst a) = in_match match_ a.

Lemma in_match_swap match_ ee : in_match match_ (swap ee) = in_match match_ ee.
Proof. unfold in_match. rewrite swap_swap. apply orb_comm. Qed.

Lemma in_match_same match_ a ee :
  same_edge a ee = true -> in_match match_ a = in_match match_ ee.
Proof.
  intros H. apply same_edge_iff in H.
  destruct H as [->| ->]; [reflexivity|apply in_match_swap].
Qed.

Lemma add_edge_In d u v a : In a (add_edge d u v) <-> In a d \/ a = (u, v).
Proof.
  unfold add_edge. destruct (memE (u, v) d) eqn:E.
  - apply memE_In in E. split; [auto|]. now intros [H| ->].
  - rewrite in_app_iff. cbn [In]. split.
    + intros [H|[H|[]]]; auto.
    + intros [H|H]; auto.
Qed.

Lemma add_edge_NoDup d u v : NoDup d -> NoDup (add_edge d u v).
Proof.
  intros H. unfold add_edge. destruct (memE (u, v) d) eqn:E; [exact H|].
  apply memE_false in E.
  apply (Permutation_NoDup (Permutation_cons_append d (u, v))).
  now constructor.
Qed.

Section FormDirected.

Variables (g : Graph) (match_ : Matching).

(** One round of the loop adds the edge the way round that is well
    directed; the other way round is not. *)
Lemma formDirected_step ee b d :
  crossb g ee = true -> bipartite g (fst ee) = Ok b ->
  exists a0,
    (if memE ee match_ || memE (swap ee) match_
     then (if b =? 0 then add_edge d (fst ee) (snd ee)
           else add_edge d (snd ee) (fst ee))
     else (if b =? 0 then add_edge d (snd ee) (fst ee)
           else add_edge d (fst ee) (snd ee)))
    = add_edge d (fst a0) (snd a0) /\
    same_edge a0 ee = true /\
    well_directed g match_ a0 /\ ~ well_directed g match_ (swap a0).
Proof.
  intros Hc Hb. fold (in_match match_ ee).
  assert (Hl : leftb g (fst ee) = (b =? 0)).
  { unfold leftb. rewrite Hb. now destruct b. }
  assert (Hr : leftb g (snd ee) = negb (b =? 0)).
  { unfold crossb in Hc. apply orb_true_iff in Hc.
    destruct Hc as [Hc|Hc]; apply left_right_sides in Hc;
      cbn [swap fst snd] in Hc; destruct Hc as [H1 H2];
      rewrite Hl in *; rewrite ?H1 in *; rewrite ?H2 in *;
      destruct (b =? 0); cbn; congruence. }
  unfold well_directed.
  destruct (in_match match_ ee) eqn:Em, (b =? 0) eqn:Eb.
  - exists ee. rewrite same_edge_refl, Em, in_match_swap, Em.
    cbn [swap fst]. rewrite Hl, Hr. cbn. repeat split; congruence.
  - exists (swap ee). rewrite in_match_swap, swap_swap, Em.
    cbn [swap fst snd]. rewrite Hl, Hr. cbn. repeat split; try congruence.
    apply same_edge_iff. now right.
  - exists (swap ee). rewrite in_match_swap, swap_swap, Em.
    cbn [swap fst snd]. rewrite Hl, Hr. cbn. repeat split; try congruence.
    apply same_edge_iff. now right.
  - exists ee. rewrite same_edge_refl, Em, in_match_swap, Em.
    cbn [swap fst]. rewrite Hl, Hr. cbn. repeat split; congruence.
Qed.

Lemma formDirected_loop_arcs es : forall d,
  (forall ee, In ee es -> crossb g ee = true) ->
  exists d',
    formDirected_loop g match_ es d = Ok d' /\
    (NoDup d -> NoDup d') /\
    forall a, In a d' <->
      In a d \/
      exists ee, In ee es /\ same_edge a ee = true /\ well_directed g match_ a.
Proof.
  induction es as [|ee es IH]; intros d Hc.
  - exists d. split; [reflexivity|]. split; [auto|].
    intros a. split; [auto|]. intros [H|(ee & [] & _)]. exact H.
  - assert (Hee : crossb g ee = true) by (apply Hc; now left).
    assert (Hb : exists b, bipartite g (fst ee) = Ok b).
    { unfold crossb, left_right, leftb, rightb in Hee. cbn [swap fst snd] in Hee.
      destruct (bipartite g (fst ee)) as [b| |]; [now exists b| |];
        cbn in Hee; rewrite ?andb_false_r in Hee; discriminate. }
    destruct Hb as [b Hb].
    cbn [formDirected_loop]. rewrite Hb. cbn [bind].
    destruct (@formDirected_step ee b d Hee Hb) as (a0 & -> & Hs & Hw & Hn).
    destruct (IH (add_edge d (fst a0) (snd a0))) as (d' & R & Hnd & Hin).
    { intros x Hx. apply Hc. now right. }
    exists d'. split; [exact R|]. split.
    { intros H. now apply Hnd, add_edge_NoDup. }
    intros a. rewrite Hin, add_edge_In, <- surjective_pairing. split.
    + intros [[H| ->]|(x & Hx & H)].
      * now left.
      * right. exists ee. split; [now left|]. now split.
      * right. exists x. split; [now right|exact H].
    + intros [H|(x & [<-|Hx] & Hsx & Hwx)].
      * left. now left.
      * left. right.
        assert (Hcase : a = a0 \/ a = swap a0).
        { apply same_edge_iff in Hsx, Hs.
          destruct Hsx as [->| ->], Hs as [->| ->]; rewrite ?swap_swap; auto. }
        destruct Hcase as [->| ->]; [reflexivity|contradiction].
      * right. exists x. now split.
Qed.

End FormDirected.

Lemma formDirected_loop_KeyError g match_ es : forall d,
  (exists ee, In ee es /\ has_node g (fst ee) = false) ->
  formDirected_loop g match_ es d = Raise KeyError.
Proof.
  induction es as [|ee es IH]; intros d (x & Hx & Hn); [destruct Hx|].
  cbn [formDirected_loop].
  destruct (bipartite g (fst ee)) as [b|e|] eqn:Hb; cbn [bind].
  - apply IH. exists x. split; [|exact Hn].
    destruct Hx as [<-|Hx]; [|exact Hx].
    rewrite (bipartite_missing _ _ Hn) in Hb. discriminate.
  - now rewrite (bipartite_raises _ _ Hb).
  - exfalso. now apply (@ror_bipartite g (fst ee)).
Qed.

(** X7. When every edge of [g] joins a node of side 0 and a node of another
    side, [formDirected] returns, for any list of pairs [match_], a digraph
    without repeated arcs whose arcs are the edges of [g], each one way
    round: from its end on side 0 when the edge is in [match_] (either way
    round), towards that end when it is not. *)
Theorem formDirected_arcs (g : Graph) (match_ : Matching) :
  forallb (crossb g) (edges g) = true ->
  exists d,
    formDirected g match_ = Ok d /\ NoDup d /\
    forall u v, In (u, v) d <->
      edge_inb g (u, v) = true /\
      leftb g u = (memE (u, v) match_ || memE (v, u) match_).
Proof.
  intros Hc. rewrite forallb_forall in Hc.
  destruct (@formDirected_loop_arcs g match_ (edges g) [] Hc)
    as (d & R & Hn & Hin).
  exists d. split; [exact R|]. split; [apply Hn; constructor|].
  intros u v. rewrite Hin. unfold edge_inb. rewrite existsb_exists.
  unfold well_directed, in_match. cbn [swap fst snd]. split.
  - intros [[]|(ee & H1 & H2 & H3)]. split; [now exists ee|exact H3].
  - intros [(ee & H1 & H2) H3]. right. now exists ee.
Qed.

Lemma formDirected_arcs_K22 :
  exists d,
    formDirected K22 [(1, 3)] = Ok d /\ NoDup d /\
    forall u v, In (u, v) d <->
      edge_inb K22 (u, v) = true /\
      leftb K22 u = (memE (u, v) [(1, 3)] || memE (v, u) [(1, 3)]).
Proof.
  apply (@formDirected_arcs K22 [(1, 3)]). vm_compute. reflexivity.
Defined.

(** X8. When the first end of some edge of [g], as the edge is stored,
    carries no attribute, [formDirected] raises KeyError, whatever
    [match_] is. *)
Theorem formDirected_missing_attribute (g : Graph) (match_ : Matching) :
  (exists ee, In ee (edges g) /\ has_node g (fst ee) = false) ->
  formDirected g match_ = Raise KeyError.
Proof.
  intros H. unfold formDirected. now apply formDirected_loop_KeyError.
Qed.

Lemma formDirected_missing_attribute_example :
  formDirected {| node := [(0, 0); (1, 1)]; edges := [(0, 1); (2, 1)] |}
               [(0, 1)]
  = Raise KeyError.
Proof.
  apply formDirected_missing_attribute.
  exists (2, 1). split; [right; left; reflexivity|reflexivity].
Defined.

(** * findCycle

    A depth-first search of the digraph of a matrix for a cycle that can be
    reached from one of the first [n1] nodes.  The closure [visit] shares
    the set [visited] and the list [path] of the enclosing call: they are
    the state that the calls pass on. *)

Record Search : Type := mkSearch {
  visited : list nat;
  path : list nat
}.

(** [sparse.find(adj[v,:]==1)[1]]: the columns of the entries 1 of row [v]. *)
Definition row_ones (adj : lil_matrix) (v : nat) : result (list nat) :=
  if in_shape adj v
  then Ok (filter (fun c => (entry adj v c =? 1)%Z) (indices adj))
  else Raise IndexError.

(** [path.remove(v)]: the first occurrence goes. *)
Fixpoint list_remove (v : nat) (l : list nat) : result (list nat) :=
  match l with
  | [] => Raise ValueError
  | x :: l' => if x =? v then Ok l' else r <- list_remove v l' ;; Ok (x :: r)
  end.

(** The loop of [visit v] over the neighbours, then [path.remove(v)]. *)
Fixpoint scan (visit : nat -> Search -> result (bool * Search)) (v : nat)
    (neighbours : list nat) (s : Search) : result (bool * Search) :=
  match neighbours with
  | [] => p <- list_remove v (path s) ;; Ok (false, mkSearch (visited s) p)
  | nn :: rest =>
      if memV nn (path s) then Ok (true, s)
      else
        r <- visit nn s ;;
        if fst r then Ok (true, snd r) else scan visit v rest (snd r)
  end.

Fixpoint visit (fuel : nat) (adj : lil_matrix) (v : nat) (s : Search)
    : result (bool * Search) :=
  match fuel with
  | 0 => OutOfFuel
  | S fuel' =>
      if memV v (visited s) then Ok (false, s)
      else
        let s1 := mkSearch (v :: visited s) (path s ++ [v]) in
        neighbours <- row_ones adj v ;;
        scan (visit fuel' adj) v neighbours s1
  end.

(** [any(visit(v) for v in nodes)] *)
Fixpoint any_visit (visit : nat -> Search -> result (bool * Search))
    (nodes : list nat) (s : Search) : result (bool * Search) :=
  match nodes with
  | [] => Ok (false, s)
  | v :: rest =>
      r <- visit v s ;;
      if fst r then Ok (true, snd r) else any_visit visit rest (snd r)
  end.

Definition findCycle (adj : lil_matrix) (n1 : nat) : result (bool * list nat) :=
  r <- any_visit (visit (S (shape adj)) adj) (seq 0 n1) (mkSearch [] []) ;;
  Ok (fst r, path (snd r)).

(** ** The digraph searched *)

(** [w] is a neighbour of [u]: the entry of row [u], column [w] is 1. *)
Definition neighbour (adj : lil_matrix) (u w : nat) : Prop :=
  u < shape adj /\ w < shape adj /\ entry adj u w = 1%Z.

(** Each node of the list is a neighbour of the one before. *)
Fixpoint chain (adj : lil_matrix) (l : list nat) : Prop :=
  match l with
  | x :: ((y :: _) as l') => neighbour adj x y /\ chain adj l'
  | _ => True
  end.

(** A walk of at least one arc leads from [u] back to [u]. *)
Definition on_cycle (adj : lil_matrix) (u : nat) : Prop :=
  exists l, chain adj (u :: l ++ [u]).

(** Visited and no longer on the path. *)
Definition finished (s : Search) (u : nat) : Prop :=
  In u (visited s) /\ ~ In u (path s).

Record search_inv (adj : lil_matrix) (s : Search) : Prop := {
  inv_nodup : NoDup (path s);
  inv_sub : incl (path s) (visited s);
  inv_range : forall x, In x (visited s) -> x < shape adj;
  inv_chain : chain adj (path s);
  inv_closed : forall u w, finished s u -> neighbour adj u w -> finished s w;
  inv_acyclic : forall u, finished s u -> ~ on_cycle adj u
}.

Lemma row_ones_spec adj v :
  v < shape adj ->
  exists ns, row_ones adj v = Ok ns /\ forall w, In w ns <-> neighbour adj v w.
Proof.
  intros Hv. unfold row_ones, in_shape.
  rewrite (proj2 (Nat.ltb_lt _ _) Hv). eexists. split; [reflexivity|].
  intros w. rewrite filter_In, indices_In, Z.eqb_eq. unfold neighbour. tauto.
Qed.

Lemma list_remove_last v l :
  ~ In v l -> list_remove v (l ++ [v]) = Ok l.
Proof.
  induction l as [|x l IH]; intros H; cbn [app list_remove].
  - now rewrite Nat.eqb_refl.
  - destruct (Nat.eqb_spec x v) as [->|E].
    + exfalso. apply H. now left.
    + rewrite IH by (intros Hin; apply H; now right). reflexivity.
Qed.

Lemma chain_snoc adj l v :
  chain adj l -> (l = [] \/ neighbour adj (last l 0) v) -> chain adj (l ++ [v]).
Proof.
  induction l as [|x l IH]; intros Hc Hl; [exact I|].
  destruct l as [|y l].
  - cbn. split; [|exact I]. destruct Hl as [Hl|Hl]; [discriminate|exact Hl].
  - destruct Hc as [H1 H2]. change (neighbour adj x y /\ chain adj ((y :: l) ++ [v])).
    split; [exact H1|]. apply IH; [exact H2|]. right.
    destruct Hl as [Hl|Hl]; [discriminate|exact Hl].
Qed.

Lemma chain_tail adj x l : chain adj (x :: l) -> chain adj l.
Proof. destruct l as [|y l]; [intros; exact I|now intros [_ H]]. Qed.

(** A walk that starts in a set closed under the arcs stays in it. *)
Lemma chain_closed adj (F : nat -> Prop) :
  (forall u w, F u -> neighbour adj u w -> F w) ->
  forall l u, F u -> chain adj (u :: l) -> forall x, In x l -> F x.
Proof.
  intros Hcl. induction l as [|y l IH]; intros u Hu Hc x Hx; [destruct Hx|].
  destruct Hc as [H1 H2]. assert (Hy : F y) by (eapply Hcl; eauto).
  destruct Hx as [<-|Hx]; [exact Hy|]. now apply (IH y).
Qed.

Lemma path_length_le adj s : search_inv adj s -> length (path s) <= shape adj.
Proof.
  intros H. apply Nat.le_trans with (length (seq 0 (shape adj)));
    [|now rewrite length_seq].
  apply NoDup_incl_length; [apply (inv_nodup H)|].
  intros x Hx. apply in_seq. apply (inv_sub H) in Hx.
  apply (inv_range H) in Hx. lia.
Qed.

Lemma chain_app_l adj l l' : chain adj (l ++ l') -> chain adj l.
Proof.
  induction l as [|x l IH]; intros H; [exact I|].
  destruct l as [|y l]; [exact I|].
  destruct H as [H1 H2]. split; [exact H1|]. now apply IH.
Qed.

(** [visit v] has returned [True]: the path, which went on with [v], is a
    walk whose last node has a neighbour on it. *)
Definition found (adj : lil_matrix) (before : list nat) (v : nat)
    (s' : Search) : Prop :=
  NoDup (path s') /\ chain adj (path s') /\
  (exists q, path s' = before ++ v :: q) /\
  exists x, In x (path s') /\ neighbour adj (last (path s') 0) x.

(** [visit v] has returned [False]: the path is as before and [v] is
    visited. *)
Definition passed (adj : lil_matrix) (before : list nat) (s : Search) (v : nat)
    (s' : Search) : Prop :=
  path s' = before /\ incl (visited s) (visited s') /\
  search_inv adj s' /\ In v (visited s').

Definition visit_post (adj : lil_matrix) (s : Search) (v : nat)
    (r : bool * Search) : Prop :=
  if fst r then found adj (path s) v (snd r)
  else passed adj (path s) s v (snd r).

Section Scan.

Variables (adj : lil_matrix) (vis : nat -> Search -> result (bool * Search)).
Variables (P : list nat) (v : nat).

Hypothesis Hvis : forall w s,
  search_inv adj s -> path s = P ++ [v] -> ~ In w (path s) ->
  neighbour adj v w ->
  exists r, vis w s = Ok r /\ visit_post adj s w r.

Lemma leave_inv s :
  search_inv adj s -> path s = P ++ [v] ->
  (forall w, neighbour adj v w -> finished s w) ->
  search_inv adj (mkSearch (visited s) P).
Proof.
  intros Hi Hp Hdone.
  pose proof (inv_nodup Hi) as Hn. rewrite Hp in Hn.
  assert (HvP : ~ In v P).
  { apply NoDup_remove_2 in Hn. now rewrite app_nil_r in Hn. }
  assert (Hv : In v (path s)) by (rewrite Hp, in_app_iff; right; now left).
  assert (Hfin : forall u, finished (mkSearch (visited s) P) u ->
                   finished s u \/ u = v).
  { intros u [H1 H2]. cbn [visited path] in *.
    destruct (Nat.eq_dec u v) as [->|E]; [now right|]. left.
    split; [exact H1|]. rewrite Hp, in_app_iff. intros [H|[H|[]]]; auto. }
  assert (Hup : forall u, finished s u -> finished (mkSearch (visited s) P) u).
  { intros u [H1 H2]. split; [exact H1|]. cbn [path]. intros H. apply H2.
    rewrite Hp, in_app_iff. now left. }
  constructor; cbn [visited path].
  - apply NoDup_remove_1 in Hn. now rewrite app_nil_r in Hn.
  - intros x Hx. apply (inv_sub Hi). rewrite Hp, in_app_iff. now left.
  - apply (inv_range Hi).
  - pose proof (inv_chain Hi) as Hc. rewrite Hp in Hc.
    now apply chain_app_l in Hc.
  - intros u w Hu Hw. apply Hup. destruct (Hfin u Hu) as [H| ->].
    + exact (inv_closed Hi H Hw).
    + now apply Hdone.
  - intros u Hu. destruct (Hfin u Hu) as [H| ->]; [now apply (inv_acyclic Hi)|].
    intros [l Hl].
    destruct (l ++ [v]) as [|w l'] eqn:E; [now destruct l|].
    assert (Hin : In v (w :: l')) by (rewrite <- E, in_app_iff; right; now left).
    pose proof Hl as [H1 _]. apply Hdone in H1.
    assert (Hf : finished s v).
    { destruct Hin as [<-|Hin]; [exact H1|].
      apply (@chain_closed adj (finished s) (@inv_closed adj s Hi) l' w H1
               (chain_tail _ _ _ Hl) v Hin). }
    now destruct Hf.
Qed.

Lemma scan_spec nns : forall s,
  search_inv adj s -> path s = P ++ [v] ->
  (forall w, In w nns -> neighbour adj v w) ->
  (forall w, neighbour adj v w -> In w nns \/ finished s w) ->
  exists r, scan vis v nns s = Ok r /\
    if fst r then found adj P v (snd r) else passed adj P s v (snd r).
Proof.
  induction nns as [|nn rest IH]; intros s Hi Hp Hnb Hdone.
  - cbn [scan]. rewrite Hp, list_remove_last.
    + cbn [bind]. eexists. split; [reflexivity|]. cbn [fst snd].
      split; [reflexivity|]. split; [apply incl_refl|]. split.
      * apply leave_inv; [assumption|assumption|].
        intros w Hw. destruct (Hdone w Hw) as [[]|H]. exact H.
      * cbn [visited]. apply (inv_sub Hi). rewrite Hp, in_app_iff.
        right. now left.
    + pose proof (inv_nodup Hi) as Hn. rewrite Hp in Hn.
      apply NoDup_remove_2 in Hn. now rewrite app_nil_r in Hn.
  - cbn [scan]. assert (Hnn : neighbour adj v nn) by (apply Hnb; now left).
    destruct (memV nn (path s)) eqn:Em.
    + apply memV_In in Em. eexists. split; [reflexivity|]. cbn [fst snd].
      split; [apply (inv_nodup Hi)|]. split; [apply (inv_chain Hi)|].
      split; [exists []; exact Hp|]. exists nn. split; [exact Em|].
      now rewrite Hp, last_last.
    + apply memV_false in Em.
      destruct (Hvis Hi Hp Em Hnn) as ([b s'] & R & Hpost).
      rewrite R. cbn [bind fst snd]. unfold visit_post in Hpost.
      cbn [fst snd] in Hpost. destruct b.
      * eexists. split; [reflexivity|]. cbn [fst snd].
        destruct Hpost as (H1 & H2 & (q & H3) & H4).
        split; [exact H1|]. split; [exact H2|]. split; [|exact H4].
        exists (nn :: q). now rewrite H3, Hp, <- app_assoc.
      * destruct Hpost as (H1 & H2 & H3 & H4).
        destruct (IH s' H3) as (r & Rr & Hr).
        { now rewrite H1. }
        { intros w Hw. apply Hnb. now right. }
        { intros w Hw. destruct (Hdone w Hw) as [[<-|H]|[F1 F2]].
          - right. split; [exact H4|]. now rewrite H1.
          - now left.
          - right. split; [now apply H2|]. now rewrite H1. }
        exists r. split; [exact Rr|]. destruct (fst r); [exact Hr|].
        destruct Hr as (K1 & K2 & K3 & K4). split; [exact K1|].
        split; [|now split]. intros x Hx. now apply K2, H2.
Qed.

End Scan.

Lemma enter_inv adj s v :
  search_inv adj s -> v < shape adj -> ~ In v (visited s) ->
  (path s = [] \/ neighbour adj (last (path s) 0) v) ->
  search_inv adj (mkSearch (v :: visited s) (path s ++ [v])).
Proof.
  intros Hi Hv Hnew Hl.
  assert (HvP : ~ In v (path s)).
  { intros H. apply Hnew. now apply (inv_sub Hi). }
  assert (Hfin : forall u, finished (mkSearch (v :: visited s) (path s ++ [v])) u
                           <-> finished s u).
  { intros u. unfold finished. cbn [visited path In]. rewrite in_app_iff.
    cbn [In]. split.
    - intros [[<-|H1] H2]; [exfalso; apply H2; auto|]. split; auto.
    - intros [H1 H2]. split; [now right|].
      intros [H|[<-|[]]]; [now apply H2|now apply Hnew]. }
  constructor; cbn [visited path].
  - apply NoDup_app; [apply (inv_nodup Hi)|repeat constructor; intros []|].
    intros x Hx [<-|[]]. now apply HvP.
  - intros x Hx. apply in_app_iff in Hx. destruct Hx as [Hx|[<-|[]]].
    + right. now apply (inv_sub Hi).
    + now left.
  - intros x [<-|Hx]; [exact Hv|now apply (inv_range Hi)].
  - apply chain_snoc; [apply (inv_chain Hi)|exact Hl].
  - intros u w Hu Hw. apply Hfin. apply Hfin in Hu.
    exact (inv_closed Hi Hu Hw).
  - intros u Hu. apply Hfin in Hu. now apply (inv_acyclic Hi).
Qed.

(** A call of [visit] returns, with fuel for the nodes that are not yet on
    the path. *)
Lemma visit_spec adj fuel : forall v s,
  search_inv adj s -> v < shape adj -> ~ In v (path s) ->
  (path s = [] \/ neighbour adj (last (path s) 0) v) ->
  shape adj < fuel + length (path s) ->
  exists r, visit fuel adj v s = Ok r /\ visit_post adj s v r.
Proof.
  induction fuel as [|fuel IH]; intros v s Hi Hv HvP Hl Hf.
  - pose proof (path_length_le Hi). lia.
  - cbn [visit]. destruct (memV v (visited s)) eqn:Em.
    + apply memV_In in Em. eexists. split; [reflexivity|].
      unfold visit_post, passed. cbn [fst snd].
      split; [reflexivity|]. split; [apply incl_refl|]. now split.
    + apply memV_false in Em.
      destruct (row_ones_spec adj Hv) as (ns & -> & Hns). cbn [bind].
      pose proof (enter_inv Hi Hv Em Hl) as Hi1.
      destruct (@scan_spec adj (visit fuel adj) (path s) v) with
        (nns := ns) (s := mkSearch (v :: visited s) (path s ++ [v]))
        as (r & R & Hr).
      * intros w s2 Hi2 Hp2 Hw Hn. apply IH.
        -- exact Hi2.
        -- apply Hn.
        -- exact Hw.
        -- right. now rewrite Hp2, last_last.
        -- rewrite Hp2, length_app. cbn [length]. lia.
      * exact Hi1.
      * reflexivity.
      * intros w Hw. now apply Hns.
      * intros w Hw. left. now apply Hns.
      * exists r. split; [exact R|]. unfold visit_post.
        destruct (fst r); [exact Hr|].
        destruct Hr as (K1 & K2 & K3 & K4). split; [exact K1|].
        split; [|now split]. intros x Hx. apply K2. now right.
Qed.

Lemma any_visit_spec adj fuel nodes : forall s,
  search_inv adj s -> path s = [] -> shape adj < fuel ->
  (forall v, In v nodes -> v < shape adj) ->
  exists r, any_visit (visit fuel adj) nodes s = Ok r /\
    if fst r then exists v, In v nodes /\ found adj [] v (snd r)
    else path (snd r) = [] /\ incl (visited s) (visited (snd r)) /\
         search_inv adj (snd r) /\
         forall v, In v nodes -> In v (visited (snd r)).
Proof.
  induction nodes as [|v rest IH]; intros s Hi Hp Hf Hr.
  - eexists. split; [reflexivity|]. cbn [fst snd]. split; [exact Hp|].
    split; [apply incl_refl|]. split; [exact Hi|]. intros v [].
  - cbn [any_visit].
    destruct (@visit_spec adj fuel v s Hi) as ([b s'] & R & Hpost).
    + apply Hr. now left.
    + rewrite Hp. intros [].
    + now left.
    + lia.
    + rewrite R. cbn [bind fst snd]. unfold visit_post in Hpost.
      cbn [fst snd] in Hpost. rewrite Hp in Hpost. destruct b.
      * eexists. split; [reflexivity|]. cbn [fst snd]. exists v.
        split; [now left|exact Hpost].
      * destruct Hpost as (H1 & H2 & H3 & H4).
        destruct (IH s' H3 H1 Hf) as (r & Rr & Hrr).
        { intros x Hx. apply Hr. now right. }
        exists r. split; [exact Rr|]. destruct (fst r).
        -- destruct Hrr as (x & Hx & Hfound). exists x. split; [now right|].
           exact Hfound.
        -- destruct Hrr as (K1 & K2 & K3 & K4). split; [exact K1|].
           split; [intros x Hx; now apply K2, H2|]. split; [exact K3|].
           intros x [<-|Hx]; [now apply K2|now apply K4].
Qed.

Lemma initial_search_inv adj : search_inv adj (mkSearch [] []).
Proof.
  constructor; cbn [visited path].
  - constructor.
  - intros x [].
  - intros x [].
  - exact I.
  - intros u w [[] _].
  - intros u [[] _].
Qed.

Lemma any_visit_app vis l1 l2 s :
  any_visit vis (l1 ++ l2) s
  = (r <- any_visit vis l1 s ;;
     if fst r then Ok r else any_visit vis l2 (snd r)).
Proof.
  revert s. induction l1 as [|v l1 IH]; intros s; [reflexivity|].
  cbn [app any_visit]. destruct (vis v s) as [[b s']| |]; cbn [bind fst snd];
    [|reflexivity|reflexivity].
  destruct b; [reflexivity|apply IH].
Qed.

(** A 3-cycle, an arc into it and a node apart: rows 0..4. *)
Definition sample_digraph : lil_matrix :=
  mkMatrix 5 (fun i j => if memE (i, j) [(0, 1); (1, 2); (2, 3); (3, 1)]
                         then 1%Z else 0%Z).

(** X9. With [n1] within the shape of [adj], [findCycle] returns.  When it
    returns True, the path it returns starts at one of the first [n1]
    nodes, repeats no node, follows the entries 1 of [adj] from each node
    to the next, and its last node has an entry 1 towards a node of the
    path: it ends in a cycle.  When it returns False, the path is empty and
    no walk from one of the first [n1] nodes meets a node that lies on a
    cycle. *)
Theorem findCycle_decides (adj : lil_matrix) (n1 : nat) :
  n1 <= shape adj ->
  exists b p,
    findCycle adj n1 = Ok (b, p) /\
    if b then
      hd (shape adj) p < n1 /\ NoDup p /\ chain adj p /\
      exists x, In x p /\ neighbour adj (last p 0) x
    else
      p = [] /\
      forall s0 l u, s0 < n1 -> chain adj (s0 :: l) -> In u (s0 :: l) ->
                     ~ on_cycle adj u.
Proof.
  intros Hn. unfold findCycle.
  destruct (@any_visit_spec adj (S (shape adj)) (seq 0 n1) (mkSearch [] []))
    as ([b s'] & R & Hr).
  - apply initial_search_inv.
  - reflexivity.
  - lia.
  - intros v Hv. apply in_seq in Hv. lia.
  - rewrite R. cbn [bind fst snd]. exists b, (path s').
    split; [reflexivity|]. cbn [fst snd] in Hr. destruct b.
    + destruct Hr as (v & Hv & H1 & H2 & (q & H3) & H4).
      apply in_seq in Hv. cbn [app] in H3. split; [rewrite H3; cbn; lia|].
      now split.
    + destruct Hr as (H1 & _ & H3 & H4). split; [exact H1|].
      intros s0 l u Hs Hc Hu.
      assert (Hfin : forall x, In x (visited s') -> finished s' x).
      { intros x Hx. split; [exact Hx|]. rewrite H1. intros []. }
      assert (H0 : finished s' s0) by (apply Hfin, H4, in_seq; lia).
      apply (inv_acyclic H3). destruct Hu as [<-|Hu]; [exact H0|].
      exact (@chain_closed adj (finished s') (@inv_closed adj s' H3) l s0 H0
               Hc u Hu).
Qed.

Lemma findCycle_decides_sample :
  findCycle sample_digraph 1 = Ok (true, [0; 1; 2; 3]) /\
  exists b p,
    findCycle sample_digraph 1 = Ok (b, p) /\
    if b then
      hd (shape sample_digraph) p < 1 /\ NoDup p /\ chain sample_digraph p /\
      exists x, In x p /\ neighbour sample_digraph (last p 0) x
    else
      p = [] /\
      forall s0 l u, s0 < 1 -> chain sample_digraph (s0 :: l) ->
                     In u (s0 :: l) -> ~ on_cycle sample_digraph u.
Proof.
  split; [vm_compute; reflexivity|].
  apply (@findCycle_decides sample_digraph 1). cbn. lia.
Defined.

(** X10. With [n1] beyond the shape of [adj], [findCycle] returns what the
    search from all the rows returns when that is True, with the same
    path; otherwise it raises IndexError, at the first node that is not a
    row. *)
Theorem findCycle_beyond_shape (adj : lil_matrix) (n1 : nat) :
  shape adj < n1 ->
  match findCycle adj (shape adj) with
  | Ok (true, p) => findCycle adj n1 = Ok (true, p)
  | _ => findCycle adj n1 = Raise IndexError
  end.
Proof.
  intros Hn. unfold findCycle.
  replace n1 with (shape adj + (n1 - shape adj)) by lia.
  rewrite seq_app, any_visit_app. cbn [Nat.add].
  destruct (@any_visit_spec adj (S (shape adj)) (seq 0 (shape adj))
              (mkSearch [] [])) as ([b s'] & R & Hr).
  - apply initial_search_inv.
  - reflexivity.
  - lia.
  - intros v Hv. apply in_seq in Hv. lia.
  - rewrite R. cbn [bind fst snd]. cbn [fst snd] in Hr. destruct b.
    + reflexivity.
    + destruct Hr as (_ & _ & H3 & _).
      destruct (n1 - shape adj) as [|k] eqn:E; [lia|].
      cbn [seq any_visit visit].
      assert (Hm : memV (shape adj) (visited s') = false).
      { apply memV_false. intros H. apply (inv_range H3) in H. lia. }
      rewrite Hm. unfold row_ones, in_shape. rewrite Nat.ltb_irrefl.
      reflexivity.
Qed.

Lemma findCycle_beyond_shape_sample :
  findCycle sample_digraph 5 = Ok (true, [0; 1; 2; 3]) /\
  findCycle sample_digraph 7 = Ok (true, [0; 1; 2; 3]) /\
  findCycle (mkMatrix 2 (fun _ _ => 0%Z)) 3 = Raise IndexError.
Proof.
  split; [vm_compute; reflexivity|]. split.
  - apply (@findCycle_beyond_shape sample_digraph 7). cbn. lia.
  - apply (@findCycle_beyond_shape (mkMatrix 2 (fun _ _ => 0%Z)) 3). cbn. lia.
Defined.

(** * The list that the recursion on matrices passes on *)

Lemma rec2_prefix X fuel : forall adj matchadj all n1 add_e cc res,
  enumMaximumMatchingIter2_rec X fuel adj matchadj all n1 add_e cc = Ok res ->
  exists new, res = all ++ new.
Proof.
  induction fuel as [|fuel IH]; intros adj matchadj all n1 add_e cc res H;
    [discriminate|].
  cbn [enumMaximumMatchingIter2_rec] in H.
  destruct (iter2_body X adj matchadj n1 add_e cc) as [[cc' [br|]]| |];
    cbn [bind fst snd] in H; try discriminate.
  - destruct (enumMaximumMatchingIter2_rec X fuel (call2_adj (br2_first br))
                (call2_match (br2_first br)) (all ++ [br2_new_match br]) n1
                (call2_add_e (br2_first br)) cc') as [all2| |] eqn:R1;
      cbn [bind] in H; try discriminate.
    apply IH in R1. destruct R1 as [new1 ->].
    apply IH in H. destruct H as [new2 ->].
    exists ([br2_new_match br] ++ new1 ++ new2). now rewrite <- !app_assoc.
  - inv H. exists []. now rewrite app_nil_r.
Qed.

(** The matrices of K(2,2), nodes in the order 0, 1, 2, 3, and of its
    matching (0,2), (1,3). *)
Definition K22_adj : lil_matrix := adjacency K22 [0; 1; 2; 3].

Definition K22_matchadj : lil_matrix :=
  mkMatrix 4 (fun i j => if memE (i, j) [(0, 2); (2, 0); (1, 3); (3, 1)]
                         then 1%Z else 0%Z).

(** X11. On matrices of zeros and ones, whatever a call of
    [enumMaximumMatchingIter2] returns starts with the list [all_matches]
    it was given, unchanged and in order: the call and its descendants only
    append. *)
Theorem enumMaximumMatchingIter2_extends (X : Collaborators)
    (adj matchadj : lil_matrix) (all_matches : list lil_matrix) (n1 : nat)
    (add_e : option (list Edge)) (check_cycle : bool) :
  (forall i j, bit (entry adj i j)) ->
  (forall i j, bit (entry matchadj i j)) ->
  match enumMaximumMatchingIter2 X adj matchadj all_matches n1 add_e
          check_cycle with
  | Ok res => exists new, res = all_matches ++ new
  | _ => True
  end.
Proof.
  intros _ _.
  destruct (enumMaximumMatchingIter2 X adj matchadj all_matches n1 add_e
              check_cycle) as [res| |] eqn:R; [|exact I|exact I].
  exact (rec2_prefix _ _ _ _ _ _ _ _ R).
Qed.

Lemma enumMaximumMatchingIter2_extends_K22 :
  (exists res,
     enumMaximumMatchingIter2 Reference.collaborators K22_adj K22_matchadj
       [K22_matchadj] 2 None true = Ok res /\ length res = 2) /\
  match enumMaximumMatchingIter2 Reference.collaborators K22_adj K22_matchadj
          [K22_matchadj] 2 None true with
  | Ok res => exists new, res = [K22_matchadj] ++ new
  | _ => True
  end.
Proof.
  split.
  - eexists. split; [vm_compute; reflexivity|reflexivity].
  - apply enumMaximumMatchingIter2_extends; intros i j; unfold bit;
      cbn [entry K22_adj K22_matchadj adjacency];
      match goal with
      | |- context [if ?c then _ else _] => destruct c
      end; auto.
Defined.
